(** * Mesh connectivity, DOF numbering and block-sparse patterns of A2D

    A shallow embedding of [include/multiphysics/femesh.h] and
    [include/sparse/sparse_matrix.h]: the classes [MeshConnectivity3D],
    [ElementMesh], [BoundaryCondition] and [BSRMat] are modelled as records
    with explicit state passing, [index_t] values as integers with their
    wrap-around, heap arrays as lists indexed by integers. *)

From Stdlib Require Import ZArith List Lia Bool Permutation Sorted.
Import ListNotations.
Local Open Scope Z_scope.

Set Implicit Arguments.

(** ** The unsigned index type [index_t] *)

Module Index.

(** [index_t] is an unsigned 32-bit integer (the alias is declared in
    [a2dobjs.h]); every arithmetic operation on it wraps. *)
Definition bits : Z := 32.
Definition modulus : Z := 2 ^ bits.

(** [std::numeric_limits<index_t>::max()] *)
Definition max : Z := modulus - 1.

Definition wrap (x : Z) : Z := x mod modulus.
Definition add (a b : Z) : Z := wrap (a + b).
Definition sub (a b : Z) : Z := wrap (a - b).
Definition mul (a b : Z) : Z := wrap (a * b).

Definition ok (x : Z) : Prop := 0 <= x < modulus.

Lemma modulus_eq : modulus = 4294967296.
Proof. reflexivity. Qed.

Lemma wrap_small x : ok x -> wrap x = x.
Proof. unfold ok, wrap. intros H. apply Z.mod_small. exact H. Qed.

Lemma wrap_ok x : ok (wrap x).
Proof. unfold ok, wrap. apply Z.mod_pos_bound. reflexivity. Qed.

Lemma add_small a b : ok (a + b) -> add a b = a + b.
Proof. apply wrap_small. Qed.

Lemma sub_small a b : ok (a - b) -> sub a b = a - b.
Proof. apply wrap_small. Qed.

Lemma mul_small a b : ok (a * b) -> mul a b = a * b.
Proof. apply wrap_small. Qed.

End Index.

Infix "+w" := Index.add (at level 50, left associativity).
Infix "-w" := Index.sub (at level 50, left associativity).
Infix "*w" := Index.mul (at level 40, left associativity).

(** ** Heap arrays *)

Module Arr.

(** [a[i]]; a read outside the allocation is undefined in the source and
    yields [0] here. *)
Definition get (a : list Z) (i : Z) : Z := nth (Z.to_nat i) a 0.

Fixpoint set_nat (a : list Z) (n : nat) (v : Z) : list Z :=
  match a, n with
  | [], _ => []
  | _ :: t, O => v :: t
  | h :: t, S m => h :: set_nat t m v
  end.

(** [a[i] = v]; a write outside the allocation is undefined in the source
    and leaves the array unchanged here. *)
Definition set (a : list Z) (i : Z) (v : Z) : list Z :=
  set_nat a (Z.to_nat i) v.

(** [new index_t[n]] followed by [std::fill(a, a + n, v)] *)
Definition fill (n : Z) (v : Z) : list Z := repeat v (Z.to_nat n).

Definition len (a : list Z) : Z := Z.of_nat (length a).

Lemma length_set_nat a n v : length (set_nat a n v) = length a.
Proof.
  revert n. induction a as [|h t IH]; intros [|m]; simpl; auto.
Qed.

Lemma len_set a i v : len (set a i v) = len a.
Proof. unfold len, set. now rewrite length_set_nat. Qed.

Lemma len_fill n v : 0 <= n -> len (fill n v) = n.
Proof. intros H. unfold len, fill. rewrite repeat_length. lia. Qed.

Lemma nth_set_nat_eq a n v d :
  (n < length a)%nat -> nth n (set_nat a n v) d = v.
Proof.
  revert n. induction a as [|h t IH]; intros [|m] H; simpl in *;
    try lia; auto. apply IH. lia.
Qed.

Lemma nth_set_nat_ne a n m v d :
  n <> m -> nth m (set_nat a n v) d = nth m a d.
Proof.
  revert n m. induction a as [|h t IH]; intros [|n] [|m] H; simpl;
    auto; try congruence.
Qed.

Lemma get_set_eq a i v : 0 <= i < len a -> get (set a i v) i = v.
Proof.
  unfold get, set, len. intros H. apply nth_set_nat_eq. lia.
Qed.

Lemma get_set_ne a i j v :
  0 <= i -> 0 <= j -> i <> j -> get (set a i v) j = get a j.
Proof.
  unfold get, set. intros Hi Hj H. apply nth_set_nat_ne. lia.
Qed.

Lemma get_fill n v i : 0 <= i < n -> get (fill n v) i = v.
Proof.
  unfold get, fill. intros H. apply nth_repeat_lt. lia.
Qed.

End Arr.

(** ** Counted loops

    [for (index_t i = lo; i < lo + n; i++) s = body(i, s)].  A loop that
    leaves through [break] carries its flag in the state, and its body does
    nothing once the flag is set. *)

Fixpoint for_loop {S : Type} (n : nat) (i : Z) (body : Z -> S -> S) (s : S) : S :=
  match n with
  | O => s
  | Datatypes.S m => for_loop m (i + 1) body (body i s)
  end.

Definition for_range {S : Type} (lo hi : Z) (body : Z -> S -> S) (s : S) : S :=
  for_loop (Z.to_nat (hi - lo)) lo body s.

Lemma for_loop_inv {S : Type} (P : Z -> S -> Prop) (body : Z -> S -> S) :
  forall n i s,
    P i s ->
    (forall j t, i <= j < i + Z.of_nat n -> P j t -> P (j + 1) (body j t)) ->
    P (i + Z.of_nat n) (for_loop n i body s).
Proof.
  induction n as [|n IH]; intros i s H0 Hstep; simpl for_loop.
  - replace (i + Z.of_nat 0) with i by lia. exact H0.
  - replace (i + Z.of_nat (Datatypes.S n)) with ((i + 1) + Z.of_nat n) by lia.
    apply IH.
    + apply Hstep; [lia | exact H0].
    + intros j t Hj Ht. apply Hstep; [lia | exact Ht].
Qed.

Lemma for_range_inv {S : Type} (P : Z -> S -> Prop) (body : Z -> S -> S) :
  forall lo hi s,
    lo <= hi ->
    P lo s ->
    (forall j t, lo <= j < hi -> P j t -> P (j + 1) (body j t)) ->
    P hi (for_range lo hi body s).
Proof.
  intros lo hi s Hle H0 Hstep. unfold for_range.
  replace hi with (lo + Z.of_nat (Z.to_nat (hi - lo))) at 1 by lia.
  apply for_loop_inv; [exact H0|].
  intros j t Hj. apply Hstep. lia.
Qed.

Lemma for_range_empty {S : Type} (body : Z -> S -> S) lo hi s :
  hi <= lo -> for_range lo hi body s = s.
Proof.
  intros H. unfold for_range. replace (Z.to_nat (hi - lo)) with O by lia.
  reflexivity.
Qed.


(** ** The element-type catalog [ElementTypes]

    [multiphysics/feelementtypes.h] is not among the sources: its counts and
    local tables are taken as a parameter of the whole development. *)

Inductive ElementEntity := VOLUME | FACE | EDGE | VERTEX.

Record ElementTypes := {
  TET_VERTS : Z;  TET_EDGES : Z;  TET_FACES : Z;
  HEX_VERTS : Z;  HEX_EDGES : Z;  HEX_FACES : Z;
  WEDGE_VERTS : Z;  WEDGE_EDGES : Z;  WEDGE_FACES : Z;  WEDGE_TRI_FACES : Z;
  PYRMD_VERTS : Z;  PYRMD_EDGES : Z;  PYRMD_FACES : Z;  PYRMD_TRI_FACES : Z;
  TET_EDGE_VERTS : list (list Z);
  HEX_EDGE_VERTS : list (list Z);
  WEDGE_EDGE_VERTS : list (list Z);
  PYRMD_EDGE_VERTS : list (list Z);
  TET_FACE_VERTS : list (list Z);
  HEX_FACE_VERTS : list (list Z);
  WEDGE_TRI_FACE_VERTS : list (list Z);
  WEDGE_QUAD_FACE_VERTS : list (list Z);
  PYRMD_TRI_FACE_VERTS : list (list Z);
  PYRMD_QUAD_FACE_VERTS : list Z;
  get_quad_face_orientation : list Z -> list Z -> Z
}.

(** [T[f][k]] for a two-dimensional constant table *)
Definition tbl (T : list (list Z)) (f k : Z) : Z :=
  Arr.get (nth (Z.to_nat f) T []) k.

(** ** The state of a [MeshConnectivity3D] object *)

(** The heap arrays the object owns.  A [NULL] array is the empty list. *)
Inductive array_id :=
| tet_verts_ | hex_verts_ | wedge_verts_ | pyrmd_verts_
| vert_element_ptr_ | vert_elements_
| tet_faces_ | hex_faces_ | wedge_faces_ | pyrmd_faces_
| tri_face_elements_ | quad_face_elements_
| tet_edges_ | hex_edges_ | wedge_edges_ | pyrmd_edges_.

Definition array_id_eqb (a b : array_id) : bool :=
  match a, b with
  | tet_verts_, tet_verts_ | hex_verts_, hex_verts_
  | wedge_verts_, wedge_verts_ | pyrmd_verts_, pyrmd_verts_
  | vert_element_ptr_, vert_element_ptr_ | vert_elements_, vert_elements_
  | tet_faces_, tet_faces_ | hex_faces_, hex_faces_
  | wedge_faces_, wedge_faces_ | pyrmd_faces_, pyrmd_faces_
  | tri_face_elements_, tri_face_elements_
  | quad_face_elements_, quad_face_elements_
  | tet_edges_, tet_edges_ | hex_edges_, hex_edges_
  | wedge_edges_, wedge_edges_ | pyrmd_edges_, pyrmd_edges_ => true
  | _, _ => false
  end.

Lemma array_id_eqb_spec a b : reflect (a = b) (array_id_eqb a b).
Proof. destruct a, b; simpl; constructor; congruence. Qed.

Record Conn := {
  nverts : Z;
  ntets : Z;  nhex : Z;  nwedge : Z;  npyrmd : Z;
  nelems : Z;
  ntri_faces : Z;  nquad_faces : Z;
  nfaces : Z;
  nedges : Z;
  mem : array_id -> list Z
}.

Definition tet_verts c := mem c tet_verts_.
Definition hex_verts c := mem c hex_verts_.
Definition wedge_verts c := mem c wedge_verts_.
Definition pyrmd_verts c := mem c pyrmd_verts_.
Definition vert_element_ptr c := mem c vert_element_ptr_.
Definition vert_elements c := mem c vert_elements_.
Definition tet_faces c := mem c tet_faces_.
Definition hex_faces c := mem c hex_faces_.
Definition wedge_faces c := mem c wedge_faces_.
Definition pyrmd_faces c := mem c pyrmd_faces_.
Definition tri_face_elements c := mem c tri_face_elements_.
Definition quad_face_elements c := mem c quad_face_elements_.
Definition tet_edges c := mem c tet_edges_.
Definition hex_edges c := mem c hex_edges_.
Definition wedge_edges c := mem c wedge_edges_.
Definition pyrmd_edges c := mem c pyrmd_edges_.

(** [arr = l] for one of the object's arrays *)
Definition set_array (c : Conn) (a : array_id) (l : list Z) : Conn :=
  {| nverts := nverts c; ntets := ntets c; nhex := nhex c;
     nwedge := nwedge c; npyrmd := npyrmd c; nelems := nelems c;
     ntri_faces := ntri_faces c; nquad_faces := nquad_faces c;
     nfaces := nfaces c; nedges := nedges c;
     mem := fun b => if array_id_eqb b a then l else mem c b |}.

Definition set_nelems (c : Conn) (n : Z) : Conn :=
  {| nverts := nverts c; ntets := ntets c; nhex := nhex c;
     nwedge := nwedge c; npyrmd := npyrmd c; nelems := n;
     ntri_faces := ntri_faces c; nquad_faces := nquad_faces c;
     nfaces := nfaces c; nedges := nedges c; mem := mem c |}.

Definition set_ntri_faces (c : Conn) (n : Z) : Conn :=
  {| nverts := nverts c; ntets := ntets c; nhex := nhex c;
     nwedge := nwedge c; npyrmd := npyrmd c; nelems := nelems c;
     ntri_faces := n; nquad_faces := nquad_faces c;
     nfaces := nfaces c; nedges := nedges c; mem := mem c |}.

Definition set_nquad_faces (c : Conn) (n : Z) : Conn :=
  {| nverts := nverts c; ntets := ntets c; nhex := nhex c;
     nwedge := nwedge c; npyrmd := npyrmd c; nelems := nelems c;
     ntri_faces := ntri_faces c; nquad_faces := n;
     nfaces := nfaces c; nedges := nedges c; mem := mem c |}.

Definition set_nfaces (c : Conn) (n : Z) : Conn :=
  {| nverts := nverts c; ntets := ntets c; nhex := nhex c;
     nwedge := nwedge c; npyrmd := npyrmd c; nelems := nelems c;
     ntri_faces := ntri_faces c; nquad_faces := nquad_faces c;
     nfaces := n; nedges := nedges c; mem := mem c |}.

Definition set_nedges (c : Conn) (n : Z) : Conn :=
  {| nverts := nverts c; ntets := ntets c; nhex := nhex c;
     nwedge := nwedge c; npyrmd := npyrmd c; nelems := nelems c;
     ntri_faces := ntri_faces c; nquad_faces := nquad_faces c;
     nfaces := nfaces c; nedges := n; mem := mem c |}.

(** A pointer into one of the object's arrays: [&arr[off]] *)
Record ptr := { p_arr : array_id; p_off : Z }.

(** [p[i]] *)
Definition load (c : Conn) (p : ptr) (i : Z) : Z :=
  Arr.get (mem c (p_arr p)) (p_off p + i).

(** [p[i] = v] *)
Definition store (c : Conn) (p : ptr) (i : Z) (v : Z) : Conn :=
  set_array c (p_arr p) (Arr.set (mem c (p_arr p)) (p_off p + i) v).

(** An output pointer argument ([const index_t* out[]]): [None] is [NULL]. *)
Definition out_ptr := option ptr.

Definition at_ (a : array_id) (off : Z) : out_ptr :=
  Some {| p_arr := a; p_off := off |}.

(** [p[i]] through an output pointer; reading through [NULL] is undefined
    in the source and yields [0] here. *)
Definition load_out (c : Conn) (p : out_ptr) (i : Z) : Z :=
  match p with Some q => load c q i | None => 0 end.

Definition store_out (c : Conn) (p : out_ptr) (i : Z) (v : Z) : Conn :=
  match p with Some q => store c q i v | None => c end.

Section Connectivity.

Variable ET : ElementTypes.

Definition NO_LABEL : Z := Index.max.

(** *** Element accessors

    Each accessor takes the previous value of its output pointer and returns
    the count together with the value the pointer holds afterwards.  The
    private non-const overloads of [get_element_faces] and
    [get_element_edges] have the same bodies. *)

Definition get_element_faces (c : Conn) (elem : Z) (faces : out_ptr) : Z * out_ptr :=
  if elem <? ntets c then
    (TET_FACES ET, at_ tet_faces_ (TET_FACES ET *w elem))
  else if elem <? ntets c +w nhex c then
    let elem := elem -w ntets c in
    (HEX_FACES ET, at_ hex_faces_ (HEX_FACES ET *w elem))
  else if elem <? ntets c +w nhex c +w nwedge c then
    let elem := elem -w ntets c -w nhex c in
    (WEDGE_FACES ET, at_ wedge_faces_ (WEDGE_FACES ET *w elem))
  else if elem <? ntets c +w nhex c +w nwedge c +w npyrmd c then
    let elem := elem -w ntets c -w nhex c -w nwedge c in
    (PYRMD_FACES ET, at_ pyrmd_faces_ (PYRMD_FACES ET *w elem))
  else (0, None).

Definition get_element_verts (c : Conn) (elem : Z) (verts : out_ptr) : Z * out_ptr :=
  if elem <? ntets c then
    (TET_VERTS ET, at_ tet_verts_ (TET_VERTS ET *w elem))
  else if elem <? ntets c +w nhex c then
    let elem := elem -w ntets c in
    (HEX_VERTS ET, at_ hex_verts_ (HEX_VERTS ET *w elem))
  else if elem <? ntets c +w nhex c +w nwedge c then
    let elem := elem -w ntets c -w nhex c in
    (WEDGE_VERTS ET, at_ wedge_verts_ (WEDGE_VERTS ET *w elem))
  else if elem <? ntets c +w nhex c +w nwedge c +w npyrmd c then
    let elem := elem -w ntets c -w nhex c -w nwedge c in
    (PYRMD_VERTS ET, at_ pyrmd_verts_ (PYRMD_VERTS ET *w elem))
  else (0, None).

Definition get_element_edges (c : Conn) (elem : Z) (edges : out_ptr) : Z * out_ptr :=
  if elem <? ntets c then
    (TET_EDGES ET, at_ tet_edges_ (TET_EDGES ET *w elem))
  else if elem <? ntets c +w nhex c then
    let elem := elem -w ntets c in
    (HEX_EDGES ET, at_ hex_edges_ (HEX_EDGES ET *w elem))
  else if elem <? ntets c +w nhex c +w nwedge c then
    let elem := elem -w ntets c -w nhex c in
    (WEDGE_EDGES ET, at_ wedge_edges_ (WEDGE_EDGES ET *w elem))
  else if elem <? ntets c +w nhex c +w nwedge c +w npyrmd c then
    let elem := elem -w ntets c -w nhex c -w nwedge c in
    (PYRMD_EDGES ET, at_ pyrmd_edges_ (PYRMD_EDGES ET *w elem))
  else (0, edges).

(** An uninitialised local array [index_t t[n]]: its initial content is
    arbitrary in the source; every path of a valid element index overwrites
    the entries it reads afterwards. *)
Definition uninit (n : Z) : list Z := Arr.fill n 0.

Definition get_adjacent_elements_from_vert (c : Conn) (vert : Z) (elems : out_ptr)
  : Z * out_ptr :=
  if vert <? nverts c then
    (Arr.get (vert_element_ptr c) (vert +w 1) -w Arr.get (vert_element_ptr c) vert,
     at_ vert_elements_ (Arr.get (vert_element_ptr c) vert))
  else (0, elems).

(** The face vertices in the element's local order, written into [verts]. *)
Definition get_element_face_verts (c : Conn) (elem f : Z) (verts : list Z)
  : Z * list Z :=
  if elem <? ntets c then
    let verts := Arr.set verts 1
      (Arr.get (tet_verts c) (TET_VERTS ET *w elem +w tbl (TET_FACE_VERTS ET) f 1)) in
    let verts := Arr.set verts 2
      (Arr.get (tet_verts c) (TET_VERTS ET *w elem +w tbl (TET_FACE_VERTS ET) f 2)) in
    let verts := Arr.set verts 0
      (Arr.get (tet_verts c) (TET_VERTS ET *w elem +w tbl (TET_FACE_VERTS ET) f 0)) in
    (3, verts)
  else if elem <? ntets c +w nhex c then
    let elem := elem -w ntets c in
    let verts := Arr.set verts 0
      (Arr.get (hex_verts c) (HEX_VERTS ET *w elem +w tbl (HEX_FACE_VERTS ET) f 0)) in
    let verts := Arr.set verts 1
      (Arr.get (hex_verts c) (HEX_VERTS ET *w elem +w tbl (HEX_FACE_VERTS ET) f 1)) in
    let verts := Arr.set verts 2
      (Arr.get (hex_verts c) (HEX_VERTS ET *w elem +w tbl (HEX_FACE_VERTS ET) f 2)) in
    let verts := Arr.set verts 3
      (Arr.get (hex_verts c) (HEX_VERTS ET *w elem +w tbl (HEX_FACE_VERTS ET) f 3)) in
    (4, verts)
  else if elem <? ntets c +w nhex c +w nwedge c then
    let elem := elem -w ntets c -w nhex c in
    if f <? WEDGE_TRI_FACES ET then
      let verts := Arr.set verts 0
        (Arr.get (wedge_verts c)
           (WEDGE_VERTS ET *w elem +w tbl (WEDGE_TRI_FACE_VERTS ET) f 0)) in
      let verts := Arr.set verts 1
        (Arr.get (wedge_verts c)
           (WEDGE_VERTS ET *w elem +w tbl (WEDGE_TRI_FACE_VERTS ET) f 1)) in
      let verts := Arr.set verts 2
        (Arr.get (wedge_verts c)
           (WEDGE_VERTS ET *w elem +w tbl (WEDGE_TRI_FACE_VERTS ET) f 2)) in
      (3, verts)
    else
      let g := f -w WEDGE_TRI_FACES ET in
      let verts := Arr.set verts 0
        (Arr.get (wedge_verts c)
           (WEDGE_VERTS ET *w elem +w tbl (WEDGE_QUAD_FACE_VERTS ET) g 0)) in
      let verts := Arr.set verts 1
        (Arr.get (wedge_verts c)
           (WEDGE_VERTS ET *w elem +w tbl (WEDGE_QUAD_FACE_VERTS ET) g 1)) in
      let verts := Arr.set verts 2
        (Arr.get (wedge_verts c)
           (WEDGE_VERTS ET *w elem +w tbl (WEDGE_QUAD_FACE_VERTS ET) g 2)) in
      let verts := Arr.set verts 3
        (Arr.get (wedge_verts c)
           (WEDGE_VERTS ET *w elem +w tbl (WEDGE_QUAD_FACE_VERTS ET) g 3)) in
      (4, verts)
  else if elem <? ntets c +w nhex c +w nwedge c +w npyrmd c then
    let elem := elem -w ntets c -w nhex c -w nwedge c in
    if f <? PYRMD_TRI_FACES ET then
      let verts := Arr.set verts 0
        (Arr.get (pyrmd_verts c)
           (PYRMD_VERTS ET *w elem +w tbl (PYRMD_TRI_FACE_VERTS ET) f 0)) in
      let verts := Arr.set verts 1
        (Arr.get (pyrmd_verts c)
           (PYRMD_VERTS ET *w elem +w tbl (PYRMD_TRI_FACE_VERTS ET) f 1)) in
      let verts := Arr.set verts 2
        (Arr.get (pyrmd_verts c)
           (PYRMD_VERTS ET *w elem +w tbl (PYRMD_TRI_FACE_VERTS ET) f 2)) in
      (3, verts)
    else
      let verts := Arr.set verts 0
        (Arr.get (pyrmd_verts c)
           (PYRMD_VERTS ET *w elem +w Arr.get (PYRMD_QUAD_FACE_VERTS ET) 0)) in
      let verts := Arr.set verts 1
        (Arr.get (pyrmd_verts c)
           (PYRMD_VERTS ET *w elem +w Arr.get (PYRMD_QUAD_FACE_VERTS ET) 1)) in
      let verts := Arr.set verts 2
        (Arr.get (pyrmd_verts c)
           (PYRMD_VERTS ET *w elem +w Arr.get (PYRMD_QUAD_FACE_VERTS ET) 2)) in
      let verts := Arr.set verts 3
        (Arr.get (pyrmd_verts c)
           (PYRMD_VERTS ET *w elem +w Arr.get (PYRMD_QUAD_FACE_VERTS ET) 3)) in
      (4, verts)
  else (0, verts).

(** [verts[0] = a; verts[1] = b; verts[2] = d] *)
Definition put3 (verts : list Z) (a b d : Z) : list Z :=
  Arr.set (Arr.set (Arr.set verts 0 a) 1 b) 2 d.

(** [verts[0] = a; verts[1] = b; verts[2] = d; verts[3] = e] *)
Definition put4 (verts : list Z) (a b d e : Z) : list Z :=
  Arr.set (Arr.set (Arr.set (Arr.set verts 0 a) 1 b) 2 d) 3 e.

(** The sorting step of [get_element_global_face_verts] on the local
    array [t] of [n] face vertices. *)
Definition sort_face_verts (n : Z) (t verts : list Z) : Z * list Z :=
  let t0 := Arr.get t 0 in
  let t1 := Arr.get t 1 in
  let t2 := Arr.get t 2 in
  let t3 := Arr.get t 3 in
  if n =? 3 then
    if (t0 <? t1) && (t0 <? t2) then
      if t1 <? t2 then (3, put3 verts t0 t1 t2) else (3, put3 verts t0 t2 t1)
    else if (t1 <? t0) && (t1 <? t2) then
      if t2 <? t0 then (3, put3 verts t1 t2 t0) else (3, put3 verts t1 t0 t2)
    else
      if t0 <? t1 then (3, put3 verts t2 t0 t1) else (3, put3 verts t2 t1 t0)
  else
    if (t0 <? t1) && (t0 <? t2) && (t0 <? t3) then
      if t1 <? t3 then (4, put4 verts t0 t1 t2 t3)
      else (4, put4 verts t0 t3 t2 t1)
    else if (t1 <? t0) && (t1 <? t2) && (t1 <? t3) then
      if t2 <? t0 then (4, put4 verts t1 t2 t3 t0)
      else (4, put4 verts t1 t0 t3 t2)
    else if (t2 <? t0) && (t2 <? t1) && (t2 <? t3) then
      if t3 <? t1 then (4, put4 verts t2 t3 t0 t1)
      else (4, put4 verts t2 t1 t0 t3)
    else
      if t0 <? t2 then (4, put4 verts t3 t0 t1 t2)
      else (4, put4 verts t3 t2 t1 t0).

Definition get_element_global_face_verts (c : Conn) (elem local_face : Z)
  (verts : list Z) : Z * list Z :=
  let '(n, t) := get_element_face_verts c elem local_face (uninit 4) in
  sort_face_verts n t verts.

Definition global_face_equality (na : Z) (a : list Z) (nb : Z) (b : list Z) : bool :=
  if na =? nb then
    if na =? 3 then
      (Arr.get a 0 =? Arr.get b 0) && (Arr.get a 1 =? Arr.get b 1)
      && (Arr.get a 2 =? Arr.get b 2)
    else
      (Arr.get a 0 =? Arr.get b 0) && (Arr.get a 1 =? Arr.get b 1)
      && (Arr.get a 2 =? Arr.get b 2) && (Arr.get a 3 =? Arr.get b 3)
  else false.

Definition global_edge_equality (a b : list Z) : bool :=
  ((Arr.get a 0 =? Arr.get b 0) && (Arr.get a 1 =? Arr.get b 1))
  || ((Arr.get a 0 =? Arr.get b 1) && (Arr.get a 1 =? Arr.get b 0)).

(** Returns the boundary flag and the values written to [*e1] and [*e2]. *)
Definition get_face_elements (c : Conn) (face : Z) : bool * Z * Z :=
  if face <? ntri_faces c then
    (Arr.get (tri_face_elements c) (2 *w face +w 1) =? NO_LABEL,
     Arr.get (tri_face_elements c) (2 *w face),
     Arr.get (tri_face_elements c) (2 *w face +w 1))
  else
    let face := face -w ntri_faces c in
    (Arr.get (quad_face_elements c) (2 *w face +w 1) =? NO_LABEL,
     Arr.get (quad_face_elements c) (2 *w face),
     Arr.get (quad_face_elements c) (2 *w face +w 1)).

Definition get_element_edge_verts (c : Conn) (elem edge : Z) (verts : list Z)
  : list Z :=
  if elem <? ntets c then
    let verts := Arr.set verts 0
      (Arr.get (tet_verts c) (TET_VERTS ET *w elem +w tbl (TET_EDGE_VERTS ET) edge 0)) in
    Arr.set verts 1
      (Arr.get (tet_verts c) (TET_VERTS ET *w elem +w tbl (TET_EDGE_VERTS ET) edge 1))
  else if elem <? ntets c +w nhex c then
    let elem := elem -w ntets c in
    let verts := Arr.set verts 0
      (Arr.get (hex_verts c) (HEX_VERTS ET *w elem +w tbl (HEX_EDGE_VERTS ET) edge 0)) in
    Arr.set verts 1
      (Arr.get (hex_verts c) (HEX_VERTS ET *w elem +w tbl (HEX_EDGE_VERTS ET) edge 1))
  else if elem <? ntets c +w nhex c +w nwedge c then
    let elem := elem -w ntets c -w nhex c in
    let verts := Arr.set verts 0
      (Arr.get (wedge_verts c)
         (WEDGE_VERTS ET *w elem +w tbl (WEDGE_EDGE_VERTS ET) edge 0)) in
    Arr.set verts 1
      (Arr.get (wedge_verts c)
         (WEDGE_VERTS ET *w elem +w tbl (WEDGE_EDGE_VERTS ET) edge 1))
  else if elem <? ntets c +w nhex c +w nwedge c +w npyrmd c then
    let elem := elem -w ntets c -w nhex c -w nwedge c in
    let verts := Arr.set verts 0
      (Arr.get (pyrmd_verts c)
         (PYRMD_VERTS ET *w elem +w tbl (PYRMD_EDGE_VERTS ET) edge 0)) in
    Arr.set verts 1
      (Arr.get (pyrmd_verts c)
         (PYRMD_VERTS ET *w elem +w tbl (PYRMD_EDGE_VERTS ET) edge 1))
  else verts.

(** *** Vertex to element adjacency *)

(** [vert_element_ptr[verts[i] + 1]++] for every vertex of [elem] *)
Definition count_element_verts (elem : Z) (c : Conn) : Conn :=
  let '(nv, verts) := get_element_verts c elem None in
  for_range 0 nv (fun i c =>
    let j := load_out c verts i +w 1 in
    set_array c vert_element_ptr_
      (Arr.set (vert_element_ptr c) j (Arr.get (vert_element_ptr c) j +w 1))) c.

(** [vert_elements[vert_element_ptr[verts[i]]] = elem;
     vert_element_ptr[verts[i]]++] for every vertex of [elem] *)
Definition scatter_element_verts (elem : Z) (c : Conn) : Conn :=
  let '(nv, verts) := get_element_verts c elem None in
  for_range 0 nv (fun i c =>
    let v := load_out c verts i in
    let c := set_array c vert_elements_
      (Arr.set (vert_elements c) (Arr.get (vert_element_ptr c) v) elem) in
    set_array c vert_element_ptr_
      (Arr.set (vert_element_ptr c) v (Arr.get (vert_element_ptr c) v +w 1))) c.

(** [for (index_t i = n; i > 0; i--) s = body(i, s)] *)
Fixpoint for_down {S : Type} (n : nat) (i : Z) (body : Z -> S -> S) (s : S) : S :=
  match n with
  | O => s
  | Datatypes.S m => for_down m (i - 1) body (body i s)
  end.

Definition init_vert_element_data (c : Conn) : Conn :=
  let c := set_array c vert_element_ptr_ (Arr.fill (nverts c +w 1) 0) in
  let c := for_range 0 (nelems c) count_element_verts c in
  let c := for_range 0 (nverts c) (fun i c =>
    set_array c vert_element_ptr_
      (Arr.set (vert_element_ptr c) (i +w 1)
         (Arr.get (vert_element_ptr c) (i +w 1) +w Arr.get (vert_element_ptr c) i))) c in
  let c := set_array c vert_elements_
    (uninit (Arr.get (vert_element_ptr c) (nverts c))) in
  let c := for_range 0 (nelems c) scatter_element_verts c in
  let c := for_down (Z.to_nat (nverts c)) (nverts c) (fun i c =>
    set_array c vert_element_ptr_
      (Arr.set (vert_element_ptr c) i (Arr.get (vert_element_ptr c) (i -w 1)))) c in
  set_array c vert_element_ptr_ (Arr.set (vert_element_ptr c) 0 0).

(** *** Face discovery *)

(** The innermost loop body of the face search: compare face [adj_face] of
    the adjacent element [adj] with the face [(elem, face)] whose sorted
    vertices are [face_verts]. *)
Definition match_adj_face (elem : Z) (faces : out_ptr) (face : Z)
  (nface_verts : Z) (face_verts : list Z) (adj : Z) (adj_faces : out_ptr)
  (adj_face : Z) (st : Conn * bool) : Conn * bool :=
  let '(c, face_located) := st in
  if face_located then st
  else
    let '(adj_nface_verts, adj_face_verts) :=
      get_element_global_face_verts c adj adj_face (uninit 4) in
    if (load_out c adj_faces adj_face =? NO_LABEL)
       && global_face_equality nface_verts face_verts adj_nface_verts adj_face_verts
    then
      if nface_verts =? 3 then
        let c := store_out c adj_faces adj_face (ntri_faces c) in
        let c := store_out c faces face (ntri_faces c) in
        (set_ntri_faces c (ntri_faces c +w 1), true)
      else
        let c := store_out c adj_faces adj_face (nquad_faces c) in
        let c := store_out c faces face (nquad_faces c) in
        (set_nquad_faces c (nquad_faces c +w 1), true)
    else (c, false).

(** The loop over the elements adjacent to one vertex of the face *)
Definition match_adj_elem (elem : Z) (faces : out_ptr) (face : Z)
  (nface_verts : Z) (face_verts : list Z) (adj_elems : out_ptr)
  (k : Z) (st : Conn * bool) : Conn * bool :=
  let '(c, face_located) := st in
  if face_located then st
  else
    let adj := load_out c adj_elems k in
    if negb (adj =? elem) then
      let '(adj_nf, adj_faces) := get_element_faces c adj None in
      for_range 0 adj_nf
        (match_adj_face elem faces face nface_verts face_verts adj adj_faces) st
    else st.

(** The loop over the vertices of the face *)
Definition match_face_vert (elem : Z) (faces : out_ptr) (face : Z)
  (nface_verts : Z) (face_verts : list Z) (m : Z) (st : Conn * bool)
  : Conn * bool :=
  let '(c, face_located) := st in
  if face_located then st
  else
    let '(nadj_elems, adj_elems) :=
      get_adjacent_elements_from_vert c (Arr.get face_verts m) None in
    for_range 0 nadj_elems
      (match_adj_elem elem faces face nface_verts face_verts adj_elems) st.

(** The body of the loop over the local faces of [elem] *)
Definition label_face (elem : Z) (faces : out_ptr) (face : Z) (c : Conn) : Conn :=
  if load_out c faces face =? NO_LABEL then
    let '(nface_verts, face_verts) :=
      get_element_global_face_verts c elem face (uninit 4) in
    let '(c, face_located) :=
      for_range 0 nface_verts
        (match_face_vert elem faces face nface_verts face_verts) (c, false) in
    if negb face_located then
      if nface_verts =? 3 then
        let c := store_out c faces face (ntri_faces c) in
        set_ntri_faces c (ntri_faces c +w 1)
      else
        let c := store_out c faces face (nquad_faces c) in
        set_nquad_faces c (nquad_faces c +w 1)
    else c
  else c.

Definition label_element_faces (elem : Z) (c : Conn) : Conn :=
  let '(nf, faces) := get_element_faces c elem None in
  for_range 0 nf (label_face elem faces) c.

(** The body of the second pass: record [elem] in the face to element
    arrays and shift the quadrilateral face indices. *)
Definition record_face (elem : Z) (faces : out_ptr) (face : Z) (c : Conn) : Conn :=
  let '(nface_verts, face_verts) :=
    get_element_global_face_verts c elem face (uninit 4) in
  if nface_verts =? 3 then
    if Arr.get (tri_face_elements c) (2 *w load_out c faces face) =? NO_LABEL then
      set_array c tri_face_elements_
        (Arr.set (tri_face_elements c) (2 *w load_out c faces face) elem)
    else if Arr.get (tri_face_elements c) (2 *w load_out c faces face +w 1)
            =? NO_LABEL then
      set_array c tri_face_elements_
        (Arr.set (tri_face_elements c) (2 *w load_out c faces face +w 1) elem)
    else c
  else
    let c :=
      if Arr.get (quad_face_elements c) (2 *w load_out c faces face) =? NO_LABEL then
        set_array c quad_face_elements_
          (Arr.set (quad_face_elements c) (2 *w load_out c faces face) elem)
      else if Arr.get (quad_face_elements c) (2 *w load_out c faces face +w 1)
              =? NO_LABEL then
        set_array c quad_face_elements_
          (Arr.set (quad_face_elements c) (2 *w load_out c faces face +w 1) elem)
      else c in
    store_out c faces face (load_out c faces face +w ntri_faces c).

Definition record_element_faces (elem : Z) (c : Conn) : Conn :=
  let '(nf, faces) := get_element_faces c elem None in
  for_range 0 nf (record_face elem faces) c.

(** The first half of [init_face_data]: allocate the element to face arrays
    and number the triangular and the quadrilateral faces separately. *)
Definition discover_faces (c : Conn) : Conn :=
  let c := set_array c tet_faces_ (Arr.fill (TET_FACES ET *w ntets c) NO_LABEL) in
  let c := set_array c hex_faces_ (Arr.fill (HEX_FACES ET *w nhex c) NO_LABEL) in
  let c := set_array c wedge_faces_ (Arr.fill (WEDGE_FACES ET *w nwedge c) NO_LABEL) in
  let c := set_array c pyrmd_faces_ (Arr.fill (PYRMD_FACES ET *w npyrmd c) NO_LABEL) in
  let c := set_ntri_faces c 0 in
  let c := set_nquad_faces c 0 in
  let c := set_nfaces c 0 in
  for_range 0 (nelems c) label_element_faces c.

(** The second half of [init_face_data]: allocate the face to element
    arrays, fill them and shift the quadrilateral face indices. *)
Definition record_faces (c : Conn) : Conn :=
  let c := set_nfaces c (ntri_faces c +w nquad_faces c) in
  let c := set_array c tri_face_elements_ (Arr.fill (2 *w ntri_faces c) NO_LABEL) in
  let c := set_array c quad_face_elements_ (Arr.fill (2 *w nquad_faces c) NO_LABEL) in
  for_range 0 (nelems c) record_element_faces c.

Definition init_face_data (c : Conn) : Conn := record_faces (discover_faces c).

(** *** Edge discovery *)

(** Give the number [edge_num] to every edge of the adjacent element
    [adj_elems[i]] whose end points are those of [v0]. *)
Definition mark_adj_edges (elem edge_num : Z) (v0 : list Z) (adj_elems : out_ptr)
  (i : Z) (c : Conn) : Conn :=
  let adj := load_out c adj_elems i in
  if negb (adj =? elem) then
    let '(adj_ne, adj_elem_edges) := get_element_edges c adj None in
    for_range 0 adj_ne (fun e1 c =>
      let v1 := get_element_edge_verts c adj e1 (uninit 2) in
      if global_edge_equality v0 v1 then store_out c adj_elem_edges e1 edge_num
      else c) c
  else c.

Definition label_edge (elem : Z) (elem_edges : out_ptr) (e0 : Z) (c : Conn) : Conn :=
  if load_out c elem_edges e0 =? NO_LABEL then
    let edge_num := nedges c in
    let c := set_nedges c (nedges c +w 1) in
    let c := store_out c elem_edges e0 edge_num in
    let v0 := get_element_edge_verts c elem e0 (uninit 2) in
    let '(nadj_elems, adj_elems) :=
      get_adjacent_elements_from_vert c (Arr.get v0 0) None in
    for_range 0 nadj_elems (mark_adj_edges elem edge_num v0 adj_elems) c
  else c.

Definition label_element_edges (elem : Z) (c : Conn) : Conn :=
  let '(ne, elem_edges) := get_element_edges c elem None in
  for_range 0 ne (label_edge elem elem_edges) c.

Definition init_edge_data (c : Conn) : Conn :=
  let c := set_nedges c 0 in
  let c := set_array c tet_edges_ (Arr.fill (TET_EDGES ET *w ntets c) NO_LABEL) in
  let c := set_array c hex_edges_ (Arr.fill (HEX_EDGES ET *w nhex c) NO_LABEL) in
  let c := set_array c wedge_edges_ (Arr.fill (WEDGE_EDGES ET *w nwedge c) NO_LABEL) in
  let c := set_array c pyrmd_edges_ (Arr.fill (PYRMD_EDGES ET *w npyrmd c) NO_LABEL) in
  for_range 0 (nelems c) label_element_edges c.

(** *** The constructor *)

(** [dst = new index_t[n]; for (i = 0; i < n; i++) dst[i] = src[i];] *)
Definition copy_array (n : Z) (src : list Z) : list Z :=
  for_range 0 n (fun i dst => Arr.set dst i (Arr.get src i)) (uninit n).

(** The member initialisers and the copies of the four input arrays; the
    derived counts are unset until the three phases run and are [0] here. *)
Definition alloc_conn (nverts ntets : Z) (tets : list Z) (nhex : Z)
  (hex : list Z) (nwedge : Z) (wedge : list Z) (npyrmd : Z) (pyrmd : list Z)
  : Conn :=
  {| nverts := nverts; ntets := ntets; nhex := nhex; nwedge := nwedge;
     npyrmd := npyrmd;
     nelems := ntets +w nhex +w nwedge +w npyrmd;
     ntri_faces := 0; nquad_faces := 0; nfaces := 0; nedges := 0;
     mem := fun a =>
       match a with
       | tet_verts_ => copy_array (TET_VERTS ET *w ntets) tets
       | hex_verts_ => copy_array (HEX_VERTS ET *w nhex) hex
       | wedge_verts_ => copy_array (WEDGE_VERTS ET *w nwedge) wedge
       | pyrmd_verts_ => copy_array (PYRMD_VERTS ET *w npyrmd) pyrmd
       | _ => []
       end |}.

Definition MeshConnectivity3D (nverts ntets : Z) (tets : list Z) (nhex : Z)
  (hex : list Z) (nwedge : Z) (wedge : list Z) (npyrmd : Z) (pyrmd : list Z)
  : Conn :=
  let c := alloc_conn nverts ntets tets nhex hex nwedge wedge npyrmd pyrmd in
  let c := init_vert_element_data c in
  let c := init_face_data c in
  init_edge_data c.

End Connectivity.

(** ** Element queries outside the element range *)

Section OutOfRange.

Variable ET : ElementTypes.

(** The counts of a constructed object are [index_t] values. *)
Definition counts_ok (c : Conn) : Prop :=
  0 <= ntets c /\ 0 <= nhex c /\ 0 <= nwedge c /\ 0 <= npyrmd c /\
  ntets c + nhex c + nwedge c + npyrmd c <= Index.max.

(** Two objects with the same element counts (their arrays may differ). *)
Definition same_counts (c c' : Conn) : Prop :=
  ntets c' = ntets c /\ nhex c' = nhex c /\ nwedge c' = nwedge c /\
  npyrmd c' = npyrmd c.

Lemma partial_sums c :
  counts_ok c ->
  ntets c +w nhex c = ntets c + nhex c /\
  ntets c +w nhex c +w nwedge c = ntets c + nhex c + nwedge c /\
  ntets c +w nhex c +w nwedge c +w npyrmd c
  = ntets c + nhex c + nwedge c + npyrmd c.
Proof.
  unfold counts_ok, Index.max. rewrite Index.modulus_eq.
  intros (H1 & H2 & H3 & H4 & H5).
  assert (E1 : ntets c +w nhex c = ntets c + nhex c).
  { apply Index.add_small. unfold Index.ok. rewrite Index.modulus_eq. lia. }
  assert (E2 : ntets c +w nhex c +w nwedge c = ntets c + nhex c + nwedge c).
  { rewrite E1. apply Index.add_small. unfold Index.ok.
    rewrite Index.modulus_eq. lia. }
  repeat split; auto.
  rewrite E2. apply Index.add_small. unfold Index.ok.
  rewrite Index.modulus_eq. lia.
Qed.

(** C10.  When [nelems] is the total element count, a query for an element
    index [elem >= nelems] returns 0 from [get_element_verts],
    [get_element_faces] and [get_element_edges]; the first two set the output
    pointer to [NULL], the third leaves it as it was; and the answers do not
    depend on the content of any array of the object. *)
Theorem element_query_out_of_range (c : Conn) (elem : Z) (p : out_ptr) :
  counts_ok c ->
  nelems c = ntets c + nhex c + nwedge c + npyrmd c ->
  nelems c <= elem ->
  get_element_verts ET c elem p = (0, None) /\
  get_element_faces ET c elem p = (0, None) /\
  get_element_edges ET c elem p = (0, p) /\
  forall c', same_counts c c' ->
    get_element_verts ET c' elem p = (0, None) /\
    get_element_faces ET c' elem p = (0, None) /\
    get_element_edges ET c' elem p = (0, p).
Proof.
  intros Hc Hn Hge.
  assert (Hall : forall c', same_counts c c' ->
    get_element_verts ET c' elem p = (0, None) /\
    get_element_faces ET c' elem p = (0, None) /\
    get_element_edges ET c' elem p = (0, p)).
  { intros c' (E1 & E2 & E3 & E4).
    assert (Hc' : counts_ok c').
    { unfold counts_ok in *. rewrite E1, E2, E3, E4. exact Hc. }
    destruct (partial_sums Hc') as (S1 & S2 & S3).
    destruct Hc as (P1 & P2 & P3 & P4 & _).
    unfold get_element_verts, get_element_faces, get_element_edges.
    rewrite S3, S2, S1, E1, E2, E3, E4.
    assert (L1 : (elem <? ntets c) = false) by (apply Z.ltb_ge; lia).
    assert (L2 : (elem <? ntets c + nhex c) = false) by (apply Z.ltb_ge; lia).
    assert (L3 : (elem <? ntets c + nhex c + nwedge c) = false)
      by (apply Z.ltb_ge; lia).
    assert (L4 : (elem <? ntets c + nhex c + nwedge c + npyrmd c) = false)
      by (apply Z.ltb_ge; lia).
    rewrite L1, L2, L3, L4. auto. }
  destruct (Hall c) as (A & B & C).
  { unfold same_counts. auto. }
  auto.
Qed.

End OutOfRange.

(** ** Element blocks: where the data of one element lives

    The three element accessors share one shape: four consecutive index
    ranges (tetrahedra, hexahedra, wedges, pyramids), each with its own array
    and its own number of entries per element. *)

Section ElementBlocks.

Variables s1 s2 s3 s4 : Z.
Variables a1 a2 a3 a4 : array_id.

Definition element_block (c : Conn) (elem : Z) (dflt : out_ptr) : Z * out_ptr :=
  if elem <? ntets c then (s1, at_ a1 (s1 *w elem))
  else if elem <? ntets c +w nhex c then
    (s2, at_ a2 (s2 *w (elem -w ntets c)))
  else if elem <? ntets c +w nhex c +w nwedge c then
    (s3, at_ a3 (s3 *w (elem -w ntets c -w nhex c)))
  else if elem <? ntets c +w nhex c +w nwedge c +w npyrmd c then
    (s4, at_ a4 (s4 *w (elem -w ntets c -w nhex c -w nwedge c)))
  else (0, dflt).

(** The arrays are allocated with one block per element and their sizes are
    [index_t] values. *)
Definition blocks_ok (c : Conn) : Prop :=
  counts_ok c /\
  0 <= s1 /\ 0 <= s2 /\ 0 <= s3 /\ 0 <= s4 /\
  s1 * ntets c <= Index.max /\ s2 * nhex c <= Index.max /\
  s3 * nwedge c <= Index.max /\ s4 * npyrmd c <= Index.max /\
  a1 <> a2 /\ a1 <> a3 /\ a1 <> a4 /\ a2 <> a3 /\ a2 <> a4 /\ a3 <> a4.

Definition blocks_allocated (c : Conn) : Prop :=
  Arr.len (mem c a1) = s1 * ntets c /\ Arr.len (mem c a2) = s2 * nhex c /\
  Arr.len (mem c a3) = s3 * nwedge c /\ Arr.len (mem c a4) = s4 * npyrmd c.

(** The number of entries of [elem] *)
Definition block_size (c : Conn) (elem : Z) : Z :=
  fst (element_block c elem None).

(** The array and position of entry [f] of [elem] *)
Definition block_addr (c : Conn) (elem f : Z) : array_id * Z :=
  if elem <? ntets c then (a1, s1 * elem + f)
  else if elem <? ntets c + nhex c then (a2, s2 * (elem - ntets c) + f)
  else if elem <? ntets c + nhex c + nwedge c then
    (a3, s3 * (elem - ntets c - nhex c) + f)
  else (a4, s4 * (elem - ntets c - nhex c - nwedge c) + f).

Definition total_elems (c : Conn) : Z := ntets c + nhex c + nwedge c + npyrmd c.

Definition valid_entry (c : Conn) (elem f : Z) : Prop :=
  0 <= elem < total_elems c /\ 0 <= f < block_size c elem.

Lemma ok_of_bounds x : 0 <= x <= Index.max -> Index.ok x.
Proof. unfold Index.ok, Index.max. lia. Qed.

Lemma element_block_ptr c elem dflt :
  blocks_ok c -> 0 <= elem < total_elems c ->
  element_block c elem dflt
  = (block_size c elem,
     at_ (fst (block_addr c elem 0)) (snd (block_addr c elem 0))).
Proof.
  intros (Hc & P1 & P2 & P3 & P4 & B1 & B2 & B3 & B4 & _) He.
  destruct (partial_sums Hc) as (S1 & S2 & S3).
  destruct Hc as (C1 & C2 & C3 & C4 & C5).
  unfold total_elems in He.
  unfold block_size, element_block, block_addr.
  rewrite S3, S2, S1.
  destruct (elem <? ntets c) eqn:L1.
  { apply Z.ltb_lt in L1. simpl. rewrite Index.mul_small.
    - do 2 f_equal. lia.
    - apply ok_of_bounds. nia. }
  apply Z.ltb_ge in L1.
  assert (E1 : elem -w ntets c = elem - ntets c).
  { apply Index.sub_small. apply ok_of_bounds. lia. }
  destruct (elem <? ntets c + nhex c) eqn:L2.
  { apply Z.ltb_lt in L2. simpl. rewrite E1, Index.mul_small.
    - do 2 f_equal. lia.
    - apply ok_of_bounds. nia. }
  apply Z.ltb_ge in L2.
  assert (E2 : elem -w ntets c -w nhex c = elem - ntets c - nhex c).
  { rewrite E1. apply Index.sub_small. apply ok_of_bounds. lia. }
  destruct (elem <? ntets c + nhex c + nwedge c) eqn:L3.
  { apply Z.ltb_lt in L3. simpl. rewrite E2, Index.mul_small.
    - do 2 f_equal. lia.
    - apply ok_of_bounds. nia. }
  apply Z.ltb_ge in L3.
  assert (E3 : elem -w ntets c -w nhex c -w nwedge c
               = elem - ntets c - nhex c - nwedge c).
  { rewrite E2. apply Index.sub_small. apply ok_of_bounds. lia. }
  destruct (elem <? ntets c + nhex c + nwedge c + npyrmd c) eqn:L4.
  { apply Z.ltb_lt in L4. simpl. rewrite E3, Index.mul_small.
    - do 2 f_equal. lia.
    - apply ok_of_bounds. nia. }
  apply Z.ltb_ge in L4. lia.
Qed.

Lemma block_addr_shift c elem f :
  block_addr c elem f = (fst (block_addr c elem 0), snd (block_addr c elem 0) + f).
Proof.
  unfold block_addr.
  repeat match goal with |- context [if ?b then _ else _] => destruct b end;
    simpl; f_equal; lia.
Qed.

Lemma stride_inj s e f e' f' :
  0 <= f < s -> 0 <= f' < s -> s * e + f = s * e' + f' -> e = e' /\ f = f'.
Proof.
  intros Hf Hf' H.
  assert (e = e').
  { destruct (Z.lt_trichotomy e e') as [L|[L|L]]; auto; exfalso.
    - assert (s * (e' - e) >= s * 1)
        by (apply Z.le_ge, Z.mul_le_mono_nonneg_l; lia).
      lia.
    - assert (s * (e - e') >= s * 1)
        by (apply Z.le_ge, Z.mul_le_mono_nonneg_l; lia).
      lia. }
  subst. lia.
Qed.

Lemma block_addr_inj c e f e' f' :
  blocks_ok c -> valid_entry c e f -> valid_entry c e' f' ->
  block_addr c e f = block_addr c e' f' -> e = e' /\ f = f'.
Proof.
  intros Hok (He & Hf) (He' & Hf').
  assert (Hok' := Hok).
  destruct Hok as (Hc & P1 & P2 & P3 & P4 & B1 & B2 & B3 & B4 & D).
  destruct (partial_sums Hc) as (S1 & S2 & S3).
  destruct Hc as (C1 & C2 & C3 & C4 & C5).
  unfold total_elems in *.
  unfold block_size, element_block in Hf, Hf'.
  rewrite S3, S2, S1 in Hf, Hf'.
  unfold block_addr.
  destruct (e <? ntets c) eqn:L1; destruct (e' <? ntets c) eqn:L1';
  destruct (e <? ntets c + nhex c) eqn:L2;
  destruct (e' <? ntets c + nhex c) eqn:L2';
  destruct (e <? ntets c + nhex c + nwedge c) eqn:L3;
  destruct (e' <? ntets c + nhex c + nwedge c) eqn:L3';
  destruct (e <? ntets c + nhex c + nwedge c + npyrmd c) eqn:L4;
  destruct (e' <? ntets c + nhex c + nwedge c + npyrmd c) eqn:L4';
  rewrite ?Z.ltb_lt, ?Z.ltb_ge in *; simpl in Hf, Hf'; try lia;
  intros H; injection H; intros; try (exfalso; intuition congruence);
  match goal with
  | E : ?s * ?x + f = ?s * ?y + f' |- _ =>
      destruct (@stride_inj s x f y f') as [? ?]; [lia | lia | exact E |]; lia
  end.
Qed.

Lemma block_addr_bounds c e f :
  blocks_ok c -> blocks_allocated c -> valid_entry c e f ->
  0 <= snd (block_addr c e f) < Arr.len (mem c (fst (block_addr c e f))).
Proof.
  intros Hok (A1 & A2 & A3 & A4) (He & Hf).
  destruct Hok as (Hc & P1 & P2 & P3 & P4 & B1 & B2 & B3 & B4 & D).
  destruct (partial_sums Hc) as (S1 & S2 & S3).
  destruct Hc as (C1 & C2 & C3 & C4 & C5).
  unfold total_elems in *.
  unfold block_size, element_block in Hf.
  rewrite S3, S2, S1 in Hf.
  unfold block_addr.
  destruct (e <? ntets c) eqn:L1;
  destruct (e <? ntets c + nhex c) eqn:L2;
  destruct (e <? ntets c + nhex c + nwedge c) eqn:L3;
  destruct (e <? ntets c + nhex c + nwedge c + npyrmd c) eqn:L4;
  rewrite ?Z.ltb_lt, ?Z.ltb_ge in *; simpl in *; try lia;
  rewrite ?A1, ?A2, ?A3, ?A4; nia.
Qed.

Definition block_ptr (c : Conn) (elem : Z) : out_ptr :=
  snd (element_block c elem None).

(** The value of entry [f] of [elem], read as the source does *)
Definition entry (c : Conn) (elem f : Z) : Z := load_out c (block_ptr c elem) f.

Definition set_entry (c : Conn) (elem f v : Z) : Conn :=
  store_out c (block_ptr c elem) f v.

Lemma element_block_counts c c' elem dflt :
  same_counts c c' -> element_block c' elem dflt = element_block c elem dflt.
Proof.
  intros (E1 & E2 & E3 & E4). unfold element_block.
  now rewrite E1, E2, E3, E4.
Qed.

Lemma block_size_counts c c' elem :
  same_counts c c' -> block_size c' elem = block_size c elem.
Proof. intros H. unfold block_size. now rewrite (element_block_counts _ _ H). Qed.

Lemma block_addr_counts c c' elem f :
  same_counts c c' -> block_addr c' elem f = block_addr c elem f.
Proof.
  intros (E1 & E2 & E3 & _). unfold block_addr.
  now rewrite E1, E2, E3.
Qed.

Lemma entry_addr c e f :
  blocks_ok c -> 0 <= e < total_elems c ->
  entry c e f = Arr.get (mem c (fst (block_addr c e f))) (snd (block_addr c e f)).
Proof.
  intros Hok He. unfold entry, block_ptr.
  rewrite (element_block_ptr None Hok He). simpl.
  rewrite (block_addr_shift c e f). reflexivity.
Qed.

Lemma set_entry_addr c e f v :
  blocks_ok c -> 0 <= e < total_elems c ->
  set_entry c e f v
  = set_array c (fst (block_addr c e f))
      (Arr.set (mem c (fst (block_addr c e f))) (snd (block_addr c e f)) v).
Proof.
  intros Hok He. unfold set_entry, block_ptr.
  rewrite (element_block_ptr None Hok He). simpl.
  rewrite (block_addr_shift c e f). reflexivity.
Qed.

End ElementBlocks.

Lemma mem_set_array c a l b :
  mem (set_array c a l) b = if array_id_eqb b a then l else mem c b.
Proof. reflexivity. Qed.

Lemma mem_set_array_eq c a l : mem (set_array c a l) a = l.
Proof.
  rewrite mem_set_array. destruct (array_id_eqb_spec a a); congruence.
Qed.

Lemma mem_set_array_ne c a l b : b <> a -> mem (set_array c a l) b = mem c b.
Proof.
  intros H. rewrite mem_set_array. destruct (array_id_eqb_spec b a); congruence.
Qed.

Lemma same_counts_refl c : same_counts c c.
Proof. unfold same_counts. auto. Qed.

Lemma same_counts_trans c1 c2 c3 :
  same_counts c1 c2 -> same_counts c2 c3 -> same_counts c1 c3.
Proof. unfold same_counts. intuition congruence. Qed.

Lemma same_counts_set_array c a l : same_counts c (set_array c a l).
Proof. unfold same_counts. simpl. auto. Qed.

Section EntryUpdate.

Variables s1 s2 s3 s4 : Z.
Variables a1 a2 a3 a4 : array_id.

Let ok := blocks_ok s1 s2 s3 s4 a1 a2 a3 a4.
Let allocated := blocks_allocated s1 s2 s3 s4 a1 a2 a3 a4.
Let valid := valid_entry s1 s2 s3 s4 a1 a2 a3 a4.
Let rd := entry s1 s2 s3 s4 a1 a2 a3 a4.
Let wr := set_entry s1 s2 s3 s4 a1 a2 a3 a4.

Lemma set_entry_counts c e f v :
  ok c -> valid c e f -> same_counts c (wr c e f v).
Proof.
  intros Hok (He & _). unfold wr. rewrite (set_entry_addr f v Hok He).
  apply same_counts_set_array.
Qed.

Lemma entry_set_entry_eq c e f v :
  ok c -> allocated c -> valid c e f -> rd (wr c e f v) e f = v.
Proof.
  intros Hok Hal Hv. assert (Hc := set_entry_counts v Hok Hv).
  destruct Hv as (He & Hf).
  assert (Hok' : ok (wr c e f v)).
  { unfold ok, blocks_ok, counts_ok in *. destruct Hc as (E1 & E2 & E3 & E4).
    rewrite E1, E2, E3, E4. exact Hok. }
  unfold rd. rewrite entry_addr; auto.
  2:{ unfold total_elems in *. destruct Hc as (E1 & E2 & E3 & E4).
      rewrite E1, E2, E3, E4. exact He. }
  rewrite (block_addr_counts s1 s2 s3 s4 a1 a2 a3 a4 e f Hc).
  unfold wr. rewrite (set_entry_addr f v Hok He).
  rewrite mem_set_array_eq. apply Arr.get_set_eq.
  apply block_addr_bounds; auto. split; auto.
Qed.

Lemma entry_set_entry_ne c e f v e' f' :
  ok c -> allocated c -> valid c e f -> valid c e' f' ->
  (e, f) <> (e', f') -> rd (wr c e f v) e' f' = rd c e' f'.
Proof.
  intros Hok Hal Hv Hv' Hne. assert (Hc := set_entry_counts v Hok Hv).
  assert (Hok' : ok (wr c e f v)).
  { unfold ok, blocks_ok, counts_ok in *. destruct Hc as (E1 & E2 & E3 & E4).
    rewrite E1, E2, E3, E4. exact Hok. }
  assert (B := block_addr_bounds Hok Hal Hv).
  assert (B' := block_addr_bounds Hok Hal Hv').
  assert (I := @block_addr_inj s1 s2 s3 s4 a1 a2 a3 a4 c e f e' f' Hok Hv Hv').
  destruct Hv as (He & Hf). destruct Hv' as (He' & Hf').
  unfold rd. rewrite !entry_addr; auto.
  2:{ unfold total_elems in *. destruct Hc as (E1 & E2 & E3 & E4).
      rewrite E1, E2, E3, E4. exact He'. }
  rewrite (block_addr_counts s1 s2 s3 s4 a1 a2 a3 a4 e' f' Hc).
  unfold wr. rewrite (set_entry_addr f v Hok He).
  destruct (block_addr s1 s2 s3 s4 a1 a2 a3 a4 c e f) as [a p] eqn:Ea.
  destruct (block_addr s1 s2 s3 s4 a1 a2 a3 a4 c e' f') as [a' p'] eqn:Ea'.
  cbn [fst snd] in *. rewrite mem_set_array.
  destruct (array_id_eqb_spec a' a) as [->|Hd]; auto.
  apply Arr.get_set_ne; try lia.
  intros ->. apply Hne. destruct I as [-> ->]; auto.
Qed.

Lemma set_entry_mem_other c e f v b :
  ok c -> valid c e f -> b <> a1 -> b <> a2 -> b <> a3 -> b <> a4 ->
  mem (wr c e f v) b = mem c b.
Proof.
  intros Hok (He & _) N1 N2 N3 N4. unfold wr.
  rewrite (set_entry_addr f v Hok He). apply mem_set_array_ne.
  unfold block_addr.
  repeat match goal with |- context [if ?b then _ else _] => destruct b end;
    simpl; auto.
Qed.

Lemma set_entry_allocated c e f v :
  ok c -> valid c e f -> allocated c -> allocated (wr c e f v).
Proof.
  intros Hok Hv Hal. assert (Hc := set_entry_counts v Hok Hv).
  destruct Hv as (He & _). destruct Hc as (E1 & E2 & E3 & E4).
  unfold allocated, blocks_allocated. rewrite E1, E2, E3, E4.
  unfold wr. rewrite (set_entry_addr f v Hok He).
  destruct Hal as (L1 & L2 & L3 & L4).
  rewrite !mem_set_array.
  repeat match goal with
         | |- context [array_id_eqb ?x ?y] =>
             destruct (array_id_eqb_spec x y) as [<-|?]
         end; rewrite ?Arr.len_set; auto.
Qed.

End EntryUpdate.

(** ** Face discovery: the invariants of [init_face_data] *)

Section FaceDiscovery.

Variable ET : ElementTypes.

Definition face_valid : Conn -> Z -> Z -> Prop :=
  valid_entry (TET_FACES ET) (HEX_FACES ET) (WEDGE_FACES ET) (PYRMD_FACES ET)
    tet_faces_ hex_faces_ wedge_faces_ pyrmd_faces_.

(** The entry of local face [f] in the face array of [elem] *)
Definition face_label : Conn -> Z -> Z -> Z :=
  entry (TET_FACES ET) (HEX_FACES ET) (WEDGE_FACES ET) (PYRMD_FACES ET)
    tet_faces_ hex_faces_ wedge_faces_ pyrmd_faces_.

Definition set_face_label : Conn -> Z -> Z -> Z -> Conn :=
  set_entry (TET_FACES ET) (HEX_FACES ET) (WEDGE_FACES ET) (PYRMD_FACES ET)
    tet_faces_ hex_faces_ wedge_faces_ pyrmd_faces_.

Definition faces_ok : Conn -> Prop :=
  blocks_ok (TET_FACES ET) (HEX_FACES ET) (WEDGE_FACES ET) (PYRMD_FACES ET)
    tet_faces_ hex_faces_ wedge_faces_ pyrmd_faces_.

Definition faces_allocated : Conn -> Prop :=
  blocks_allocated (TET_FACES ET) (HEX_FACES ET) (WEDGE_FACES ET) (PYRMD_FACES ET)
    tet_faces_ hex_faces_ wedge_faces_ pyrmd_faces_.

(** The number of local faces of [elem] *)
Definition num_faces (c : Conn) (elem : Z) : Z :=
  fst (get_element_faces ET c elem None).

(** The number of vertices of a local face, as [get_element_face_verts]
    returns it *)
Definition face_arity (c : Conn) (elem f : Z) : Z :=
  fst (get_element_global_face_verts ET c elem f (uninit 4)).

(** The vertices [get_element_global_face_verts] writes: the first [n]
    entries of its output array *)
Definition face_tuple (c : Conn) (elem f : Z) : list Z :=
  let '(n, verts) := get_element_global_face_verts ET c elem f (uninit 4) in
  firstn (Z.to_nat n) verts.

(** The total number of face entries of the elements before [elem] *)
Definition faces_before (c : Conn) (elem : Z) : Z :=
  if elem <? ntets c then TET_FACES ET * elem
  else if elem <? ntets c + nhex c then
    TET_FACES ET * ntets c + HEX_FACES ET * (elem - ntets c)
  else if elem <? ntets c + nhex c + nwedge c then
    TET_FACES ET * ntets c + HEX_FACES ET * nhex c
    + WEDGE_FACES ET * (elem - ntets c - nhex c)
  else
    TET_FACES ET * ntets c + HEX_FACES ET * nhex c + WEDGE_FACES ET * nwedge c
    + PYRMD_FACES ET * (elem - ntets c - nhex c - nwedge c).

Definition total_faces (c : Conn) : Z :=
  TET_FACES ET * ntets c + HEX_FACES ET * nhex c + WEDGE_FACES ET * nwedge c
  + PYRMD_FACES ET * npyrmd c.

(** What face discovery leaves untouched: the counts and the vertex data *)
Definition same_mesh (c c' : Conn) : Prop :=
  nverts c' = nverts c /\ ntets c' = ntets c /\ nhex c' = nhex c /\
  nwedge c' = nwedge c /\ npyrmd c' = npyrmd c /\ nelems c' = nelems c /\
  mem c' tet_verts_ = mem c tet_verts_ /\ mem c' hex_verts_ = mem c hex_verts_ /\
  mem c' wedge_verts_ = mem c wedge_verts_ /\
  mem c' pyrmd_verts_ = mem c pyrmd_verts_ /\
  mem c' vert_element_ptr_ = mem c vert_element_ptr_ /\
  mem c' vert_elements_ = mem c vert_elements_.

Lemma same_mesh_refl c : same_mesh c c.
Proof. unfold same_mesh. repeat split. Qed.

Lemma same_mesh_trans c1 c2 c3 :
  same_mesh c1 c2 -> same_mesh c2 c3 -> same_mesh c1 c3.
Proof. unfold same_mesh. intuition congruence. Qed.

Lemma same_mesh_counts c c' : same_mesh c c' -> same_counts c c'.
Proof. unfold same_mesh, same_counts. intuition. Qed.

Lemma get_element_faces_block c elem p :
  get_element_faces ET c elem p
  = element_block (TET_FACES ET) (HEX_FACES ET) (WEDGE_FACES ET) (PYRMD_FACES ET)
      tet_faces_ hex_faces_ wedge_faces_ pyrmd_faces_ c elem None.
Proof. reflexivity. Qed.

Lemma get_element_face_verts_mesh c c' elem f verts :
  same_mesh c c' ->
  get_element_face_verts ET c' elem f verts = get_element_face_verts ET c elem f verts.
Proof.
  intros (E0 & E1 & E2 & E3 & E4 & E5 & M1 & M2 & M3 & M4 & _).
  unfold get_element_face_verts, tet_verts, hex_verts, wedge_verts, pyrmd_verts.
  now rewrite E1, E2, E3, E4, M1, M2, M3, M4.
Qed.

Lemma global_face_verts_mesh c c' elem f verts :
  same_mesh c c' ->
  get_element_global_face_verts ET c' elem f verts
  = get_element_global_face_verts ET c elem f verts.
Proof.
  intros H. unfold get_element_global_face_verts.
  now rewrite (get_element_face_verts_mesh _ _ _ H).
Qed.

Lemma adjacent_elements_mesh c c' vert p :
  same_mesh c c' ->
  get_adjacent_elements_from_vert c' vert p = get_adjacent_elements_from_vert c vert p.
Proof.
  intros (E0 & E1 & E2 & E3 & E4 & E5 & M1 & M2 & M3 & M4 & M5 & M6).
  unfold get_adjacent_elements_from_vert, vert_element_ptr.
  now rewrite E0, M5.
Qed.

End FaceDiscovery.

Section FaceSearch.

Variable ET : ElementTypes.

Definition face_ptr : Conn -> Z -> out_ptr :=
  block_ptr (TET_FACES ET) (HEX_FACES ET) (WEDGE_FACES ET) (PYRMD_FACES ET)
    tet_faces_ hex_faces_ wedge_faces_ pyrmd_faces_.

Lemma store_out_ntri c p i v : ntri_faces (store_out c p i v) = ntri_faces c.
Proof. destruct p; reflexivity. Qed.

Lemma store_out_nquad c p i v : nquad_faces (store_out c p i v) = nquad_faces c.
Proof. destruct p; reflexivity. Qed.

Lemma face_ptr_counts c c' elem :
  same_counts c c' -> face_ptr c' elem = face_ptr c elem.
Proof.
  intros H. unfold face_ptr, block_ptr.
  now rewrite (element_block_counts _ _ _ _ _ _ _ _ _ _ H).
Qed.

Definition face_counter (a : Z) (c : Conn) : Z :=
  if a =? 3 then ntri_faces c else nquad_faces c.

Definition bump_counter (a : Z) (c : Conn) : Conn :=
  if a =? 3 then set_ntri_faces c (ntri_faces c +w 1)
  else set_nquad_faces c (nquad_faces c +w 1).

(** A boundary face: [(elem, face)] alone receives the next index. *)
Definition assign_one (a : Z) (c : Conn) (elem face : Z) : Conn :=
  bump_counter a (set_face_label ET c elem face (face_counter a c)).

(** A matched face: [(adj, adj_face)] and [(elem, face)] receive the next
    index. *)
Definition assign_two (a : Z) (c : Conn) (elem face adj adj_face : Z) : Conn :=
  bump_counter a
    (set_face_label ET (set_face_label ET c adj adj_face (face_counter a c))
       elem face (face_counter a c)).

Definition faces_match (c : Conn) (elem face adj adj_face : Z) : bool :=
  let '(n, v) := get_element_global_face_verts ET c elem face (uninit 4) in
  let '(n', v') := get_element_global_face_verts ET c adj adj_face (uninit 4) in
  global_face_equality n v n' v'.

(** The outcome of the search for a partner of [(elem, face)] from state [c] *)
Definition search_outcome (c : Conn) (elem face : Z) (st : Conn * bool) : Prop :=
  st = (c, false) \/
  exists adj adj_face,
    face_valid ET c adj adj_face /\ adj <> elem /\
    face_label ET c adj adj_face = NO_LABEL /\
    faces_match c elem face adj adj_face = true /\
    st = (assign_two (face_arity ET c elem face) c elem face adj adj_face, true).

Definition adjacency_nonneg (c : Conn) : Prop :=
  forall i, 0 <= Arr.get (vert_elements c) i.

Lemma store_out_counts c p i v : same_counts c (store_out c p i v).
Proof. destruct p; simpl; [apply same_counts_set_array | apply same_counts_refl]. Qed.

Lemma num_faces_range c elem :
  faces_ok ET c -> ~ (0 <= elem < total_elems c) -> 0 <= elem ->
  get_element_faces ET c elem None = (0, None).
Proof.
  intros (Hc & _) Hn H0.
  destruct (partial_sums Hc) as (S1 & S2 & S3).
  unfold total_elems in Hn. unfold get_element_faces.
  rewrite S3, S2, S1.
  destruct Hc as (C1 & C2 & C3 & C4 & C5).
  repeat match goal with
         | |- context [?a <? ?b] => destruct (Z.ltb_spec a b); try lia
         end.
  reflexivity.
Qed.

Lemma match_adj_face_outcome c elem face adj adj_face st :
  faces_ok ET c -> face_valid ET c elem face ->
  face_valid ET c adj adj_face -> adj <> elem ->
  search_outcome c elem face st ->
  search_outcome c elem face
    (match_adj_face ET elem (face_ptr c elem) face (face_arity ET c elem face)
       (snd (get_element_global_face_verts ET c elem face (uninit 4)))
       adj (face_ptr c adj) adj_face st).
Proof.
  intros Hok Hv Hva Hne [->|(a' & f' & H1 & H2 & H3 & H4 & ->)].
  2:{ right. exists a', f'. simpl. auto. }
  unfold match_adj_face.
  destruct (get_element_global_face_verts ET c adj adj_face (uninit 4)) as [n' v'] eqn:Ek.
  change (load_out c _ adj_face) with (face_label ET c adj adj_face).
  destruct (face_label ET c adj adj_face =? NO_LABEL) eqn:El; simpl andb.
  2:{ left; reflexivity. }
  destruct (global_face_equality _ _ n' v') eqn:Eg.
  2:{ left; reflexivity. }
  right. exists adj, adj_face. apply Z.eqb_eq in El.
  repeat split; auto; try apply Hva.
  { unfold faces_match. unfold face_arity in Eg.
    destruct (get_element_global_face_verts ET c elem face (uninit 4)). rewrite Ek. exact Eg. }
  unfold assign_two, bump_counter, face_counter.
  rewrite !store_out_ntri, !store_out_nquad.
  unfold set_face_label, set_entry. fold face_ptr.
  destruct (face_arity ET c elem face =? 3);
    rewrite (face_ptr_counts elem (store_out_counts c (face_ptr c adj) adj_face _));
    rewrite ?store_out_ntri, ?store_out_nquad; reflexivity.
Qed.

Lemma for_range_preserves {S : Type} (P : S -> Prop) (body : Z -> S -> S) lo hi s :
  (forall j t, lo <= j < hi -> P t -> P (body j t)) ->
  P s -> P (for_range lo hi body s).
Proof.
  intros Hstep H0. destruct (Z.le_gt_cases lo hi) as [Hle|Hgt].
  - apply (@for_range_inv S (fun _ t => P t) body lo hi s Hle H0).
    intros j t Hj Ht. apply Hstep; assumption.
  - rewrite for_range_empty by lia. exact H0.
Qed.

Lemma get_element_faces_valid c elem :
  faces_ok ET c -> 0 <= elem < total_elems c ->
  get_element_faces ET c elem None = (num_faces ET c elem, face_ptr c elem).
Proof.
  intros Hok He. unfold num_faces, face_ptr, block_ptr.
  rewrite get_element_faces_block.
  destruct (element_block _ _ _ _ _ _ _ _ c elem None); reflexivity.
Qed.

Lemma match_adj_elem_outcome c elem face adj_elems k st :
  faces_ok ET c -> face_valid ET c elem face ->
  0 <= load_out c adj_elems k ->
  search_outcome c elem face st ->
  search_outcome c elem face
    (match_adj_elem ET elem (face_ptr c elem) face (face_arity ET c elem face)
       (snd (get_element_global_face_verts ET c elem face (uninit 4)))
       adj_elems k st).
Proof.
  intros Hok Hv Hadj Hst.
  destruct Hst as [->|(a' & f' & H1 & H2 & H3 & H4 & ->)].
  2:{ right. exists a', f'. simpl. auto. }
  unfold match_adj_elem.
  set (adj := load_out c adj_elems k) in *.
  destruct (Z.eqb_spec adj elem) as [He|Hne]; simpl negb; cbv iota.
  { left; reflexivity. }
  destruct (Z_lt_dec adj (total_elems c)) as [Hlt|Hge].
  - rewrite get_element_faces_valid by (auto; lia).
    apply for_range_preserves; [|left; reflexivity].
    intros j t Hj Ht. apply match_adj_face_outcome; auto.
    split; [lia|]. exact Hj.
  - rewrite num_faces_range by (auto; lia).
    rewrite for_range_empty by lia. left; reflexivity.
Qed.

Lemma match_face_vert_outcome c elem face m st :
  faces_ok ET c -> face_valid ET c elem face -> adjacency_nonneg c ->
  search_outcome c elem face st ->
  search_outcome c elem face
    (match_face_vert ET elem (face_ptr c elem) face (face_arity ET c elem face)
       (snd (get_element_global_face_verts ET c elem face (uninit 4))) m st).
Proof.
  intros Hok Hv Hadj Hst.
  destruct Hst as [->|(a' & f' & H1 & H2 & H3 & H4 & ->)].
  2:{ right. exists a', f'. simpl. auto. }
  unfold match_face_vert.
  destruct (get_adjacent_elements_from_vert c _ None) as [nadj adj_elems] eqn:Eadj.
  apply for_range_preserves; [|left; reflexivity].
  intros j t Hj Ht. apply match_adj_elem_outcome; auto.
  unfold get_adjacent_elements_from_vert in Eadj.
  destruct (_ <? nverts c) in Eadj; inversion Eadj; subst; simpl; [apply Hadj | lia].
Qed.

(** What [label_face] does to an unlabelled face *)
Definition label_outcome (c : Conn) (elem face : Z) (c' : Conn) : Prop :=
  c' = assign_one (face_arity ET c elem face) c elem face \/
  exists adj adj_face,
    face_valid ET c adj adj_face /\ adj <> elem /\
    face_label ET c adj adj_face = NO_LABEL /\
    faces_match c elem face adj adj_face = true /\
    c' = assign_two (face_arity ET c elem face) c elem face adj adj_face.

Lemma face_arity_cases c elem face :
  face_arity ET c elem face = 3 \/ face_arity ET c elem face = 4.
Proof.
  unfold face_arity, get_element_global_face_verts.
  destruct (get_element_face_verts ET c elem face (uninit 4)) as [n t].
  unfold sort_face_verts.
  repeat match goal with |- context [if ?b then _ else _] => destruct b end;
    simpl; auto.
Qed.

Lemma label_face_outcome c elem face :
  faces_ok ET c -> face_valid ET c elem face -> adjacency_nonneg c ->
  (face_label ET c elem face = NO_LABEL ->
   label_outcome c elem face (label_face ET elem (face_ptr c elem) face c)) /\
  (face_label ET c elem face <> NO_LABEL ->
   label_face ET elem (face_ptr c elem) face c = c).
Proof.
  intros Hok Hv Hadj. unfold label_face.
  change (load_out c (face_ptr c elem) face) with (face_label ET c elem face).
  split; intros Hl.
  2:{ apply Z.eqb_neq in Hl. now rewrite Hl. }
  rewrite Hl, Z.eqb_refl.
  destruct (get_element_global_face_verts ET c elem face (uninit 4)) as [n v] eqn:Ek.
  assert (Hn : n = face_arity ET c elem face) by (unfold face_arity; now rewrite Ek).
  assert (Hs : search_outcome c elem face
    (for_range 0 n (match_face_vert ET elem (face_ptr c elem) face n v) (c, false))).
  { apply for_range_preserves; [|left; reflexivity].
    intros j t Hj Ht.
    pose proof (@match_face_vert_outcome c elem face j t Hok Hv Hadj Ht) as X.
    unfold face_arity in X. rewrite Ek in X. exact X. }
  destruct Hs as [->|(a' & f' & H1 & H2 & H3 & H4 & ->)].
  - left. simpl negb. cbv iota.
    unfold assign_one, bump_counter, face_counter, set_face_label, set_entry.
    fold face_ptr. rewrite <- Hn, ?store_out_ntri, ?store_out_nquad.
    destruct (n =? 3); rewrite ?store_out_ntri, ?store_out_nquad; reflexivity.
  - right. exists a', f'. simpl negb. cbv iota. auto.
Qed.

End FaceSearch.

Section FaceInvariant.

Variable ET : ElementTypes.

Lemma faces_ok_counts c c' : same_counts c c' -> faces_ok ET c -> faces_ok ET c'.
Proof.
  intros (E1 & E2 & E3 & E4). unfold faces_ok, blocks_ok, counts_ok.
  now rewrite E1, E2, E3, E4.
Qed.

Lemma face_valid_counts c c' e f :
  same_counts c c' -> face_valid ET c' e f <-> face_valid ET c e f.
Proof.
  intros H. unfold face_valid, valid_entry, total_elems.
  rewrite (block_size_counts _ _ _ _ _ _ _ _ _ H).
  destruct H as (E1 & E2 & E3 & E4). now rewrite E1, E2, E3, E4.
Qed.

Lemma face_arity_mesh c c' e f :
  same_mesh c c' -> face_arity ET c' e f = face_arity ET c e f.
Proof.
  intros H. unfold face_arity. now rewrite (global_face_verts_mesh _ _ _ _ H).
Qed.

Lemma faces_match_mesh c c' e f e' f' :
  same_mesh c c' -> faces_match ET c' e f e' f' = faces_match ET c e f e' f'.
Proof.
  intros H. unfold faces_match. now rewrite !(global_face_verts_mesh _ _ _ _ H).
Qed.

Lemma same_mesh_set_face_label c e f v :
  faces_ok ET c -> face_valid ET c e f -> same_mesh c (set_face_label ET c e f v).
Proof.
  intros Hok Hv.
  assert (Hc := set_entry_counts v Hok Hv). fold (set_face_label ET) in Hc.
  destruct Hc as (E1 & E2 & E3 & E4).
  assert (M : forall b, b <> tet_faces_ -> b <> hex_faces_ -> b <> wedge_faces_ ->
              b <> pyrmd_faces_ -> mem (set_face_label ET c e f v) b = mem c b).
  { intros b N1 N2 N3 N4. apply (set_entry_mem_other v Hok Hv); auto. }
  unfold same_mesh. rewrite E1, E2, E3, E4.
  repeat split; try (apply M; discriminate).
  - destruct Hv as (He & _). unfold set_face_label.
    rewrite (set_entry_addr _ _ Hok He). reflexivity.
  - destruct Hv as (He & _). unfold set_face_label.
    rewrite (set_entry_addr _ _ Hok He). reflexivity.
Qed.

Lemma same_mesh_bump a c : same_mesh c (bump_counter a c).
Proof.
  unfold bump_counter. destruct (a =? 3); unfold same_mesh; simpl; repeat split.
Qed.

Lemma face_label_bump a c e f :
  face_label ET (bump_counter a c) e f = face_label ET c e f.
Proof. unfold bump_counter. destruct (a =? 3); reflexivity. Qed.

Lemma faces_allocated_bump a c :
  faces_allocated ET c -> faces_allocated ET (bump_counter a c).
Proof. unfold bump_counter. destruct (a =? 3); auto. Qed.

Lemma face_label_set_eq c e f v :
  faces_ok ET c -> faces_allocated ET c -> face_valid ET c e f ->
  face_label ET (set_face_label ET c e f v) e f = v.
Proof. intros. apply entry_set_entry_eq; auto. Qed.

Lemma face_label_set_ne c e f v e' f' :
  faces_ok ET c -> faces_allocated ET c -> face_valid ET c e f ->
  face_valid ET c e' f' -> (e, f) <> (e', f') ->
  face_label ET (set_face_label ET c e f v) e' f' = face_label ET c e' f'.
Proof. intros. apply entry_set_entry_ne; auto. Qed.

Lemma faces_allocated_set c e f v :
  faces_ok ET c -> face_valid ET c e f -> faces_allocated ET c ->
  faces_allocated ET (set_face_label ET c e f v).
Proof. intros. apply set_entry_allocated; auto. Qed.

Lemma counter_set_face_label a c e f v :
  faces_ok ET c -> face_valid ET c e f ->
  face_counter a (set_face_label ET c e f v) = face_counter a c.
Proof.
  intros Hok (He & _). unfold set_face_label.
  rewrite (set_entry_addr _ _ Hok He). reflexivity.
Qed.

End FaceInvariant.

Section FaceClasses.

Variable ET : ElementTypes.
Variable c0 : Conn.
Hypothesis Hok0 : faces_ok ET c0.

(** The face entries of arity [a] that carry the index [L] *)
Definition in_class (c : Conn) (a L e f : Z) : Prop :=
  face_valid ET c0 e f /\ face_arity ET c0 e f = a /\ face_label ET c e f = L.

(** An index is carried by one face entry, or by two entries of different
    elements whose sorted vertices agree. *)
Inductive face_class (c : Conn) (a L : Z) : Prop :=
| class_one e f :
    in_class c a L e f ->
    (forall e' f', in_class c a L e' f' -> e' = e /\ f' = f) ->
    face_class c a L
| class_two e f e2 f2 :
    in_class c a L e f -> in_class c a L e2 f2 -> e <> e2 ->
    faces_match ET c0 e f e2 f2 = true ->
    (forall e' f', in_class c a L e' f' ->
                   (e' = e /\ f' = f) \/ (e' = e2 /\ f' = f2)) ->
    face_class c a L.

Record face_inv (c : Conn) : Prop := {
  fi_mesh : same_mesh c0 c;
  fi_alloc : faces_allocated ET c;
  fi_ntri : 0 <= ntri_faces c;
  fi_nquad : 0 <= nquad_faces c;
  fi_typed : forall e f, face_valid ET c0 e f ->
     face_label ET c e f = NO_LABEL \/
     0 <= face_label ET c e f < face_counter (face_arity ET c0 e f) c;
  fi_class : forall a L, a = 3 \/ a = 4 -> 0 <= L < face_counter a c ->
     face_class c a L
}.

Lemma face_class_ext c c' a L :
  (forall e f, in_class c a L e f <-> in_class c' a L e f) ->
  face_class c a L -> face_class c' a L.
Proof.
  intros Hext [e f H1 H2|e f e2 f2 H1 H2 H3 H4 H5].
  - apply class_one with e f; [now apply Hext|].
    intros e' f' H. apply H2. now apply Hext.
  - apply class_two with e f e2 f2; auto; try now apply Hext.
    intros e' f' H. apply H5. now apply Hext.
Qed.

Lemma class_same_elem c a L e f f' :
  face_class c a L -> in_class c a L e f -> in_class c a L e f' -> f = f'.
Proof.
  intros [x y H1 H2|x y x2 y2 H1 H2 H3 H4 H5] Ha Hb.
  - destruct (H2 _ _ Ha), (H2 _ _ Hb). congruence.
  - destruct (H5 _ _ Ha) as [[? ?]|[? ?]], (H5 _ _ Hb) as [[? ?]|[? ?]];
      congruence.
Qed.

Lemma class_at_most_two c a L e1 f1 e2 f2 e3 f3 :
  face_class c a L ->
  in_class c a L e1 f1 -> in_class c a L e2 f2 -> in_class c a L e3 f3 ->
  (e1 = e2 /\ f1 = f2) \/ (e1 = e3 /\ f1 = f3) \/ (e2 = e3 /\ f2 = f3).
Proof.
  intros [x y H1 H2|x y x2 y2 H1 H2 H3 H4 H5] Ha Hb Hc.
  - destruct (H2 _ _ Ha), (H2 _ _ Hb). left. split; congruence.
  - destruct (H5 _ _ Ha) as [[? ?]|[? ?]], (H5 _ _ Hb) as [[? ?]|[? ?]],
      (H5 _ _ Hc) as [[? ?]|[? ?]]; subst; auto.
Qed.

Lemma class_same_face c a L e1 f1 e2 f2 :
  face_class c a L ->
  in_class c a L e1 f1 -> in_class c a L e2 f2 ->
  (e1 = e2 /\ f1 = f2) \/
  (e1 <> e2 /\ (faces_match ET c0 e1 f1 e2 f2 = true \/
                faces_match ET c0 e2 f2 e1 f1 = true)).
Proof.
  intros [x y H1 H2|x y x2 y2 H1 H2 H3 H4 H5] Ha Hb.
  - destruct (H2 _ _ Ha), (H2 _ _ Hb). left. split; congruence.
  - destruct (H5 _ _ Ha) as [[? ?]|[? ?]], (H5 _ _ Hb) as [[? ?]|[? ?]];
      subst; auto.
Qed.

Lemma assign_step c c' a0 (X : Z -> Z -> bool) :
  face_inv c ->
  a0 = 3 \/ a0 = 4 ->
  ntri_faces c + nquad_faces c < NO_LABEL ->
  same_mesh c c' -> faces_allocated ET c' ->
  ntri_faces c' = (if a0 =? 3 then face_counter a0 c + 1 else ntri_faces c) ->
  nquad_faces c' = (if a0 =? 3 then nquad_faces c else face_counter a0 c + 1) ->
  (forall e f, X e f = true ->
     face_valid ET c0 e f /\ face_arity ET c0 e f = a0 /\
     face_label ET c e f = NO_LABEL) ->
  (forall e f, face_valid ET c0 e f -> X e f = true ->
     face_label ET c' e f = face_counter a0 c) ->
  (forall e f, face_valid ET c0 e f -> X e f = false ->
     face_label ET c' e f = face_label ET c e f) ->
  ((exists e f, X e f = true /\
      forall e' f', X e' f' = true -> e' = e /\ f' = f) \/
   (exists e f e2 f2, X e f = true /\ X e2 f2 = true /\ e <> e2 /\
      faces_match ET c0 e f e2 f2 = true /\
      forall e' f', X e' f' = true ->
                    (e' = e /\ f' = f) \/ (e' = e2 /\ f' = f2))) ->
  face_inv c'.
Proof.
  intros Hinv Ha Hb Hm Hal Hnt Hnq HX Hin Hout Hshape.
  destruct Hinv as [Im Ial Int Inq Ity Icl].
  set (L0 := face_counter a0 c) in *.
  assert (HL0 : 0 <= L0 < NO_LABEL).
  { unfold L0, face_counter. destruct (a0 =? 3); lia. }
  assert (Hcnt : forall a, a = 3 \/ a = 4 ->
            face_counter a c' = if a =? a0 then L0 + 1 else face_counter a c).
  { intros a [->| ->]; destruct Ha as [->| ->]; unfold face_counter in *;
      simpl in *; lia. }
  assert (HinX : forall e f, in_class c' a0 L0 e f <-> X e f = true).
  { intros e f. split.
    - intros (Hv & Har & Hl). destruct (X e f) eqn:EX; auto. exfalso.
      rewrite (Hout _ _ Hv EX) in Hl.
      destruct (Ity _ _ Hv) as [T|T]; rewrite ?Har in T; fold L0 in T; lia.
    - intros EX. destruct (HX _ _ EX) as (Hv & Har & Hl).
      repeat split; auto; try apply Hv. }
  constructor; auto.
  - apply same_mesh_trans with c; auto.
  - rewrite Hnt. destruct (a0 =? 3); lia.
  - rewrite Hnq. destruct (a0 =? 3); lia.
  - intros e f Hv. destruct (X e f) eqn:EX.
    + right. rewrite (Hin _ _ Hv EX). destruct (HX _ _ EX) as (_ & Har & _).
      rewrite Har, (Hcnt a0 Ha), Z.eqb_refl. lia.
    + rewrite (Hout _ _ Hv EX). destruct (Ity _ _ Hv) as [T|T]; auto. right.
      rewrite (Hcnt _ (face_arity_cases ET c0 e f)).
      destruct (_ =? a0) eqn:E; [apply Z.eqb_eq in E; rewrite E in T|];
        fold L0 in T; lia.
  - intros a L Haa HL. rewrite (Hcnt a Haa) in HL.
    destruct (Z.eqb_spec a a0) as [->|Hne].
    + destruct (Z.eq_dec L L0) as [->|HneL].
      * destruct Hshape as [(e & f & X1 & X2)|(e & f & e2 & f2 & X1 & X2 & X3 & X4 & X5)].
        -- apply class_one with e f; [now apply HinX|].
           intros e' f' H. apply X2. now apply HinX.
        -- apply class_two with e f e2 f2; auto; try now apply HinX.
           intros e' f' H. apply X5. now apply HinX.
      * apply face_class_ext with c; [|apply Icl; auto; fold L0; lia].
        intros e f. unfold in_class. split; intros (Hv & Har & Hl).
        -- destruct (X e f) eqn:EX.
           ++ destruct (HX _ _ EX) as (_ & _ & Hn). lia.
           ++ rewrite (Hout _ _ Hv EX). auto.
        -- destruct (X e f) eqn:EX.
           ++ rewrite (Hin _ _ Hv EX) in Hl. fold L0 in Hl. lia.
           ++ rewrite (Hout _ _ Hv EX) in Hl. auto.
    + assert (HLn : L < NO_LABEL).
      { unfold face_counter in HL. destruct (a =? 3); lia. }
      apply face_class_ext with c; [|apply Icl; auto].
      intros e f. unfold in_class. split; intros (Hv & Har & Hl).
      * destruct (X e f) eqn:EX.
        -- destruct (HX _ _ EX) as (_ & _ & Hn). lia.
        -- rewrite (Hout _ _ Hv EX). auto.
      * destruct (X e f) eqn:EX.
        -- destruct (HX _ _ EX) as (_ & Har' & _). congruence.
        -- rewrite (Hout _ _ Hv EX) in Hl. auto.
Qed.

End FaceClasses.

Section FaceLabelling.

Variable ET : ElementTypes.
Variable c0 : Conn.
Hypothesis Hok0 : faces_ok ET c0.
Hypothesis Htot : total_faces ET c0 <= Index.max.

Lemma slot_eqb_spec (e f e' f' : Z) :
  reflect (e' = e /\ f' = f) ((e' =? e) && (f' =? f)).
Proof.
  destruct (Z.eqb_spec e' e), (Z.eqb_spec f' f); simpl; constructor; intuition.
Qed.

Lemma bump_ntri a c :
  0 <= ntri_faces c -> 0 <= nquad_faces c ->
  ntri_faces c + nquad_faces c < Index.max ->
  ntri_faces (bump_counter a c)
  = if a =? 3 then face_counter a c + 1 else ntri_faces c.
Proof.
  intros H1 H2 H3. unfold bump_counter, face_counter.
  destruct (a =? 3); simpl; auto.
  apply Index.add_small. apply ok_of_bounds. lia.
Qed.

Lemma bump_nquad a c :
  0 <= ntri_faces c -> 0 <= nquad_faces c ->
  ntri_faces c + nquad_faces c < Index.max ->
  nquad_faces (bump_counter a c)
  = if a =? 3 then nquad_faces c else face_counter a c + 1.
Proof.
  intros H1 H2 H3. unfold bump_counter, face_counter.
  destruct (a =? 3); simpl; auto.
  apply Index.add_small. apply ok_of_bounds. lia.
Qed.

Lemma face_inv_ok c : face_inv ET c0 c -> faces_ok ET c.
Proof.
  intros H. apply faces_ok_counts with c0; auto.
  apply same_mesh_counts, H.
Qed.

Lemma face_inv_valid c e f :
  face_inv ET c0 c -> face_valid ET c e f <-> face_valid ET c0 e f.
Proof. intros H. apply face_valid_counts, same_mesh_counts, H. Qed.

Lemma assign_one_inv c e f :
  face_inv ET c0 c -> face_valid ET c0 e f ->
  face_label ET c e f = NO_LABEL ->
  ntri_faces c + nquad_faces c < NO_LABEL ->
  let c' := assign_one ET (face_arity ET c e f) c e f in
  face_inv ET c0 c' /\
  ntri_faces c' + nquad_faces c' = ntri_faces c + nquad_faces c + 1 /\
  face_label ET c' e f <> NO_LABEL /\
  (forall e' f', face_valid ET c0 e' f' -> face_label ET c e' f' <> NO_LABEL ->
                 face_label ET c' e' f' = face_label ET c e' f').
Proof.
  intros Hinv Hv Hl Hb c'.
  assert (Hok := face_inv_ok Hinv).
  assert (Hvc : face_valid ET c e f) by (now apply (face_inv_valid _ _ Hinv)).
  assert (Har : face_arity ET c e f = face_arity ET c0 e f)
    by (apply face_arity_mesh, Hinv).
  set (a0 := face_arity ET c e f) in *.
  assert (Ha : a0 = 3 \/ a0 = 4) by apply face_arity_cases.
  assert (Hlab : forall e' f', face_valid ET c0 e' f' ->
     face_label ET c' e' f'
     = if (e' =? e) && (f' =? f) then face_counter a0 c else face_label ET c e' f').
  { intros e' f' Hv'. unfold c', assign_one. rewrite face_label_bump.
    destruct (slot_eqb_spec e f e' f') as [[-> ->]|Hne].
    - apply face_label_set_eq; auto. apply Hinv.
    - apply face_label_set_ne; auto; try apply Hinv.
      + now apply (face_inv_valid _ _ Hinv).
      + intros [= -> ->]. auto. }
  assert (Hnt := @bump_ntri a0 (set_face_label ET c e f (face_counter a0 c))).
  assert (Hnq := @bump_nquad a0 (set_face_label ET c e f (face_counter a0 c))).
  rewrite !(counter_set_face_label _ _ Hok Hvc) in Hnt, Hnq.
  assert (E1 : ntri_faces (set_face_label ET c e f (face_counter a0 c)) = ntri_faces c)
    by (apply (counter_set_face_label 3 _ Hok Hvc)).
  assert (E2 : nquad_faces (set_face_label ET c e f (face_counter a0 c)) = nquad_faces c)
    by (apply (counter_set_face_label 4 _ Hok Hvc)).
  rewrite E1, E2 in Hnt, Hnq.
  pose proof (fi_ntri Hinv) as Int. pose proof (fi_nquad Hinv) as Inq.
  pose proof (fi_alloc Hinv) as Ial.
  specialize (Hnt Int Inq Hb). specialize (Hnq Int Inq Hb).
  fold (assign_one ET a0 c e f) in Hnt, Hnq. fold c' in Hnt, Hnq.
  assert (I' : face_inv ET c0 c').
  { apply assign_step with (c := c) (a0 := a0)
      (X := fun e' f' => (e' =? e) && (f' =? f)); auto.
    - unfold c', assign_one.
      apply same_mesh_trans with (set_face_label ET c e f (face_counter a0 c)).
      + apply same_mesh_set_face_label; auto.
      + apply same_mesh_bump.
    - unfold c', assign_one. apply faces_allocated_bump, faces_allocated_set; auto.
    - intros e' f' HX. apply andb_true_iff in HX. destruct HX as [A B].
      apply Z.eqb_eq in A, B. subst e' f'.
      repeat split; auto; try apply Hv.
    - intros e' f' Hv' HX. rewrite (Hlab _ _ Hv'), HX. reflexivity.
    - intros e' f' Hv' HX. rewrite (Hlab _ _ Hv'), HX. reflexivity.
    - left. exists e, f. rewrite !Z.eqb_refl. split; auto.
      intros e' f' HX. apply andb_true_iff in HX. destruct HX as [A B].
      apply Z.eqb_eq in A, B. auto. }
  split; [exact I'|]. split.
  { rewrite Hnt, Hnq. unfold face_counter. destruct (a0 =? 3); lia. }
  split.
  { rewrite (Hlab _ _ Hv), !Z.eqb_refl. simpl.
    unfold face_counter. destruct (a0 =? 3); lia. }
  intros e' f' Hv' Hn. rewrite (Hlab _ _ Hv').
  destruct (slot_eqb_spec e f e' f') as [[-> ->]|]; [congruence|reflexivity].
Qed.

Lemma face_label_set c e f v e' f' :
  face_inv ET c0 c -> face_valid ET c0 e f -> face_valid ET c0 e' f' ->
  face_label ET (set_face_label ET c e f v) e' f'
  = if (e' =? e) && (f' =? f) then v else face_label ET c e' f'.
Proof.
  intros Hinv Hv Hv'. assert (Hok := face_inv_ok Hinv).
  apply (face_inv_valid _ _ Hinv) in Hv, Hv'.
  destruct (slot_eqb_spec e f e' f') as [[-> ->]|Hne].
  - apply face_label_set_eq; auto. apply Hinv.
  - apply face_label_set_ne; auto; try apply Hinv.
    intros [= -> ->]. auto.
Qed.

Lemma global_face_equality_arity na a nb b :
  global_face_equality na a nb b = true -> na = nb.
Proof.
  unfold global_face_equality. destruct (Z.eqb_spec na nb); [auto|discriminate].
Qed.

Lemma faces_match_arity c e f e' f' :
  faces_match ET c e f e' f' = true -> face_arity ET c e f = face_arity ET c e' f'.
Proof.
  unfold faces_match, face_arity.
  destruct (get_element_global_face_verts ET c e f (uninit 4)) as [n v].
  destruct (get_element_global_face_verts ET c e' f' (uninit 4)) as [n' v'].
  apply global_face_equality_arity.
Qed.

(** The invariant restricted to what a single store preserves: used for the
    intermediate state between the two stores of a match. *)
Lemma set_face_label_frame c e f v :
  face_inv ET c0 c -> face_valid ET c0 e f ->
  same_mesh c (set_face_label ET c e f v) /\
  faces_allocated ET (set_face_label ET c e f v) /\
  faces_ok ET (set_face_label ET c e f v) /\
  ntri_faces (set_face_label ET c e f v) = ntri_faces c /\
  nquad_faces (set_face_label ET c e f v) = nquad_faces c.
Proof.
  intros Hinv Hv. assert (Hok := face_inv_ok Hinv).
  apply (face_inv_valid _ _ Hinv) in Hv.
  assert (Hm := same_mesh_set_face_label v Hok Hv).
  split; [exact Hm|]. split; [|split; [|split]].
  - apply faces_allocated_set; auto. apply Hinv.
  - apply faces_ok_counts with c; auto. apply same_mesh_counts, Hm.
  - apply (counter_set_face_label 3 _ Hok Hv).
  - apply (counter_set_face_label 4 _ Hok Hv).
Qed.

Lemma assign_two_inv c e f adj adj_face :
  face_inv ET c0 c -> face_valid ET c0 e f ->
  face_label ET c e f = NO_LABEL ->
  face_valid ET c adj adj_face -> adj <> e ->
  face_label ET c adj adj_face = NO_LABEL ->
  faces_match ET c e f adj adj_face = true ->
  ntri_faces c + nquad_faces c < NO_LABEL ->
  let c' := assign_two ET (face_arity ET c e f) c e f adj adj_face in
  face_inv ET c0 c' /\
  ntri_faces c' + nquad_faces c' = ntri_faces c + nquad_faces c + 1 /\
  face_label ET c' e f <> NO_LABEL /\
  (forall e' f', face_valid ET c0 e' f' -> face_label ET c e' f' <> NO_LABEL ->
                 face_label ET c' e' f' = face_label ET c e' f').
Proof.
  intros Hinv Hv Hl Hva Hne Hla Hfm Hb c'.
  assert (Hok := face_inv_ok Hinv).
  assert (Hva0 : face_valid ET c0 adj adj_face)
    by (now apply (face_inv_valid _ _ Hinv)).
  assert (Har : face_arity ET c e f = face_arity ET c0 e f)
    by (apply face_arity_mesh, Hinv).
  assert (Har2 : face_arity ET c0 adj adj_face = face_arity ET c e f).
  { rewrite (faces_match_arity _ _ _ _ _ Hfm). symmetry.
    apply face_arity_mesh, Hinv. }
  set (a0 := face_arity ET c e f) in *.
  assert (Ha : a0 = 3 \/ a0 = 4) by apply face_arity_cases.
  set (L0 := face_counter a0 c) in *.
  set (c1 := set_face_label ET c adj adj_face L0).
  destruct (set_face_label_frame L0 Hinv Hva0) as (M1 & A1 & O1 & T1 & Q1).
  fold c1 in M1, A1, O1, T1, Q1.
  assert (Hv1 : face_valid ET c1 e f).
  { apply (face_valid_counts ET e f (same_mesh_counts M1)).
    now apply (face_inv_valid _ _ Hinv). }
  set (c2 := set_face_label ET c1 e f L0).
  assert (M2 := same_mesh_set_face_label L0 O1 Hv1). fold c2 in M2.
  assert (A2 : faces_allocated ET c2) by (apply faces_allocated_set; auto).
  assert (T2 : ntri_faces c2 = ntri_faces c).
  { unfold c2. rewrite (counter_set_face_label 3 _ O1 Hv1). exact T1. }
  assert (Q2 : nquad_faces c2 = nquad_faces c).
  { unfold c2. rewrite (counter_set_face_label 4 _ O1 Hv1). exact Q1. }
  assert (Ec' : c' = bump_counter a0 c2) by reflexivity.
  assert (Hlab : forall e' f', face_valid ET c0 e' f' ->
     face_label ET c' e' f'
     = if ((e' =? e) && (f' =? f)) || ((e' =? adj) && (f' =? adj_face))
       then L0 else face_label ET c e' f').
  { intros e' f' Hv'. rewrite Ec', face_label_bump. unfold c2.
    destruct (slot_eqb_spec e f e' f') as [[-> ->]|Hn1]; simpl orb.
    - apply face_label_set_eq; auto.
    - rewrite face_label_set_ne; auto.
      + unfold c1. apply face_label_set; auto.
      + apply (face_valid_counts ET e' f' (same_mesh_counts M1)).
        now apply (face_inv_valid _ _ Hinv).
      + intros [= -> ->]. auto. }
  pose proof (fi_ntri Hinv) as Int. pose proof (fi_nquad Hinv) as Inq.
  assert (Hnt := @bump_ntri a0 c2). assert (Hnq := @bump_nquad a0 c2).
  unfold face_counter in Hnt, Hnq. rewrite T2, Q2 in Hnt, Hnq.
  fold (face_counter a0 c) in Hnt, Hnq. fold L0 in Hnt, Hnq.
  specialize (Hnt Int Inq Hb). specialize (Hnq Int Inq Hb).
  rewrite <- Ec' in Hnt, Hnq.
  assert (I' : face_inv ET c0 c').
  { apply assign_step with (c := c) (a0 := a0)
      (X := fun e' f' => ((e' =? e) && (f' =? f)) || ((e' =? adj) && (f' =? adj_face)));
      auto.
    - rewrite Ec'. apply same_mesh_trans with c2; [|apply same_mesh_bump].
      apply same_mesh_trans with c1; auto.
    - rewrite Ec'. apply faces_allocated_bump; auto.
    - intros e' f' HX. apply orb_true_iff in HX.
      destruct HX as [HX|HX]; apply andb_true_iff in HX; destruct HX as [A B];
        apply Z.eqb_eq in A, B; subst e' f'; repeat split; auto;
        try apply Hv; try apply Hva0.
    - intros e' f' Hv' HX. rewrite (Hlab _ _ Hv'), HX. reflexivity.
    - intros e' f' Hv' HX. rewrite (Hlab _ _ Hv'), HX. reflexivity.
    - right. exists e, f, adj, adj_face. rewrite !Z.eqb_refl. simpl.
      rewrite orb_true_r. repeat split; auto.
      + rewrite <- Hfm. symmetry. apply faces_match_mesh, Hinv.
      + intros e' f' HX. apply orb_true_iff in HX.
        destruct HX as [HX|HX]; apply andb_true_iff in HX; destruct HX as [A B];
          apply Z.eqb_eq in A, B; auto. }
  split; [exact I'|]. split.
  { rewrite Hnt, Hnq. unfold L0, face_counter. destruct (a0 =? 3); lia. }
  split.
  { rewrite (Hlab _ _ Hv), !Z.eqb_refl. simpl.
    unfold L0, face_counter. destruct (a0 =? 3); lia. }
  intros e' f' Hv' Hn. rewrite (Hlab _ _ Hv').
  destruct (slot_eqb_spec e f e' f') as [[-> ->]|]; [congruence|].
  destruct (slot_eqb_spec adj adj_face e' f') as [[-> ->]|]; [congruence|].
  reflexivity.
Qed.

End FaceLabelling.

Section FacePass1.

Variable ET : ElementTypes.
Variable c0 : Conn.
Hypothesis Hok0 : faces_ok ET c0.
Hypothesis Htot : total_faces ET c0 <= Index.max.
Hypothesis Hadj0 : adjacency_nonneg c0.

Lemma num_faces_block c e :
  num_faces ET c e
  = block_size (TET_FACES ET) (HEX_FACES ET) (WEDGE_FACES ET) (PYRMD_FACES ET)
      tet_faces_ hex_faces_ wedge_faces_ pyrmd_faces_ c e.
Proof. reflexivity. Qed.

Lemma faces_before_succ e :
  0 <= e < total_elems c0 ->
  faces_before ET c0 (e + 1) = faces_before ET c0 e + num_faces ET c0 e.
Proof.
  intros He.
  destruct Hok0 as (Hc & P1 & P2 & P3 & P4 & B1 & B2 & B3 & B4 & D).
  destruct (partial_sums Hc) as (S1 & S2 & S3).
  destruct Hc as (C1 & C2 & C3 & C4 & C5).
  unfold total_elems in He.
  unfold num_faces, get_element_faces, faces_before.
  rewrite S3, S2, S1.
  repeat match goal with
         | |- context [?a <? ?b] => destruct (Z.ltb_spec a b); try lia
         end; simpl fst; try lia; nia.
Qed.

Lemma faces_before_0 : faces_before ET c0 0 = 0.
Proof.
  destruct Hok0 as (Hc & _). destruct Hc as (C1 & C2 & C3 & C4 & C5).
  unfold faces_before.
  repeat match goal with
         | |- context [?a <? ?b] => destruct (Z.ltb_spec a b); try lia
         end;
    try (replace (ntets c0) with 0 by lia);
    try (replace (nhex c0) with 0 by lia);
    try (replace (nwedge c0) with 0 by lia);
    try (replace (npyrmd c0) with 0 by lia); lia.
Qed.

Lemma faces_before_total : faces_before ET c0 (total_elems c0) = total_faces ET c0.
Proof.
  destruct Hok0 as (Hc & _). destruct Hc as (C1 & C2 & C3 & C4 & C5).
  unfold faces_before, total_faces, total_elems.
  repeat match goal with
         | |- context [?a <? ?b] => destruct (Z.ltb_spec a b); try lia
         end; nia.
Qed.

Lemma num_faces_nonneg e : 0 <= num_faces ET c0 e.
Proof.
  destruct Hok0 as (Hc & P1 & P2 & P3 & P4 & _).
  unfold num_faces, get_element_faces.
  repeat match goal with
         | |- context [if ?b then _ else _] => destruct b
         end; simpl; lia.
Qed.

Lemma faces_before_mono e e' :
  0 <= e <= e' -> e' <= total_elems c0 ->
  faces_before ET c0 e <= faces_before ET c0 e'.
Proof.
  intros He He'. 
  replace e' with (e + Z.of_nat (Z.to_nat (e' - e))) by lia.
  assert (Hb : e + Z.of_nat (Z.to_nat (e' - e)) <= total_elems c0) by lia.
  induction (Z.to_nat (e' - e)) as [|n IH].
  - replace (e + Z.of_nat 0) with e by lia. lia.
  - replace (e + Z.of_nat (S n)) with (e + Z.of_nat n + 1) in * by lia.
    rewrite faces_before_succ by lia.
    pose proof (num_faces_nonneg (e + Z.of_nat n)). lia.
Qed.

Lemma faces_before_valid e f :
  face_valid ET c0 e f -> faces_before ET c0 e + f < total_faces ET c0.
Proof.
  intros (He & Hf). fold (num_faces ET c0 e) in Hf.
  rewrite <- faces_before_total.
  pose proof (@faces_before_mono (e + 1) (total_elems c0)).
  rewrite faces_before_succ in H by lia.
  rewrite <- num_faces_block in Hf. lia.
Qed.

(** The state of the first pass when it reaches face [face] of [elem] *)
Definition pass1_inv (c : Conn) (elem face : Z) : Prop :=
  face_inv ET c0 c /\
  ntri_faces c + nquad_faces c <= faces_before ET c0 elem + face /\
  forall e f, face_valid ET c0 e f -> e < elem \/ (e = elem /\ f < face) ->
              face_label ET c e f <> NO_LABEL.

Lemma adjacency_nonneg_mesh c : same_mesh c0 c -> adjacency_nonneg c.
Proof.
  intros (_ & _ & _ & _ & _ & _ & _ & _ & _ & _ & _ & M) i.
  unfold vert_elements. rewrite M. apply Hadj0.
Qed.

Lemma label_face_step c elem face :
  face_valid ET c0 elem face -> pass1_inv c elem face ->
  pass1_inv (label_face ET elem (face_ptr ET c0 elem) face c) elem (face + 1).
Proof.
  intros Hv (Hinv & Hb & Hp).
  assert (Hok := face_inv_ok Hok0 Hinv).
  assert (Hvc : face_valid ET c elem face) by (now apply (face_inv_valid _ _ Hinv)).
  assert (Hadj := adjacency_nonneg_mesh (fi_mesh Hinv)).
  rewrite <- (face_ptr_counts ET elem (same_mesh_counts (fi_mesh Hinv))).
  destruct (label_face_outcome Hok Hvc Hadj) as [Hun Hlab].
  assert (Hlt := faces_before_valid Hv).
  assert (Hcnt : ntri_faces c + nquad_faces c < NO_LABEL).
  { unfold NO_LABEL. lia. }
  destruct (Z.eq_dec (face_label ET c elem face) NO_LABEL) as [E|E].
  - specialize (Hun E).
    assert (Hgen : forall c',
      face_inv ET c0 c' /\
      ntri_faces c' + nquad_faces c' = ntri_faces c + nquad_faces c + 1 /\
      face_label ET c' elem face <> NO_LABEL /\
      (forall e' f', face_valid ET c0 e' f' -> face_label ET c e' f' <> NO_LABEL ->
                     face_label ET c' e' f' = face_label ET c e' f') ->
      pass1_inv c' elem (face + 1)).
    { intros c' (I' & S' & L' & K'). split; [exact I'|]. split; [lia|].
      intros e f Hvf [Hlt'|[-> Hlt']].
      - rewrite K'; auto.
      - destruct (Z.eq_dec f face) as [->|Hnf]; auto.
        rewrite K'; auto; apply Hp; auto; right; split; auto; lia. }
    destruct Hun as [->|(adj & adj_face & H1 & H2 & H3 & H4 & ->)]; apply Hgen.
    + apply assign_one_inv; auto.
    + apply assign_two_inv; auto.
  - rewrite (Hlab E). split; [exact Hinv|]. split; [lia|].
    intros e f Hvf [Hlt'|[-> Hlt']].
    + apply Hp; auto.
    + destruct (Z.eq_dec f face) as [->|Hnf]; auto.
      apply Hp; auto. right; split; auto; lia.
Qed.

Lemma label_element_faces_step c elem :
  0 <= elem < total_elems c0 -> pass1_inv c elem 0 ->
  pass1_inv (label_element_faces ET elem c) (elem + 1) 0.
Proof.
  intros He Hinv. unfold label_element_faces.
  assert (Hm := fi_mesh (proj1 Hinv)).
  assert (Hok := face_inv_ok Hok0 (proj1 Hinv)).
  rewrite get_element_faces_valid; auto.
  2:{ unfold total_elems in *. destruct (same_mesh_counts Hm) as (E1 & E2 & E3 & E4).
      now rewrite E1, E2, E3, E4. }
  rewrite (face_ptr_counts ET elem (same_mesh_counts Hm)).
  rewrite num_faces_block, (block_size_counts _ _ _ _ _ _ _ _ _ (same_mesh_counts Hm)).
  rewrite <- num_faces_block.
  assert (Hfin : pass1_inv
    (for_range 0 (num_faces ET c0 elem) (label_face ET elem (face_ptr ET c0 elem)) c)
    elem (num_faces ET c0 elem)).
  { apply (@for_range_inv Conn (fun face c => pass1_inv c elem face)).
    - apply num_faces_nonneg.
    - exact Hinv.
    - intros j t Hj Ht. apply label_face_step; auto. split; auto. }
  destruct Hfin as (I' & B' & P'). split; [exact I'|]. split.
  - rewrite faces_before_succ by auto. lia.
  - intros e f Hvf [Hlt|[-> Hlt]]; [|destruct Hvf as (_ & ?); lia].
    apply P'; auto. destruct (Z.eq_dec e elem) as [->|]; [right|left; lia].
    split; auto. apply Hvf.
Qed.

Lemma label_all_faces c :
  pass1_inv c 0 0 ->
  pass1_inv (for_range 0 (total_elems c0) (label_element_faces ET) c)
    (total_elems c0) 0.
Proof.
  intros H.
  apply (@for_range_inv Conn (fun elem c => pass1_inv c elem 0)); auto.
  - destruct Hok0 as ((C1 & C2 & C3 & C4 & C5) & _). unfold total_elems. lia.
  - intros j t Hj Ht. apply label_element_faces_step; auto.
Qed.

End FacePass1.

Section FacePass2.

Variable ET : ElementTypes.
Variable c0 : Conn.
Hypothesis Hok0 : faces_ok ET c0.

(** The state at the start of the second pass *)
Variable c1 : Conn.
Hypothesis H1inv : face_inv ET c0 c1.
Hypothesis H1lab : forall e f, face_valid ET c0 e f -> face_label ET c1 e f <> NO_LABEL.
Hypothesis H1bound : 2 * (ntri_faces c1 + nquad_faces c1) <= Index.max.

Definition face_elems (a : Z) (c : Conn) : list Z :=
  if a =? 3 then tri_face_elements c else quad_face_elements c.

(** The face entries the loops have passed when they reach [(elem, face)] *)
Definition passed (elem face e f : Z) : Prop :=
  e < elem \/ (e = elem /\ f < face).

Definition passedb (elem face e f : Z) : bool :=
  (e <? elem) || ((e =? elem) && (f <? face)).

Lemma passedb_true elem face e f :
  passedb elem face e f = true <-> passed elem face e f.
Proof.
  unfold passed, passedb.
  rewrite orb_true_iff, andb_true_iff, !Z.ltb_lt, Z.eqb_eq. tauto.
Qed.

Lemma passedb_false elem face e f :
  passedb elem face e f = false <-> ~ passed elem face e f.
Proof.
  rewrite <- passedb_true. destruct (passedb elem face e f); split; congruence.
Qed.

Record pass2_inv (c : Conn) (elem face : Z) : Prop := {
  p2_mesh : same_mesh c0 c;
  p2_alloc : faces_allocated ET c;
  p2_ntri : ntri_faces c = ntri_faces c1;
  p2_nquad : nquad_faces c = nquad_faces c1;
  p2_len : forall a, a = 3 \/ a = 4 ->
     Arr.len (face_elems a c) = 2 * face_counter a c1;
  p2_label : forall e f, face_valid ET c0 e f ->
     face_label ET c e f
     = if passedb elem face e f && negb (face_arity ET c0 e f =? 3)
       then face_label ET c1 e f + ntri_faces c1 else face_label ET c1 e f;
  p2_first : forall a L, a = 3 \/ a = 4 -> 0 <= L < face_counter a c1 ->
     Arr.get (face_elems a c) (2 * L) = NO_LABEL ->
     Arr.get (face_elems a c) (2 * L + 1) = NO_LABEL;
  p2_slot0 : forall a L, a = 3 \/ a = 4 -> 0 <= L < face_counter a c1 ->
     Arr.get (face_elems a c) (2 * L) <> NO_LABEL ->
     exists f, in_class ET c0 c1 a L (Arr.get (face_elems a c) (2 * L)) f /\
               passed elem face (Arr.get (face_elems a c) (2 * L)) f;
  p2_slot1 : forall a L, a = 3 \/ a = 4 -> 0 <= L < face_counter a c1 ->
     Arr.get (face_elems a c) (2 * L + 1) <> NO_LABEL ->
     (exists f, in_class ET c0 c1 a L (Arr.get (face_elems a c) (2 * L + 1)) f /\
                passed elem face (Arr.get (face_elems a c) (2 * L + 1)) f) /\
     Arr.get (face_elems a c) (2 * L + 1) <> Arr.get (face_elems a c) (2 * L);
  p2_all : forall a L e f, a = 3 \/ a = 4 -> 0 <= L < face_counter a c1 ->
     in_class ET c0 c1 a L e f -> passed elem face e f ->
     e = Arr.get (face_elems a c) (2 * L) \/ e = Arr.get (face_elems a c) (2 * L + 1)
}.

Lemma face_label_set_array c b l e f :
  b <> tet_faces_ -> b <> hex_faces_ -> b <> wedge_faces_ -> b <> pyrmd_faces_ ->
  face_label ET (set_array c b l) e f = face_label ET c e f.
Proof.
  intros N1 N2 N3 N4. unfold face_label, entry, block_ptr, element_block.
  simpl ntets; simpl nhex; simpl nwedge; simpl npyrmd.
  repeat match goal with
         | |- context [if ?b then _ else _] => destruct b
         end; simpl; auto; unfold load; simpl p_arr; rewrite mem_set_array_ne; auto.
Qed.

Lemma same_mesh_set_array c b l :
  b = tri_face_elements_ \/ b = quad_face_elements_ ->
  same_mesh c (set_array c b l).
Proof.
  intros [->| ->]; unfold same_mesh; simpl; repeat split.
Qed.

Lemma faces_allocated_set_array c b l :
  b = tri_face_elements_ \/ b = quad_face_elements_ ->
  faces_allocated ET c -> faces_allocated ET (set_array c b l).
Proof.
  intros [->| ->] H; exact H.
Qed.

(** The update of the face to element array by one face entry *)
Definition record_in (arr : list Z) (L elem : Z) : list Z :=
  if Arr.get arr (2 * L) =? NO_LABEL then Arr.set arr (2 * L) elem
  else if Arr.get arr (2 * L + 1) =? NO_LABEL then Arr.set arr (2 * L + 1) elem
  else arr.

Lemma unpassed_label c elem face :
  face_valid ET c0 elem face -> pass2_inv c elem face ->
  face_label ET c elem face = face_label ET c1 elem face /\
  0 <= face_label ET c1 elem face < face_counter (face_arity ET c0 elem face) c1.
Proof.
  intros Hv Hinv. split.
  - rewrite (p2_label Hinv Hv).
    assert (E : passedb elem face elem face = false).
    { apply passedb_false. unfold passed. lia. }
    now rewrite E.
  - destruct (fi_typed H1inv Hv) as [T|T]; auto.
    exfalso. now apply (H1lab Hv).
Qed.

Lemma record_face_spec c elem face :
  face_valid ET c0 elem face -> pass2_inv c elem face ->
  let a := face_arity ET c0 elem face in
  let L := face_label ET c1 elem face in
  let c' := record_face ET elem (face_ptr ET c0 elem) face c in
  same_mesh c c' /\ faces_allocated ET c' /\
  ntri_faces c' = ntri_faces c /\ nquad_faces c' = nquad_faces c /\
  face_elems a c' = record_in (face_elems a c) L elem /\
  (forall a', (a' =? 3) <> (a =? 3) -> face_elems a' c' = face_elems a' c) /\
  (forall e f, face_valid ET c0 e f ->
     face_label ET c' e f
     = if (e =? elem) && (f =? face) && negb (a =? 3)
       then L + ntri_faces c1 else face_label ET c e f).
Proof.
  intros Hv Hinv a L c'.
  destruct (unpassed_label Hv Hinv) as [El HL]. fold L in El, HL. fold a in HL.
  assert (Hm := p2_mesh Hinv).
  assert (Hok : faces_ok ET c).
  { apply faces_ok_counts with c0; auto. apply same_mesh_counts, Hm. }
  assert (Hvc : face_valid ET c elem face).
  { apply (face_valid_counts ET elem face (same_mesh_counts Hm)); auto. }
  assert (Hb : 0 <= ntri_faces c1 /\ 0 <= nquad_faces c1).
  { split; apply H1inv. }
  assert (HL2 : 0 <= 2 * L + 1 <= Index.max /\ 0 <= L + ntri_faces c1 <= Index.max).
  { unfold face_counter in HL. destruct (a =? 3); lia. }
  assert (W1 : 2 *w L = 2 * L).
  { apply Index.mul_small, ok_of_bounds. lia. }
  assert (W2 : 2 * L +w 1 = 2 * L + 1).
  { apply Index.add_small, ok_of_bounds. lia. }
  assert (W3 : L +w ntri_faces c1 = L + ntri_faces c1).
  { apply Index.add_small, ok_of_bounds. lia. }
  assert (Ear : fst (get_element_global_face_verts ET c elem face (uninit 4)) = a).
  { apply (face_arity_mesh ET elem face Hm). }
  assert (Eptr : face_ptr ET c0 elem = face_ptr ET c elem).
  { symmetry. apply face_ptr_counts, same_mesh_counts, Hm. }
  unfold c', record_face.
  destruct (get_element_global_face_verts ET c elem face (uninit 4)) as [n v].
  simpl in Ear. subst n. rewrite Eptr.
  change (load_out c (face_ptr ET c elem) face) with (face_label ET c elem face).
  rewrite El, W1, W2.
  destruct (Z.eqb_spec a 3) as [Ea|Ea].
  - (* triangle *)
    assert (Hfe : face_elems a c = tri_face_elements c).
    { unfold face_elems. now rewrite Ea. }
    unfold record_in. rewrite Hfe.
    assert (Hother : forall a', (a' =? 3) <> true -> forall c2,
              quad_face_elements c2 = quad_face_elements c ->
              face_elems a' c2 = face_elems a' c).
    { intros a' Ha' c2 E2. unfold face_elems.
      destruct (a' =? 3); [congruence|exact E2]. }
    destruct (Arr.get (tri_face_elements c) (2 * L) =? NO_LABEL);
      [|destruct (Arr.get (tri_face_elements c) (2 * L + 1) =? NO_LABEL)].
    + split; [apply same_mesh_set_array; auto|].
      split; [apply faces_allocated_set_array; auto; apply Hinv|].
      split; [reflexivity|]. split; [reflexivity|].
      split; [unfold face_elems; rewrite Ea; reflexivity|].
      split; [intros a' Ha'; apply Hother; auto|].
      intros e f Hvf. rewrite andb_false_r.
      apply face_label_set_array; discriminate.
    + split; [apply same_mesh_set_array; auto|].
      split; [apply faces_allocated_set_array; auto; apply Hinv|].
      split; [reflexivity|]. split; [reflexivity|].
      split; [unfold face_elems; rewrite Ea; reflexivity|].
      split; [intros a' Ha'; apply Hother; auto|].
      intros e f Hvf. rewrite andb_false_r.
      apply face_label_set_array; discriminate.
    + split; [apply same_mesh_refl|]. split; [apply Hinv|].
      split; [reflexivity|]. split; [reflexivity|].
      split; [exact Hfe|]. split; [reflexivity|].
      intros e f Hvf. now rewrite andb_false_r.
  - (* quadrilateral *)
    assert (Hfe : face_elems a c = quad_face_elements c).
    { unfold face_elems. destruct (Z.eqb_spec a 3); [contradiction|reflexivity]. }
    unfold record_in. rewrite Hfe.
    set (c2 := if Arr.get (quad_face_elements c) (2 * L) =? NO_LABEL
               then set_array c quad_face_elements_
                      (Arr.set (quad_face_elements c) (2 * L) elem)
               else if Arr.get (quad_face_elements c) (2 * L + 1) =? NO_LABEL
               then set_array c quad_face_elements_
                      (Arr.set (quad_face_elements c) (2 * L + 1) elem)
               else c).
    assert (H2 : same_mesh c c2 /\ faces_allocated ET c2 /\
                 ntri_faces c2 = ntri_faces c /\ nquad_faces c2 = nquad_faces c /\
                 tri_face_elements c2 = tri_face_elements c /\
                 (forall e f, face_label ET c2 e f = face_label ET c e f) /\
                 quad_face_elements c2
                 = (if Arr.get (quad_face_elements c) (2 * L) =? NO_LABEL
                    then Arr.set (quad_face_elements c) (2 * L) elem
                    else if Arr.get (quad_face_elements c) (2 * L + 1) =? NO_LABEL
                    then Arr.set (quad_face_elements c) (2 * L + 1) elem
                    else quad_face_elements c)).
    { unfold c2.
      destruct (Arr.get (quad_face_elements c) (2 * L) =? NO_LABEL);
        [|destruct (Arr.get (quad_face_elements c) (2 * L + 1) =? NO_LABEL)].
      - split; [apply same_mesh_set_array; auto|].
        split; [apply faces_allocated_set_array; auto; apply Hinv|].
        repeat split; auto. intros e f. apply face_label_set_array; discriminate.
      - split; [apply same_mesh_set_array; auto|].
        split; [apply faces_allocated_set_array; auto; apply Hinv|].
        repeat split; auto. intros e f. apply face_label_set_array; discriminate.
      - split; [apply same_mesh_refl|]. split; [apply Hinv|]. repeat split; auto. }
    destruct H2 as (M2 & A2 & T2 & Q2 & Tri2 & Lab2 & Quad2).
    assert (Hok2 : faces_ok ET c2).
    { apply faces_ok_counts with c; auto. apply same_mesh_counts, M2. }
    assert (Hv2 : face_valid ET c2 elem face).
    { apply (face_valid_counts ET elem face (same_mesh_counts M2)); auto. }
    rewrite <- (face_ptr_counts ET elem (same_mesh_counts M2)).
    change (load_out c2 (face_ptr ET c2 elem) face) with (face_label ET c2 elem face).
    rewrite Lab2, El, T2, (p2_ntri Hinv), W3.
    change (store_out c2 (face_ptr ET c2 elem) face (L + ntri_faces c1))
      with (set_face_label ET c2 elem face (L + ntri_faces c1)).
    assert (M3 := same_mesh_set_face_label (L + ntri_faces c1) Hok2 Hv2).
    split; [apply same_mesh_trans with c2; auto|].
    split; [apply faces_allocated_set; auto|].
    split; [rewrite (counter_set_face_label 3 _ Hok2 Hv2);
            change (ntri_faces c2 = ntri_faces c1); rewrite T2;
            apply (p2_ntri Hinv)|].
    split; [rewrite (counter_set_face_label 4 _ Hok2 Hv2); exact Q2|].
    assert (Hmem : forall b, b = tri_face_elements_ \/ b = quad_face_elements_ ->
              mem (set_face_label ET c2 elem face (L + ntri_faces c1)) b = mem c2 b).
    { intros b Hb'. apply (set_entry_mem_other _ Hok2 Hv2);
        destruct Hb' as [->| ->]; discriminate. }
    split.
    { unfold face_elems. destruct (Z.eqb_spec a 3); [contradiction|].
      unfold quad_face_elements at 1. rewrite Hmem by auto. exact Quad2. }
    split.
    { intros a' Ha'. unfold face_elems.
      destruct (Z.eqb_spec a 3); [contradiction|].
      destruct (a' =? 3); [|congruence].
      unfold tri_face_elements at 1. rewrite Hmem by auto. exact Tri2. }
    intros e f Hvf.
    assert (Hvf2 : face_valid ET c2 e f).
    { apply (face_valid_counts ET e f (same_mesh_counts M2)).
      apply (face_valid_counts ET e f (same_mesh_counts Hm)); auto. }
    destruct (Z.eqb_spec a 3); [contradiction|]. simpl negb. rewrite andb_true_r.
    destruct (slot_eqb_spec elem face e f) as [[-> ->]|Hne].
    + apply face_label_set_eq; auto.
    + rewrite face_label_set_ne; auto. intros [= -> ->]. auto.
Qed.

Lemma len_record_in arr L elem : Arr.len (record_in arr L elem) = Arr.len arr.
Proof.
  unfold record_in.
  repeat match goal with |- context [if ?b then _ else _] => destruct b end;
    rewrite ?Arr.len_set; reflexivity.
Qed.

Lemma get_record_in_other arr L elem i :
  0 <= L -> 0 <= i -> i <> 2 * L -> i <> 2 * L + 1 ->
  Arr.get (record_in arr L elem) i = Arr.get arr i.
Proof.
  intros HL Hi N1 N2. unfold record_in.
  repeat match goal with |- context [if ?b then _ else _] => destruct b end;
    rewrite ?Arr.get_set_ne by lia; reflexivity.
Qed.

Lemma passed_succ elem face e f :
  passed elem (face + 1) e f <-> passed elem face e f \/ (e = elem /\ f = face).
Proof. unfold passed. lia. Qed.

Lemma face_elems_kind a a' c :
  (a' =? 3) = (a =? 3) -> face_elems a' c = face_elems a c.
Proof. unfold face_elems. now intros ->. Qed.

Lemma face_counter_kind a a' c :
  (a' =? 3) = (a =? 3) -> face_counter a' c = face_counter a c.
Proof. unfold face_counter. now intros ->. Qed.

Lemma valid_elem_not_sentinel e f : face_valid ET c0 e f -> e <> NO_LABEL.
Proof.
  intros ((He & He') & _). destruct Hok0 as ((C1 & C2 & C3 & C4 & C5) & _).
  unfold total_elems in He'. unfold NO_LABEL. lia.
Qed.

Lemma record_face_step c elem face :
  face_valid ET c0 elem face -> pass2_inv c elem face ->
  pass2_inv (record_face ET elem (face_ptr ET c0 elem) face c) elem (face + 1).
Proof.
  intros Hv Hinv.
  destruct (record_face_spec Hv Hinv) as (M & A & T & Q & Efe & Eother & Elab).
  destruct (unpassed_label Hv Hinv) as [El HL].
  set (a := face_arity ET c0 elem face) in *.
  set (L := face_label ET c1 elem face) in *.
  set (c' := record_face ET elem (face_ptr ET c0 elem) face c) in *.
  assert (Ha : a = 3 \/ a = 4) by apply face_arity_cases.
  assert (Hcls : in_class ET c0 c1 a L elem face).
  { repeat split; auto; apply Hv. }
  assert (Hkind : forall a', a' = 3 \/ a' = 4 -> (a' =? 3) = (a =? 3) -> a' = a).
  { intros a' [->| ->] E; destruct Ha as [->| ->]; auto; discriminate. }
  assert (Hunch : forall a' L', a' = 3 \/ a' = 4 -> 0 <= L' ->
            ~ (a' = a /\ L' = L) ->
            Arr.get (face_elems a' c') (2 * L') = Arr.get (face_elems a' c) (2 * L') /\
            Arr.get (face_elems a' c') (2 * L' + 1)
            = Arr.get (face_elems a' c) (2 * L' + 1)).
  { intros a' L' Ha' HL' Hne.
    destruct (Bool.bool_dec (a' =? 3) (a =? 3)) as [E|E].
    - rewrite (face_elems_kind _ _ c' E), (face_elems_kind _ _ c E), Efe.
      assert (L' <> L) by (intros ->; apply Hne; split; auto).
      split; apply get_record_in_other; lia.
    - rewrite (Eother _ E). auto. }
  assert (Hlen : Arr.len (face_elems a c) = 2 * face_counter a c1)
    by (apply (p2_len Hinv); auto).
  constructor.
  - apply same_mesh_trans with c; auto. apply Hinv.
  - exact A.
  - rewrite T. apply Hinv.
  - rewrite Q. apply Hinv.
  - intros a' Ha'. destruct (Bool.bool_dec (a' =? 3) (a =? 3)) as [E|E].
    + rewrite (face_elems_kind _ _ c' E), Efe, len_record_in, Hlen.
      now rewrite (face_counter_kind _ _ c1 E).
    + rewrite (Eother _ E). apply (p2_len Hinv); auto.
  - intros e f Hvf. rewrite (Elab _ _ Hvf), (p2_label Hinv Hvf).
    destruct (slot_eqb_spec elem face e f) as [[-> ->]|Hne].
    + fold a. fold L.
      assert (E1 : passedb elem (face + 1) elem face = true).
      { apply passedb_true. unfold passed. lia. }
      assert (E2 : passedb elem face elem face = false).
      { apply passedb_false. unfold passed. lia. }
      rewrite E1, E2. simpl. destruct (a =? 3); reflexivity.
    + simpl andb. cbv iota.
      assert (E : passedb elem (face + 1) e f = passedb elem face e f).
      { destruct (passedb elem face e f) eqn:E1.
        - apply passedb_true. apply passedb_true in E1. apply passed_succ. auto.
        - apply passedb_false. apply passedb_false in E1. rewrite passed_succ.
          tauto. }
      now rewrite E.
  - (* p2_first *)
    intros a' L' Ha' HL'. 
    destruct (Z.eq_dec a' a) as [->|Hna];
      [destruct (Z.eq_dec L' L) as [->|HnL]|].
    + rewrite Efe. unfold record_in.
      destruct (Z.eqb_spec (Arr.get (face_elems a c) (2 * L)) NO_LABEL) as [E0|E0].
      * rewrite Arr.get_set_eq by lia. intros E. exfalso.
        apply (valid_elem_not_sentinel Hv). exact E.
      * destruct (Z.eqb_spec (Arr.get (face_elems a c) (2 * L + 1)) NO_LABEL);
          [rewrite Arr.get_set_ne by lia|]; intros E; contradiction.
    + destruct (@Hunch a L' Ha' (proj1 HL')) as [-> ->]; [tauto|].
      apply (p2_first Hinv); auto.
    + destruct (@Hunch a' L' Ha' (proj1 HL')) as [-> ->]; [tauto|].
      apply (p2_first Hinv); auto.
  - (* p2_slot0 *)
    intros a' L' Ha' HL'.
    assert (Hold : Arr.get (face_elems a' c) (2 * L') <> NO_LABEL ->
      exists f, in_class ET c0 c1 a' L' (Arr.get (face_elems a' c) (2 * L')) f /\
                passed elem (face + 1) (Arr.get (face_elems a' c) (2 * L')) f).
    { intros Hn. destruct (p2_slot0 Hinv Ha' HL' Hn) as (f & F1 & F2).
      exists f. split; auto. apply passed_succ. auto. }
    destruct (Z.eq_dec a' a) as [->|Hna];
      [destruct (Z.eq_dec L' L) as [->|HnL]|].
    + rewrite Efe. unfold record_in.
      destruct (Z.eqb_spec (Arr.get (face_elems a c) (2 * L)) NO_LABEL) as [E0|E0].
      * rewrite Arr.get_set_eq by lia. intros _. exists face. split; auto.
        apply passed_succ. auto.
      * destruct (Z.eqb_spec (Arr.get (face_elems a c) (2 * L + 1)) NO_LABEL);
          [rewrite Arr.get_set_ne by lia|]; auto.
    + destruct (@Hunch a L' Ha' (proj1 HL')) as [-> _]; [tauto|]. auto.
    + destruct (@Hunch a' L' Ha' (proj1 HL')) as [-> _]; [tauto|]. auto.
  - (* p2_slot1 *)
    intros a' L' Ha' HL'.
    assert (Hold : Arr.get (face_elems a' c) (2 * L' + 1) <> NO_LABEL ->
      (exists f, in_class ET c0 c1 a' L' (Arr.get (face_elems a' c) (2 * L' + 1)) f /\
                 passed elem (face + 1) (Arr.get (face_elems a' c) (2 * L' + 1)) f) /\
      Arr.get (face_elems a' c) (2 * L' + 1) <> Arr.get (face_elems a' c) (2 * L')).
    { intros Hn. destruct (p2_slot1 Hinv Ha' HL' Hn) as ((f & F1 & F2) & F3).
      split; auto. exists f. split; auto. apply passed_succ. auto. }
    destruct (Z.eq_dec a' a) as [->|Hna];
      [destruct (Z.eq_dec L' L) as [->|HnL]|].
    + rewrite Efe. unfold record_in.
      destruct (Z.eqb_spec (Arr.get (face_elems a c) (2 * L)) NO_LABEL) as [E0|E0].
      * rewrite Arr.get_set_ne by lia. rewrite Arr.get_set_eq by lia.
        intros Hn. exfalso. apply Hn. apply (p2_first Hinv); auto.
      * destruct (Z.eqb_spec (Arr.get (face_elems a c) (2 * L + 1)) NO_LABEL)
          as [E1|E1]; auto.
        rewrite Arr.get_set_eq by lia. rewrite Arr.get_set_ne by lia.
        intros _. split.
        { exists face. split; auto. apply passed_succ. auto. }
        destruct (p2_slot0 Hinv Ha HL E0) as (f0 & F1 & F2).
        intros Heq. rewrite <- Heq in F1, F2.
        assert (f0 = face).
        { apply (class_same_elem (fi_class H1inv Ha HL) F1 Hcls). }
        unfold passed in F2. lia.
    + destruct (@Hunch a L' Ha' (proj1 HL')) as [-> ->]; [tauto|]. auto.
    + destruct (@Hunch a' L' Ha' (proj1 HL')) as [-> ->]; [tauto|]. auto.
  - (* p2_all *)
    intros a' L' e f Ha' HL' Hc Hp. apply passed_succ in Hp.
    destruct (Z.eq_dec a' a) as [->|Hna];
      [destruct (Z.eq_dec L' L) as [->|HnL]|].
    + assert (Hen : e <> NO_LABEL) by (apply (@valid_elem_not_sentinel e f), Hc).
      rewrite Efe. unfold record_in.
      destruct (Z.eqb_spec (Arr.get (face_elems a c) (2 * L)) NO_LABEL) as [E0|E0].
      * rewrite Arr.get_set_eq by lia. rewrite Arr.get_set_ne by lia.
        destruct Hp as [Hp|[-> _]]; auto.
        destruct (p2_all Hinv Ha HL Hc Hp) as [E|E].
        -- congruence.
        -- rewrite (p2_first Hinv Ha HL E0) in E. congruence.
      * destruct (Z.eqb_spec (Arr.get (face_elems a c) (2 * L + 1)) NO_LABEL)
          as [E1|E1].
        -- rewrite Arr.get_set_eq by lia. rewrite Arr.get_set_ne by lia.
           destruct Hp as [Hp|[-> _]]; auto.
           destruct (p2_all Hinv Ha HL Hc Hp) as [E|E]; auto. congruence.
        -- destruct Hp as [Hp|[-> ->]]; [apply (p2_all Hinv Ha HL Hc Hp)|].
           exfalso.
           destruct (p2_slot0 Hinv Ha HL E0) as (f0 & F1 & F2).
           destruct (p2_slot1 Hinv Ha HL E1) as ((f1 & G1 & G2) & G3).
           destruct (class_at_most_two (fi_class H1inv Ha HL) F1 G1 Hcls)
             as [[X Y]|[[X Y]|[X Y]]].
           ++ congruence.
           ++ rewrite X, Y in F2. unfold passed in F2. lia.
           ++ rewrite X, Y in G2. unfold passed in G2. lia.
    + destruct (@Hunch a L' Ha' (proj1 HL')) as [-> ->]; [tauto|].
      destruct Hp as [Hp|[-> ->]]; [apply (p2_all Hinv Ha' HL' Hc Hp)|].
      exfalso. apply HnL. destruct Hc as (_ & _ & Hc). exact (eq_sym Hc).
    + destruct (@Hunch a' L' Ha' (proj1 HL')) as [-> ->]; [tauto|].
      destruct Hp as [Hp|[-> ->]]; [apply (p2_all Hinv Ha' HL' Hc Hp)|].
      exfalso. apply Hna. destruct Hc as (_ & Hc & _). exact (eq_sym Hc).
Qed.

End FacePass2.

Section FacePass2Loops.

Variable ET : ElementTypes.
Variable c0 : Conn.
Hypothesis Hok0 : faces_ok ET c0.
Variable c1 : Conn.
Hypothesis H1inv : face_inv ET c0 c1.
Hypothesis H1lab : forall e f, face_valid ET c0 e f -> face_label ET c1 e f <> NO_LABEL.
Hypothesis H1bound : 2 * (ntri_faces c1 + nquad_faces c1) <= Index.max.

Lemma passed_next elem e f :
  face_valid ET c0 e f ->
  passed (elem + 1) 0 e f <-> passed elem (num_faces ET c0 elem) e f.
Proof.
  intros (_ & Hf). rewrite <- num_faces_block in Hf. unfold passed. split.
  - intros [H|[-> H]]; [|lia]. destruct (Z.eq_dec e elem) as [->|]; [right|left]; lia.
  - intros [H|[-> H]]; left; lia.
Qed.

Lemma passedb_next elem e f :
  face_valid ET c0 e f ->
  passedb (elem + 1) 0 e f = passedb elem (num_faces ET c0 elem) e f.
Proof.
  intros Hv. destruct (passedb elem (num_faces ET c0 elem) e f) eqn:E.
  - apply passedb_true, passed_next; auto. now apply passedb_true.
  - apply passedb_false. rewrite passed_next by auto. now apply passedb_false.
Qed.

Lemma pass2_inv_next c elem :
  pass2_inv ET c0 c1 c elem (num_faces ET c0 elem) ->
  pass2_inv ET c0 c1 c (elem + 1) 0.
Proof.
  intros H. constructor; try apply H.
  - intros e f Hv. rewrite (p2_label H Hv), passedb_next; auto.
  - intros a L Ha HL Hn. destruct (p2_slot0 H Ha HL Hn) as (f & F1 & F2).
    exists f. split; auto. apply passed_next; auto. apply F1.
  - intros a L Ha HL Hn. destruct (p2_slot1 H Ha HL Hn) as ((f & F1 & F2) & F3).
    split; auto. exists f. split; auto. apply passed_next; auto. apply F1.
  - intros a L e f Ha HL Hc Hp. apply (p2_all H Ha HL Hc).
    apply passed_next; auto. apply Hc.
Qed.

Lemma record_element_faces_step c elem :
  0 <= elem < total_elems c0 -> pass2_inv ET c0 c1 c elem 0 ->
  pass2_inv ET c0 c1 (record_element_faces ET elem c) (elem + 1) 0.
Proof.
  intros He Hinv. unfold record_element_faces.
  assert (Hm := p2_mesh Hinv).
  assert (Hok : faces_ok ET c).
  { apply faces_ok_counts with c0; auto. apply same_mesh_counts, Hm. }
  rewrite get_element_faces_valid; auto.
  2:{ unfold total_elems in *. destruct (same_mesh_counts Hm) as (E1 & E2 & E3 & E4).
      now rewrite E1, E2, E3, E4. }
  rewrite (face_ptr_counts ET elem (same_mesh_counts Hm)).
  rewrite num_faces_block, (block_size_counts _ _ _ _ _ _ _ _ _ (same_mesh_counts Hm)).
  rewrite <- num_faces_block.
  apply pass2_inv_next.
  apply (@for_range_inv Conn (fun face c => pass2_inv ET c0 c1 c elem face)).
  - apply num_faces_nonneg; auto.
  - exact Hinv.
  - intros j t Hj Ht. apply record_face_step; auto. split; auto.
Qed.

Lemma record_all_faces c :
  pass2_inv ET c0 c1 c 0 0 ->
  pass2_inv ET c0 c1 (for_range 0 (total_elems c0) (record_element_faces ET) c)
    (total_elems c0) 0.
Proof.
  intros H.
  apply (@for_range_inv Conn (fun elem c => pass2_inv ET c0 c1 c elem 0)); auto.
  - destruct Hok0 as ((C1 & C2 & C3 & C4 & C5) & _). unfold total_elems. lia.
  - intros j t Hj Ht. apply record_element_faces_step; auto.
Qed.

End FacePass2Loops.

Section FaceSummary.

Variable ET : ElementTypes.
Variable c : Conn.
Hypothesis Hc : faces_ok ET c.
Hypothesis Hn : nelems c = total_elems c.
Hypothesis Htot : 2 * total_faces ET c <= Index.max.
Hypothesis Hadj : adjacency_nonneg c.

(** The state in which the first loop of [init_face_data] starts *)
Definition faces_start : Conn :=
  set_nfaces
    (set_nquad_faces
       (set_ntri_faces
          (set_array
             (set_array
                (set_array
                   (set_array c tet_faces_
                      (Arr.fill (TET_FACES ET *w ntets c) NO_LABEL))
                   hex_faces_ (Arr.fill (HEX_FACES ET *w nhex c) NO_LABEL))
                wedge_faces_ (Arr.fill (WEDGE_FACES ET *w nwedge c) NO_LABEL))
             pyrmd_faces_ (Arr.fill (PYRMD_FACES ET *w npyrmd c) NO_LABEL))
          0) 0) 0.

Lemma discover_faces_unfold :
  discover_faces ET c
  = for_range 0 (nelems c) (label_element_faces ET) faces_start.
Proof. reflexivity. Qed.

Lemma same_mesh_start : same_mesh c faces_start.
Proof. unfold same_mesh. simpl. repeat split. Qed.

Lemma faces_ok_start : faces_ok ET faces_start.
Proof. exact Hc. Qed.

Lemma total_faces_nonneg : 0 <= total_faces ET c.
Proof.
  destruct Hc as ((C1 & C2 & C3 & C4 & C5) & P1 & P2 & P3 & P4 & _).
  unfold total_faces. nia.
Qed.

Lemma faces_allocated_start : faces_allocated ET faces_start.
Proof.
  destruct Hc as ((C1 & C2 & C3 & C4 & C5) & P1 & P2 & P3 & P4 & B1 & B2 & B3 & B4 & _).
  unfold faces_allocated, blocks_allocated, faces_start. simpl.
  rewrite !Arr.len_fill, !Index.mul_small;
    try (apply ok_of_bounds; nia); try apply Index.wrap_ok; auto.
  all: try (rewrite Index.mul_small; [nia|apply ok_of_bounds; nia]).
Qed.

Lemma face_label_start e f :
  face_valid ET c e f -> face_label ET faces_start e f = NO_LABEL.
Proof.
  intros Hv.
  assert (Hv' : face_valid ET faces_start e f) by exact Hv.
  assert (B := block_addr_bounds faces_ok_start faces_allocated_start Hv').
  unfold face_label. rewrite entry_addr; [|exact faces_ok_start|apply Hv].
  destruct (block_addr _ _ _ _ _ _ _ _ faces_start e f) as [a p] eqn:Ea.
  simpl in B |- *.
  assert (Harr : a = tet_faces_ \/ a = hex_faces_ \/ a = wedge_faces_ \/ a = pyrmd_faces_).
  { unfold block_addr in Ea.
    repeat match type of Ea with
           | context [if ?b then _ else _] => destruct b
           end; inversion Ea; auto. }
  unfold Arr.len in B.
  destruct Harr as [->|[->|[->| ->]]]; simpl in B |- *;
    unfold Arr.fill in B; rewrite repeat_length in B;
    apply Arr.get_fill; lia.
Qed.

Lemma pass1_start : pass1_inv ET faces_start faces_start 0 0.
Proof.
  split; [|split].
  - constructor.
    + apply same_mesh_refl.
    + apply faces_allocated_start.
    + simpl. lia.
    + simpl. lia.
    + intros e f Hv. left. apply face_label_start. exact Hv.
    + intros a L Ha HL. exfalso. unfold face_counter in HL.
      destruct (a =? 3); simpl in HL; lia.
  - simpl. rewrite faces_before_0 by exact faces_ok_start. lia.
  - intros e f ((He & _) & (Hf & _)) [H|[-> H]]; lia.
Qed.

Lemma adjacency_start : adjacency_nonneg faces_start.
Proof. exact Hadj. Qed.

Lemma total_faces_start : total_faces ET faces_start = total_faces ET c.
Proof. reflexivity. Qed.

(** After the first loop *)
Lemma discover_faces_inv :
  face_inv ET faces_start (discover_faces ET c) /\
  ntri_faces (discover_faces ET c) + nquad_faces (discover_faces ET c)
  <= total_faces ET c /\
  forall e f, face_valid ET c e f -> face_label ET (discover_faces ET c) e f <> NO_LABEL.
Proof.
  pose proof total_faces_nonneg as Hnn.
  assert (Htot' : total_faces ET faces_start <= Index.max).
  { rewrite total_faces_start. lia. }
  pose proof (label_all_faces faces_ok_start Htot' adjacency_start pass1_start)
    as (I & B & P).
  rewrite faces_before_total in B by exact faces_ok_start.
  rewrite discover_faces_unfold, Hn.
  change (total_elems faces_start) with (total_elems c) in *.
  split; [exact I|]. split.
  - rewrite total_faces_start in B. lia.
  - intros e f Hv. apply P; [exact Hv|]. left. apply Hv.
Qed.

End FaceSummary.

Section FaceInvExt.

Variable ET : ElementTypes.
Variable c0 : Conn.

Lemma face_inv_ext c c' :
  face_inv ET c0 c -> same_mesh c c' -> faces_allocated ET c' ->
  ntri_faces c' = ntri_faces c -> nquad_faces c' = nquad_faces c ->
  (forall e f, face_label ET c' e f = face_label ET c e f) ->
  face_inv ET c0 c'.
Proof.
  intros H M A T Q E.
  assert (Hcnt : forall a, face_counter a c' = face_counter a c).
  { intros a. unfold face_counter. now rewrite T, Q. }
  constructor; auto.
  - apply same_mesh_trans with c; auto. apply H.
  - rewrite T. apply H.
  - rewrite Q. apply H.
  - intros e f Hv. rewrite E, Hcnt. apply (fi_typed H Hv).
  - intros a L Ha HL. rewrite Hcnt in HL.
    apply face_class_ext with c; [|apply (fi_class H Ha HL)].
    intros e f. unfold in_class. now rewrite E.
Qed.

End FaceInvExt.

Section FaceRecords.

Variable ET : ElementTypes.
Variable c0 : Conn.
Hypothesis Hok0 : faces_ok ET c0.
Hypothesis Hn0 : nelems c0 = total_elems c0.

(** The state after the first loop *)
Variable c1 : Conn.
Hypothesis H1inv : face_inv ET c0 c1.
Hypothesis H1lab : forall e f, face_valid ET c0 e f -> face_label ET c1 e f <> NO_LABEL.
Hypothesis H1bound : 2 * (ntri_faces c1 + nquad_faces c1) <= Index.max.

(** The state in which the second loop of [init_face_data] starts *)
Definition records_start : Conn :=
  set_array
    (set_array (set_nfaces c1 (ntri_faces c1 +w nquad_faces c1))
       tri_face_elements_ (Arr.fill (2 *w ntri_faces c1) NO_LABEL))
    quad_face_elements_ (Arr.fill (2 *w nquad_faces c1) NO_LABEL).

Lemma record_faces_unfold :
  record_faces ET c1
  = for_range 0 (nelems c1) (record_element_faces ET) records_start.
Proof. reflexivity. Qed.

Lemma records_start_labels e f :
  face_label ET records_start e f = face_label ET c1 e f.
Proof.
  unfold records_start.
  rewrite !face_label_set_array by discriminate. reflexivity.
Qed.

Lemma records_start_inv : face_inv ET c0 records_start.
Proof.
  apply face_inv_ext with c1; auto.
  - unfold same_mesh. repeat split.
  - apply (fi_alloc H1inv).
  - apply records_start_labels.
Qed.

Lemma records_start_counts :
  0 <= ntri_faces c1 /\ 0 <= nquad_faces c1 /\
  ntri_faces records_start = ntri_faces c1 /\
  nquad_faces records_start = nquad_faces c1 /\
  nfaces records_start = ntri_faces c1 + nquad_faces c1.
Proof.
  pose proof (fi_ntri H1inv). pose proof (fi_nquad H1inv).
  repeat split; auto.
  change (nfaces records_start) with (ntri_faces c1 +w nquad_faces c1).
  apply Index.add_small, ok_of_bounds. lia.
Qed.

Lemma pass2_start : pass2_inv ET c0 records_start records_start 0 0.
Proof.
  destruct records_start_counts as (T0 & Q0 & T & Q & F).
  assert (W1 : 2 *w ntri_faces c1 = 2 * ntri_faces c1).
  { apply Index.mul_small, ok_of_bounds. lia. }
  assert (W2 : 2 *w nquad_faces c1 = 2 * nquad_faces c1).
  { apply Index.mul_small, ok_of_bounds. lia. }
  assert (Etri : tri_face_elements records_start
                 = Arr.fill (2 * ntri_faces c1) NO_LABEL).
  { rewrite <- W1. reflexivity. }
  assert (Equad : quad_face_elements records_start
                  = Arr.fill (2 * nquad_faces c1) NO_LABEL).
  { rewrite <- W2. reflexivity. }
  assert (Hget : forall a L, a = 3 \/ a = 4 -> 0 <= L < face_counter a records_start ->
     Arr.get (face_elems a records_start) (2 * L) = NO_LABEL /\
     Arr.get (face_elems a records_start) (2 * L + 1) = NO_LABEL).
  { intros a L Ha HL. unfold face_elems, face_counter in *. rewrite T, Q in HL.
    destruct (a =? 3); rewrite ?Etri, ?Equad; split; apply Arr.get_fill; lia. }
  constructor; auto.
  - apply records_start_inv.
  - apply records_start_inv.
  - intros a Ha. unfold face_elems, face_counter. rewrite T, Q.
    destruct (a =? 3); rewrite ?Etri, ?Equad; apply Arr.len_fill; lia.
  - intros e f ((He & _) & (Hf & _)).
    assert (E : passedb 0 0 e f = false).
    { apply passedb_false. unfold passed. lia. }
    now rewrite E.
  - intros a L Ha HL _. apply Hget; auto.
  - intros a L Ha HL Hne. exfalso. apply Hne. apply Hget; auto.
  - intros a L Ha HL Hne. exfalso. apply Hne. apply Hget; auto.
  - intros a L e f Ha HL (((He & _) & (Hf & _)) & _) Hp. unfold passed in Hp. lia.
Qed.

(** The state of the object after the second loop *)
Lemma record_faces_inv :
  pass2_inv ET c0 records_start (record_faces ET c1) (total_elems c0) 0.
Proof.
  destruct records_start_counts as (T0 & Q0 & T & Q & F).
  rewrite record_faces_unfold.
  assert (E : nelems c1 = total_elems c0).
  { rewrite <- Hn0. destruct (fi_mesh H1inv) as (_ & _ & _ & _ & _ & E & _).
    exact E. }
  rewrite E.
  apply (@record_all_faces ET c0 Hok0 records_start).
  - apply records_start_inv.
  - intros e f Hv. rewrite records_start_labels. apply H1lab. exact Hv.
  - rewrite T, Q. lia.
  - apply pass2_start.
Qed.

End FaceRecords.

Section FaceCounts.

Variable ET : ElementTypes.

Lemma store_out_nfaces c p i v : nfaces (store_out c p i v) = nfaces c.
Proof. destruct p; reflexivity. Qed.

Lemma record_face_nfaces elem p face c :
  nfaces (record_face ET elem p face c) = nfaces c.
Proof.
  unfold record_face.
  destruct (get_element_global_face_verts ET c elem face (uninit 4)) as [n v].
  repeat match goal with |- context [if ?b then _ else _] => destruct b end;
    rewrite ?store_out_nfaces; reflexivity.
Qed.

Lemma record_element_faces_nfaces elem c :
  nfaces (record_element_faces ET elem c) = nfaces c.
Proof.
  unfold record_element_faces.
  destruct (get_element_faces ET c elem None) as [nf faces].
  apply (@for_range_preserves Conn (fun t => nfaces t = nfaces c)); auto.
  intros j t _ Ht. now rewrite record_face_nfaces.
Qed.

Lemma record_faces_nfaces c :
  nfaces (record_faces ET c) = ntri_faces c +w nquad_faces c.
Proof.
  rewrite record_faces_unfold.
  apply (@for_range_preserves Conn (fun t => nfaces t = _)); auto.
  intros j t _ Ht. now rewrite record_element_faces_nfaces.
Qed.

End FaceCounts.

Section FaceFacts.

Variable ET : ElementTypes.
Variable c0 : Conn.
Hypothesis Hok0 : faces_ok ET c0.
Hypothesis Hn0 : nelems c0 = total_elems c0.
Variable c1 : Conn.
Hypothesis H1inv : face_inv ET c0 c1.
Hypothesis H1lab : forall e f, face_valid ET c0 e f -> face_label ET c1 e f <> NO_LABEL.
Hypothesis H1bound : 2 * (ntri_faces c1 + nquad_faces c1) <= Index.max.

Let cs := records_start c1.
Let c2 := record_faces ET c1.

Lemma face_data_mesh : same_mesh c0 c2.
Proof. apply (p2_mesh (record_faces_inv Hok0 Hn0 H1inv H1lab H1bound)). Qed.

Lemma face_data_counts :
  0 <= ntri_faces c2 /\ 0 <= nquad_faces c2 /\
  ntri_faces c2 = ntri_faces c1 /\ nquad_faces c2 = nquad_faces c1 /\
  nfaces c2 = ntri_faces c2 + nquad_faces c2.
Proof.
  destruct (records_start_counts H1inv H1bound) as (T0 & Q0 & T & Q & F).
  pose proof (record_faces_inv Hok0 Hn0 H1inv H1lab H1bound) as I2.
  assert (E1 : ntri_faces c2 = ntri_faces c1) by (rewrite <- T; apply (p2_ntri I2)).
  assert (E2 : nquad_faces c2 = nquad_faces c1) by (rewrite <- Q; apply (p2_nquad I2)).
  assert (E3 : nfaces c2 = ntri_faces c1 + nquad_faces c1).
  { unfold c2. rewrite record_faces_nfaces.
    apply Index.add_small, ok_of_bounds. lia. }
  rewrite E1, E2, E3. repeat split; auto.
Qed.

Lemma face_label_first e f :
  face_valid ET c0 e f ->
  0 <= face_label ET c1 e f < face_counter (face_arity ET c0 e f) c1.
Proof.
  intros Hv.
  destruct (fi_typed H1inv Hv) as [T|T]; [exfalso; now apply (H1lab Hv)|exact T].
Qed.

Lemma face_label_final e f :
  face_valid ET c0 e f ->
  face_label ET c2 e f
  = if face_arity ET c0 e f =? 3 then face_label ET c1 e f
    else face_label ET c1 e f + ntri_faces c2.
Proof.
  intros Hv. pose proof (record_faces_inv Hok0 Hn0 H1inv H1lab H1bound) as I2.
  destruct face_data_counts as (_ & _ & E1 & _).
  fold c2 in I2. rewrite (p2_label I2 Hv).
  assert (E : passedb (total_elems c0) 0 e f = true).
  { apply passedb_true. left. apply Hv. }
  rewrite E, records_start_labels. simpl andb.
  change (ntri_faces (records_start c1)) with (ntri_faces c1).
  rewrite E1. destruct (face_arity ET c0 e f =? 3); reflexivity.
Qed.

(** The arity and the per-arity index of a global face index *)
Definition face_kind (F : Z) : Z := if F <? ntri_faces c2 then 3 else 4.
Definition face_local (F : Z) : Z :=
  if F <? ntri_faces c2 then F else F - ntri_faces c2.

Lemma face_label_final_class e f F :
  face_valid ET c0 e f ->
  face_label ET c2 e f = F <->
  in_class ET c0 cs (face_kind F) (face_local F) e f.
Proof.
  intros Hv. rewrite (face_label_final Hv).
  pose proof (face_label_first Hv) as HL.
  destruct face_data_counts as (T0 & Q0 & E1 & E2 & _).
  unfold in_class, face_kind, face_local. unfold cs. rewrite records_start_labels.
  unfold face_counter in HL. rewrite <- E1, <- E2 in HL.
  destruct (face_arity_cases ET c0 e f) as [Ha|Ha]; rewrite Ha in *; simpl in *.
  - destruct (Z.ltb_spec F (ntri_faces c2)); split; try lia; intuition lia.
  - destruct (Z.ltb_spec F (ntri_faces c2)); split; try lia; intuition lia.
Qed.

Lemma face_kind_local F :
  0 <= F < nfaces c2 ->
  (face_kind F = 3 \/ face_kind F = 4) /\
  0 <= face_local F < face_counter (face_kind F) cs.
Proof.
  intros HF. destruct face_data_counts as (T0 & Q0 & E1 & E2 & E3).
  destruct (records_start_counts H1inv H1bound) as (_ & _ & T & Q & _).
  unfold face_kind, face_local, face_counter. unfold cs. rewrite T, Q.
  rewrite <- E1, <- E2.
  destruct (Z.ltb_spec F (ntri_faces c2)); simpl; split; auto; lia.
Qed.

(** Element [e] has the global face [F] among its faces. *)
Definition has_face_in (e F : Z) : Prop :=
  exists f, face_valid ET c0 e f /\ face_label ET c2 e f = F.

Lemma has_face_class e F :
  has_face_in e F <-> exists f, in_class ET c0 cs (face_kind F) (face_local F) e f.
Proof.
  split; intros (f & H).
  - exists f. apply face_label_final_class; apply H.
  - exists f. assert (Hv : face_valid ET c0 e f) by apply H.
    split; auto. now apply face_label_final_class.
Qed.

(** The two entries of the face to element array for a global face *)
Definition stored_first (F : Z) : Z :=
  Arr.get (face_elems (face_kind F) c2) (2 * face_local F).
Definition stored_second (F : Z) : Z :=
  Arr.get (face_elems (face_kind F) c2) (2 * face_local F + 1).

Lemma get_face_elements_stored F :
  0 <= F < nfaces c2 ->
  get_face_elements c2 F
  = (stored_second F =? NO_LABEL, stored_first F, stored_second F).
Proof.
  intros HF. destruct face_data_counts as (T0 & Q0 & E1 & E2 & E3).
  rewrite <- E1, <- E2 in H1bound.
  unfold get_face_elements, stored_first, stored_second, face_kind, face_local,
    face_elems.
  destruct (Z.ltb_spec F (ntri_faces c2)); simpl.
  - rewrite !Index.mul_small, !Index.add_small; auto; apply ok_of_bounds; lia.
  - rewrite Index.sub_small by (apply ok_of_bounds; lia).
    rewrite !Index.mul_small, !Index.add_small; auto; apply ok_of_bounds; lia.
Qed.

Lemma stored_facts F :
  0 <= F < nfaces c2 ->
  has_face_in (stored_first F) F /\
  (stored_second F <> NO_LABEL ->
   has_face_in (stored_second F) F /\ stored_second F <> stored_first F) /\
  (forall e, has_face_in e F -> e = stored_first F \/ e = stored_second F).
Proof.
  intros HF. destruct (face_kind_local HF) as (Ha & HL).
  pose proof (record_faces_inv Hok0 Hn0 H1inv H1lab H1bound) as I2.
  fold c2 cs in I2.
  pose proof (records_start_inv H1inv) as I1. fold cs in I1.
  set (a := face_kind F) in *. set (L := face_local F) in *.
  assert (Hpassed : forall e f, in_class ET c0 cs a L e f -> passed (total_elems c0) 0 e f).
  { intros e f (Hv & _). left. apply Hv. }
  assert (Hall : forall e, has_face_in e F -> e = stored_first F \/ e = stored_second F).
  { intros e He. apply has_face_class in He. destruct He as (f & Hf).
    apply (p2_all I2 Ha HL Hf (Hpassed _ _ Hf)). }
  assert (Hmem : exists e f, in_class ET c0 cs a L e f).
  { destruct (fi_class I1 Ha HL) as [e f H1 _|e f e2 f2 H1 _ _ _ _]; eauto. }
  assert (H0 : stored_first F <> NO_LABEL).
  { intros E0. destruct Hmem as (e & f & Hm).
    assert (Hne := valid_elem_not_sentinel Hok0 (proj1 Hm)).
    destruct (p2_all I2 Ha HL Hm (Hpassed _ _ Hm)) as [E|E].
    - apply Hne. rewrite E. exact E0.
    - apply Hne. rewrite E. apply (p2_first I2 Ha HL E0). }
  split; [|split; [|exact Hall]].
  - apply has_face_class. destruct (p2_slot0 I2 Ha HL H0) as (f & Hf & _). eauto.
  - intros H1. destruct (p2_slot1 I2 Ha HL H1) as ((f & Hf & _) & Hd).
    split; auto. apply has_face_class. eauto.
Qed.

(** Two entries with the same global face index are the same entry, or
    entries of two different elements with matching sorted vertices. *)
Lemma same_face_label e f e' f' :
  face_valid ET c0 e f -> face_valid ET c0 e' f' ->
  face_label ET c2 e f = face_label ET c2 e' f' ->
  face_arity ET c0 e f = face_arity ET c0 e' f' /\
  ((e = e' /\ f = f') \/
   (e <> e' /\ (faces_match ET c0 e f e' f' = true \/
                faces_match ET c0 e' f' e f = true))).
Proof.
  intros Hv Hv' E.
  set (F := face_label ET c2 e f) in *.
  assert (H1 : in_class ET c0 cs (face_kind F) (face_local F) e f)
    by (apply face_label_final_class; auto).
  assert (H2 : in_class ET c0 cs (face_kind F) (face_local F) e' f')
    by (apply face_label_final_class; auto).
  split.
  { destruct H1 as (_ & -> & _), H2 as (_ & -> & _). reflexivity. }
  pose proof (records_start_inv H1inv) as I1. fold cs in I1.
  assert (HF : 0 <= F < nfaces c2).
  { destruct face_data_counts as (T0 & Q0 & E1 & E2 & E3).
    pose proof (face_label_first Hv) as HL. unfold F.
    rewrite (face_label_final Hv), E3. unfold face_counter in HL.
    rewrite <- E1, <- E2 in HL.
    destruct (face_arity ET c0 e f =? 3); lia. }
  destruct (face_kind_local HF) as (Ha & HL).
  apply (class_same_face (fi_class I1 Ha HL) H1 H2).
Qed.

End FaceFacts.

(** ** Frames: what a construction phase leaves untouched *)

Section Frames.

Variable ET : ElementTypes.

(** [c'] differs from [c] at most in [nedges] and in the arrays of [P]. *)
Definition frame (P : array_id -> Prop) (c c' : Conn) : Prop :=
  nverts c' = nverts c /\ ntets c' = ntets c /\ nhex c' = nhex c /\
  nwedge c' = nwedge c /\ npyrmd c' = npyrmd c /\ nelems c' = nelems c /\
  ntri_faces c' = ntri_faces c /\ nquad_faces c' = nquad_faces c /\
  nfaces c' = nfaces c /\
  forall a, ~ P a -> mem c' a = mem c a.

Lemma frame_refl P c : frame P c c.
Proof. unfold frame. repeat split. Qed.

Lemma frame_trans P c1 c2 c3 : frame P c1 c2 -> frame P c2 c3 -> frame P c1 c3.
Proof.
  unfold frame. intros (A1 & A2 & A3 & A4 & A5 & A6 & A7 & A8 & A9 & A)
    (B1 & B2 & B3 & B4 & B5 & B6 & B7 & B8 & B9 & B).
  repeat split; try congruence.
  intros a Ha. rewrite (B a Ha). apply A, Ha.
Qed.

Lemma frame_set_array (P : array_id -> Prop) c a l : P a -> frame P c (set_array c a l).
Proof.
  intros Ha. unfold frame. simpl. repeat split.
  intros b Hb. destruct (array_id_eqb_spec b a); [subst; contradiction|reflexivity].
Qed.

Lemma frame_set_nedges P c n : frame P c (set_nedges c n).
Proof. unfold frame. simpl. repeat split. Qed.

Lemma frame_store_out (P : array_id -> Prop) c p i v :
  (forall q, p = Some q -> P (p_arr q)) -> frame P c (store_out c p i v).
Proof.
  intros H. destruct p as [q|]; simpl; [|apply frame_refl].
  unfold store. apply frame_set_array. apply H. reflexivity.
Qed.

Lemma frame_for_range P c lo hi (body : Z -> Conn -> Conn) s :
  (forall j t, frame P c t -> frame P c (body j t)) ->
  frame P c s -> frame P c (for_range lo hi body s).
Proof.
  intros Hb Hs.
  apply (@for_range_preserves Conn (fun t => frame P c t)); auto.
Qed.

Definition adjacency_array (a : array_id) : Prop :=
  a = vert_element_ptr_ \/ a = vert_elements_.

Definition edge_array (a : array_id) : Prop :=
  a = tet_edges_ \/ a = hex_edges_ \/ a = wedge_edges_ \/ a = pyrmd_edges_.

Lemma for_down_preserves {S : Type} (P : S -> Prop) (body : Z -> S -> S) n i s :
  (forall j t, P t -> P (body j t)) -> P s -> P (for_down n i body s).
Proof.
  intros Hb. revert i s. induction n as [|n IH]; intros i s Hs; simpl; auto.
Qed.

Lemma frame_init_vert_element_data c :
  frame adjacency_array c (init_vert_element_data ET c).
Proof.
  unfold init_vert_element_data.
  assert (Hset : forall t a l, adjacency_array a -> frame adjacency_array c t ->
                   frame adjacency_array c (set_array t a l)).
  { intros t a l Ha Ht. apply frame_trans with t; auto. now apply frame_set_array. }
  apply Hset; [left; reflexivity|].
  apply (@for_down_preserves Conn (fun t => frame adjacency_array c t)).
  { intros j t Ht. apply Hset; auto. left; reflexivity. }
  apply frame_for_range.
  { intros j t Ht. unfold scatter_element_verts.
    destruct (get_element_verts ET t j None) as [nv verts].
    apply frame_for_range; auto.
    intros i u Hu. apply Hset; [left; reflexivity|].
    apply Hset; [right; reflexivity|]. exact Hu. }
  apply Hset; [right; reflexivity|].
  apply frame_for_range.
  { intros j t Ht. apply Hset; auto. left; reflexivity. }
  apply frame_for_range.
  { intros j t Ht. unfold count_element_verts.
    destruct (get_element_verts ET t j None) as [nv verts].
    apply frame_for_range; auto.
    intros i u Hu. apply Hset; auto. left; reflexivity. }
  apply frame_set_array. left; reflexivity.
Qed.

Lemma get_element_edges_array c elem p q :
  snd (get_element_edges ET c elem None) = Some q -> p = p_arr q -> edge_array p.
Proof.
  unfold get_element_edges, edge_array.
  repeat match goal with |- context [if ?b then _ else _] => destruct b end;
    simpl; intros [= <-] ->; simpl; auto.
Qed.

Lemma frame_init_edge_data c : frame edge_array c (init_edge_data ET c).
Proof.
  unfold init_edge_data.
  assert (Hset : forall t a l, edge_array a -> frame edge_array c t ->
                   frame edge_array c (set_array t a l)).
  { intros t a l Ha Ht. apply frame_trans with t; auto. now apply frame_set_array. }
  assert (Hst : forall t p i v,
            (forall q, p = Some q -> edge_array (p_arr q)) ->
            frame edge_array c t -> frame edge_array c (store_out t p i v)).
  { intros t p i v Hp Ht. apply frame_trans with t; auto.
    now apply frame_store_out. }
  assert (Hptr : forall t elem q,
            snd (get_element_edges ET t elem None) = Some q -> edge_array (p_arr q)).
  { intros t elem q Hq. apply (@get_element_edges_array t elem (p_arr q) q); auto. }
  apply frame_for_range.
  { intros elem t Ht. unfold label_element_edges.
    pose proof (Hptr t elem) as Hp1.
    destruct (get_element_edges ET t elem None) as [ne elem_edges]. simpl in Hp1.
    apply frame_for_range; auto.
    intros e0 u Hu. unfold label_edge.
    destruct (load_out u elem_edges e0 =? NO_LABEL); auto.
    match goal with
    | |- context [get_adjacent_elements_from_vert ?x ?y ?z] =>
        destruct (get_adjacent_elements_from_vert x y z) as [nadj adj_elems]
    end.
    apply frame_for_range.
    - intros i w Hw. unfold mark_adj_edges.
      destruct (negb (load_out w adj_elems i =? elem)); auto.
      pose proof (Hptr w (load_out w adj_elems i)) as Hp2.
      destruct (get_element_edges ET w (load_out w adj_elems i) None)
        as [adj_ne adj_elem_edges]. simpl in Hp2.
      apply frame_for_range; auto.
      intros e1 x Hx.
      destruct (global_edge_equality _ _); auto.
    - apply Hst; auto. }
  do 4 (apply Hset; [unfold edge_array; auto 6|]).
  apply frame_set_nedges.
Qed.

End Frames.

Section AdjacencyNonneg.

Variable ET : ElementTypes.

Definition nonneg_entries (l : list Z) : Prop := Forall (fun x => 0 <= x) l.

Lemma nonneg_set_nat l n v : nonneg_entries l -> 0 <= v -> nonneg_entries (Arr.set_nat l n v).
Proof.
  intros H Hv. revert n. induction H as [|x l Hx Hl IH]; intros [|n]; simpl;
    constructor; auto. apply IH.
Qed.

Lemma nonneg_set l i v : nonneg_entries l -> 0 <= v -> nonneg_entries (Arr.set l i v).
Proof. intros. now apply nonneg_set_nat. Qed.

Lemma nonneg_get l i : nonneg_entries l -> 0 <= Arr.get l i.
Proof.
  intros H. unfold Arr.get. generalize (Z.to_nat i). clear i.
  induction H as [|x l Hx Hl IH]; intros [|n]; simpl; auto; lia.
Qed.

Lemma nonneg_fill n v : 0 <= v -> nonneg_entries (Arr.fill n v).
Proof.
  intros Hv. unfold Arr.fill, nonneg_entries.
  induction (Z.to_nat n); simpl; constructor; auto.
Qed.

Lemma adjacency_nonneg_init c :
  adjacency_nonneg (init_vert_element_data ET c).
Proof.
  assert (H : nonneg_entries (vert_elements (init_vert_element_data ET c))).
  { unfold init_vert_element_data.
    change (vert_elements (set_array ?t vert_element_ptr_ ?l)) with (vert_elements t).
    apply (@for_down_preserves Conn (fun t => nonneg_entries (vert_elements t))).
    { intros j t Ht. exact Ht. }
    apply (@for_range_preserves Conn (fun t => nonneg_entries (vert_elements t))).
    { intros j t Hj Ht. unfold scatter_element_verts.
      destruct (get_element_verts ET t j None) as [nv verts].
      apply (@for_range_preserves Conn (fun t => nonneg_entries (vert_elements t)));
        auto.
      intros i u Hi Hu.
      change (vert_elements (set_array ?t vert_element_ptr_ ?l)) with (vert_elements t).
      change (vert_elements (set_array ?t vert_elements_ ?l)) with l.
      apply nonneg_set; auto. lia. }
    change (vert_elements (set_array ?t vert_elements_ ?l)) with l.
    apply nonneg_fill. lia. }
  intros i. now apply nonneg_get.
Qed.

End AdjacencyNonneg.

Section FaceFrame.

Variable ET : ElementTypes.

Lemma face_label_frame c c' e f :
  same_counts c c' ->
  mem c' tet_faces_ = mem c tet_faces_ -> mem c' hex_faces_ = mem c hex_faces_ ->
  mem c' wedge_faces_ = mem c wedge_faces_ ->
  mem c' pyrmd_faces_ = mem c pyrmd_faces_ ->
  face_label ET c' e f = face_label ET c e f.
Proof.
  intros (E1 & E2 & E3 & E4) M1 M2 M3 M4.
  unfold face_label, entry, block_ptr, element_block. rewrite E1, E2, E3, E4.
  repeat match goal with
         | |- context [if ?b then _ else _] => destruct b
         end; simpl; auto; unfold load; simpl p_arr; congruence.
Qed.

Lemma frame_edge_same_mesh c c' : frame edge_array c c' -> same_mesh c c'.
Proof.
  intros (A1 & A2 & A3 & A4 & A5 & A6 & A7 & A8 & A9 & A).
  unfold same_mesh. repeat split; auto; apply A; unfold edge_array;
    intros [H|[H|[H|H]]]; discriminate.
Qed.

Lemma frame_edge_face_label c c' e f :
  frame edge_array c c' -> face_label ET c' e f = face_label ET c e f.
Proof.
  intros H. assert (M := frame_edge_same_mesh H).
  destruct H as (_ & _ & _ & _ & _ & _ & _ & _ & _ & A).
  apply face_label_frame; [apply same_mesh_counts, M| | | |];
    apply A; unfold edge_array; intros [H|[H|[H|H]]]; discriminate.
Qed.

Lemma frame_edge_get_face_elements c c' F :
  frame edge_array c c' -> get_face_elements c' F = get_face_elements c F.
Proof.
  intros (A1 & A2 & A3 & A4 & A5 & A6 & A7 & A8 & A9 & A).
  unfold get_face_elements, tri_face_elements, quad_face_elements.
  rewrite A7, !A; auto; unfold edge_array; intros [H|[H|[H|H]]]; discriminate.
Qed.

Lemma frame_adjacency_same c c' :
  frame adjacency_array c c' ->
  same_counts c c' /\ nelems c' = nelems c /\ nverts c' = nverts c /\
  mem c' tet_verts_ = mem c tet_verts_ /\ mem c' hex_verts_ = mem c hex_verts_ /\
  mem c' wedge_verts_ = mem c wedge_verts_ /\
  mem c' pyrmd_verts_ = mem c pyrmd_verts_.
Proof.
  intros (A1 & A2 & A3 & A4 & A5 & A6 & A7 & A8 & A9 & A).
  unfold same_counts. repeat split; auto; apply A; unfold adjacency_array;
    intros [H|H]; discriminate.
Qed.

End FaceFrame.

Section FaceTuples.

Variable ET : ElementTypes.

Lemma length_put3 v a b d : length (put3 v a b d) = length v.
Proof. unfold put3, Arr.set. now rewrite !Arr.length_set_nat. Qed.

Lemma length_put4 v a b d e : length (put4 v a b d e) = length v.
Proof. unfold put4, Arr.set. now rewrite !Arr.length_set_nat. Qed.

Lemma sort_face_verts_length n t v :
  length (snd (sort_face_verts n t v)) = length v.
Proof.
  unfold sort_face_verts.
  repeat match goal with |- context [if ?b then _ else _] => destruct b end;
    simpl; rewrite ?length_put3, ?length_put4; reflexivity.
Qed.

Lemma global_face_verts_length c e f v :
  length (snd (get_element_global_face_verts ET c e f v)) = length v.
Proof.
  unfold get_element_global_face_verts.
  destruct (get_element_face_verts ET c e f (uninit 4)) as [n t].
  apply sort_face_verts_length.
Qed.

Lemma global_face_equality_tuple n v n' v' :
  length v = 4%nat -> length v' = 4%nat -> (n = 3 \/ n = 4) ->
  global_face_equality n v n' v' = true ->
  n = n' /\ firstn (Z.to_nat n) v = firstn (Z.to_nat n') v'.
Proof.
  intros Lv Lv' Hn H. assert (E := global_face_equality_arity _ _ _ _ H).
  subst n'. split; auto.
  destruct v as [|a [|b [|d [|e [|]]]]]; try discriminate.
  destruct v' as [|a' [|b' [|d' [|e' [|]]]]]; try discriminate.
  unfold global_face_equality, Arr.get in H. rewrite Z.eqb_refl in H.
  destruct Hn as [->| ->]; simpl in H |- *;
    rewrite ?andb_true_iff, ?Z.eqb_eq in H; intuition congruence.
Qed.

Lemma faces_match_tuple c e f e' f' :
  faces_match ET c e f e' f' = true ->
  face_tuple ET c e f = face_tuple ET c e' f'.
Proof.
  unfold faces_match, face_tuple.
  pose proof (global_face_verts_length c e f (uninit 4)) as L1.
  pose proof (global_face_verts_length c e' f' (uninit 4)) as L2.
  pose proof (face_arity_cases ET c e f) as Ha. unfold face_arity in Ha.
  destruct (get_element_global_face_verts ET c e f (uninit 4)) as [n v].
  destruct (get_element_global_face_verts ET c e' f' (uninit 4)) as [n' v'].
  simpl in *. intros H.
  apply global_face_equality_tuple; auto.
Qed.

Lemma face_tuple_mesh c c' e f :
  same_mesh c c' -> face_tuple ET c' e f = face_tuple ET c e f.
Proof.
  intros H. unfold face_tuple. now rewrite (global_face_verts_mesh _ _ _ _ H).
Qed.

End FaceTuples.

Set Implicit Arguments.

(** ** Face data of a mesh whose adjacency has been built *)

Unset Implicit Arguments.

Section MeshFaceData.

Variable ET : ElementTypes.
Variable ca : Conn.
Hypothesis Hc : faces_ok ET ca.
Hypothesis Hn : nelems ca = total_elems ca.
Hypothesis Htot : 2 * total_faces ET ca <= Index.max.
Hypothesis Hadj : adjacency_nonneg ca.

(** The states of the object between the phases *)
Variables c0 c1 c2 m : Conn.
Hypothesis Hc0 : c0 = faces_start ET ca.
Hypothesis Hc1 : c1 = discover_faces ET ca.
Hypothesis Hc2 : c2 = record_faces ET c1.
Hypothesis Hm : m = init_edge_data ET c2.

Lemma c2_unfold : c2 = record_faces ET c1.
Proof. exact Hc2. Qed.

Lemma mfd_inv :
  face_inv ET c0 c1 /\
  (forall e f, face_valid ET c0 e f -> face_label ET c1 e f <> NO_LABEL) /\
  2 * (ntri_faces c1 + nquad_faces c1) <= Index.max.
Proof.
  destruct (discover_faces_inv Hc Hn Htot Hadj) as (I & B & P).
  rewrite <- Hc0, <- Hc1 in I. rewrite <- Hc1 in B, P.
  split; [exact I|]. split; [|lia].
  intros e f Hv. apply P. rewrite Hc0 in Hv. exact Hv.
Qed.

Lemma mfd_ok0 : faces_ok ET c0.
Proof. rewrite Hc0. exact (faces_ok_start Hc). Qed.

Lemma mfd_n0 : nelems c0 = total_elems c0.
Proof. rewrite Hc0. exact Hn. Qed.

Lemma mfd_frame : frame edge_array c2 m.
Proof. rewrite Hm. apply frame_init_edge_data. Qed.

Lemma mfd_mesh : same_mesh c0 m.
Proof.
  destruct mfd_inv as (I & P & B).
  apply same_mesh_trans with c2.
  - rewrite c2_unfold. apply (face_data_mesh mfd_ok0 mfd_n0 I P B).
  - apply frame_edge_same_mesh, mfd_frame.
Qed.

Lemma mfd_valid e f : face_valid ET m e f <-> face_valid ET c0 e f.
Proof. apply face_valid_counts, same_mesh_counts, mfd_mesh. Qed.

Lemma mfd_arity e f : face_arity ET m e f = face_arity ET c0 e f.
Proof. apply face_arity_mesh, mfd_mesh. Qed.

Lemma mfd_label e f : face_label ET m e f = face_label ET (record_faces ET c1) e f.
Proof. rewrite <- c2_unfold. apply frame_edge_face_label, mfd_frame. Qed.

Lemma mfd_counts :
  0 <= ntri_faces m /\ 0 <= nquad_faces m /\
  ntri_faces m = ntri_faces c1 /\ nquad_faces m = nquad_faces c1 /\
  nfaces m = ntri_faces m + nquad_faces m /\
  nelems m = total_elems m.
Proof.
  destruct mfd_inv as (I & P & B).
  destruct (face_data_counts mfd_ok0 mfd_n0 I P B) as (T0 & Q0 & E1 & E2 & E3).
  rewrite <- c2_unfold in T0, Q0, E1, E2, E3.
  destruct mfd_frame as (A1 & A2 & A3 & A4 & A5 & A6 & A7 & A8 & A9 & A).
  rewrite A7, A8, A9. repeat split; auto.
  destruct mfd_mesh as (B0 & B1 & B2 & B3 & B4 & B5 & _).
  unfold total_elems. rewrite B5, B1, B2, B3, B4. exact mfd_n0.
Qed.

(** The index an entry carries after the first loop of [init_face_data] *)
Lemma mfd_partition e f :
  face_valid ET m e f ->
  (face_arity ET m e f = 3 /\ 0 <= face_label ET m e f < ntri_faces m /\
   face_label ET m e f = face_label ET c1 e f) \/
  (face_arity ET m e f = 4 /\
   ntri_faces m <= face_label ET m e f < ntri_faces m + nquad_faces m /\
   face_label ET m e f = face_label ET c1 e f + ntri_faces m /\
   0 <= face_label ET c1 e f < nquad_faces m).
Proof.
  intros Hv. apply mfd_valid in Hv.
  destruct mfd_inv as (I & P & B).
  destruct mfd_counts as (T0 & Q0 & E1 & E2 & E3 & _).
  destruct (face_data_counts mfd_ok0 mfd_n0 I P B) as (_ & _ & F1 & _).
  pose proof (face_label_first I P Hv) as HL.
  rewrite mfd_label, (face_label_final mfd_ok0 mfd_n0 I P B Hv), mfd_arity.
  rewrite F1, <- E1. unfold face_counter in HL. rewrite <- E1, <- E2 in HL.
  destruct (face_arity_cases ET c0 e f) as [Ha|Ha]; rewrite Ha in HL |- *.
  - change (3 =? 3) with true in HL |- *. cbv iota in HL |- *.
    left. repeat split; auto; lia.
  - change (4 =? 3) with false in HL |- *. cbv iota in HL |- *.
    right. repeat split; auto; lia.
Qed.

Definition has_face (c : Conn) (e F : Z) : Prop :=
  exists f, face_valid ET c e f /\ face_label ET c e f = F.

Lemma mfd_has_face e F :
  has_face m e F <-> has_face_in ET c0 c1 e F.
Proof.
  unfold has_face, has_face_in. split; intros (f & Hv & Hl); exists f.
  - rewrite <- mfd_label. split; auto. now apply mfd_valid.
  - rewrite mfd_label. split; auto. now apply mfd_valid.
Qed.

(** The second entry of a face in the face to element arrays *)
Definition face_second_owner (c : Conn) (F : Z) : Z :=
  if F <? ntri_faces c then Arr.get (tri_face_elements c) (2 * F + 1)
  else Arr.get (quad_face_elements c) (2 * (F - ntri_faces c) + 1).

Lemma mfd_face_elements F :
  0 <= F < nfaces m ->
  exists e1 e2,
    get_face_elements m F = (e2 =? NO_LABEL, e1, e2) /\
    e2 = face_second_owner m F /\
    has_face m e1 F /\
    (e2 <> NO_LABEL -> has_face m e2 F /\ e2 <> e1) /\
    (forall e, has_face m e F -> e = e1 \/ e = e2).
Proof.
  intros HF.
  destruct mfd_inv as (I & P & B).
  destruct mfd_frame as (A1 & A2 & A3 & A4 & A5 & A6 & A7 & A8 & A9 & A).
  assert (HF2 : 0 <= F < nfaces (record_faces ET c1)).
  { rewrite <- c2_unfold, <- A9. exact HF. }
  exists (stored_first ET c1 F), (stored_second ET c1 F).
  destruct (stored_facts mfd_ok0 mfd_n0 I P B HF2) as (S1 & S2 & S3).
  split; [|split; [|split; [|split]]].
  - rewrite (frame_edge_get_face_elements F mfd_frame), c2_unfold.
    apply (get_face_elements_stored mfd_ok0 mfd_n0 I P B HF2).
  - unfold face_second_owner, stored_second, face_kind, face_local, face_elems,
      tri_face_elements, quad_face_elements.
    rewrite A7, !A by (unfold edge_array; intros [H|[H|[H|H]]]; discriminate).
    rewrite c2_unfold.
    destruct (F <? ntri_faces (record_faces ET c1)); reflexivity.
  - apply mfd_has_face, S1.
  - intros Hne. destruct (S2 Hne) as (X & Y). split; auto. apply mfd_has_face, X.
  - intros e He. apply S3. apply mfd_has_face, He.
Qed.

Lemma mfd_valid_elem e F : has_face m e F -> 0 <= e < nelems m /\ e <> NO_LABEL.
Proof.
  intros (f & Hv & _). destruct mfd_counts as (_ & _ & _ & _ & _ & E).
  rewrite E. split; [apply Hv|].
  apply mfd_valid in Hv. apply (valid_elem_not_sentinel mfd_ok0 Hv).
Qed.

Lemma mfd_same_face e f e' f' :
  face_valid ET m e f -> face_valid ET m e' f' ->
  face_label ET m e f = face_label ET m e' f' ->
  face_arity ET m e f = face_arity ET m e' f' /\
  face_tuple ET m e f = face_tuple ET m e' f' /\
  ((e = e' /\ f = f') \/ e <> e').
Proof.
  intros Hv Hv' E. apply mfd_valid in Hv, Hv'.
  destruct mfd_inv as (I & P & B).
  rewrite !mfd_label in E.
  destruct (same_face_label mfd_ok0 mfd_n0 I P B Hv Hv' E) as (Ea & Hs).
  rewrite !mfd_arity, !(face_tuple_mesh ET _ _ mfd_mesh).
  split; [exact Ea|].
  destruct Hs as [[-> ->]|(Hne & [Hfm|Hfm])].
  - split; auto.
  - split; auto. now apply faces_match_tuple.
  - split; auto. symmetry. now apply faces_match_tuple.
Qed.

End MeshFaceData.

Set Implicit Arguments.

Set Implicit Arguments.

(** ** The sorted face vertices do not depend on the starting vertex or on
    the direction in which the face is listed *)

Section CanonicalFace.

Ltac sort_cases :=
  unfold sort_face_verts, Arr.get; simpl;
  repeat match goal with
         | |- context [?x <? ?y] => destruct (Z.ltb_spec x y); simpl; try lia
         end; try reflexivity.

Lemma sort_quad_rotate a b d e v :
  NoDup [a; b; d; e] ->
  sort_face_verts 4 [b; d; e; a] v = sort_face_verts 4 [a; b; d; e] v.
Proof.
  intros H.
  assert (a <> b /\ a <> d /\ a <> e /\ b <> d /\ b <> e /\ d <> e).
  { inversion H as [|? ? N1 K1]; inversion K1 as [|? ? N2 K2];
      inversion K2 as [|? ? N3 K3]; subst; simpl in *; intuition. }
  sort_cases.
Qed.

Lemma sort_quad_reverse a b d e v :
  NoDup [a; b; d; e] ->
  sort_face_verts 4 [e; d; b; a] v = sort_face_verts 4 [a; b; d; e] v.
Proof.
  intros H.
  assert (a <> b /\ a <> d /\ a <> e /\ b <> d /\ b <> e /\ d <> e).
  { inversion H as [|? ? N1 K1]; inversion K1 as [|? ? N2 K2];
      inversion K2 as [|? ? N3 K3]; subst; simpl in *; intuition. }
  sort_cases.
Qed.

Lemma sort_tri_rotate a b d x y v :
  NoDup [a; b; d] ->
  sort_face_verts 3 [b; d; a; x] v = sort_face_verts 3 [a; b; d; y] v.
Proof.
  intros H.
  assert (a <> b /\ a <> d /\ b <> d).
  { inversion H as [|? ? N1 K1]; inversion K1 as [|? ? N2 K2];
      subst; simpl in *; intuition. }
  sort_cases.
Qed.

Lemma sort_tri_reverse a b d x y v :
  NoDup [a; b; d] ->
  sort_face_verts 3 [d; b; a; x] v = sort_face_verts 3 [a; b; d; y] v.
Proof.
  intros H.
  assert (a <> b /\ a <> d /\ b <> d).
  { inversion H as [|? ? N1 K1]; inversion K1 as [|? ? N2 K2];
      subst; simpl in *; intuition. }
  sort_cases.
Qed.

End CanonicalFace.

Unset Implicit Arguments.

(** ** Face data of a constructed [MeshConnectivity3D] *)

(** The element counts and the sizes of the face arrays are [index_t]
    values: the arrays [new index_t[2 * ntri_faces]] and
    [new index_t[2 * nquad_faces]] can be allocated. *)
Definition face_sizes_ok (ET : ElementTypes) (ntets nhex nwedge npyrmd : Z) : Prop :=
  0 <= ntets /\ 0 <= nhex /\ 0 <= nwedge /\ 0 <= npyrmd /\
  ntets + nhex + nwedge + npyrmd <= Index.max /\
  0 <= TET_FACES ET /\ 0 <= HEX_FACES ET /\ 0 <= WEDGE_FACES ET /\
  0 <= PYRMD_FACES ET /\
  2 * (TET_FACES ET * ntets + HEX_FACES ET * nhex + WEDGE_FACES ET * nwedge
       + PYRMD_FACES ET * npyrmd) <= Index.max.

Section MeshFaces.

Variable ET : ElementTypes.
Variables nv nt nh nw np : Z.
Variables tets hex wedge pyrmd : list Z.
Hypothesis Hsz : face_sizes_ok ET nt nh nw np.

Variable ca : Conn.
Hypothesis Hca :
  ca = init_vert_element_data ET
         (alloc_conn ET nv nt tets nh hex nw wedge np pyrmd).

Lemma ca_counts :
  nv = nverts ca /\ nt = ntets ca /\ nh = nhex ca /\ nw = nwedge ca /\
  np = npyrmd ca /\
  nelems ca = nt +w nh +w nw +w np.
Proof.
  pose proof (frame_init_vert_element_data ET
    (alloc_conn ET nv nt tets nh hex nw wedge np pyrmd)) as F.
  rewrite <- Hca in F.
  destruct F as (A1 & A2 & A3 & A4 & A5 & A6 & _).
  rewrite A1, A2, A3, A4, A5, A6. repeat split.
Qed.

Lemma ca_faces_ok : faces_ok ET ca.
Proof.
  destruct ca_counts as (_ & E2 & E3 & E4 & E5 & _).
  destruct Hsz as (C1 & C2 & C3 & C4 & C5 & P1 & P2 & P3 & P4 & B).
  unfold faces_ok, blocks_ok, counts_ok. rewrite <- E2, <- E3, <- E4, <- E5.
  repeat split; auto; try discriminate; nia.
Qed.

Lemma ca_nelems : nelems ca = total_elems ca.
Proof.
  destruct ca_faces_ok as (Hc & _).
  destruct (partial_sums Hc) as (_ & _ & S3).
  destruct ca_counts as (_ & E2 & E3 & E4 & E5 & E6).
  rewrite E6, E2, E3, E4, E5. exact S3.
Qed.

Lemma ca_total_faces : 2 * total_faces ET ca <= Index.max.
Proof.
  destruct ca_counts as (_ & E2 & E3 & E4 & E5 & _).
  destruct Hsz as (C1 & C2 & C3 & C4 & C5 & P1 & P2 & P3 & P4 & B).
  unfold total_faces. rewrite <- E2, <- E3, <- E4, <- E5. exact B.
Qed.

Lemma ca_adjacency : adjacency_nonneg ca.
Proof. rewrite Hca. apply adjacency_nonneg_init. Qed.

End MeshFaces.

Lemma mesh_phases ET nverts ntets tets nhex hex nwedge wedge npyrmd pyrmd :
  MeshConnectivity3D ET nverts ntets tets nhex hex nwedge wedge npyrmd pyrmd
  = init_edge_data ET
      (record_faces ET
         (discover_faces ET
            (init_vert_element_data ET
               (alloc_conn ET nverts ntets tets nhex hex nwedge wedge npyrmd
                  pyrmd)))).
Proof. reflexivity. Qed.

Unset Implicit Arguments.

Section FaceOutput.

Variable ET : ElementTypes.

Lemma firstn_put3 v a b d :
  (3 <= length v)%nat -> firstn 3 (put3 v a b d) = [a; b; d].
Proof.
  destruct v as [|x [|y [|z v]]]; simpl; try lia. reflexivity.
Qed.

Lemma firstn_put4 v a b d e :
  (4 <= length v)%nat -> firstn 4 (put4 v a b d e) = [a; b; d; e].
Proof.
  destruct v as [|x [|y [|z [|w v]]]]; simpl; try lia. reflexivity.
Qed.

Lemma sort_face_verts_out n t v w :
  (4 <= length v)%nat -> (4 <= length w)%nat ->
  fst (sort_face_verts n t v) = fst (sort_face_verts n t w) /\
  firstn (Z.to_nat (fst (sort_face_verts n t v))) (snd (sort_face_verts n t v))
  = firstn (Z.to_nat (fst (sort_face_verts n t w))) (snd (sort_face_verts n t w)).
Proof.
  intros Hv Hw. unfold sort_face_verts.
  repeat match goal with |- context [if ?b then _ else _] => destruct b end;
    simpl fst; simpl snd; split; auto;
    try (change (Z.to_nat 3) with 3%nat; rewrite !firstn_put3 by lia; reflexivity);
    try (change (Z.to_nat 4) with 4%nat; rewrite !firstn_put4 by lia; reflexivity).
Qed.

(** The vertices written into any caller array of four entries or more
    are those of [face_tuple]. *)
Lemma global_face_verts_out c e f v :
  (4 <= length v)%nat ->
  fst (get_element_global_face_verts ET c e f v) = face_arity ET c e f /\
  firstn (Z.to_nat (fst (get_element_global_face_verts ET c e f v)))
    (snd (get_element_global_face_verts ET c e f v))
  = face_tuple ET c e f.
Proof.
  intros Hv. unfold face_arity, face_tuple, get_element_global_face_verts.
  destruct (get_element_face_verts ET c e f (uninit 4)) as [n t].
  assert (Hu : (4 <= length (uninit 4))%nat) by (simpl; lia).
  destruct (sort_face_verts_out n t v (uninit 4) Hv Hu) as [E1 E2].
  destruct (sort_face_verts n t (uninit 4)) as [n' o'] eqn:Eo.
  simpl fst in *; simpl snd in *. split; auto.
Qed.

End FaceOutput.

Section MeshFaceTheorems.

Variable ET : ElementTypes.
Variables nverts ntets nhex nwedge npyrmd : Z.
Variables tets hex wedge pyrmd : list Z.

Local Abbreviation mesh :=
  (MeshConnectivity3D ET nverts ntets tets nhex hex nwedge wedge npyrmd pyrmd).

(** The object between the two loops of [init_face_data] *)
Local Abbreviation discovered :=
  (discover_faces ET
     (init_vert_element_data ET
        (alloc_conn ET nverts ntets tets nhex hex nwedge wedge npyrmd pyrmd))).

Ltac phases Hsz :=
  rewrite ?mesh_phases in *;
  remember (init_vert_element_data ET
              (alloc_conn ET nverts ntets tets nhex hex nwedge wedge npyrmd pyrmd))
    as ca eqn:Hca;
  remember (faces_start ET ca) as c0 eqn:Hc0;
  remember (discover_faces ET ca) as c1 eqn:Hc1;
  remember (record_faces ET c1) as c2 eqn:Hc2;
  remember (init_edge_data ET c2) as m eqn:Hm;
  pose proof (ca_faces_ok ET nverts ntets nhex nwedge npyrmd tets hex wedge pyrmd
                Hsz ca Hca) as Hok;
  pose proof (ca_nelems ET nverts ntets nhex nwedge npyrmd tets hex wedge pyrmd
                Hsz ca Hca) as Hne;
  pose proof (ca_total_faces ET nverts ntets nhex nwedge npyrmd tets hex wedge pyrmd
                Hsz ca Hca) as Htf;
  pose proof (ca_adjacency ET nverts ntets nhex nwedge npyrmd tets hex wedge pyrmd
                ca Hca) as Hadj.

(** C6.  After construction the global face indices are split by arity:
    a triangular face entry holds an index in [[0, ntri_faces)], a
    quadrilateral face entry an index in
    [[ntri_faces, ntri_faces + nquad_faces)], which is the index it received
    from the quadrilateral counter during discovery plus the final number of
    triangular faces; and [nfaces = ntri_faces + nquad_faces]. *)
Theorem face_index_partition :
  face_sizes_ok ET ntets nhex nwedge npyrmd ->
  nfaces mesh = ntri_faces mesh + nquad_faces mesh /\
  forall e f, face_valid ET mesh e f ->
    (face_arity ET mesh e f = 3 /\
     0 <= face_label ET mesh e f < ntri_faces mesh /\
     face_label ET mesh e f = face_label ET discovered e f) \/
    (face_arity ET mesh e f = 4 /\
     ntri_faces mesh <= face_label ET mesh e f < ntri_faces mesh + nquad_faces mesh /\
     face_label ET mesh e f = face_label ET discovered e f + ntri_faces mesh /\
     0 <= face_label ET discovered e f < nquad_faces mesh).
Proof.
  intros Hsz. phases Hsz. split.
  - apply (mfd_counts ET ca Hok Hne Htf Hadj c0 c1 c2 m Hc0 Hc1 Hc2 Hm).
  - intros e f Hv.
    apply (mfd_partition ET ca Hok Hne Htf Hadj c0 c1 c2 m Hc0 Hc1 Hc2 Hm e f Hv).
Qed.

End MeshFaceTheorems.

Unset Implicit Arguments.

(** * Compressed rows: counting, prefix sums, scattering

    Both the vertex to element adjacency and the block pattern of the sparse
    matrix are built by the same four passes over a sequence of (key, value)
    items. *)

Module Csr.

(** [rowp[key + 1] += 1] *)
Definition count_key (rowp : list Z) (item : Z * Z) : list Z :=
  Arr.set rowp (fst item +w 1) (Arr.get rowp (fst item +w 1) +w 1).

(** [for (i = 0; i < n; i++) rowp[i + 1] += rowp[i]] *)
Definition prefix_sum (n : Z) (rowp : list Z) : list Z :=
  for_range 0 n
    (fun i rowp => Arr.set rowp (i +w 1) (Arr.get rowp (i +w 1) +w Arr.get rowp i))
    rowp.

(** [cols[rowp[key]] = value; rowp[key]++] *)
Definition scatter_item (st : list Z * list Z) (item : Z * Z) : list Z * list Z :=
  let '(rowp, cols) := st in
  let cols := Arr.set cols (Arr.get rowp (fst item)) (snd item) in
  let rowp := Arr.set rowp (fst item) (Arr.get rowp (fst item) +w 1) in
  (rowp, cols).

(** [for (i = n; i > 0; i--) rowp[i] = rowp[i - 1]; rowp[0] = 0] *)
Definition shift_rows (n : Z) (rowp : list Z) : list Z :=
  let rowp :=
    for_down (Z.to_nat n) n
      (fun i rowp => Arr.set rowp i (Arr.get rowp (i -w 1))) rowp in
  Arr.set rowp 0 0.

(** The four passes over the items, from a zeroed row pointer of [n + 1]
    entries *)
Definition build (n : Z) (items : list (Z * Z)) : list Z * list Z :=
  let rowp := Arr.fill (n +w 1) 0 in
  let rowp := fold_left count_key items rowp in
  let rowp := prefix_sum n rowp in
  let cols := uninit (Arr.get rowp n) in
  let '(rowp, cols) := fold_left scatter_item items (rowp, cols) in
  (shift_rows n rowp, cols).

Section Counting.

Definition count_lt (k : Z) (items : list (Z * Z)) : Z :=
  Z.of_nat (length (filter (fun it => fst it <? k) items)).

Definition count_eq (k : Z) (items : list (Z * Z)) : Z :=
  Z.of_nat (length (filter (fun it => fst it =? k) items)).

(** The values with key [k], in the order of the items *)
Definition bucket (k : Z) (items : list (Z * Z)) : list Z :=
  map snd (filter (fun it => fst it =? k) items).

Lemma count_eq_nonneg k items : 0 <= count_eq k items.
Proof. unfold count_eq. lia. Qed.

Lemma count_lt_nonneg k items : 0 <= count_lt k items.
Proof. unfold count_lt. lia. Qed.

Lemma count_lt_succ k items :
  count_lt (k + 1) items = count_lt k items + count_eq k items.
Proof.
  unfold count_lt, count_eq. induction items as [|[a b] l IH]; simpl; auto.
  destruct (Z.ltb_spec a (k + 1)), (Z.ltb_spec a k), (Z.eqb_spec a k);
    simpl length; try lia.
Qed.

Lemma count_lt_mono k k' items : k <= k' -> count_lt k items <= count_lt k' items.
Proof.
  intros H. unfold count_lt. induction items as [|[a b] l IH]; simpl; auto.
  - lia.
  - destruct (Z.ltb_spec a k), (Z.ltb_spec a k'); simpl length; lia.
Qed.

Lemma count_eq_app k p q : count_eq k (p ++ q) = count_eq k p + count_eq k q.
Proof. unfold count_eq. rewrite filter_app, length_app. lia. Qed.

Lemma count_lt_app k p q : count_lt k (p ++ q) = count_lt k p + count_lt k q.
Proof. unfold count_lt. rewrite filter_app, length_app. lia. Qed.

Lemma bucket_app k p q : bucket k (p ++ q) = bucket k p ++ bucket k q.
Proof. unfold bucket. now rewrite filter_app, map_app. Qed.

Lemma length_bucket k items : Z.of_nat (length (bucket k items)) = count_eq k items.
Proof. unfold bucket, count_eq. now rewrite length_map. Qed.

Lemma count_lt_all n items :
  (forall it, In it items -> 0 <= fst it < n) ->
  count_lt n items = Z.of_nat (length items) /\ count_lt 0 items = 0.
Proof.
  intros H. unfold count_lt. induction items as [|[a b] l IH]; simpl; auto.
  assert (Ha : 0 <= a < n) by (apply (H (a, b)); left; reflexivity).
  destruct IH as [I1 I2]. { intros it Hit. apply H. now right. }
  destruct (Z.ltb_spec a n), (Z.ltb_spec a 0); simpl length; try lia.
Qed.

Lemma count_eq_single k a b : count_eq k [(a, b)] = if a =? k then 1 else 0.
Proof. unfold count_eq. simpl. destruct (a =? k); reflexivity. Qed.

Lemma count_eq_out k n items :
  (forall it, In it items -> 0 <= fst it < n) -> ~ (0 <= k < n) ->
  count_eq k items = 0.
Proof.
  intros H Hk. unfold count_eq. induction items as [|[a b] l IH]; simpl; auto.
  assert (Ha : 0 <= a < n) by (apply (H (a, b)); left; reflexivity).
  destruct (Z.eqb_spec a k); [lia|]. apply IH. intros it Hit. apply H. now right.
Qed.

End Counting.

Section Passes.

Variable n : Z.
Variable items : list (Z * Z).
Hypothesis Hn : 0 <= n < Index.max.
Hypothesis Hkeys : forall it, In it items -> 0 <= fst it < n.
Hypothesis Hlen : Z.of_nat (length items) <= Index.max.

Lemma count_le_length k p : count_eq k p <= Z.of_nat (length p).
Proof.
  unfold count_eq. pose proof (filter_length_le (fun it => fst it =? k) p). lia.
Qed.

Lemma count_lt_le_length k p : count_lt k p <= Z.of_nat (length p).
Proof.
  unfold count_lt. pose proof (filter_length_le (fun it => fst it <? k) p). lia.
Qed.

(** After the counting pass over the prefix [p] *)
Definition counted (p : list (Z * Z)) (rowp : list Z) : Prop :=
  Arr.len rowp = n + 1 /\
  forall j, 0 <= j <= n -> Arr.get rowp j = count_eq (j - 1) p.

Lemma counted_start : counted [] (Arr.fill (n +w 1) 0).
Proof.
  assert (W : n +w 1 = n + 1) by (apply Index.add_small, ok_of_bounds; lia).
  rewrite W. split.
  - apply Arr.len_fill. lia.
  - intros j Hj. rewrite Arr.get_fill by lia. reflexivity.
Qed.

Lemma counted_step p it rowp :
  0 <= fst it < n -> Z.of_nat (length p) < Index.max ->
  counted p rowp -> counted (p ++ [it]) (count_key rowp it).
Proof.
  intros Hk Hp (L & G). destruct it as [a b]. simpl fst in *.
  unfold count_key. simpl fst.
  assert (W : a +w 1 = a + 1) by (apply Index.add_small, ok_of_bounds; lia).
  rewrite W, (G (a + 1)) by lia.
  replace (a + 1 - 1) with a by lia.
  pose proof (count_le_length a p). pose proof (count_eq_nonneg a p).
  rewrite Index.add_small by (apply ok_of_bounds; lia).
  split.
  - now rewrite Arr.len_set.
  - intros j Hj. rewrite count_eq_app, count_eq_single.
    destruct (Z.eq_dec j (a + 1)) as [->|Hne].
    + rewrite Arr.get_set_eq by lia. replace (a + 1 - 1) with a by lia.
      now rewrite Z.eqb_refl.
    + rewrite Arr.get_set_ne by lia. rewrite (G j Hj).
      destruct (Z.eqb_spec a (j - 1)); lia.
Qed.

Lemma counted_fold rest : forall p rowp,
  items = p ++ rest -> counted p rowp ->
  counted items (fold_left count_key rest rowp).
Proof.
  induction rest as [|it rest IH]; intros p rowp E C; simpl.
  - rewrite app_nil_r in E. now subst.
  - apply (IH (p ++ [it])).
    + now rewrite <- app_assoc.
    + apply counted_step; auto.
      * apply Hkeys. rewrite E. apply in_or_app. right. now left.
      * rewrite E, length_app in Hlen. simpl in Hlen. lia.
Qed.

(** After the prefix sums *)
Definition summed (rowp : list Z) : Prop :=
  Arr.len rowp = n + 1 /\
  forall j, 0 <= j <= n -> Arr.get rowp j = count_lt j items.

Lemma summed_prefix_sum rowp : counted items rowp -> summed (prefix_sum n rowp).
Proof.
  intros (L & G). unfold prefix_sum.
  destruct (count_lt_all n items Hkeys) as [Call C0].
  assert (H : Arr.len (for_range 0 n
                (fun i rowp => Arr.set rowp (i +w 1)
                                 (Arr.get rowp (i +w 1) +w Arr.get rowp i)) rowp)
              = n + 1 /\
              (forall j, 0 <= j <= n ->
                 Arr.get (for_range 0 n
                   (fun i rowp => Arr.set rowp (i +w 1)
                                    (Arr.get rowp (i +w 1) +w Arr.get rowp i)) rowp) j
                 = if j <=? n then count_lt j items else count_eq (j - 1) items)).
  { apply (for_range_inv
             (fun i r => Arr.len r = n + 1 /\
                forall j, 0 <= j <= n ->
                  Arr.get r j = if j <=? i then count_lt j items
                                else count_eq (j - 1) items)); [lia| |].
    - split; auto. intros j Hj. destruct (Z.leb_spec j 0).
      + replace j with 0 by lia. rewrite (G 0) by lia. rewrite C0.
        apply (count_eq_out (0 - 1) n items Hkeys). lia.
      + apply G. lia.
    - intros i r Hi (Lr & Gr).
      assert (W : i +w 1 = i + 1) by (apply Index.add_small, ok_of_bounds; lia).
      rewrite W. rewrite (Gr (i + 1)), (Gr i) by lia.
      destruct (Z.leb_spec (i + 1) i); [lia|]. destruct (Z.leb_spec i i); [|lia].
      replace (i + 1 - 1) with i by lia.
      pose proof (count_lt_succ i items) as Hs.
      pose proof (count_lt_le_length (i + 1) items).
      pose proof (count_lt_nonneg (i + 1) items).
      rewrite Index.add_small by (apply ok_of_bounds; lia).
      split; [now rewrite Arr.len_set|].
      intros j Hj. destruct (Z.eq_dec j (i + 1)) as [->|Hne].
      + rewrite Arr.get_set_eq by lia. destruct (Z.leb_spec (i + 1) (i + 1)); lia.
      + rewrite Arr.get_set_ne by lia. rewrite (Gr j Hj).
        destruct (Z.leb_spec j i), (Z.leb_spec j (i + 1)); try lia; reflexivity. }
  destruct H as (L' & G'). split; auto.
  intros j Hj. rewrite (G' j Hj). destruct (Z.leb_spec j n); [reflexivity|lia].
Qed.

(** After scattering the prefix [p] *)
Definition scattered (p : list (Z * Z)) (st : list Z * list Z) : Prop :=
  Arr.len (fst st) = n + 1 /\
  Arr.len (snd st) = Z.of_nat (length items) /\
  Arr.get (fst st) n = count_lt n items /\
  (forall k, 0 <= k < n ->
     Arr.get (fst st) k = count_lt k items + count_eq k p) /\
  (forall k r, 0 <= k < n -> 0 <= r < count_eq k p ->
     Arr.get (snd st) (count_lt k items + r) = nth (Z.to_nat r) (bucket k p) 0).

Lemma scattered_start rowp :
  summed rowp -> scattered [] (rowp, uninit (Arr.get rowp n)).
Proof.
  intros (L & G). destruct (count_lt_all n items Hkeys) as [Call C0].
  unfold scattered. simpl fst; simpl snd. rewrite (G n) by lia.
  split; [exact L|]. split.
  { unfold uninit. rewrite Arr.len_fill; lia. }
  split; [reflexivity|]. split.
  - intros k Hk. rewrite (G k) by lia. unfold count_eq. simpl. lia.
  - intros k r Hk Hr. unfold count_eq in Hr. simpl in Hr. lia.
Qed.

Lemma scattered_step p it rest st :
  items = p ++ it :: rest ->
  scattered p st -> scattered (p ++ [it]) (scatter_item st it).
Proof.
  intros E (L1 & L2 & Gn & Gk & Gc). destruct st as [rowp cols].
  destruct it as [a b]. simpl fst in *; simpl snd in *.
  assert (Ha : 0 <= a < n).
  { apply (Hkeys (a, b)). rewrite E. apply in_or_app. right. now left. }
  destruct (count_lt_all n items Hkeys) as [Call C0].
  assert (Hsplit : count_eq a items = count_eq a p + 1 + count_eq a rest).
  { rewrite E, count_eq_app.
    change ((a, b) :: rest) with ([(a, b)] ++ rest).
    rewrite count_eq_app, count_eq_single, Z.eqb_refl. lia. }
  pose proof (count_eq_nonneg a rest) as Hr0.
  pose proof (count_eq_nonneg a p) as Hp0.
  pose proof (count_lt_nonneg a items) as Hl0.
  pose proof (count_lt_succ a items) as Hsucc.
  pose proof (count_lt_mono (a + 1) n items ltac:(lia)) as Hmono.
  unfold scatter_item. simpl fst; simpl snd.
  rewrite (Gk a Ha).
  rewrite Index.add_small by (apply ok_of_bounds; lia).
  unfold scattered. simpl fst; simpl snd.
  split; [now rewrite Arr.len_set|]. split; [now rewrite Arr.len_set|].
  split; [rewrite Arr.get_set_ne by lia; exact Gn|]. split.
  - intros k Hk. rewrite count_eq_app, count_eq_single.
    destruct (Z.eq_dec k a) as [->|Hne].
    + rewrite Arr.get_set_eq by lia. rewrite Z.eqb_refl. lia.
    + rewrite Arr.get_set_ne by lia. rewrite (Gk k Hk).
      destruct (Z.eqb_spec a k); lia.
  - intros k r Hk Hr. rewrite count_eq_app, count_eq_single in Hr.
    rewrite bucket_app.
    destruct (Z.eqb_spec a k) as [->|Hne].
    + unfold bucket at 2. simpl. rewrite Z.eqb_refl. simpl.
      destruct (Z.eq_dec r (count_eq k p)) as [->|Hnr].
      * rewrite Arr.get_set_eq by lia.
        rewrite app_nth2 by (pose proof (length_bucket k p); lia).
        replace (Z.to_nat (count_eq k p) - length (bucket k p))%nat with O
          by (pose proof (length_bucket k p); lia).
        reflexivity.
      * rewrite Arr.get_set_ne by lia.
        rewrite app_nth1 by (pose proof (length_bucket k p); lia).
        apply Gc; lia.
    + unfold bucket at 2. simpl.
      destruct (Z.eqb_spec a k); [contradiction|]. simpl. rewrite app_nil_r.
      assert (Hpk : count_eq k p <= count_eq k items).
      { rewrite E, count_eq_app. pose proof (count_eq_nonneg k ((a, b) :: rest)). lia. }
      pose proof (count_lt_succ k items) as Hsk.
      pose proof (count_lt_nonneg k items) as Hlk.
      rewrite Arr.get_set_ne; [apply Gc; lia|lia|lia|].
      destruct (Z.lt_trichotomy k a) as [Hlt|[Heq|Hgt]]; [|lia|].
      * pose proof (count_lt_mono (k + 1) a items ltac:(lia)). lia.
      * pose proof (count_lt_mono (a + 1) k items ltac:(lia)). lia.
Qed.

Lemma scattered_fold rest : forall p st,
  items = p ++ rest -> scattered p st ->
  scattered items (fold_left scatter_item rest st).
Proof.
  induction rest as [|it rest IH]; intros p st E C; simpl.
  - rewrite app_nil_r in E. now subst.
  - apply (IH (p ++ [it])).
    + now rewrite <- app_assoc.
    + apply (scattered_step p it rest); auto.
Qed.

Lemma for_down_inv {S : Type} (P : Z -> S -> Prop) (body : Z -> S -> S) :
  forall m i s,
    P i s ->
    (forall j t, i - Z.of_nat m < j <= i -> P j t -> P (j - 1) (body j t)) ->
    P (i - Z.of_nat m) (for_down m i body s).
Proof.
  induction m as [|m IH]; intros i s H0 Hstep; simpl for_down.
  - replace (i - Z.of_nat 0) with i by lia. exact H0.
  - replace (i - Z.of_nat (Datatypes.S m)) with ((i - 1) - Z.of_nat m) by lia.
    apply IH.
    + apply Hstep; [lia|exact H0].
    + intros j t Hj Ht. apply Hstep; [lia|exact Ht].
Qed.

(** The compressed rows of the items *)
Definition compressed (st : list Z * list Z) : Prop :=
  Arr.len (fst st) = n + 1 /\
  Arr.len (snd st) = Z.of_nat (length items) /\
  (forall j, 0 <= j <= n -> Arr.get (fst st) j = count_lt j items) /\
  (forall k r, 0 <= k < n -> 0 <= r < count_eq k items ->
     Arr.get (snd st) (count_lt k items + r) = nth (Z.to_nat r) (bucket k items) 0).

Lemma compressed_shift st :
  scattered items st -> compressed (shift_rows n (fst st), snd st).
Proof.
  intros (L1 & L2 & Gn & Gk & Gc). destruct st as [rowp cols].
  simpl fst in *; simpl snd in *.
  destruct (count_lt_all n items Hkeys) as [Call C0].
  unfold compressed, shift_rows. simpl fst; simpl snd.
  assert (H : Arr.len (for_down (Z.to_nat n) n
                 (fun i rowp => Arr.set rowp i (Arr.get rowp (i -w 1))) rowp) = n + 1 /\
              forall j, 0 <= j <= n ->
                Arr.get (for_down (Z.to_nat n) n
                  (fun i rowp => Arr.set rowp i (Arr.get rowp (i -w 1))) rowp) j
                = if j <=? 0 then Arr.get rowp j else count_lt j items).
  { pose proof (for_down_inv
             (fun i r => Arr.len r = n + 1 /\
                forall j, 0 <= j <= n ->
                  Arr.get r j = if j <=? i then Arr.get rowp j else count_lt j items)
             (fun i rowp => Arr.set rowp i (Arr.get rowp (i -w 1)))
             (Z.to_nat n) n rowp) as X.
    replace (n - Z.of_nat (Z.to_nat n)) with 0 in X by lia.
    apply X; clear X.
    - split; auto. intros j Hj. destruct (Z.leb_spec j n); [reflexivity|lia].
    - intros i r Hi (Lr & Gr).
      assert (W : i -w 1 = i - 1) by (apply Index.sub_small, ok_of_bounds; lia).
      rewrite W. rewrite (Gr (i - 1)) by lia.
      destruct (Z.leb_spec (i - 1) i); [|lia].
      rewrite (Gk (i - 1)) by lia.
      pose proof (count_lt_succ (i - 1) items) as Hs.
      replace (i - 1 + 1) with i in Hs by lia.
      split; [now rewrite Arr.len_set|].
      intros j Hj. destruct (Z.eq_dec j i) as [->|Hne].
      + rewrite Arr.get_set_eq by lia.
        destruct (Z.leb_spec i (i - 1)); lia.
      + rewrite Arr.get_set_ne by lia. rewrite (Gr j Hj).
        destruct (Z.leb_spec j i), (Z.leb_spec j (i - 1)); try lia; reflexivity. }
  destruct H as (L' & G').
  split; [now rewrite Arr.len_set|]. split; [exact L2|]. split.
  - intros j Hj. destruct (Z.eq_dec j 0) as [->|Hne].
    + rewrite Arr.get_set_eq by lia. now rewrite C0.
    + rewrite Arr.get_set_ne by lia. rewrite (G' j Hj).
      destruct (Z.leb_spec j 0); [lia|reflexivity].
  - exact Gc.
Qed.

Lemma in_bucket k c l : In c (bucket k l) <-> In (k, c) l.
Proof.
  unfold bucket. rewrite in_map_iff. split.
  - intros ([a b] & E & Hin). apply filter_In in Hin. destruct Hin as (Hin & Hk).
    simpl in *. apply Z.eqb_eq in Hk. now subst.
  - intros Hin. exists (k, c). split; auto. apply filter_In. split; auto.
    simpl. apply Z.eqb_refl.
Qed.

(** Row [k] of a compressed structure holds exactly the values of the
    items with key [k]. *)
Lemma compressed_row st k c :
  compressed st -> 0 <= k < n ->
  (exists jp, Arr.get (fst st) k <= jp < Arr.get (fst st) (k + 1) /\
              Arr.get (snd st) jp = c)
  <-> In (k, c) items.
Proof.
  intros (L1 & L2 & G & Gc) Hk.
  rewrite (G k), (G (k + 1)) by lia. rewrite count_lt_succ.
  rewrite <- in_bucket. pose proof (length_bucket k items) as Hlb. split.
  - intros (jp & Hjp & E). subst c.
    replace jp with (count_lt k items + (jp - count_lt k items)) by lia.
    rewrite Gc by lia. apply nth_In. lia.
  - intros Hin. destruct (In_nth _ _ 0 Hin) as (r & Hr & E).
    exists (count_lt k items + Z.of_nat r). split; [lia|].
    rewrite Gc by lia. now rewrite Nat2Z.id.
Qed.

Lemma compressed_entry st k r :
  compressed st -> 0 <= k < n -> 0 <= r < count_eq k items ->
  Arr.get (snd st) (Arr.get (fst st) k + r) = nth (Z.to_nat r) (bucket k items) 0.
Proof.
  intros (L1 & L2 & G & Gc) Hk Hr. rewrite (G k) by lia. now apply Gc.
Qed.

Lemma compressed_rowp st :
  compressed st ->
  Arr.get (fst st) 0 = 0 /\
  Arr.get (fst st) n = Z.of_nat (length items) /\
  forall k, 0 <= k < n ->
    Arr.get (fst st) (k + 1) = Arr.get (fst st) k + count_eq k items.
Proof.
  intros (L1 & L2 & G & Gc). destruct (count_lt_all n items Hkeys) as [Call C0].
  rewrite (G 0), (G n) by lia. split; [exact C0|]. split; [exact Call|].
  intros k Hk. rewrite (G k), (G (k + 1)) by lia. apply count_lt_succ.
Qed.

(** The four passes *)
Lemma compressed_build : compressed (build n items).
Proof.
  unfold build.
  pose proof (counted_fold items [] (Arr.fill (n +w 1) 0) eq_refl counted_start) as C.
  pose proof (summed_prefix_sum _ C) as S.
  pose proof (scattered_fold items [] _ eq_refl (scattered_start _ S)) as Sc.
  destruct (fold_left scatter_item items _) as [rowp cols].
  apply (compressed_shift (rowp, cols) Sc).
Qed.

End Passes.

End Csr.

Unset Implicit Arguments.

(** * Element meshes: the map from elements to global degrees of freedom *)

Module DofMesh.

(** The state of an [ElementMesh<Basis>] object.  [element_sign] holds
    [int] values. *)
Record ElementMesh := {
  nelems : Z;
  num_dof : Z;
  element_dof : list Z;
  element_sign : list Z
}.

Definition get_num_elements (mesh : ElementMesh) : Z := nelems mesh.
Definition get_num_dof (mesh : ElementMesh) : Z := num_dof mesh.

(** A projection object [ElemProj]: the number of low-order elements per
    high-order element, and the two queries that fill the caller's arrays
    [index] and [signs]. *)
Record ElemProj := {
  get_num_projection_elements : Z;
  get_projection_index : Z -> list Z -> list Z;
  get_projection_signs : Z -> list Z -> list Z
}.

Section Projection.

(** [Basis::ndof] of the low-order basis and of [HOrderBasis] *)
Variable ndof_per_element : Z.
Variable horder_ndof : Z.

(** The innermost loop of the projection constructor: copy the degrees of
    freedom and the signs of sub-element [elem] of the high-order element
    [j]; [horder_dof] and [horder_signs] point at
    [&element_dof[horder_ndof * j]] of the high-order mesh. *)
Definition project_element (mesh : ElementMesh) (j elem : Z) (index signs : list Z)
  (k : Z) (st : list Z * list Z) : list Z * list Z :=
  let '(dof, sign) := st in
  let sign :=
    Arr.set sign (ndof_per_element *w elem +w k)
      (Arr.get signs k
       * Arr.get (element_sign mesh) (horder_ndof *w j + Arr.get index k)) in
  let dof :=
    Arr.set dof (ndof_per_element *w elem +w k)
      (Arr.get (element_dof mesh) (horder_ndof *w j + Arr.get index k)) in
  (dof, sign).

Definition project_sub_elements (mesh : ElementMesh) (proj : ElemProj) (j : Z)
  (i : Z) (st : list Z * list Z) : list Z * list Z :=
  let elem := i +w j *w get_num_projection_elements proj in
  let index := get_projection_index proj i (uninit ndof_per_element) in
  let signs := get_projection_signs proj i (uninit ndof_per_element) in
  for_range 0 ndof_per_element (project_element mesh j elem index signs) st.

(** [ElementMesh(ElementMesh<HOrderBasis>& mesh, ElemProj& proj)] *)
Definition project_mesh (mesh : ElementMesh) (proj : ElemProj) : ElementMesh :=
  let nelems := get_num_projection_elements proj *w get_num_elements mesh in
  let num_dof := get_num_dof mesh in
  let element_dof := uninit (nelems *w ndof_per_element) in
  let element_sign := uninit (nelems *w ndof_per_element) in
  let '(element_dof, element_sign) :=
    for_range 0 (get_num_elements mesh)
      (fun j st =>
         for_range 0 (get_num_projection_elements proj)
           (project_sub_elements mesh proj j) st)
      (element_dof, element_sign) in
  {| nelems := nelems; num_dof := num_dof;
     element_dof := element_dof; element_sign := element_sign |}.

(** The value the constructor stores at position [p] of the low-order
    arrays, read off the high-order arrays [src]. *)
Definition projected (mesh : ElementMesh) (proj : ElemProj)
  (table : Z -> list Z -> list Z) (src : list Z) (p : Z) : Z :=
  let elem := p / ndof_per_element in
  let k := p mod ndof_per_element in
  let j := elem / get_num_projection_elements proj in
  let i := elem mod get_num_projection_elements proj in
  Arr.get src (horder_ndof * j + Arr.get (table i (uninit ndof_per_element)) k).

Definition projected_dof mesh proj p :=
  projected mesh proj (get_projection_index proj) (element_dof mesh) p.

Definition projected_sign mesh proj p :=
  Arr.get (get_projection_signs proj
             ((p / ndof_per_element) mod get_num_projection_elements proj)
             (uninit ndof_per_element)) (p mod ndof_per_element)
  * projected mesh proj (get_projection_index proj) (element_sign mesh) p.

(** The sizes are [index_t] values. *)
Definition projection_sizes_ok (mesh : ElementMesh) (proj : ElemProj) : Prop :=
  0 <= nelems mesh /\ 0 <= get_num_projection_elements proj /\
  0 <= ndof_per_element /\ 0 <= horder_ndof /\
  get_num_projection_elements proj * nelems mesh * ndof_per_element <= Index.max /\
  get_num_projection_elements proj * nelems mesh <= Index.max /\
  horder_ndof * nelems mesh <= Index.max.

(** All positions below [p] are filled. *)
Definition filled (mesh : ElementMesh) (proj : ElemProj) (p : Z)
  (st : list Z * list Z) : Prop :=
  Arr.len (fst st) = get_num_projection_elements proj * nelems mesh * ndof_per_element /\
  Arr.len (snd st) = get_num_projection_elements proj * nelems mesh * ndof_per_element /\
  forall q, 0 <= q < p ->
    Arr.get (fst st) q = projected_dof mesh proj q /\
    Arr.get (snd st) q = projected_sign mesh proj q.

Lemma decode_position (n q r : Z) :
  0 <= r < n -> (n * q + r) / n = q /\ (n * q + r) mod n = r.
Proof.
  intros Hr. split.
  - symmetry. apply (Z.div_unique (n * q + r) n q r); [left; lia|reflexivity].
  - symmetry. apply (Z.mod_unique (n * q + r) n q r); [left; lia|reflexivity].
Qed.

Lemma filled_weaken mesh proj p p' st :
  p' = p -> filled mesh proj p st -> filled mesh proj p' st.
Proof. intros ->. auto. Qed.

Lemma project_element_step mesh proj j i k st :
  projection_sizes_ok mesh proj ->
  0 <= j < nelems mesh -> 0 <= i < get_num_projection_elements proj ->
  0 <= k < ndof_per_element ->
  let elem := i + j * get_num_projection_elements proj in
  filled mesh proj (ndof_per_element * elem + k) st ->
  filled mesh proj (ndof_per_element * elem + (k + 1))
    (project_element mesh j elem
       (get_projection_index proj i (uninit ndof_per_element))
       (get_projection_signs proj i (uninit ndof_per_element)) k st).
Proof.
  intros (S1 & S2 & S3 & S4 & S5 & S6 & S7) Hj Hi Hk elem (L1 & L2 & Hq).
  set (num := get_num_projection_elements proj) in *.
  assert (He : 0 <= elem < num * nelems mesh) by (unfold elem; nia).
  assert (Hp : 0 <= ndof_per_element * elem + k < num * nelems mesh * ndof_per_element)
    by nia.
  assert (W1 : ndof_per_element *w elem +w k = ndof_per_element * elem + k).
  { rewrite Index.mul_small by (apply ok_of_bounds; nia).
    apply Index.add_small, ok_of_bounds. lia. }
  assert (W2 : horder_ndof *w j = horder_ndof * j).
  { apply Index.mul_small, ok_of_bounds. nia. }
  destruct (decode_position ndof_per_element elem k Hk) as (D1 & D2).
  destruct (decode_position num j i Hi) as (D3 & D4).
  assert (Eelem : elem = num * j + i) by (unfold elem; lia).
  destruct st as [dof sign]. unfold project_element. rewrite W1, W2.
  simpl fst in *; simpl snd in *.
  split; [|split].
  - simpl. now rewrite Arr.len_set.
  - simpl. now rewrite Arr.len_set.
  - intros q Hqb. simpl fst; simpl snd.
    destruct (Z.eq_dec q (ndof_per_element * elem + k)) as [->|Hne].
    + rewrite !Arr.get_set_eq by lia.
      unfold projected_dof, projected_sign, projected. fold num.
      rewrite D1, D2, Eelem, D3, D4. split; reflexivity.
    + rewrite !Arr.get_set_ne by lia. apply Hq. lia.
Qed.

Lemma project_sub_elements_step mesh proj j i st :
  projection_sizes_ok mesh proj ->
  0 <= j < nelems mesh -> 0 <= i < get_num_projection_elements proj ->
  filled mesh proj
    (ndof_per_element * (i + j * get_num_projection_elements proj)) st ->
  filled mesh proj
    (ndof_per_element * (i + 1 + j * get_num_projection_elements proj))
    (project_sub_elements mesh proj j i st).
Proof.
  intros Hs Hj Hi Hf. assert (Hs' := Hs).
  destruct Hs' as (S1 & S2 & S3 & S4 & S5 & S6 & S7).
  set (num := get_num_projection_elements proj) in *.
  unfold project_sub_elements. fold num.
  assert (W : i +w j *w num = i + j * num).
  { rewrite Index.mul_small by (apply ok_of_bounds; nia).
    apply Index.add_small, ok_of_bounds. nia. }
  rewrite W.
  apply (filled_weaken mesh proj
           (ndof_per_element * (i + j * num) + ndof_per_element)); [lia|].
  apply (for_range_inv
           (fun k st => filled mesh proj (ndof_per_element * (i + j * num) + k) st));
    [lia| |].
  - apply (filled_weaken mesh proj (ndof_per_element * (i + j * num))); [lia|exact Hf].
  - intros k t Hk Ht. apply (project_element_step mesh proj j i k t Hs Hj Hi Hk Ht).
Qed.

Lemma project_mesh_filled mesh proj :
  projection_sizes_ok mesh proj ->
  filled mesh proj
    (get_num_projection_elements proj * nelems mesh * ndof_per_element)
    (element_dof (project_mesh mesh proj), element_sign (project_mesh mesh proj)).
Proof.
  intros Hs. assert (Hs' := Hs).
  destruct Hs' as (S1 & S2 & S3 & S4 & S5 & S6 & S7).
  set (num := get_num_projection_elements proj) in *.
  unfold project_mesh, get_num_elements. fold num.
  assert (W : num *w nelems mesh *w ndof_per_element
              = num * nelems mesh * ndof_per_element).
  { rewrite (Index.mul_small num) by (apply ok_of_bounds; nia).
    apply Index.mul_small, ok_of_bounds. nia. }
  rewrite W.
  match goal with
  | |- context [for_range 0 (nelems mesh) ?body ?init] =>
      assert (H : filled mesh proj (ndof_per_element * (nelems mesh * num))
                    (for_range 0 (nelems mesh) body init))
  end.
  { apply (for_range_inv
             (fun j st => filled mesh proj (ndof_per_element * (j * num)) st));
      [lia| |].
    - split; [|split].
      + simpl. unfold uninit. apply Arr.len_fill. nia.
      + simpl. unfold uninit. apply Arr.len_fill. nia.
      + intros q Hq. lia.
    - intros j t Hj Ht.
      apply (filled_weaken mesh proj (ndof_per_element * (num + j * num))); [lia|].
      apply (for_range_inv
               (fun i st => filled mesh proj (ndof_per_element * (i + j * num)) st));
        [lia| |].
      + apply (filled_weaken mesh proj (ndof_per_element * (j * num))); [lia|exact Ht].
      + intros i u Hi Hu.
        apply (project_sub_elements_step mesh proj j i u Hs Hj Hi Hu). }
  destruct (for_range 0 (nelems mesh) _ _) as [dof sign]. simpl.
  apply (filled_weaken mesh proj (ndof_per_element * (nelems mesh * num)));
    [lia|exact H].
Qed.

(** C7.  The low-order mesh built from a high-order mesh and a projection
    allocates no degree of freedom: its [num_dof] is that of the parent, its
    element count is [get_num_projection_elements()] times that of the
    parent, and slot [k] of sub-element [i] of the parent element [j] holds
    the parent's degree of freedom at [index[k]] and the product of
    [signs[k]] with the parent's sign at [index[k]]. *)
Theorem projected_mesh_inherits_dof (mesh : ElementMesh) (proj : ElemProj) :
  projection_sizes_ok mesh proj ->
  num_dof (project_mesh mesh proj) = num_dof mesh /\
  nelems (project_mesh mesh proj)
  = get_num_projection_elements proj * nelems mesh /\
  forall j i k,
    0 <= j < nelems mesh -> 0 <= i < get_num_projection_elements proj ->
    0 <= k < ndof_per_element ->
    Arr.get (element_dof (project_mesh mesh proj))
      (ndof_per_element * (i + j * get_num_projection_elements proj) + k)
    = Arr.get (element_dof mesh)
        (horder_ndof * j
         + Arr.get (get_projection_index proj i (uninit ndof_per_element)) k) /\
    Arr.get (element_sign (project_mesh mesh proj))
      (ndof_per_element * (i + j * get_num_projection_elements proj) + k)
    = Arr.get (get_projection_signs proj i (uninit ndof_per_element)) k
      * Arr.get (element_sign mesh)
          (horder_ndof * j
           + Arr.get (get_projection_index proj i (uninit ndof_per_element)) k).
Proof.
  intros Hs. pose proof (project_mesh_filled mesh proj Hs) as (_ & _ & Hq).
  destruct Hs as (S1 & S2 & S3 & S4 & S5 & S6 & S7).
  set (num := get_num_projection_elements proj) in *.
  split; [|split].
  - unfold project_mesh. destruct (for_range _ _ _ _). reflexivity.
  - unfold project_mesh. destruct (for_range _ _ _ _). cbn [nelems]. fold num.
    apply Index.mul_small, ok_of_bounds. unfold get_num_elements.
    split; [apply Z.mul_nonneg_nonneg; assumption|exact S6].
  - intros j i k Hj Hi Hk.
    assert (He : 0 <= i + j * num < num * nelems mesh) by nia.
    assert (Hp : 0 <= ndof_per_element * (i + j * num) + k
                 < num * nelems mesh * ndof_per_element) by nia.
    destruct (Hq _ Hp) as (Q1 & Q2). simpl fst in Q1; simpl snd in Q2.
    rewrite Q1, Q2. unfold projected_dof, projected_sign, projected. fold num.
    destruct (decode_position ndof_per_element (i + j * num) k Hk) as (D1 & D2).
    destruct (decode_position num j i Hi) as (D3 & D4).
    rewrite D1, D2. replace (i + j * num) with (num * j + i) by lia.
    rewrite D3, D4. split; reflexivity.
Qed.

End Projection.

End DofMesh.


(** * Block compressed sparse row matrices *)

Module Bsr.

Definition NO_INDEX : Z := Index.max.

(** The state of a [BSRMat<T, M, N>] object; the value store [vals] and the
    arrays of the factorisation are not part of the model. *)
Record BSRMat := {
  nbrows : Z;
  nbcols : Z;
  nnz : Z;
  rowp : list Z;
  cols : list Z
}.

(** [BSRMat(nbrows, nbcols, nnz, rowp_, cols_)] *)
Definition make (nbrows nbcols nnz : Z) (rowp_ cols_ : list Z) : BSRMat :=
  {| nbrows := nbrows; nbcols := nbcols; nnz := nnz;
     rowp := copy_array (nbrows +w 1) rowp_;
     cols := copy_array nnz cols_ |}.

(** Modelled from the spec: [find_value_index], declared in
    [sparse_matrix.h] and defined in [sparse/sparse_matrix-inl.h], which is
    not among the sources: a linear search for [col] within
    [cols[rowp[row] .. rowp[row + 1])] that returns the sentinel when [col]
    is absent. *)
Definition find_value_index (mat : BSRMat) (row col : Z) : Z :=
  let jp_start := Arr.get (rowp mat) row in
  let jp_end := Arr.get (rowp mat) (row +w 1) in
  let found :=
    for_range jp_start jp_end
      (fun jp (found : option Z) =>
         match found with
         | Some _ => found
         | None => if Arr.get (cols mat) jp =? col then Some jp else None
         end) None in
  match found with
  | Some jp => jp
  | None => NO_INDEX
  end.

(** C9.  [find_value_index(row, col)] returns the sentinel exactly when
    [col] does not occur in [cols[rowp[row] .. rowp[row + 1])]; otherwise it
    returns a position of that range at which [cols] holds [col]. *)
Theorem find_value_index_spec (mat : BSRMat) (row col : Z) :
  0 <= row < nbrows mat -> nbrows mat <= Index.max ->
  0 <= Arr.get (rowp mat) row -> Arr.get (rowp mat) (row + 1) <= Index.max ->
  (find_value_index mat row col = NO_INDEX <->
   forall jp, Arr.get (rowp mat) row <= jp < Arr.get (rowp mat) (row + 1) ->
              Arr.get (cols mat) jp <> col) /\
  (find_value_index mat row col <> NO_INDEX ->
   Arr.get (rowp mat) row <= find_value_index mat row col
     < Arr.get (rowp mat) (row + 1) /\
   Arr.get (cols mat) (find_value_index mat row col) = col).
Proof.
  intros Hrow Hnb Hlo Hhi.
  assert (W : row +w 1 = row + 1) by (apply Index.add_small, ok_of_bounds; lia).
  unfold find_value_index. rewrite W.
  set (lo := Arr.get (rowp mat) row) in *.
  set (hi := Arr.get (rowp mat) (row + 1)) in *.
  set (body := fun jp (found : option Z) =>
         match found with
         | Some _ => found
         | None => if Arr.get (cols mat) jp =? col then Some jp else None
         end).
  assert (H : forall top, lo <= top ->
    match for_range lo top body None with
    | Some jp => lo <= jp < top /\ Arr.get (cols mat) jp = col
    | None => forall jp, lo <= jp < top -> Arr.get (cols mat) jp <> col
    end).
  { intros top Htop.
    apply (for_range_inv
             (fun i st => match st with
                          | Some jp => lo <= jp < i /\ Arr.get (cols mat) jp = col
                          | None => forall jp, lo <= jp < i ->
                                               Arr.get (cols mat) jp <> col
                          end)); auto.
    - intros jp Hjp. lia.
    - intros j [jp|] Hj Hst; unfold body.
      + destruct Hst. split; auto. lia.
      + destruct (Z.eqb_spec (Arr.get (cols mat) j) col) as [E|E].
        * split; auto. lia.
        * intros jp Hjp. destruct (Z.eq_dec jp j) as [->|]; auto. apply Hst. lia. }
  destruct (Z.le_gt_cases lo hi) as [Hle|Hgt].
  - specialize (H hi Hle). destruct (for_range lo hi body None) as [jp|].
    + destruct H as (Hjp & E). unfold NO_INDEX. split.
      * split; [lia|]. intros Hall. exfalso. now apply (Hall jp).
      * intros _. split; auto.
    + split; [split; auto|]. intros Hc. now contradiction Hc.
  - rewrite for_range_empty by lia. split.
    + split; auto. intros _ jp Hjp. lia.
    + intros Hc. now contradiction Hc.
Qed.

End Bsr.


(** * The block pattern of an element mesh *)

Module Pattern.

Import DofMesh.

(** ** [std::set<std::pair<index_t, index_t>>]: the pairs in increasing
    lexicographic order, without repetition *)

Definition pair_ltb (p q : Z * Z) : bool :=
  (fst p <? fst q) || ((fst p =? fst q) && (snd p <? snd q)).

Definition pair_eqb (p q : Z * Z) : bool :=
  (fst p =? fst q) && (snd p =? snd q).

(** [node_set.insert(p)] *)
Fixpoint set_insert (p : Z * Z) (s : list (Z * Z)) : list (Z * Z) :=
  match s with
  | [] => [p]
  | q :: t =>
      if pair_ltb p q then p :: s
      else if pair_eqb p q then s
      else q :: set_insert p t
  end.

(** ** Sorting the columns of every row *)

Fixpoint insert_sorted (x : Z) (l : list Z) : list Z :=
  match l with
  | [] => [x]
  | y :: t => if x <=? y then x :: l else y :: insert_sorted x t
  end.

Fixpoint sort_list (l : list Z) : list Z :=
  match l with
  | [] => []
  | x :: t => insert_sorted x (sort_list t)
  end.

(** Sort [cols[lo .. hi)] in place. *)
Definition sort_segment (cols : list Z) (lo hi : Z) : list Z :=
  firstn (Z.to_nat lo) cols
  ++ sort_list (firstn (Z.to_nat (hi - lo)) (skipn (Z.to_nat lo) cols))
  ++ skipn (Z.to_nat hi) cols.

(** Modelled from the spec: [SortCSRData], defined in
    [sparse/sparse_symbolic.h], which is not among the sources: it sorts the
    column indices within each row in ascending order. *)
Definition SortCSRData (nrows : Z) (rowp cols : list Z) : list Z :=
  for_range 0 nrows
    (fun i cols => sort_segment cols (Arr.get rowp i) (Arr.get rowp (i +w 1)))
    cols.

Section BlockMatrix.

(** [Basis::ndof] and the block size [M] *)
Variable ndof : Z.
Variable M : Z.

(** The inner [while] loop: advance [j1] over the degrees of freedom that
    fall in the block row [row]. *)
Fixpoint skip_same_row (fuel : nat) (mesh : ElementMesh) (i row j1 : Z) : Z :=
  match fuel with
  | O => j1
  | S fuel =>
      if (j1 +w 1 <? ndof)
         && (row =? Arr.get (element_dof mesh) (i *w ndof +w j1 +w 1) / M)
      then skip_same_row fuel mesh i row (j1 +w 1)
      else j1
  end.

(** The loop [for (j1 = 0; j1 < Basis::ndof; j1++, n++)] that fills
    [dof_reduced]; [j1] also moves in the body. *)
Fixpoint reduce_rows (fuel : nat) (mesh : ElementMesh) (i j1 n : Z)
  (dof_reduced : list Z) : Z * list Z :=
  match fuel with
  | O => (n, dof_reduced)
  | S fuel =>
      if j1 <? ndof then
        let row := Arr.get (element_dof mesh) (i *w ndof +w j1) / M in
        let j1 := skip_same_row (Z.to_nat ndof) mesh i row j1 in
        let dof_reduced := Arr.set dof_reduced n row in
        reduce_rows fuel mesh i (j1 +w 1) (n +w 1) dof_reduced
      else (n, dof_reduced)
  end.

(** The contribution of element [i] to [node_set] *)
Definition add_element_pairs (mesh : ElementMesh) (i : Z) (node_set : list (Z * Z))
  : list (Z * Z) :=
  let '(n, dof_reduced) :=
    reduce_rows (Z.to_nat ndof) mesh i 0 0 (uninit ndof) in
  for_range 0 n
    (fun j1 node_set =>
       for_range 0 n
         (fun j2 node_set =>
            set_insert (Arr.get dof_reduced j1, Arr.get dof_reduced j2) node_set)
         node_set)
    node_set.

Definition build_node_set (mesh : ElementMesh) : list (Z * Z) :=
  for_range 0 (nelems mesh) (add_element_pairs mesh) [].

(** [create_block_matrix<T, M>()] *)
Definition create_block_matrix (mesh : ElementMesh) : Bsr.BSRMat :=
  let node_set := build_node_set mesh in
  let nrows := num_dof mesh / M in
  let nrows := if num_dof mesh mod M >? 0 then nrows +w 1 else nrows in
  let rowp := Arr.fill (nrows +w 1) 0 in
  let rowp := fold_left Csr.count_key node_set rowp in
  let rowp := Arr.set rowp 0 0 in
  let rowp := Csr.prefix_sum nrows rowp in
  let nnz := Arr.get rowp nrows in
  let cols := Arr.fill nnz 0 in
  let '(rowp, cols) := fold_left Csr.scatter_item node_set (rowp, cols) in
  let rowp := Csr.shift_rows nrows rowp in
  let cols := SortCSRData nrows rowp cols in
  Bsr.make nrows nrows nnz rowp cols.

End BlockMatrix.

(** ** The ordered set *)

Definition pair_lt (p q : Z * Z) : Prop :=
  fst p < fst q \/ (fst p = fst q /\ snd p < snd q).

Definition ordered_set (s : list (Z * Z)) : Prop := StronglySorted pair_lt s.

Lemma pair_ltb_lt p q : pair_ltb p q = true <-> pair_lt p q.
Proof.
  unfold pair_ltb, pair_lt.
  rewrite orb_true_iff, andb_true_iff, !Z.ltb_lt, Z.eqb_eq. tauto.
Qed.

Lemma pair_eqb_eq p q : pair_eqb p q = true <-> p = q.
Proof.
  unfold pair_eqb. destruct p as [a b], q as [c d]. simpl.
  rewrite andb_true_iff, !Z.eqb_eq. split.
  - intros [-> ->]. reflexivity.
  - intros H. injection H. auto.
Qed.

Lemma pair_lt_trans p q r : pair_lt p q -> pair_lt q r -> pair_lt p r.
Proof. unfold pair_lt. lia. Qed.

Lemma pair_trichotomy p q :
  pair_ltb p q = false -> pair_eqb p q = false -> pair_lt q p.
Proof.
  intros H1 H2. destruct p as [a b], q as [c d].
  unfold pair_ltb, pair_eqb, pair_lt in *. simpl in *.
  destruct (Z.ltb_spec a c), (Z.eqb_spec a c), (Z.ltb_spec b d),
    (Z.eqb_spec b d); simpl in *; try discriminate; lia.
Qed.

Lemma in_set_insert p q s : In q (set_insert p s) <-> q = p \/ In q s.
Proof.
  induction s as [|h t IH]; simpl.
  - intuition.
  - destruct (pair_ltb p h) eqn:E1.
    + simpl. intuition.
    + destruct (pair_eqb p h) eqn:E2.
      * apply pair_eqb_eq in E2. subst h. simpl. intuition.
      * simpl. rewrite IH. intuition.
Qed.

Lemma ordered_set_insert p s : ordered_set s -> ordered_set (set_insert p s).
Proof.
  unfold ordered_set. induction s as [|h t IH]; intros Hs; simpl.
  - constructor; constructor.
  - inversion Hs as [|? ? Ht Hh]; subst.
    destruct (pair_ltb p h) eqn:E1.
    + apply pair_ltb_lt in E1. constructor; auto.
      constructor; auto.
      rewrite Forall_forall in *. intros x Hx.
      apply pair_lt_trans with h; auto.
    + destruct (pair_eqb p h) eqn:E2; auto.
      pose proof (pair_trichotomy _ _ E1 E2) as Hlt.
      constructor; auto.
      rewrite Forall_forall in *. intros x Hx.
      apply in_set_insert in Hx. destruct Hx as [->|Hx]; auto.
Qed.

(** The values stored under one key of an ordered set are strictly
    increasing. *)
Lemma bucket_increasing k s :
  ordered_set s -> StronglySorted Z.lt (Csr.bucket k s).
Proof.
  unfold ordered_set, Csr.bucket. induction s as [|[a b] t IH]; intros Hs; simpl.
  - constructor.
  - inversion Hs as [|? ? Ht Hh]; subst.
    destruct (Z.eqb_spec a k) as [->|Hne]; simpl; auto.
    constructor; auto.
    rewrite Forall_forall in *. intros x Hx.
    apply in_map_iff in Hx. destruct Hx as ([c d] & <- & Hin).
    apply filter_In in Hin. destruct Hin as (Hin & Hk).
    simpl in Hk. apply Z.eqb_eq in Hk. subst c.
    specialize (Hh _ Hin). unfold pair_lt in Hh. simpl in *. lia.
Qed.

Lemma sorted_nth (l : list Z) :
  StronglySorted Z.lt l ->
  forall a b, (a < b < length l)%nat -> nth a l 0 < nth b l 0.
Proof.
  induction 1 as [|x t Ht IH Hx]; intros a b Hab; simpl in *; [lia|].
  destruct b as [|b]; [lia|]. destruct a as [|a].
  - rewrite Forall_forall in Hx. apply Hx, nth_In. lia.
  - apply IH. lia.
Qed.

(** ** Sorting a row that is already in order *)

Lemma nth_increasing_sorted (l : list Z) :
  (forall a b, (a < b < length l)%nat -> nth a l 0 < nth b l 0) ->
  sort_list l = l.
Proof.
  induction l as [|x t IH]; intros H; simpl; auto.
  rewrite IH.
  - destruct t as [|y u]; simpl; auto.
    specialize (H 0%nat 1%nat). simpl in H.
    destruct (Z.leb_spec x y); auto. lia.
  - intros a b Hab. apply (H (S a) (S b)). simpl. lia.
Qed.

Lemma nth_segment (cols : list Z) (lo n r : nat) :
  (r < n)%nat -> (lo + n <= length cols)%nat ->
  nth r (firstn n (skipn lo cols)) 0 = nth (lo + r) cols 0.
Proof.
  intros Hr Hn. rewrite nth_firstn.
  replace (r <? n)%nat with true by (symmetry; apply Nat.ltb_lt; lia).
  apply nth_skipn.
Qed.

Lemma sort_segment_sorted cols lo hi :
  0 <= lo <= hi -> hi <= Arr.len cols ->
  (forall a b, lo <= a < b -> b < hi -> Arr.get cols a < Arr.get cols b) ->
  sort_segment cols lo hi = cols.
Proof.
  intros Hlo Hhi Hs. unfold sort_segment, Arr.len in *.
  assert (Hlen : length (firstn (Z.to_nat (hi - lo)) (skipn (Z.to_nat lo) cols))
                 = Z.to_nat (hi - lo)).
  { rewrite length_firstn, length_skipn. lia. }
  rewrite nth_increasing_sorted.
  - replace (Z.to_nat hi) with (Z.to_nat (hi - lo) + Z.to_nat lo)%nat by lia.
    rewrite <- skipn_skipn.
    rewrite firstn_skipn. apply firstn_skipn.
  - intros a b Hab. rewrite Hlen in Hab.
    rewrite !nth_segment by lia.
    specialize (Hs (lo + Z.of_nat a) (lo + Z.of_nat b)).
    unfold Arr.get in Hs.
    replace (Z.to_nat (lo + Z.of_nat a)) with (Z.to_nat lo + a)%nat in Hs by lia.
    replace (Z.to_nat (lo + Z.of_nat b)) with (Z.to_nat lo + b)%nat in Hs by lia.
    apply Hs; lia.
Qed.

Lemma SortCSRData_sorted nrows rowp cols :
  0 <= nrows < Index.max ->
  (forall i, 0 <= i < nrows ->
     0 <= Arr.get rowp i <= Arr.get rowp (i + 1) /\
     Arr.get rowp (i + 1) <= Arr.len cols /\
     forall a b, Arr.get rowp i <= a < b -> b < Arr.get rowp (i + 1) ->
                 Arr.get cols a < Arr.get cols b) ->
  SortCSRData nrows rowp cols = cols.
Proof.
  intros Hn H. unfold SortCSRData.
  apply (@for_range_preserves (list Z) (fun c => c = cols)); auto.
  intros i t Hi ->.
  assert (W : i +w 1 = i + 1) by (apply Index.add_small, ok_of_bounds; lia).
  rewrite W. destruct (H i Hi) as (A & B & C).
  apply sort_segment_sorted; auto.
Qed.

Lemma copy_array_spec n src :
  0 <= n ->
  Arr.len (copy_array n src) = n /\
  forall j, 0 <= j < n -> Arr.get (copy_array n src) j = Arr.get src j.
Proof.
  intros Hn. unfold copy_array.
  apply (for_range_inv
           (fun i dst => Arr.len dst = n /\
              forall j, 0 <= j < i -> Arr.get dst j = Arr.get src j)); auto.
  - split; [apply Arr.len_fill; lia | intros j Hj; lia].
  - intros i dst Hi (L & G). split; [now rewrite Arr.len_set|].
    intros j Hj. destruct (Z.eq_dec j i) as [->|Hne].
    + apply Arr.get_set_eq. lia.
    + rewrite Arr.get_set_ne by lia. apply G. lia.
Qed.

(** ** The pattern of a mesh *)

Section BlockPattern.

Variable ndof : Z.
Variable M : Z.
Variable mesh : ElementMesh.

(** The block row of local degree of freedom [j] of element [i] *)
Definition dof_row (i j : Z) : Z :=
  Arr.get (element_dof mesh) (i * ndof + j) / M.

(** [(r, c)] is a pair of block rows touched by one element. *)
Definition in_pattern (r c : Z) : Prop :=
  exists i j1 j2,
    0 <= i < nelems mesh /\ 0 <= j1 < ndof /\ 0 <= j2 < ndof /\
    r = dof_row i j1 /\ c = dof_row i j2.

(** The sizes are representable and every stored degree of freedom is a
    valid global number. *)
Definition block_sizes_ok : Prop :=
  0 < M /\ 0 <= ndof <= Index.max /\ 0 <= nelems mesh /\
  nelems mesh * ndof <= Index.max /\
  0 <= num_dof mesh < Index.max /\
  (forall k, 0 <= k < nelems mesh * ndof ->
     0 <= Arr.get (element_dof mesh) k < num_dof mesh) /\
  Z.of_nat (length (build_node_set ndof M mesh)) <= Index.max.

Hypothesis Hok : block_sizes_ok.

Lemma elem_index i j :
  0 <= i < nelems mesh -> 0 <= j < ndof ->
  i *w ndof +w j = i * ndof + j /\ 0 <= i * ndof + j < nelems mesh * ndof.
Proof.
  destruct Hok as (HM & Hnd & Hne & Hsz & _). intros Hi Hj.
  assert (B : 0 <= i * ndof + j < nelems mesh * ndof) by nia.
  assert (B2 : 0 <= i * ndof <= Index.max) by nia.
  split; auto.
  rewrite Index.mul_small by (apply ok_of_bounds; lia).
  apply Index.add_small, ok_of_bounds. lia.
Qed.

Lemma succ_index j : 0 <= j < ndof -> j +w 1 = j + 1.
Proof.
  destruct Hok as (HM & Hnd & _). intros Hj.
  apply Index.add_small, ok_of_bounds. lia.
Qed.

Lemma skip_same_row_spec i row : 0 <= i < nelems mesh ->
  forall fuel j1, 0 <= j1 < ndof -> ndof - j1 <= Z.of_nat fuel ->
    j1 <= skip_same_row ndof M fuel mesh i row j1 < ndof /\
    (forall j, j1 < j <= skip_same_row ndof M fuel mesh i row j1 ->
               dof_row i j = row) /\
    (skip_same_row ndof M fuel mesh i row j1 + 1 < ndof ->
     dof_row i (skip_same_row ndof M fuel mesh i row j1 + 1) <> row).
Proof.
  intros Hi. induction fuel as [|fuel IH]; intros j1 Hj Hf; [lia|].
  simpl skip_same_row. rewrite (succ_index j1 Hj).
  destruct (Z.ltb_spec (j1 + 1) ndof) as [Hlt|Hge]; simpl andb.
  - assert (W1 : i *w ndof +w j1 +w 1 = i * ndof + (j1 + 1)).
    { destruct (elem_index i j1 Hi Hj) as [W2 B2]. rewrite W2.
      destruct Hok as (_ & _ & _ & Hsz & _).
      rewrite Index.add_small by (apply ok_of_bounds; lia). lia. }
    rewrite W1. fold (dof_row i (j1 + 1)).
    destruct (Z.eqb_spec row (dof_row i (j1 + 1))) as [E|E].
    + destruct (IH (j1 + 1)) as (A & B & C); [lia|lia|].
      split; [lia|]. split; auto.
      intros j Hjj. destruct (Z.eq_dec j (j1 + 1)) as [->|]; auto.
      apply B. lia.
    + split; [lia|]. split; [intros j Hjj; lia|]. intros _. congruence.
  - split; [lia|]. split; [intros j Hjj; lia|]. intros Hc. lia.
Qed.

(** The entries [dof_reduced[0 .. n)] are the block rows of the local
    degrees of freedom [0 .. j1). *)
Definition reduced (i n j1 : Z) (dof_reduced : list Z) : Prop :=
  forall v, (exists k, 0 <= k < n /\ Arr.get dof_reduced k = v) <->
            (exists j, 0 <= j < j1 /\ dof_row i j = v).

Lemma reduce_rows_spec i : 0 <= i < nelems mesh ->
  forall fuel j1 n dr,
    0 <= n <= j1 -> j1 <= ndof -> ndof - j1 <= Z.of_nat fuel ->
    Arr.len dr = ndof -> reduced i n j1 dr ->
    0 <= fst (reduce_rows ndof M fuel mesh i j1 n dr) <= ndof /\
    reduced i (fst (reduce_rows ndof M fuel mesh i j1 n dr)) ndof
      (snd (reduce_rows ndof M fuel mesh i j1 n dr)).
Proof.
  intros Hi. induction fuel as [|fuel IH]; intros j1 n dr Hn Hj Hf L R.
  - simpl. assert (j1 = ndof) by lia. subst j1. split; [lia|exact R].
  - simpl reduce_rows. destruct (Z.ltb_spec j1 ndof) as [Hlt|Hge].
    + destruct (elem_index i j1 Hi) as [W _]; [lia|]. rewrite W.
      fold (dof_row i j1).
      destruct (skip_same_row_spec i (dof_row i j1) Hi (Z.to_nat ndof) j1)
        as (A & B & C); [lia|lia|].
      set (j' := skip_same_row ndof M (Z.to_nat ndof) mesh i (dof_row i j1) j1) in *.
      rewrite (succ_index j') by lia. rewrite (succ_index n) by lia.
      apply IH; [lia|lia|lia|now rewrite Arr.len_set|].
      intros v. split.
      * intros (k & Hk & E). destruct (Z.eq_dec k n) as [->|Hne].
        -- rewrite Arr.get_set_eq in E by lia. exists j1. split; [lia|exact E].
        -- rewrite Arr.get_set_ne in E by lia.
           destruct (proj1 (R v)) as (j & Hjj & Ej).
           { exists k. split; [lia|exact E]. }
           exists j. split; [lia|exact Ej].
      * intros (j & Hjj & E). destruct (Z_lt_le_dec j j1) as [Hl|Hl].
        -- destruct (proj2 (R v)) as (k & Hk & Ek).
           { exists j. split; [lia|exact E]. }
           exists k. split; [lia|]. rewrite Arr.get_set_ne by lia. exact Ek.
        -- exists n. split; [lia|]. rewrite Arr.get_set_eq by lia.
           destruct (Z.eq_dec j j1) as [->|]; auto.
           rewrite <- E. symmetry. apply B. lia.
    + simpl. assert (j1 = ndof) by lia. subst j1. split; [lia|exact R].
Qed.

(** What one element adds to the set *)
Lemma add_element_pairs_spec i s : 0 <= i < nelems mesh ->
  (ordered_set s -> ordered_set (add_element_pairs ndof M mesh i s)) /\
  forall r c, In (r, c) (add_element_pairs ndof M mesh i s) <->
    In (r, c) s \/
    exists j1 j2, 0 <= j1 < ndof /\ 0 <= j2 < ndof /\
                  r = dof_row i j1 /\ c = dof_row i j2.
Proof.
  intros Hi. unfold add_element_pairs.
  destruct Hok as (HM & Hnd & _).
  destruct (reduce_rows_spec i Hi (Z.to_nat ndof) 0 0 (uninit ndof))
    as (Hn & R); [lia|lia|lia|apply Arr.len_fill; lia| |].
  { intros v. split; intros (k & Hk & _); lia. }
  destruct (reduce_rows ndof M (Z.to_nat ndof) mesh i 0 0 (uninit ndof))
    as [n dr]. simpl fst in *; simpl snd in *.
  set (inner := fun j1 => for_range 0 n
         (fun j2 node_set =>
            set_insert (Arr.get dr j1, Arr.get dr j2) node_set)).
  assert (Hinner : forall j1 t,
    (ordered_set t -> ordered_set (inner j1 t)) /\
    forall q, In q (inner j1 t) <->
      In q t \/ exists k2, 0 <= k2 < n /\ q = (Arr.get dr j1, Arr.get dr k2)).
  { intros j1 t. unfold inner.
    apply (for_range_inv
             (fun b u => (ordered_set t -> ordered_set u) /\
                forall q, In q u <->
                  In q t \/ exists k2, 0 <= k2 < b /\
                                       q = (Arr.get dr j1, Arr.get dr k2)));
      [lia| |].
    - split; auto. intros q. split; auto. intros [H|(k2 & Hk & _)]; [auto|lia].
    - intros j u Hj (O & I). split.
      + intros Ht. apply ordered_set_insert, O, Ht.
      + intros q. rewrite in_set_insert, I. split.
        * intros [->|[H|(k2 & Hk & E)]]; auto.
          -- right. exists j. split; [lia|reflexivity].
          -- right. exists k2. split; [lia|exact E].
        * intros [H|(k2 & Hk & E)]; auto.
          destruct (Z.eq_dec k2 j) as [->|]; auto.
          right. right. exists k2. split; [lia|exact E]. }
  assert (Houter :
    (ordered_set s -> ordered_set (for_range 0 n inner s)) /\
    forall q, In q (for_range 0 n inner s) <->
      In q s \/ exists k1 k2, 0 <= k1 < n /\ 0 <= k2 < n /\
                              q = (Arr.get dr k1, Arr.get dr k2)).
  { apply (for_range_inv
             (fun a u => (ordered_set s -> ordered_set u) /\
                forall q, In q u <->
                  In q s \/ exists k1 k2, 0 <= k1 < a /\ 0 <= k2 < n /\
                                          q = (Arr.get dr k1, Arr.get dr k2)));
      [lia| |].
    - split; auto. intros q. split; auto.
      intros [H|(k1 & k2 & Hk & _)]; [auto|lia].
    - intros j u Hj (O & I). destruct (Hinner j u) as (O' & I'). split.
      + intros Hs. apply O', O, Hs.
      + intros q. rewrite I', I. split.
        * intros [[H|(k1 & k2 & Hk1 & Hk2 & E)]|(k2 & Hk2 & E)]; auto.
          -- right. exists k1, k2. repeat split; auto; lia.
          -- right. exists j, k2. repeat split; auto; lia.
        * intros [H|(k1 & k2 & Hk1 & Hk2 & E)]; auto.
          destruct (Z.eq_dec k1 j) as [->|].
          -- right. exists k2. split; auto.
          -- left. right. exists k1, k2. repeat split; auto; lia. }
  destruct Houter as (O & I). split; auto.
  intros r c. rewrite I. split.
  - intros [H|(k1 & k2 & Hk1 & Hk2 & E)]; auto. right.
    injection E as -> ->.
    destruct (proj1 (R (Arr.get dr k1))) as (j1 & Hj1 & E1).
    { exists k1. split; auto. }
    destruct (proj1 (R (Arr.get dr k2))) as (j2 & Hj2 & E2).
    { exists k2. split; auto. }
    exists j1, j2. repeat split; auto; lia.
  - intros [H|(j1 & j2 & Hj1 & Hj2 & -> & ->)]; auto. right.
    destruct (proj2 (R (dof_row i j1))) as (k1 & Hk1 & E1).
    { exists j1. split; auto. }
    destruct (proj2 (R (dof_row i j2))) as (k2 & Hk2 & E2).
    { exists j2. split; auto. }
    exists k1, k2. rewrite E1, E2. repeat split; auto; lia.
Qed.

(** The set holds exactly the pattern, in order. *)
Lemma build_node_set_spec :
  ordered_set (build_node_set ndof M mesh) /\
  forall r c, In (r, c) (build_node_set ndof M mesh) <-> in_pattern r c.
Proof.
  unfold build_node_set. destruct Hok as (HM & Hnd & Hne & _).
  assert (H : ordered_set (for_range 0 (nelems mesh) (add_element_pairs ndof M mesh) []) /\
    forall r c, In (r, c) (for_range 0 (nelems mesh) (add_element_pairs ndof M mesh) []) <->
      exists i j1 j2, 0 <= i < nelems mesh /\ 0 <= j1 < ndof /\ 0 <= j2 < ndof /\
                      r = dof_row i j1 /\ c = dof_row i j2).
  { apply (for_range_inv
             (fun e u => ordered_set u /\
                forall r c, In (r, c) u <->
                  exists i j1 j2, 0 <= i < e /\ 0 <= j1 < ndof /\ 0 <= j2 < ndof /\
                                  r = dof_row i j1 /\ c = dof_row i j2)); [lia| |].
    - split; [constructor|]. intros r c. split; [intros []|].
      intros (i & _ & _ & Hi & _). lia.
    - intros e u He (O & I).
      destruct (add_element_pairs_spec e u He) as (O' & I'). split; auto.
      intros r c. rewrite I', I. split.
      + intros [(i & j1 & j2 & Hi & H)|(j1 & j2 & H)].
        * exists i, j1, j2. split; [lia|exact H].
        * exists e, j1, j2. split; [lia|exact H].
      + intros (i & j1 & j2 & Hi & H). destruct (Z.eq_dec i e) as [->|].
        * right. exists j1, j2. exact H.
        * left. exists i, j1, j2. split; [lia|exact H]. }
  exact H.
Qed.

End BlockPattern.

(** ** The matrix built from the pattern *)

Section BlockMatrixCorrect.

Variable ndof : Z.
Variable M : Z.
Variable mesh : ElementMesh.
Hypothesis Hok : block_sizes_ok ndof M mesh.

(** [ceil(num_dof / M)] *)
Definition block_rows : Z := (num_dof mesh + M - 1) / M.

Lemma block_rows_eq :
  (if num_dof mesh mod M >? 0 then num_dof mesh / M +w 1 else num_dof mesh / M)
  = block_rows.
Proof.
  destruct Hok as (HM & _ & _ & _ & Hnd & _). unfold block_rows.
  pose proof (Z.div_mod (num_dof mesh) M ltac:(lia)) as E.
  pose proof (Z.mod_pos_bound (num_dof mesh) M HM) as B.
  assert (Hq : 0 <= num_dof mesh / M <= num_dof mesh).
  { split; [apply Z.div_pos; lia|]. apply Z.div_le_upper_bound; nia. }
  remember (num_dof mesh / M) as q eqn:Eq.
  remember (num_dof mesh mod M) as m eqn:Em.
  destruct (Z.gtb_spec m 0) as [Hgt|Hle].
  - rewrite Index.add_small by (apply ok_of_bounds; lia).
    apply (Z.div_unique _ _ _ (m - 1)); [lia|nia].
  - apply (Z.div_unique _ _ _ (M - 1)); [lia|nia].
Qed.

Lemma block_rows_bounds :
  0 <= block_rows < Index.max /\
  forall d, 0 <= d < num_dof mesh -> 0 <= d / M < block_rows.
Proof.
  destruct Hok as (HM & _ & _ & _ & Hnd & _). unfold block_rows.
  pose proof (Z.div_mod (num_dof mesh + M - 1) M ltac:(lia)) as E.
  pose proof (Z.mod_pos_bound (num_dof mesh + M - 1) M HM) as B.
  remember ((num_dof mesh + M - 1) / M) as q eqn:Eq.
  remember ((num_dof mesh + M - 1) mod M) as m eqn:Em.
  split.
  - split; [nia|].
    apply Z.le_lt_trans with (num_dof mesh); [|lia]. nia.
  - intros d Hd. split; [apply Z.div_pos; lia|].
    apply Z.div_lt_upper_bound; [lia|]. lia.
Qed.

Lemma in_pattern_bounds r c :
  in_pattern ndof M mesh r c -> 0 <= r < block_rows /\ 0 <= c < block_rows.
Proof.
  intros (i & j1 & j2 & Hi & Hj1 & Hj2 & -> & ->).
  destruct block_rows_bounds as [_ Hb].
  destruct Hok as (_ & _ & _ & _ & _ & Hd & _).
  unfold dof_row. split; apply Hb, Hd; nia.
Qed.

Lemma node_set_keys it :
  In it (build_node_set ndof M mesh) -> 0 <= fst it < block_rows.
Proof.
  destruct it as [r c]. intros Hin.
  apply (build_node_set_spec ndof M mesh Hok) in Hin.
  apply in_pattern_bounds in Hin. simpl. tauto.
Qed.

Lemma counted_reset n items rowp :
  0 <= n -> (forall it, In it items -> 0 <= fst it < n) ->
  Csr.counted n items rowp -> Csr.counted n items (Arr.set rowp 0 0).
Proof.
  intros Hn Hk (L & G). split; [now rewrite Arr.len_set|].
  intros j Hj. destruct (Z.eq_dec j 0) as [->|Hne].
  - rewrite Arr.get_set_eq by lia. symmetry.
    apply (Csr.count_eq_out (0 - 1) n items Hk). lia.
  - rewrite Arr.get_set_ne by lia. apply G, Hj.
Qed.

(** The rows of a compressed ordered set are already in order. *)
Lemma compressed_sorted n items st :
  0 <= n < Index.max -> (forall it, In it items -> 0 <= fst it < n) ->
  ordered_set items -> Csr.compressed n items st ->
  SortCSRData n (fst st) (snd st) = snd st.
Proof.
  intros Hn Hk Ho C.
  destruct (Csr.compressed_rowp n items Hn Hk st C) as (R0 & Rn & Rs).
  pose proof C as (L1 & L2 & G & Gc).
  apply SortCSRData_sorted; auto.
  intros i Hi. rewrite (Rs i Hi).
  pose proof (Csr.count_eq_nonneg i items) as Hc.
  pose proof (Csr.count_lt_nonneg i items) as Hl.
  rewrite (G i) by lia. split; [lia|]. split.
  - rewrite L2. rewrite <- Csr.count_lt_succ.
    apply (Csr.count_lt_le_length items).
  - intros a b Ha Hb.
    replace a with (Csr.count_lt i items + (a - Csr.count_lt i items)) by lia.
    replace b with (Csr.count_lt i items + (b - Csr.count_lt i items)) by lia.
    rewrite !Gc by lia.
    apply sorted_nth; [now apply bucket_increasing|].
    pose proof (Csr.length_bucket i items). lia.
Qed.

(** The row pointer and the columns handed to the matrix constructor *)
Lemma block_matrix_arrays :
  exists st,
    Csr.compressed block_rows (build_node_set ndof M mesh) st /\
    create_block_matrix ndof M mesh =
      Bsr.make block_rows block_rows
        (Z.of_nat (length (build_node_set ndof M mesh))) (fst st) (snd st).
Proof.
  unfold create_block_matrix. rewrite block_rows_eq.
  destruct block_rows_bounds as [Hn _].
  remember (build_node_set ndof M mesh) as items eqn:Ei.
  assert (Hk : forall it, In it items -> 0 <= fst it < block_rows).
  { subst items. apply node_set_keys. }
  assert (Hlen : Z.of_nat (length items) <= Index.max).
  { subst items. apply Hok. }
  assert (Ho : ordered_set items).
  { subst items. apply (build_node_set_spec ndof M mesh Hok). }
  remember block_rows as n eqn:En.
  pose proof (Csr.counted_fold n items Hn Hk Hlen items [] (Arr.fill (n +w 1) 0)
                eq_refl (Csr.counted_start n items Hn)) as C.
  apply (counted_reset n items _ (proj1 Hn) Hk) in C.
  pose proof (Csr.summed_prefix_sum n items Hn Hk Hlen _ C) as S.
  pose proof (Csr.scattered_fold n items Hn Hk Hlen items [] _ eq_refl
                (Csr.scattered_start n items Hn Hk _ S)) as Sc.
  assert (Hnnz : Arr.get (Csr.prefix_sum n
                   (Arr.set (fold_left Csr.count_key items (Arr.fill (n +w 1) 0)) 0 0)) n
                 = Z.of_nat (length items)).
  { destruct S as (_ & G). rewrite (G n) by lia.
    apply (Csr.count_lt_all n items Hk). }
  unfold uninit in Sc.
  destruct (fold_left Csr.scatter_item items _) as [rowp cols].
  pose proof (Csr.compressed_shift n items Hn Hk (rowp, cols) Sc) as Cp.
  simpl fst in Cp; simpl snd in Cp.
  exists (Csr.shift_rows n rowp, cols). split; auto.
  simpl fst; simpl snd. rewrite Hnnz.
  pose proof (compressed_sorted n items _ Hn Hk Ho Cp) as Hs.
  simpl fst in Hs; simpl snd in Hs. rewrite Hs. reflexivity.
Qed.

End BlockMatrixCorrect.

(** C8.  [create_block_matrix<T, M>()] returns a square matrix of
    [ceil(num_dof / M)] block rows; its compressed rows hold exactly the
    pairs [(d1 / M, d2 / M)] of degrees of freedom [d1], [d2] of a common
    element, each once, and the columns of every row increase strictly. *)
Theorem create_block_matrix_pattern (ndof M : Z) (mesh : ElementMesh) :
  block_sizes_ok ndof M mesh ->
  Bsr.nbrows (create_block_matrix ndof M mesh) = (num_dof mesh + M - 1) / M /\
  Bsr.nbcols (create_block_matrix ndof M mesh) = (num_dof mesh + M - 1) / M /\
  Arr.len (Bsr.rowp (create_block_matrix ndof M mesh))
    = Bsr.nbrows (create_block_matrix ndof M mesh) + 1 /\
  Arr.len (Bsr.cols (create_block_matrix ndof M mesh))
    = Bsr.nnz (create_block_matrix ndof M mesh) /\
  Arr.get (Bsr.rowp (create_block_matrix ndof M mesh)) 0 = 0 /\
  Arr.get (Bsr.rowp (create_block_matrix ndof M mesh))
    (Bsr.nbrows (create_block_matrix ndof M mesh))
    = Bsr.nnz (create_block_matrix ndof M mesh) /\
  (forall r c, in_pattern ndof M mesh r c ->
     0 <= r < Bsr.nbrows (create_block_matrix ndof M mesh) /\
     0 <= c < Bsr.nbcols (create_block_matrix ndof M mesh)) /\
  (forall r c, 0 <= r < Bsr.nbrows (create_block_matrix ndof M mesh) ->
     (exists jp,
        Arr.get (Bsr.rowp (create_block_matrix ndof M mesh)) r <= jp
          < Arr.get (Bsr.rowp (create_block_matrix ndof M mesh)) (r + 1) /\
        Arr.get (Bsr.cols (create_block_matrix ndof M mesh)) jp = c)
     <-> in_pattern ndof M mesh r c) /\
  (forall r a b, 0 <= r < Bsr.nbrows (create_block_matrix ndof M mesh) ->
     Arr.get (Bsr.rowp (create_block_matrix ndof M mesh)) r <= a -> a < b ->
     b < Arr.get (Bsr.rowp (create_block_matrix ndof M mesh)) (r + 1) ->
     Arr.get (Bsr.cols (create_block_matrix ndof M mesh)) a
       < Arr.get (Bsr.cols (create_block_matrix ndof M mesh)) b).
Proof.
  intros Hok.
  destruct (block_matrix_arrays ndof M mesh Hok) as (st & C & E).
  rewrite E. clear E.
  destruct (block_rows_bounds ndof M mesh Hok) as [Hn _].
  pose proof (node_set_keys ndof M mesh Hok) as Hk.
  destruct (build_node_set_spec ndof M mesh Hok) as (Ho & Hin).
  fold (block_rows M mesh). remember (block_rows M mesh) as n eqn:En.
  remember (build_node_set ndof M mesh) as items eqn:Ei.
  destruct (Csr.compressed_rowp n items Hn Hk st C) as (R0 & Rn & Rs).
  pose proof C as (L1 & L2 & G & Gc).
  assert (W : n +w 1 = n + 1) by (apply Index.add_small, ok_of_bounds; lia).
  unfold Bsr.make. cbn [Bsr.nbrows Bsr.nbcols Bsr.nnz Bsr.rowp Bsr.cols].
  rewrite W.
  destruct (copy_array_spec (n + 1) (fst st) ltac:(lia)) as (Lr & Gr).
  destruct (copy_array_spec (Z.of_nat (length items)) (snd st) ltac:(lia))
    as (Lc & Gcc).
  assert (Hrow : forall r, 0 <= r < n ->
            0 <= Arr.get (fst st) r /\
            Arr.get (fst st) (r + 1) <= Z.of_nat (length items)).
  { intros r Hr. rewrite (G r), (G (r + 1)) by lia. split.
    - apply Csr.count_lt_nonneg.
    - apply (Csr.count_lt_le_length items). }
  split; [reflexivity|]. split; [reflexivity|]. split; [exact Lr|].
  split; [exact Lc|]. split; [rewrite Gr by lia; exact R0|].
  split; [rewrite Gr by lia; exact Rn|]. split.
  { intros r c Hp. subst n. apply (in_pattern_bounds ndof M mesh Hok), Hp. }
  split.
  - intros r c Hr. rewrite !Gr by lia. rewrite <- Hin.
    rewrite <- (Csr.compressed_row n items st r c C Hr).
    destruct (Hrow r Hr) as (B1 & B2).
    split; intros (jp & Hjp & Ej); exists jp; (split; [exact Hjp|]).
    + rewrite Gcc in Ej by lia. exact Ej.
    + rewrite Gcc by lia. exact Ej.
  - intros r a b Hr. rewrite !Gr by lia. intros Ha Hab Hb.
    destruct (Hrow r Hr) as (B1 & B2). rewrite !Gcc by lia.
    rewrite (Rs r Hr) in Hb. rewrite (G r) in Ha, Hb by lia.
    replace a with (Csr.count_lt r items + (a - Csr.count_lt r items)) by lia.
    replace b with (Csr.count_lt r items + (b - Csr.count_lt r items)) by lia.
    rewrite !Gc by lia.
    apply sorted_nth; [now apply bucket_increasing|].
    pose proof (Csr.length_bucket r items). lia.
Qed.
End Pattern.


(** * The vertex to element adjacency is a compressed-row structure *)

(** ** Counted loops as folds *)

Fixpoint zrange (lo : Z) (n : nat) : list Z :=
  match n with
  | O => []
  | S m => lo :: zrange (lo + 1) m
  end.

Lemma in_zrange n : forall lo j, In j (zrange lo n) <-> lo <= j < lo + Z.of_nat n.
Proof.
  induction n as [|n IH]; intros lo j; simpl.
  - lia.
  - rewrite IH. lia.
Qed.

Lemma for_loop_fold {S : Type} (body : Z -> S -> S) n :
  forall i s, for_loop n i body s = fold_left (fun s j => body j s) (zrange i n) s.
Proof. induction n as [|n IH]; intros i s; simpl; auto. Qed.

Lemma for_range_fold {S : Type} (body : Z -> S -> S) lo hi s :
  for_range lo hi body s
  = fold_left (fun s j => body j s) (zrange lo (Z.to_nat (hi - lo))) s.
Proof. apply for_loop_fold. Qed.

Lemma fold_left_sim {S T A : Type} (R : S -> T -> Prop)
  (f : S -> A -> S) (g : T -> A -> T) (l : list A) :
  (forall a s t, In a l -> R s t -> R (f s a) (g t a)) ->
  forall s t, R s t -> R (fold_left f l s) (fold_left g l t).
Proof.
  induction l as [|a l IH]; intros H s t Hst; simpl; auto.
  apply IH.
  - intros b s' t' Hb. apply H. now right.
  - apply H; auto. now left.
Qed.

Lemma fold_left_flat_map {T A B : Type} (g : T -> B -> T) (h : A -> list B)
  (l : list A) :
  forall t, fold_left g (flat_map h l) t
            = fold_left (fun t a => fold_left g (h a) t) l t.
Proof.
  induction l as [|a l IH]; intros t; simpl; auto.
  rewrite fold_left_app. apply IH.
Qed.

Lemma fold_left_map {T A B : Type} (g : T -> B -> T) (h : A -> B) (l : list A) :
  forall t, fold_left g (map h l) t = fold_left (fun t a => g t (h a)) l t.
Proof. induction l as [|a l IH]; intros t; simpl; auto. Qed.

Lemma for_range_sim {S T : Type} (R : S -> T -> Prop)
  (f : Z -> S -> S) (g : Z -> T -> T) lo hi :
  (forall i s t, lo <= i < hi -> R s t -> R (f i s) (g i t)) ->
  forall s t, R s t -> R (for_range lo hi f s) (for_range lo hi g t).
Proof.
  intros H s t Hst. rewrite !for_range_fold.
  apply (fold_left_sim R); auto.
  intros a s' t' Ha. apply in_zrange in Ha. apply H. lia.
Qed.

Lemma for_down_sim {S T : Type} (R : S -> T -> Prop)
  (f : Z -> S -> S) (g : Z -> T -> T) n :
  (forall i s t, R s t -> R (f i s) (g i t)) ->
  forall i s t, R s t -> R (for_down n i f s) (for_down n i g t).
Proof.
  intros H. induction n as [|n IH]; intros i s t Hst; simpl; auto.
Qed.

Section Adjacency.

Variable ET : ElementTypes.

(** The number of vertices of [elem] and its [i]-th vertex, read as
    [get_element_verts] gives them *)
Definition elem_nverts (c : Conn) (elem : Z) : Z :=
  fst (get_element_verts ET c elem None).

Definition elem_vert (c : Conn) (elem i : Z) : Z :=
  load_out c (snd (get_element_verts ET c elem None)) i.

(** The (vertex, element) incidences in the order the two passes visit
    them *)
Definition elem_items (c : Conn) (elem : Z) : list (Z * Z) :=
  map (fun i => (elem_vert c elem i, elem))
      (zrange 0 (Z.to_nat (elem_nverts c elem - 0))).

Definition vert_items (c : Conn) : list (Z * Z) :=
  flat_map (elem_items c) (zrange 0 (Z.to_nat (nelems c - 0))).

Lemma in_vert_items c v e :
  In (v, e) (vert_items c) <->
  0 <= e < nelems c /\ exists i, 0 <= i < elem_nverts c e /\ v = elem_vert c e i.
Proof.
  unfold vert_items, elem_items. rewrite in_flat_map. split.
  - intros (x & Hx & Hin). apply in_zrange in Hx.
    apply in_map_iff in Hin. destruct Hin as (i & E & Hi).
    apply in_zrange in Hi. injection E as <- <-.
    split; [lia|]. exists i. split; [lia|reflexivity].
  - intros (He & i & Hi & ->). exists e. split.
    + apply in_zrange. lia.
    + apply in_map_iff. exists i. split; auto. apply in_zrange. lia.
Qed.

Lemma get_element_verts_frame c c' elem :
  frame adjacency_array c c' ->
  get_element_verts ET c' elem None = get_element_verts ET c elem None.
Proof.
  intros (A1 & A2 & A3 & A4 & A5 & _). unfold get_element_verts.
  now rewrite A2, A3, A4, A5.
Qed.

Lemma elem_vert_frame c c' elem i :
  frame adjacency_array c c' ->
  load_out c' (snd (get_element_verts ET c' elem None)) i = elem_vert c elem i.
Proof.
  intros H. rewrite (get_element_verts_frame c c' elem H).
  destruct (frame_adjacency_same H) as (_ & _ & _ & M1 & M2 & M3 & M4).
  unfold elem_vert, get_element_verts.
  repeat match goal with |- context [if ?b then _ else _] => destruct b end;
    simpl; auto; unfold load; simpl p_arr; congruence.
Qed.

(** The state of the adjacency arrays while they are built from [c0] *)
Definition building (c0 c : Conn) (st : list Z * list Z) : Prop :=
  frame adjacency_array c0 c /\
  vert_element_ptr c = fst st /\ vert_elements c = snd st.

Lemma building_ptr c0 c st l :
  building c0 c st -> building c0 (set_array c vert_element_ptr_ l) (l, snd st).
Proof.
  intros (F & E1 & E2). split; [|split].
  - apply frame_trans with c; auto. apply frame_set_array. now left.
  - unfold vert_element_ptr. apply mem_set_array_eq.
  - unfold vert_elements. rewrite mem_set_array_ne by discriminate. exact E2.
Qed.

Lemma building_elements c0 c st l :
  building c0 c st -> building c0 (set_array c vert_elements_ l) (fst st, l).
Proof.
  intros (F & E1 & E2). split; [|split].
  - apply frame_trans with c; auto. apply frame_set_array. now right.
  - unfold vert_element_ptr. rewrite mem_set_array_ne by discriminate. exact E1.
  - unfold vert_elements. apply mem_set_array_eq.
Qed.

Lemma building_counts c0 c st :
  building c0 c st -> nelems c = nelems c0 /\ nverts c = nverts c0.
Proof.
  intros (F & _). destruct (frame_adjacency_same F) as (_ & A & B & _). auto.
Qed.

(** The counting pass *)
Lemma count_element_verts_sim c0 c st elem :
  building c0 c st ->
  building c0 (count_element_verts ET elem c)
    (fold_left Csr.count_key (elem_items c0 elem) (fst st), snd st).
Proof.
  intros B. unfold count_element_verts, elem_items, elem_nverts.
  rewrite fold_left_map.
  pose proof (get_element_verts_frame c0 c elem (proj1 B)) as Ev.
  pose proof (fun c' (H : frame adjacency_array c0 c') i =>
                elem_vert_frame c0 c' elem i H) as Hv.
  rewrite Ev in *.
  assert (Hp : forall c' i, frame adjacency_array c0 c' ->
            load_out c' (snd (get_element_verts ET c0 elem None)) i
            = elem_vert c0 elem i).
  { intros c' i H. rewrite <- (Hv c' H i).
    now rewrite (get_element_verts_frame c0 c' elem H). }
  clear Hv Ev.
  destruct (get_element_verts ET c0 elem None) as [nv verts].
  simpl fst; simpl snd in Hp. rewrite for_range_fold.
  apply (fold_left_sim
           (fun c' rowp => building c0 c' (rowp, snd st))).
  - intros i c' rowp _ B'. rewrite (Hp c' i (proj1 B')).
    destruct B' as (F' & E1 & E2). simpl in E1. rewrite E1.
    apply (building_ptr c0 c' (rowp, snd st)). split; auto.
  - destruct st; exact B.
Qed.

(** The scattering pass *)
Lemma scatter_element_verts_sim c0 c st elem :
  building c0 c st ->
  building c0 (scatter_element_verts ET elem c)
    (fold_left Csr.scatter_item (elem_items c0 elem) st).
Proof.
  intros B. unfold scatter_element_verts, elem_items, elem_nverts.
  rewrite fold_left_map.
  pose proof (get_element_verts_frame c0 c elem (proj1 B)) as Ev.
  pose proof (fun c' (H : frame adjacency_array c0 c') i =>
                elem_vert_frame c0 c' elem i H) as Hv.
  rewrite Ev in *.
  assert (Hp : forall c' i, frame adjacency_array c0 c' ->
            load_out c' (snd (get_element_verts ET c0 elem None)) i
            = elem_vert c0 elem i).
  { intros c' i H. rewrite <- (Hv c' H i).
    now rewrite (get_element_verts_frame c0 c' elem H). }
  clear Hv Ev.
  destruct (get_element_verts ET c0 elem None) as [nv verts].
  simpl fst; simpl snd in Hp. rewrite for_range_fold.
  apply (fold_left_sim (building c0)); auto.
  intros i c' [rowp cols] _ B'. rewrite (Hp c' i (proj1 B')).
  pose proof B' as (F' & E1 & E2). simpl in E1, E2.
  unfold Csr.scatter_item. simpl fst; simpl snd.
  rewrite E1, E2.
  change (vert_element_ptr (set_array c' vert_elements_ ?l))
    with (vert_element_ptr c'). rewrite E1.
  apply (building_ptr c0 _ (rowp, _)).
  apply (building_elements c0 c' (rowp, cols)). exact B'.
Qed.

(** [init_vert_element_data] runs the four passes over the incidences. *)
Lemma init_vert_element_data_build c0 :
  building c0 (init_vert_element_data ET c0)
    (Csr.build (nverts c0) (vert_items c0)).
Proof.
  unfold init_vert_element_data, Csr.build.
  set (c1 := set_array c0 vert_element_ptr_ (Arr.fill (nverts c0 +w 1) 0)).
  assert (B1 : building c0 c1 (Arr.fill (nverts c0 +w 1) 0, vert_elements c0)).
  { apply (building_ptr c0 c0 (vert_element_ptr c0, vert_elements c0)).
    split; [apply frame_refl|split; reflexivity]. }
  change (nelems c1) with (nelems c0).
  set (c2 := for_range 0 (nelems c0) (count_element_verts ET) c1).
  assert (B2 : building c0 c2
            (fold_left Csr.count_key (vert_items c0) (Arr.fill (nverts c0 +w 1) 0),
             vert_elements c0)).
  { unfold c2, vert_items. rewrite for_range_fold, fold_left_flat_map.
    apply (fold_left_sim (fun c' rowp => building c0 c' (rowp, vert_elements c0)));
      auto.
    intros e c' rowp _ B'.
    apply (count_element_verts_sim c0 c' (rowp, vert_elements c0) e B'). }
  clearbody c2. clear B1 c1.
  destruct (building_counts _ _ _ B2) as (N2 & V2). rewrite V2.
  set (rowp2 := fold_left Csr.count_key (vert_items c0) (Arr.fill (nverts c0 +w 1) 0)) in *.
  set (c3 := for_range 0 (nverts c0) _ c2).
  assert (B3 : building c0 c3 (Csr.prefix_sum (nverts c0) rowp2, vert_elements c0)).
  { unfold c3, Csr.prefix_sum.
    apply (for_range_sim (fun c' rowp => building c0 c' (rowp, vert_elements c0)));
      auto.
    intros i c' rowp _ B'. pose proof B' as (F' & E1 & E2). simpl in E1.
    rewrite E1. apply (building_ptr c0 c' (rowp, vert_elements c0) _ B'). }
  clearbody c3. clear B2 c2 N2 V2.
  destruct (building_counts _ _ _ B3) as (N3 & V3). rewrite V3.
  set (rowp3 := Csr.prefix_sum (nverts c0) rowp2) in *.
  assert (B4 : building c0
            (set_array c3 vert_elements_ (uninit (Arr.get (vert_element_ptr c3) (nverts c0))))
            (rowp3, uninit (Arr.get rowp3 (nverts c0)))).
  { pose proof B3 as (_ & E1 & _). simpl in E1. rewrite E1.
    apply (building_elements c0 c3 (rowp3, vert_elements c0) _ B3). }
  set (c4 := set_array c3 vert_elements_ _) in *.
  change (nelems c4) with (nelems c3). rewrite N3.
  clearbody c4. clear B3 N3 V3.
  set (c5 := for_range 0 (nelems c0) (scatter_element_verts ET) c4).
  assert (B5 : building c0 c5
            (fold_left Csr.scatter_item (vert_items c0)
               (rowp3, uninit (Arr.get rowp3 (nverts c0))))).
  { unfold c5, vert_items. rewrite for_range_fold, fold_left_flat_map.
    apply (fold_left_sim (building c0)); auto.
    intros e c' st _ B'. apply scatter_element_verts_sim, B'. }
  clearbody c5. clear B4 c4.
  destruct (building_counts _ _ _ B5) as (N5 & V5). rewrite V5.
  destruct (fold_left Csr.scatter_item (vert_items c0) _) as [rowp5 cols5].
  unfold Csr.shift_rows.
  set (c6 := for_down (Z.to_nat (nverts c0)) (nverts c0) _ c5).
  assert (B6 : building c0 c6
            (for_down (Z.to_nat (nverts c0)) (nverts c0)
               (fun i rowp => Arr.set rowp i (Arr.get rowp (i -w 1))) rowp5, cols5)).
  { unfold c6.
    apply (for_down_sim (fun c' rowp => building c0 c' (rowp, cols5))); auto.
    intros i c' rowp B'. pose proof B' as (F' & E1 & E2). simpl in E1.
    rewrite E1. apply (building_ptr c0 c' (rowp, cols5) _ B'). }
  clearbody c6.
  pose proof B6 as (_ & E1 & _). simpl in E1. rewrite E1.
  apply (building_ptr c0 c6 (_, cols5) _ B6).
Qed.

End Adjacency.


(** * Edge discovery: the invariants of [init_edge_data] *)

Section EdgeBasics.

Variable ET : ElementTypes.

Definition edge_valid : Conn -> Z -> Z -> Prop :=
  valid_entry (TET_EDGES ET) (HEX_EDGES ET) (WEDGE_EDGES ET) (PYRMD_EDGES ET)
    tet_edges_ hex_edges_ wedge_edges_ pyrmd_edges_.

(** The entry of local edge [e] in the edge array of [elem] *)
Definition edge_label : Conn -> Z -> Z -> Z :=
  entry (TET_EDGES ET) (HEX_EDGES ET) (WEDGE_EDGES ET) (PYRMD_EDGES ET)
    tet_edges_ hex_edges_ wedge_edges_ pyrmd_edges_.

Definition set_edge_label : Conn -> Z -> Z -> Z -> Conn :=
  set_entry (TET_EDGES ET) (HEX_EDGES ET) (WEDGE_EDGES ET) (PYRMD_EDGES ET)
    tet_edges_ hex_edges_ wedge_edges_ pyrmd_edges_.

Definition edges_ok : Conn -> Prop :=
  blocks_ok (TET_EDGES ET) (HEX_EDGES ET) (WEDGE_EDGES ET) (PYRMD_EDGES ET)
    tet_edges_ hex_edges_ wedge_edges_ pyrmd_edges_.

Definition edges_allocated : Conn -> Prop :=
  blocks_allocated (TET_EDGES ET) (HEX_EDGES ET) (WEDGE_EDGES ET) (PYRMD_EDGES ET)
    tet_edges_ hex_edges_ wedge_edges_ pyrmd_edges_.

Definition edge_ptr : Conn -> Z -> out_ptr :=
  block_ptr (TET_EDGES ET) (HEX_EDGES ET) (WEDGE_EDGES ET) (PYRMD_EDGES ET)
    tet_edges_ hex_edges_ wedge_edges_ pyrmd_edges_.

(** The number of local edges of [elem] *)
Definition num_edges (c : Conn) (elem : Z) : Z :=
  fst (get_element_edges ET c elem None).

(** The two end points of a local edge, as [get_element_edge_verts] writes
    them *)
Definition edge_pair (c : Conn) (elem e : Z) : list Z :=
  get_element_edge_verts ET c elem e (uninit 2).

(** Two local edges join the same two vertices. *)
Definition same_edge (c : Conn) (elem e elem' e' : Z) : Prop :=
  global_edge_equality (edge_pair c elem e) (edge_pair c elem' e') = true.

(** The total number of edge entries of the elements before [elem] *)
Definition edges_before (c : Conn) (elem : Z) : Z :=
  if elem <? ntets c then TET_EDGES ET * elem
  else if elem <? ntets c + nhex c then
    TET_EDGES ET * ntets c + HEX_EDGES ET * (elem - ntets c)
  else if elem <? ntets c + nhex c + nwedge c then
    TET_EDGES ET * ntets c + HEX_EDGES ET * nhex c
    + WEDGE_EDGES ET * (elem - ntets c - nhex c)
  else
    TET_EDGES ET * ntets c + HEX_EDGES ET * nhex c + WEDGE_EDGES ET * nwedge c
    + PYRMD_EDGES ET * (elem - ntets c - nhex c - nwedge c).

Definition total_edges (c : Conn) : Z :=
  TET_EDGES ET * ntets c + HEX_EDGES ET * nhex c + WEDGE_EDGES ET * nwedge c
  + PYRMD_EDGES ET * npyrmd c.

Lemma get_element_edges_block c elem :
  get_element_edges ET c elem None
  = element_block (TET_EDGES ET) (HEX_EDGES ET) (WEDGE_EDGES ET) (PYRMD_EDGES ET)
      tet_edges_ hex_edges_ wedge_edges_ pyrmd_edges_ c elem None.
Proof. reflexivity. Qed.

Lemma global_edge_equality_iff a b :
  global_edge_equality a b = true <->
  (Arr.get a 0 = Arr.get b 0 /\ Arr.get a 1 = Arr.get b 1) \/
  (Arr.get a 0 = Arr.get b 1 /\ Arr.get a 1 = Arr.get b 0).
Proof.
  unfold global_edge_equality.
  rewrite orb_true_iff, !andb_true_iff, !Z.eqb_eq. tauto.
Qed.

Lemma same_edge_refl c e a : same_edge c e a e a.
Proof. apply global_edge_equality_iff. auto. Qed.

Lemma same_edge_sym c e a e' b : same_edge c e a e' b -> same_edge c e' b e a.
Proof.
  unfold same_edge. rewrite !global_edge_equality_iff.
  intros [[H1 H2]|[H1 H2]]; [left|right]; split; congruence.
Qed.

Lemma same_edge_trans c e1 a1 e2 a2 e3 a3 :
  same_edge c e1 a1 e2 a2 -> same_edge c e2 a2 e3 a3 -> same_edge c e1 a1 e3 a3.
Proof.
  unfold same_edge. rewrite !global_edge_equality_iff.
  intros [[H1 H2]|[H1 H2]] [[H3 H4]|[H3 H4]];
    [left|right|right|left]; split; congruence.
Qed.

(** The end points of an edge may be listed in either direction. *)
Lemma global_edge_equality_swap a b :
  global_edge_equality a b
  = global_edge_equality [Arr.get a 1; Arr.get a 0] b.
Proof.
  apply eq_true_iff_eq. rewrite !global_edge_equality_iff.
  change (Arr.get [Arr.get a 1; Arr.get a 0] 0) with (Arr.get a 1).
  change (Arr.get [Arr.get a 1; Arr.get a 0] 1) with (Arr.get a 0).
  tauto.
Qed.

Lemma edge_pair_mesh c c' e a :
  same_mesh c c' -> edge_pair c' e a = edge_pair c e a.
Proof.
  intros (E0 & E1 & E2 & E3 & E4 & E5 & M1 & M2 & M3 & M4 & _).
  unfold edge_pair, get_element_edge_verts, tet_verts, hex_verts, wedge_verts,
    pyrmd_verts.
  now rewrite E1, E2, E3, E4, M1, M2, M3, M4.
Qed.

Lemma same_edge_mesh c c' e a e' b :
  same_mesh c c' -> same_edge c' e a e' b <-> same_edge c e a e' b.
Proof.
  intros H. unfold same_edge. now rewrite !(edge_pair_mesh c c' _ _ H).
Qed.

Lemma edges_ok_counts c c' : same_counts c c' -> edges_ok c -> edges_ok c'.
Proof.
  intros (E1 & E2 & E3 & E4). unfold edges_ok, blocks_ok, counts_ok.
  now rewrite E1, E2, E3, E4.
Qed.

Lemma edge_valid_counts c c' e a :
  same_counts c c' -> edge_valid c' e a <-> edge_valid c e a.
Proof.
  intros H. unfold edge_valid, valid_entry, total_elems.
  rewrite (block_size_counts _ _ _ _ _ _ _ _ _ H).
  destruct H as (E1 & E2 & E3 & E4). now rewrite E1, E2, E3, E4.
Qed.

Lemma edge_ptr_counts c c' elem :
  same_counts c c' -> edge_ptr c' elem = edge_ptr c elem.
Proof.
  intros H. unfold edge_ptr, block_ptr.
  now rewrite (element_block_counts _ _ _ _ _ _ _ _ _ _ H).
Qed.

Lemma num_edges_counts c c' elem :
  same_counts c c' -> num_edges c' elem = num_edges c elem.
Proof.
  intros H. unfold num_edges. rewrite !get_element_edges_block.
  now rewrite (element_block_counts _ _ _ _ _ _ _ _ _ _ H).
Qed.

Lemma same_mesh_set_edge_label c e a v :
  edges_ok c -> edge_valid c e a -> same_mesh c (set_edge_label c e a v).
Proof.
  intros Hok Hv.
  destruct Hv as (He & _). unfold set_edge_label.
  rewrite (set_entry_addr _ v Hok He).
  unfold same_mesh. cbn [nverts ntets nhex nwedge npyrmd nelems set_array].
  repeat split; apply mem_set_array_ne; unfold block_addr;
    repeat match goal with |- context [if ?b then _ else _] => destruct b end;
    simpl; discriminate.
Qed.

Lemma nedges_set_edge_label c e a v :
  edges_ok c -> edge_valid c e a -> nedges (set_edge_label c e a v) = nedges c.
Proof.
  intros Hok (He & _). unfold set_edge_label.
  rewrite (set_entry_addr _ v Hok He). reflexivity.
Qed.

Lemma edge_label_set_eq c e a v :
  edges_ok c -> edges_allocated c -> edge_valid c e a ->
  edge_label (set_edge_label c e a v) e a = v.
Proof. intros. apply entry_set_entry_eq; auto. Qed.

Lemma edge_label_set_ne c e a v e' b :
  edges_ok c -> edges_allocated c -> edge_valid c e a ->
  edge_valid c e' b -> (e, a) <> (e', b) ->
  edge_label (set_edge_label c e a v) e' b = edge_label c e' b.
Proof. intros. apply entry_set_entry_ne; auto. Qed.

Lemma edges_allocated_set c e a v :
  edges_ok c -> edge_valid c e a -> edges_allocated c ->
  edges_allocated (set_edge_label c e a v).
Proof. intros. apply set_entry_allocated; auto. Qed.

Lemma edge_label_set_nedges c n e a :
  edge_label (set_nedges c n) e a = edge_label c e a.
Proof. reflexivity. Qed.

Lemma num_edges_range c elem :
  edges_ok c -> ~ (0 <= elem < total_elems c) -> 0 <= elem ->
  get_element_edges ET c elem None = (0, None).
Proof.
  intros (Hc & _) Hn H0.
  destruct (partial_sums Hc) as (S1 & S2 & S3).
  unfold total_elems in Hn. unfold get_element_edges.
  rewrite S3, S2, S1.
  destruct Hc as (C1 & C2 & C3 & C4 & C5).
  repeat match goal with
         | |- context [?a <? ?b] => destruct (Z.ltb_spec a b); try lia
         end.
  reflexivity.
Qed.

End EdgeBasics.

Section EdgePositions.

Variable ET : ElementTypes.
Variable c0 : Conn.
Hypothesis Hok0 : edges_ok ET c0.

Lemma edges_before_succ e :
  0 <= e < total_elems c0 ->
  edges_before ET c0 (e + 1) = edges_before ET c0 e + num_edges ET c0 e.
Proof.
  intros He.
  destruct Hok0 as (Hc & P1 & P2 & P3 & P4 & B1 & B2 & B3 & B4 & D).
  destruct (partial_sums Hc) as (S1 & S2 & S3).
  destruct Hc as (C1 & C2 & C3 & C4 & C5).
  unfold total_elems in He.
  unfold num_edges, get_element_edges, edges_before.
  rewrite S3, S2, S1.
  repeat match goal with
         | |- context [?a <? ?b] => destruct (Z.ltb_spec a b); try lia
         end; simpl fst; try lia; nia.
Qed.

Lemma edges_before_0 : edges_before ET c0 0 = 0.
Proof.
  destruct Hok0 as (Hc & P1 & P2 & P3 & P4 & B1 & B2 & B3 & B4 & D).
  destruct Hc as (C1 & C2 & C3 & C4 & C5).
  unfold edges_before.
  repeat match goal with
         | |- context [?a <? ?b] => destruct (Z.ltb_spec a b); try lia
         end; nia.
Qed.

Lemma edges_before_total : edges_before ET c0 (total_elems c0) = total_edges ET c0.
Proof.
  destruct Hok0 as (Hc & P1 & P2 & P3 & P4 & B1 & B2 & B3 & B4 & D).
  destruct Hc as (C1 & C2 & C3 & C4 & C5).
  unfold edges_before, total_edges, total_elems.
  repeat match goal with
         | |- context [?a <? ?b] => destruct (Z.ltb_spec a b); try lia
         end; nia.
Qed.

Lemma num_edges_nonneg e : 0 <= num_edges ET c0 e.
Proof.
  destruct Hok0 as (Hc & P1 & P2 & P3 & P4 & _).
  unfold num_edges, get_element_edges.
  repeat match goal with |- context [if ?b then _ else _] => destruct b end;
    simpl; lia.
Qed.

Lemma edges_before_mono e e' :
  0 <= e <= e' -> e' <= total_elems c0 ->
  edges_before ET c0 e <= edges_before ET c0 e'.
Proof.
  intros He He'.
  replace e' with (e + Z.of_nat (Z.to_nat (e' - e))) in * by lia.
  induction (Z.to_nat (e' - e)) as [|n IH].
  - replace (e + Z.of_nat 0) with e by lia. lia.
  - replace (e + Z.of_nat (S n)) with (e + Z.of_nat n + 1) in * by lia.
    rewrite edges_before_succ by lia.
    pose proof (num_edges_nonneg (e + Z.of_nat n)).
    assert (edges_before ET c0 e <= edges_before ET c0 (e + Z.of_nat n)); [|lia].
    apply IH; lia.
Qed.

Lemma edges_before_valid e a :
  edge_valid ET c0 e a -> edges_before ET c0 e + a < total_edges ET c0.
Proof.
  intros (He & Ha).
  rewrite <- edges_before_total.
  pose proof (edges_before_mono (e + 1) (total_elems c0)) as H.
  rewrite edges_before_succ in H by lia.
  unfold num_edges in H. rewrite get_element_edges_block in H.
  unfold block_size in Ha. lia.
Qed.

End EdgePositions.


Section EdgeInvariant.

Variable ET : ElementTypes.
Variable c0 : Conn.

Hypothesis Hok0 : edges_ok ET c0.
Hypothesis Htot : total_edges ET c0 < Index.max.
Hypothesis Hnn : adjacency_nonneg c0.

(** Distinct local edges of one element join distinct vertex pairs. *)
Definition edges_distinct : Prop :=
  forall e a b, edge_valid ET c0 e a -> edge_valid ET c0 e b ->
    same_edge ET c0 e a e b -> a = b.

(** Every other element with an edge between the end points of
    [(e, a)] is listed among the elements adjacent to its first end point. *)
Definition edges_adjacent : Prop :=
  forall e a e' b, edge_valid ET c0 e a -> edge_valid ET c0 e' b ->
    same_edge ET c0 e a e' b -> e' <> e ->
    exists k,
      0 <= k < fst (get_adjacent_elements_from_vert c0
                      (Arr.get (edge_pair ET c0 e a) 0) None) /\
      load_out c0 (snd (get_adjacent_elements_from_vert c0
                          (Arr.get (edge_pair ET c0 e a) 0) None)) k = e'.

Hypothesis Hnd : edges_distinct.
Hypothesis Hadj : edges_adjacent.

(** The state when the edges before [(pe, pa)] have been visited *)
Record edge_inv (pe pa : Z) (c : Conn) : Prop := {
  ei_mesh : same_mesh c0 c;
  ei_alloc : edges_allocated ET c;
  ei_count : 0 <= nedges c <= edges_before ET c0 pe + pa;
  ei_range : forall e a, edge_valid ET c0 e a ->
     edge_label ET c e a = NO_LABEL \/ 0 <= edge_label ET c e a < nedges c;
  ei_same : forall e a e' b, edge_valid ET c0 e a -> edge_valid ET c0 e' b ->
     same_edge ET c0 e a e' b -> edge_label ET c e a = edge_label ET c e' b;
  ei_inj : forall e a e' b, edge_valid ET c0 e a -> edge_valid ET c0 e' b ->
     edge_label ET c e a = edge_label ET c e' b ->
     edge_label ET c e a <> NO_LABEL -> same_edge ET c0 e a e' b;
  ei_done : forall e a, edge_valid ET c0 e a ->
     e < pe \/ (e = pe /\ a < pa) -> edge_label ET c e a <> NO_LABEL
}.

(** While the edges that match [(elem, e0)] receive the number [num];
    [pre] is the state in which [(elem, e0)] was found without a number. *)
Record marking (elem e0 num : Z) (pre c : Conn) : Prop := {
  mk_mesh : same_mesh c0 c;
  mk_alloc : edges_allocated ET c;
  mk_count : nedges c = num + 1;
  mk_self : edge_label ET c elem e0 = num;
  mk_class : forall e a, edge_valid ET c0 e a -> same_edge ET c0 e a elem e0 ->
     edge_label ET c e a = NO_LABEL \/ edge_label ET c e a = num;
  mk_other : forall e a, edge_valid ET c0 e a -> ~ same_edge ET c0 e a elem e0 ->
     edge_label ET c e a = edge_label ET pre e a
}.

(** Entries that hold [num] keep it. *)
Definition grows (num : Z) (c c' : Conn) : Prop :=
  forall e a, edge_valid ET c0 e a ->
    edge_label ET c e a = num -> edge_label ET c' e a = num.

Lemma grows_refl num c : grows num c c.
Proof. intros e a _ H. exact H. Qed.

Lemma grows_trans num c1 c2 c3 : grows num c1 c2 -> grows num c2 c3 -> grows num c1 c3.
Proof. intros H1 H2 e a Hv H. apply H2; auto. Qed.

Lemma edges_ok_mesh c : same_mesh c0 c -> edges_ok ET c.
Proof. intros H. apply (edges_ok_counts ET c0 c); auto. now apply same_mesh_counts. Qed.

Lemma edge_valid_mesh c e a :
  same_mesh c0 c -> edge_valid ET c0 e a -> edge_valid ET c e a.
Proof.
  intros H Hv. apply (edge_valid_counts ET c0 c); auto. now apply same_mesh_counts.
Qed.

Lemma store_edge c e a v :
  same_mesh c0 c ->
  store_out c (edge_ptr ET c0 e) a v = set_edge_label ET c e a v.
Proof.
  intros H. unfold set_edge_label, set_entry.
  fold (edge_ptr ET c e).
  now rewrite (edge_ptr_counts ET c0 c e (same_mesh_counts H)).
Qed.

Section Marking.

Variables elem e0 num : Z.
Variable pre : Conn.
Hypothesis Hv0 : edge_valid ET c0 elem e0.

(** One comparison of the innermost loop *)
Lemma mark_one c adj e1 :
  marking elem e0 num pre c -> edge_valid ET c0 adj e1 -> adj <> elem ->
  marking elem e0 num pre
    (if global_edge_equality (edge_pair ET c0 elem e0) (edge_pair ET c adj e1)
     then store_out c (edge_ptr ET c0 adj) e1 num else c) /\
  grows num c
    (if global_edge_equality (edge_pair ET c0 elem e0) (edge_pair ET c adj e1)
     then store_out c (edge_ptr ET c0 adj) e1 num else c) /\
  (same_edge ET c0 adj e1 elem e0 ->
   edge_label ET
     (if global_edge_equality (edge_pair ET c0 elem e0) (edge_pair ET c adj e1)
      then store_out c (edge_ptr ET c0 adj) e1 num else c) adj e1 = num).
Proof.
  intros M Hv Hne. pose proof M as [Mm Ma Mc Ms Mk Mo].
  rewrite (edge_pair_mesh ET c0 c adj e1 Mm).
  pose proof (edges_ok_mesh c Mm) as Hok.
  pose proof (edge_valid_mesh c adj e1 Mm Hv) as Hvc.
  destruct (global_edge_equality (edge_pair ET c0 elem e0) (edge_pair ET c0 adj e1))
    eqn:Eg.
  - rewrite (store_edge c adj e1 num Mm).
    assert (Hcl : same_edge ET c0 adj e1 elem e0) by (apply same_edge_sym; exact Eg).
    assert (Hrd : forall e a, edge_valid ET c0 e a ->
              edge_label ET (set_edge_label ET c adj e1 num) e a
              = if Z.eq_dec e adj then if Z.eq_dec a e1 then num
                                       else edge_label ET c e a
                else edge_label ET c e a).
    { intros e a Hva. pose proof (edge_valid_mesh c e a Mm Hva) as Hvac.
      destruct (Z.eq_dec e adj) as [->|N1].
      - destruct (Z.eq_dec a e1) as [->|N2].
        + apply edge_label_set_eq; auto.
        + apply edge_label_set_ne; auto. intros H. injection H. lia.
      - apply edge_label_set_ne; auto. intros H. injection H. lia. }
    split; [|split].
    + constructor.
      * apply same_mesh_trans with c; auto. apply same_mesh_set_edge_label; auto.
      * apply edges_allocated_set; auto.
      * rewrite nedges_set_edge_label; auto.
      * rewrite (Hrd elem e0 Hv0). destruct (Z.eq_dec elem adj); [congruence|auto].
      * intros e a Hva Hs. rewrite (Hrd e a Hva).
        destruct (Z.eq_dec e adj); [destruct (Z.eq_dec a e1)|]; auto.
      * intros e a Hva Hs. rewrite (Hrd e a Hva).
        destruct (Z.eq_dec e adj) as [->|]; [destruct (Z.eq_dec a e1) as [->|]|];
          auto. contradiction.
    + intros e a Hva Hl. rewrite (Hrd e a Hva).
      destruct (Z.eq_dec e adj); [destruct (Z.eq_dec a e1)|]; auto.
    + intros _. rewrite (Hrd adj e1 Hv).
      destruct (Z.eq_dec adj adj); [|congruence].
      destruct (Z.eq_dec e1 e1); congruence.
  - split; [exact M|]. split; [apply grows_refl|].
    intros Hs. apply same_edge_sym in Hs. unfold same_edge in Hs. congruence.
Qed.

(** The loop over the edges of one adjacent element *)
Lemma mark_element c adj :
  marking elem e0 num pre c -> 0 <= adj -> adj <> elem ->
  marking elem e0 num pre
    (for_range 0 (fst (get_element_edges ET c adj None))
       (fun e1 c' =>
          if global_edge_equality (edge_pair ET c0 elem e0)
               (get_element_edge_verts ET c' adj e1 (uninit 2))
          then store_out c' (snd (get_element_edges ET c adj None)) e1 num
          else c') c) /\
  grows num c
    (for_range 0 (fst (get_element_edges ET c adj None))
       (fun e1 c' =>
          if global_edge_equality (edge_pair ET c0 elem e0)
               (get_element_edge_verts ET c' adj e1 (uninit 2))
          then store_out c' (snd (get_element_edges ET c adj None)) e1 num
          else c') c) /\
  (forall b, edge_valid ET c0 adj b -> same_edge ET c0 adj b elem e0 ->
     edge_label ET
       (for_range 0 (fst (get_element_edges ET c adj None))
          (fun e1 c' =>
             if global_edge_equality (edge_pair ET c0 elem e0)
                  (get_element_edge_verts ET c' adj e1 (uninit 2))
             then store_out c' (snd (get_element_edges ET c adj None)) e1 num
             else c') c) adj b = num).
Proof.
  intros M Hadj0 Hne. pose proof M as [Mm Ma Mc Ms Mk Mo].
  pose proof (edges_ok_mesh c Mm) as Hok.
  destruct (Z_lt_le_dec adj (total_elems c0)) as [Hlt|Hge].
  2:{ rewrite (num_edges_range ET c adj Hok); auto.
      - rewrite for_range_empty by (simpl; lia).
        split; [exact M|]. split; [apply grows_refl|].
        intros b (Hb & _). lia.
      - destruct (same_mesh_counts Mm) as (E1 & E2 & E3 & E4).
        unfold total_elems in *. rewrite E1, E2, E3, E4. lia. }
  assert (Hptr : snd (get_element_edges ET c adj None) = edge_ptr ET c0 adj).
  { rewrite get_element_edges_block. fold (edge_ptr ET c adj).
    apply (edge_ptr_counts ET c0 c adj (same_mesh_counts Mm)). }
  assert (Hnum : fst (get_element_edges ET c adj None) = num_edges ET c0 adj).
  { fold (num_edges ET c adj).
    apply (num_edges_counts ET c0 c adj (same_mesh_counts Mm)). }
  rewrite Hptr, Hnum.
  pose proof (num_edges_nonneg ET c0 Hok0 adj) as Hnn0.
  set (body := fun e1 c' =>
          if global_edge_equality (edge_pair ET c0 elem e0)
               (get_element_edge_verts ET c' adj e1 (uninit 2))
          then store_out c' (edge_ptr ET c0 adj) e1 num else c').
  assert (H : marking elem e0 num pre (for_range 0 (num_edges ET c0 adj) body c) /\
              grows num c (for_range 0 (num_edges ET c0 adj) body c) /\
              forall b, 0 <= b < num_edges ET c0 adj ->
                same_edge ET c0 adj b elem e0 ->
                edge_label ET (for_range 0 (num_edges ET c0 adj) body c) adj b = num).
  { apply (for_range_inv
             (fun j c' => marking elem e0 num pre c' /\ grows num c c' /\
                forall b, 0 <= b < j -> same_edge ET c0 adj b elem e0 ->
                          edge_label ET c' adj b = num)); auto.
    - split; [exact M|]. split; [apply grows_refl|]. intros b Hb. lia.
    - intros j c' Hj (M' & G' & D').
      assert (Hvj : edge_valid ET c0 adj j).
      { split; [lia|]. unfold num_edges in Hj.
        rewrite get_element_edges_block in Hj. exact Hj. }
      destruct (mark_one c' adj j M' Hvj Hne) as (M2 & G2 & D2).
      unfold body. fold (edge_pair ET c' adj j).
      split; [exact M2|]. split; [eapply grows_trans; eauto|].
      intros b Hb Hs. destruct (Z.eq_dec b j) as [->|Hbj]; auto.
      apply G2.
      + split; [lia|]. unfold num_edges in Hj.
        rewrite get_element_edges_block in Hj.
        unfold block_size. destruct Hvj as (_ & Hvj). unfold block_size in Hvj.
        lia.
      + apply D'; auto. lia. }
  destruct H as (M' & G' & D'). split; [exact M'|]. split; [exact G'|].
  intros b Hb Hs. apply D'; auto.
  destruct Hb as (_ & Hb). unfold num_edges. rewrite get_element_edges_block.
  exact Hb.
Qed.

(** One adjacent element *)
Lemma mark_adj_edges_spec c adj_elems i :
  marking elem e0 num pre c -> 0 <= load_out c adj_elems i ->
  marking elem e0 num pre
    (mark_adj_edges ET elem num (edge_pair ET c0 elem e0) adj_elems i c) /\
  grows num c
    (mark_adj_edges ET elem num (edge_pair ET c0 elem e0) adj_elems i c) /\
  (load_out c adj_elems i <> elem ->
   forall b, edge_valid ET c0 (load_out c adj_elems i) b ->
     same_edge ET c0 (load_out c adj_elems i) b elem e0 ->
     edge_label ET
       (mark_adj_edges ET elem num (edge_pair ET c0 elem e0) adj_elems i c)
       (load_out c adj_elems i) b = num).
Proof.
  intros M Hadj0. unfold mark_adj_edges.
  destruct (Z.eqb_spec (load_out c adj_elems i) elem) as [E|E]; simpl negb.
  - split; [exact M|]. split; [apply grows_refl|]. intros H. contradiction.
  - destruct (mark_element c (load_out c adj_elems i) M Hadj0 E) as (M' & G' & D').
    destruct (get_element_edges ET c (load_out c adj_elems i) None) as [adj_ne p].
    simpl fst in *; simpl snd in *.
    split; [exact M'|]. split; [exact G'|]. intros _. exact D'.
Qed.

End Marking.


Lemma adjacent_count_nonneg c v p :
  0 <= fst (get_adjacent_elements_from_vert c v p).
Proof.
  unfold get_adjacent_elements_from_vert.
  destruct (v <? nverts c); simpl; [|lia].
  apply Index.wrap_ok.
Qed.

Lemma adjacent_entry_nonneg c v k :
  same_mesh c0 c ->
  0 <= load_out c (snd (get_adjacent_elements_from_vert c0 v None)) k.
Proof.
  intros M. unfold get_adjacent_elements_from_vert.
  destruct (v <? nverts c0); simpl; [|lia].
  unfold load. simpl p_arr.
  destruct M as (_ & _ & _ & _ & _ & _ & _ & _ & _ & _ & _ & M6).
  rewrite M6. apply Hnn.
Qed.

Lemma adjacent_entry_mesh c v k :
  same_mesh c0 c ->
  load_out c (snd (get_adjacent_elements_from_vert c0 v None)) k
  = load_out c0 (snd (get_adjacent_elements_from_vert c0 v None)) k.
Proof.
  intros M. unfold get_adjacent_elements_from_vert.
  destruct (v <? nverts c0); simpl; auto.
  unfold load. simpl p_arr.
  destruct M as (_ & _ & _ & _ & _ & _ & _ & _ & _ & _ & _ & M6).
  now rewrite M6.
Qed.

(** The loop over the elements adjacent to the first end point *)
Lemma mark_adjacent elem e0 num pre c v :
  edge_valid ET c0 elem e0 -> marking elem e0 num pre c ->
  marking elem e0 num pre
    (for_range 0 (fst (get_adjacent_elements_from_vert c0 v None))
       (mark_adj_edges ET elem num (edge_pair ET c0 elem e0)
          (snd (get_adjacent_elements_from_vert c0 v None))) c) /\
  forall k b,
    0 <= k < fst (get_adjacent_elements_from_vert c0 v None) ->
    load_out c0 (snd (get_adjacent_elements_from_vert c0 v None)) k <> elem ->
    edge_valid ET c0
      (load_out c0 (snd (get_adjacent_elements_from_vert c0 v None)) k) b ->
    same_edge ET c0
      (load_out c0 (snd (get_adjacent_elements_from_vert c0 v None)) k) b elem e0 ->
    edge_label ET
      (for_range 0 (fst (get_adjacent_elements_from_vert c0 v None))
         (mark_adj_edges ET elem num (edge_pair ET c0 elem e0)
            (snd (get_adjacent_elements_from_vert c0 v None))) c)
      (load_out c0 (snd (get_adjacent_elements_from_vert c0 v None)) k) b = num.
Proof.
  intros Hv0 M.
  pose proof (adjacent_count_nonneg c0 v None) as Hn.
  set (nadj := fst (get_adjacent_elements_from_vert c0 v None)) in *.
  set (adj := snd (get_adjacent_elements_from_vert c0 v None)) in *.
  assert (H : marking elem e0 num pre
                (for_range 0 nadj
                   (mark_adj_edges ET elem num (edge_pair ET c0 elem e0) adj) c) /\
              forall k b, 0 <= k < nadj -> load_out c0 adj k <> elem ->
                edge_valid ET c0 (load_out c0 adj k) b ->
                same_edge ET c0 (load_out c0 adj k) b elem e0 ->
                edge_label ET
                  (for_range 0 nadj
                     (mark_adj_edges ET elem num (edge_pair ET c0 elem e0) adj) c)
                  (load_out c0 adj k) b = num).
  { apply (for_range_inv
             (fun j c' => marking elem e0 num pre c' /\
                forall k b, 0 <= k < j -> load_out c0 adj k <> elem ->
                  edge_valid ET c0 (load_out c0 adj k) b ->
                  same_edge ET c0 (load_out c0 adj k) b elem e0 ->
                  edge_label ET c' (load_out c0 adj k) b = num)); auto.
    - split; [exact M|]. intros k b Hk. lia.
    - intros j c' Hj (M' & D').
      pose proof (mk_mesh _ _ _ _ _ M') as Mm.
      pose proof (adjacent_entry_nonneg c' v j Mm) as Hnonneg.
      pose proof (adjacent_entry_mesh c' v j Mm) as Hsame.
      fold adj in Hnonneg, Hsame.
      destruct (mark_adj_edges_spec elem e0 num pre Hv0 c' adj j M' Hnonneg)
        as (M2 & G2 & D2).
      split; [exact M2|].
      intros k b Hk Hne Hvb Hs. destruct (Z.eq_dec k j) as [->|Hkj].
      + rewrite <- Hsame in *. apply D2; auto.
      + apply G2; auto. apply D'; auto. lia. }
  exact H.
Qed.

(** One edge of one element *)
Lemma label_edge_spec elem e0 c :
  edge_valid ET c0 elem e0 -> edge_inv elem e0 c ->
  edge_inv elem (e0 + 1) (label_edge ET elem (edge_ptr ET c0 elem) e0 c).
Proof.
  intros Hv0 I. pose proof I as [Im Ia Ic Ir Is Ii Id].
  pose proof (edges_ok_mesh c Im) as Hok.
  pose proof (edge_valid_mesh c elem e0 Im Hv0) as Hvc.
  pose proof (edges_before_valid ET c0 Hok0 elem e0 Hv0) as Hpos.
  unfold label_edge.
  assert (Hld : load_out c (edge_ptr ET c0 elem) e0 = edge_label ET c elem e0).
  { unfold edge_label, entry. fold (edge_ptr ET c elem).
    now rewrite (edge_ptr_counts ET c0 c elem (same_mesh_counts Im)). }
  rewrite Hld.
  destruct (Z.eqb_spec (edge_label ET c elem e0) NO_LABEL) as [E|E].
  2:{ constructor; auto.
      - lia.
      - intros e a Hva [H|[-> H]].
        + apply Id; auto.
        + destruct (Z.eq_dec a e0) as [->|]; auto. apply Id; auto. right. lia. }
  set (num := nedges c) in *.
  assert (W : num +w 1 = num + 1).
  { apply Index.add_small, ok_of_bounds. lia. }
  rewrite W.
  set (c1 := set_nedges c (num + 1)).
  assert (M1 : same_mesh c0 c1) by exact Im.
  rewrite (store_edge c1 elem e0 num M1).
  set (c2 := set_edge_label ET c1 elem e0 num).
  assert (Hok1 : edges_ok ET c1) by exact Hok.
  assert (Hal1 : edges_allocated ET c1) by exact Ia.
  assert (Hv1 : edge_valid ET c1 elem e0) by exact Hvc.
  assert (M2 : same_mesh c0 c2).
  { apply same_mesh_trans with c1; auto. apply same_mesh_set_edge_label; auto. }
  assert (Hrd : forall e a, edge_valid ET c0 e a ->
            edge_label ET c2 e a
            = if Z.eq_dec e elem then if Z.eq_dec a e0 then num
                                      else edge_label ET c e a
              else edge_label ET c e a).
  { intros e a Hva. pose proof (edge_valid_mesh c1 e a M1 Hva) as Hvac.
    unfold c2.
    destruct (Z.eq_dec e elem) as [->|N1].
    - destruct (Z.eq_dec a e0) as [->|N2].
      + apply edge_label_set_eq; auto.
      + rewrite edge_label_set_ne; auto. intros H. injection H. lia.
    - rewrite edge_label_set_ne; auto. intros H. injection H. lia. }
  assert (Mk : marking elem e0 num c c2).
  { constructor; auto.
    - apply edges_allocated_set; auto.
    - unfold c2. rewrite nedges_set_edge_label; auto.
    - rewrite (Hrd elem e0 Hv0).
      destruct (Z.eq_dec elem elem); [|congruence].
      destruct (Z.eq_dec e0 e0); congruence.
    - intros e a Hva Hs. rewrite (Hrd e a Hva).
      destruct (Z.eq_dec e elem); [destruct (Z.eq_dec a e0)|]; auto;
        left; rewrite <- E; apply Is; auto.
    - intros e a Hva Hs. rewrite (Hrd e a Hva).
      destruct (Z.eq_dec e elem) as [->|]; [destruct (Z.eq_dec a e0) as [->|]|];
        auto. exfalso. apply Hs, same_edge_refl. }
  fold (edge_pair ET c2 elem e0).
  rewrite (edge_pair_mesh ET c0 c2 elem e0 M2).
  rewrite (adjacent_elements_mesh _ _ M2).
  destruct (mark_adjacent elem e0 num c c2
              (Arr.get (edge_pair ET c0 elem e0) 0) Hv0 Mk) as (M' & D').
  destruct (get_adjacent_elements_from_vert c0
              (Arr.get (edge_pair ET c0 elem e0) 0) None) as [nadj adj] eqn:Eadj.
  simpl fst in *; simpl snd in *.
  set (c3 := for_range 0 nadj
               (mark_adj_edges ET elem num (edge_pair ET c0 elem e0) adj) c2) in *.
  destruct M' as [Mm Ma Mc Ms Mcl Mo].
  assert (Hclass : forall e a, edge_valid ET c0 e a ->
            same_edge ET c0 e a elem e0 -> edge_label ET c3 e a = num).
  { intros e a Hva Hs. destruct (Z.eq_dec e elem) as [->|Hne].
    - rewrite (Hnd elem a e0 Hva Hv0 Hs). exact Ms.
    - destruct (Hadj elem e0 e a Hv0 Hva (same_edge_sym _ _ _ _ _ _ Hs) Hne)
        as (k & Hk & Ek).
      rewrite Eadj in Hk, Ek. simpl fst in Hk; simpl snd in Ek.
      rewrite <- Ek. apply D'; auto; rewrite Ek; auto. }
  assert (Hnum : num < NO_LABEL) by (unfold NO_LABEL; lia).
  constructor; auto.
  - lia.
  - intros e a Hva.
    destruct (global_edge_equality (edge_pair ET c0 e a) (edge_pair ET c0 elem e0))
      eqn:Eg.
    + right. rewrite (Hclass e a Hva Eg). lia.
    + rewrite (Mo e a Hva) by (unfold same_edge; congruence).
      destruct (Ir e a Hva) as [H|H]; [left; exact H|right; fold num in H; lia].
  - intros e a e' b Hva Hvb Hs.
    destruct (global_edge_equality (edge_pair ET c0 e a) (edge_pair ET c0 elem e0))
      eqn:Eg.
    + rewrite (Hclass e a Hva Eg). symmetry. apply Hclass; auto.
      apply same_edge_trans with e a; auto. apply same_edge_sym, Hs.
    + rewrite (Mo e a Hva) by (unfold same_edge; congruence).
      rewrite (Mo e' b Hvb).
      * apply Is; auto.
      * intros Hc. apply (same_edge_trans ET c0 _ _ _ _ _ _ Hs) in Hc.
        unfold same_edge in Hc. congruence.
  - intros e a e' b Hva Hvb Hl Hnl.
    destruct (global_edge_equality (edge_pair ET c0 e a) (edge_pair ET c0 elem e0))
      eqn:Eg;
    destruct (global_edge_equality (edge_pair ET c0 e' b) (edge_pair ET c0 elem e0))
      eqn:Eg'.
    + apply same_edge_trans with elem e0; auto. apply same_edge_sym, Eg'.
    + exfalso. rewrite (Hclass e a Hva Eg) in Hl.
      rewrite (Mo e' b Hvb) in Hl by (unfold same_edge; congruence).
      destruct (Ir e' b Hvb) as [H|H]; fold num in H; lia.
    + exfalso. rewrite (Hclass e' b Hvb Eg') in Hl.
      rewrite (Mo e a Hva) in Hl by (unfold same_edge; congruence).
      destruct (Ir e a Hva) as [H|H]; fold num in H; lia.
    + rewrite (Mo e a Hva) in Hl, Hnl by (unfold same_edge; congruence).
      rewrite (Mo e' b Hvb) in Hl by (unfold same_edge; congruence).
      apply Ii; auto.
  - intros e a Hva Hp.
    destruct (global_edge_equality (edge_pair ET c0 e a) (edge_pair ET c0 elem e0))
      eqn:Eg.
    + rewrite (Hclass e a Hva Eg). lia.
    + rewrite (Mo e a Hva) by (unfold same_edge; congruence).
      apply Id; auto. destruct Hp as [H|[-> H]]; auto.
      destruct (Z.eq_dec a e0) as [->|]; [|right; lia].
      exfalso. rewrite (same_edge_refl ET c0 elem e0) in Eg. discriminate.
Qed.

(** All edges of one element *)
Lemma label_element_edges_spec elem c :
  0 <= elem < total_elems c0 -> edge_inv elem 0 c ->
  edge_inv (elem + 1) 0 (label_element_edges ET elem c).
Proof.
  intros He I. pose proof I as [Im Ia Ic Ir Is Ii Id].
  unfold label_element_edges.
  assert (Hptr : snd (get_element_edges ET c elem None) = edge_ptr ET c0 elem).
  { rewrite get_element_edges_block. fold (edge_ptr ET c elem).
    apply (edge_ptr_counts ET c0 c elem (same_mesh_counts Im)). }
  assert (Hnum : fst (get_element_edges ET c elem None) = num_edges ET c0 elem).
  { fold (num_edges ET c elem).
    apply (num_edges_counts ET c0 c elem (same_mesh_counts Im)). }
  destruct (get_element_edges ET c elem None) as [ne p].
  simpl fst in Hnum; simpl snd in Hptr. subst ne p.
  pose proof (num_edges_nonneg ET c0 Hok0 elem) as Hnn0.
  assert (H : edge_inv elem (num_edges ET c0 elem)
                (for_range 0 (num_edges ET c0 elem)
                   (label_edge ET elem (edge_ptr ET c0 elem)) c)).
  { apply (for_range_inv (fun j c' => edge_inv elem j c')); auto.
    intros j c' Hj I'. apply label_edge_spec; auto.
    split; [lia|]. unfold num_edges in Hj.
    rewrite get_element_edges_block in Hj. exact Hj. }
  destruct H as [Hm Ha Hc Hr Hs Hi Hd].
  constructor; auto.
  - rewrite (edges_before_succ ET c0 Hok0 elem He). lia.
  - intros e a Hva Hp. apply Hd; auto.
    destruct Hp as [Hp|[_ Hp]]; [|destruct Hva as (_ & Hva); lia].
    destruct (Z.eq_dec e elem) as [->|]; [|left; lia].
    right. split; auto. destruct Hva as (_ & Hva).
    unfold num_edges. rewrite get_element_edges_block. apply Hva.
Qed.

(** All elements *)
Lemma label_all_edges c :
  edge_inv 0 0 c ->
  edge_inv (total_elems c0) 0
    (for_range 0 (total_elems c0) (label_element_edges ET) c).
Proof.
  intros I.
  apply (for_range_inv (fun j c' => edge_inv j 0 c')); auto.
  - destruct Hok0 as ((C1 & C2 & C3 & C4 & C5) & _). unfold total_elems. lia.
  - intros j c' Hj I'. apply label_element_edges_spec; auto.
Qed.

End EdgeInvariant.


Section EdgeSummary.

Variable ET : ElementTypes.
Variable c : Conn.
Hypothesis Hc : edges_ok ET c.
Hypothesis Hn : nelems c = total_elems c.
Hypothesis Htot : total_edges ET c < Index.max.
Hypothesis Hnn : adjacency_nonneg c.
Hypothesis Hnd : edges_distinct ET c.
Hypothesis Hadj : edges_adjacent ET c.

(** The state in which the loop of [init_edge_data] starts *)
Definition edges_start : Conn :=
  set_array
    (set_array
       (set_array
          (set_array (set_nedges c 0) tet_edges_
             (Arr.fill (TET_EDGES ET *w ntets c) NO_LABEL))
          hex_edges_ (Arr.fill (HEX_EDGES ET *w nhex c) NO_LABEL))
       wedge_edges_ (Arr.fill (WEDGE_EDGES ET *w nwedge c) NO_LABEL))
    pyrmd_edges_ (Arr.fill (PYRMD_EDGES ET *w npyrmd c) NO_LABEL).

Lemma init_edge_data_unfold :
  init_edge_data ET c
  = for_range 0 (nelems c) (label_element_edges ET) edges_start.
Proof. reflexivity. Qed.

Lemma same_mesh_edges_start : same_mesh c edges_start.
Proof. unfold same_mesh. simpl. repeat split. Qed.

Lemma edges_ok_start : edges_ok ET edges_start.
Proof. exact Hc. Qed.

Lemma edges_allocated_start : edges_allocated ET edges_start.
Proof.
  destruct Hc as ((C1 & C2 & C3 & C4 & C5) & P1 & P2 & P3 & P4 & B1 & B2 & B3 & B4 & _).
  unfold edges_allocated, blocks_allocated, edges_start. simpl.
  rewrite !Arr.len_fill, !Index.mul_small;
    try (apply ok_of_bounds; nia); try apply Index.wrap_ok; auto.
  all: try (rewrite Index.mul_small; [nia|apply ok_of_bounds; nia]).
Qed.

Lemma edge_label_start e a :
  edge_valid ET c e a -> edge_label ET edges_start e a = NO_LABEL.
Proof.
  intros Hv.
  assert (Hv' : edge_valid ET edges_start e a) by exact Hv.
  assert (B := block_addr_bounds edges_ok_start edges_allocated_start Hv').
  unfold edge_label. rewrite entry_addr; [|exact edges_ok_start|apply Hv].
  destruct (block_addr _ _ _ _ _ _ _ _ edges_start e a) as [x p] eqn:Ea.
  simpl in B |- *.
  assert (Harr : x = tet_edges_ \/ x = hex_edges_ \/ x = wedge_edges_ \/ x = pyrmd_edges_).
  { unfold block_addr in Ea.
    repeat match type of Ea with
           | context [if ?b then _ else _] => destruct b
           end; inversion Ea; auto. }
  unfold Arr.len in B.
  destruct Harr as [->|[->|[->| ->]]]; simpl in B |- *;
    unfold Arr.fill in B; rewrite repeat_length in B;
    apply Arr.get_fill; lia.
Qed.

Lemma edge_inv_start : edge_inv ET c 0 0 edges_start.
Proof.
  constructor.
  - apply same_mesh_edges_start.
  - apply edges_allocated_start.
  - simpl. rewrite (edges_before_0 ET c Hc). lia.
  - intros e a Hv. left. now apply edge_label_start.
  - intros e a e' b Hv Hv' _. now rewrite !edge_label_start.
  - intros e a e' b Hv Hv' _ H. exfalso. apply H. now apply edge_label_start.
  - intros e a (He & Ha) [H|[_ H]]; lia.
Qed.

(** After [init_edge_data]: two local edges carry the same number exactly
    when they join the same two vertices, and every number is below
    [nedges]. *)
Lemma init_edge_data_inv :
  same_mesh c (init_edge_data ET c) /\
  forall e a, edge_valid ET c e a ->
    0 <= edge_label ET (init_edge_data ET c) e a < nedges (init_edge_data ET c) /\
    nedges (init_edge_data ET c) <= total_edges ET c /\
    forall e' b, edge_valid ET c e' b ->
      (edge_label ET (init_edge_data ET c) e a
       = edge_label ET (init_edge_data ET c) e' b
       <-> same_edge ET c e a e' b).
Proof.
  pose proof (label_all_edges ET c Hc Htot Hnn Hnd Hadj edges_start edge_inv_start)
    as I.
  rewrite init_edge_data_unfold, Hn.
  remember (for_range 0 (total_elems c) (label_element_edges ET) edges_start) as m.
  destruct I as [Im Ia Ic Ir Is Ii Id].
  rewrite (edges_before_total ET c Hc) in Ic.
  split; [exact Im|].
  intros e a Hv.
  assert (Hl : edge_label ET m e a <> NO_LABEL).
  { apply Id; auto. left. apply Hv. }
  split; [|split].
  - destruct (Ir e a Hv); [contradiction|lia].
  - lia.
  - intros e' b Hv'. split.
    + intros E. apply Ii; auto.
    + apply Is; auto.
Qed.

End EdgeSummary.


(** ** The end points of an edge are vertices of its element *)

Section EdgeVertices.

Variable ET : ElementTypes.

Definition verts_ok : Conn -> Prop :=
  blocks_ok (TET_VERTS ET) (HEX_VERTS ET) (WEDGE_VERTS ET) (PYRMD_VERTS ET)
    tet_verts_ hex_verts_ wedge_verts_ pyrmd_verts_.

(** The local vertex number of end point [k] of local edge [a] of [e] *)
Definition edge_local (c : Conn) (e a k : Z) : Z :=
  if e <? ntets c then tbl (TET_EDGE_VERTS ET) a k
  else if e <? ntets c + nhex c then tbl (HEX_EDGE_VERTS ET) a k
  else if e <? ntets c + nhex c + nwedge c then tbl (WEDGE_EDGE_VERTS ET) a k
  else tbl (PYRMD_EDGE_VERTS ET) a k.

(** The edge tables of the catalog name local vertices. *)
Definition edge_tables_ok : Prop :=
  (forall a k, 0 <= a < TET_EDGES ET -> 0 <= k < 2 ->
     0 <= tbl (TET_EDGE_VERTS ET) a k < TET_VERTS ET) /\
  (forall a k, 0 <= a < HEX_EDGES ET -> 0 <= k < 2 ->
     0 <= tbl (HEX_EDGE_VERTS ET) a k < HEX_VERTS ET) /\
  (forall a k, 0 <= a < WEDGE_EDGES ET -> 0 <= k < 2 ->
     0 <= tbl (WEDGE_EDGE_VERTS ET) a k < WEDGE_VERTS ET) /\
  (forall a k, 0 <= a < PYRMD_EDGES ET -> 0 <= k < 2 ->
     0 <= tbl (PYRMD_EDGE_VERTS ET) a k < PYRMD_VERTS ET).

Lemma set_pair x y : Arr.set (Arr.set (uninit 2) 0 x) 1 y = [x; y].
Proof. reflexivity. Qed.

Lemma edge_pair_vert c e a k :
  edges_ok ET c -> verts_ok c -> edge_tables_ok ->
  edge_valid ET c e a -> 0 <= k < 2 ->
  Arr.get (edge_pair ET c e a) k = elem_vert ET c e (edge_local c e a k) /\
  0 <= edge_local c e a k < elem_nverts ET c e.
Proof.
  intros Hok Hvok (T1 & T2 & T3 & T4) (He & Ha) Hk.
  destruct Hok as (Hc & _).
  destruct Hvok as (_ & P1 & P2 & P3 & P4 & B1 & B2 & B3 & B4 & _).
  destruct (partial_sums Hc) as (S1 & S2 & S3).
  destruct Hc as (C1 & C2 & C3 & C4 & C5).
  unfold total_elems in He.
  unfold block_size, element_block in Ha. rewrite S3, S2, S1 in Ha.
  unfold edge_pair, get_element_edge_verts, elem_vert, elem_nverts,
    get_element_verts, edge_local.
  cbv zeta. rewrite S3, S2, S1, !set_pair.
  assert (Hget : forall x y, Arr.get [x; y] k = if k =? 0 then x else y).
  { intros x y. assert (Ek : k = 0 \/ k = 1) by lia.
    destruct Ek as [->| ->]; reflexivity. }
  assert (Hsel : forall (T : list (list Z)),
            (if k =? 0 then tbl T a 0 else tbl T a 1) = tbl T a k).
  { intros T. assert (Ek : k = 0 \/ k = 1) by lia.
    destruct Ek as [->| ->]; reflexivity. }
  destruct (Z.ltb_spec e (ntets c)) as [L1|L1].
  { simpl in Ha. pose proof (T1 a 0 Ha ltac:(lia)). pose proof (T1 a 1 Ha ltac:(lia)).
    pose proof (T1 a k Ha Hk).
    simpl fst; simpl snd. unfold load. simpl p_arr; simpl p_off. rewrite Hget.
    rewrite Index.mul_small by (apply ok_of_bounds; nia).
    rewrite !Index.add_small by (apply ok_of_bounds; nia).
    split; [|lia]. rewrite <- (Hsel (TET_EDGE_VERTS ET)).
    destruct (k =? 0); reflexivity. }
  assert (E1 : e -w ntets c = e - ntets c).
  { apply Index.sub_small. apply ok_of_bounds. lia. }
  destruct (Z.ltb_spec e (ntets c + nhex c)) as [L2|L2].
  { simpl in Ha. pose proof (T2 a 0 Ha ltac:(lia)). pose proof (T2 a 1 Ha ltac:(lia)).
    pose proof (T2 a k Ha Hk).
    simpl fst; simpl snd. unfold load. simpl p_arr; simpl p_off. rewrite Hget.
    rewrite E1.
    rewrite Index.mul_small by (apply ok_of_bounds; nia).
    rewrite !Index.add_small by (apply ok_of_bounds; nia).
    split; [|lia]. rewrite <- (Hsel (HEX_EDGE_VERTS ET)).
    destruct (k =? 0); reflexivity. }
  assert (E2 : e -w ntets c -w nhex c = e - ntets c - nhex c).
  { rewrite E1. apply Index.sub_small. apply ok_of_bounds. lia. }
  destruct (Z.ltb_spec e (ntets c + nhex c + nwedge c)) as [L3|L3].
  { simpl in Ha. pose proof (T3 a 0 Ha ltac:(lia)). pose proof (T3 a 1 Ha ltac:(lia)).
    pose proof (T3 a k Ha Hk).
    simpl fst; simpl snd. unfold load. simpl p_arr; simpl p_off. rewrite Hget.
    rewrite E2.
    rewrite Index.mul_small by (apply ok_of_bounds; nia).
    rewrite !Index.add_small by (apply ok_of_bounds; nia).
    split; [|lia]. rewrite <- (Hsel (WEDGE_EDGE_VERTS ET)).
    destruct (k =? 0); reflexivity. }
  assert (E3 : e -w ntets c -w nhex c -w nwedge c = e - ntets c - nhex c - nwedge c).
  { rewrite E2. apply Index.sub_small. apply ok_of_bounds. lia. }
  destruct (Z.ltb_spec e (ntets c + nhex c + nwedge c + npyrmd c)) as [L4|L4]; [|lia].
  simpl in Ha. pose proof (T4 a 0 Ha ltac:(lia)). pose proof (T4 a 1 Ha ltac:(lia)).
  pose proof (T4 a k Ha Hk).
  simpl fst; simpl snd. unfold load. simpl p_arr; simpl p_off. rewrite Hget.
  rewrite E3.
  rewrite Index.mul_small by (apply ok_of_bounds; nia).
  rewrite !Index.add_small by (apply ok_of_bounds; nia).
  split; [|lia]. rewrite <- (Hsel (PYRMD_EDGE_VERTS ET)).
  destruct (k =? 0); reflexivity.
Qed.

(** Every incidence is found through the adjacency accessor. *)
Definition adjacency_complete (c : Conn) : Prop :=
  forall v e, In (v, e) (vert_items ET c) ->
    exists k,
      0 <= k < fst (get_adjacent_elements_from_vert c v None) /\
      load_out c (snd (get_adjacent_elements_from_vert c v None)) k = e.

Lemma edges_adjacent_complete c :
  edges_ok ET c -> verts_ok c -> edge_tables_ok ->
  nelems c = total_elems c ->
  adjacency_complete c -> edges_adjacent ET c.
Proof.
  intros Hok Hvok Ht Hn Hcomp e a e' b Hv Hv' Hs Hne.
  apply Hcomp. apply in_vert_items. split; [rewrite Hn; apply Hv'|].
  apply global_edge_equality_iff in Hs.
  destruct (edge_pair_vert c e' b 0 Hok Hvok Ht Hv' ltac:(lia)) as (E0 & B0).
  destruct (edge_pair_vert c e' b 1 Hok Hvok Ht Hv' ltac:(lia)) as (E1 & B1).
  destruct Hs as [[H _]|[H _]].
  - exists (edge_local c e' b 0). split; auto. congruence.
  - exists (edge_local c e' b 1). split; auto. congruence.
Qed.

(** The vertices of the elements are vertex numbers. *)
Definition valid_vertices (c : Conn) : Prop :=
  forall e i, 0 <= e < nelems c -> 0 <= i < elem_nverts ET c e ->
    0 <= elem_vert ET c e i < nverts c.

Lemma vert_items_same c c' :
  same_counts c c' -> nelems c' = nelems c ->
  mem c' tet_verts_ = mem c tet_verts_ -> mem c' hex_verts_ = mem c hex_verts_ ->
  mem c' wedge_verts_ = mem c wedge_verts_ ->
  mem c' pyrmd_verts_ = mem c pyrmd_verts_ ->
  vert_items ET c' = vert_items ET c.
Proof.
  intros (E1 & E2 & E3 & E4) En M1 M2 M3 M4.
  assert (Hv : forall e, get_element_verts ET c' e None = get_element_verts ET c e None).
  { intros e. unfold get_element_verts. now rewrite E1, E2, E3, E4. }
  unfold vert_items. rewrite En. apply flat_map_ext. intros e.
  unfold elem_items, elem_nverts, elem_vert. rewrite Hv.
  apply map_ext. intros i. f_equal.
  unfold get_element_verts.
  repeat match goal with |- context [if ?b then _ else _] => destruct b end;
    simpl; auto; unfold load; simpl p_arr; congruence.
Qed.

Lemma edge_pair_same c c' e a :
  same_counts c c' ->
  mem c' tet_verts_ = mem c tet_verts_ -> mem c' hex_verts_ = mem c hex_verts_ ->
  mem c' wedge_verts_ = mem c wedge_verts_ ->
  mem c' pyrmd_verts_ = mem c pyrmd_verts_ ->
  edge_pair ET c' e a = edge_pair ET c e a.
Proof.
  intros (E1 & E2 & E3 & E4) M1 M2 M3 M4.
  unfold edge_pair, get_element_edge_verts, tet_verts, hex_verts, wedge_verts,
    pyrmd_verts.
  now rewrite E1, E2, E3, E4, M1, M2, M3, M4.
Qed.

End EdgeVertices.

(** ** The adjacency built by [init_vert_element_data] is complete *)

Section AdjacencyComplete.

Variable ET : ElementTypes.
Variable a0 ca : Conn.
Hypothesis Hca : ca = init_vert_element_data ET a0.
Hypothesis Hnv : 0 <= nverts a0 < Index.max.
Hypothesis Hvalid : valid_vertices ET a0.
Hypothesis Hlen : Z.of_nat (length (vert_items ET a0)) <= Index.max.

Lemma vert_items_keys it :
  In it (vert_items ET a0) -> 0 <= fst it < nverts a0.
Proof.
  destruct it as [v e]. intros H. apply in_vert_items in H.
  destruct H as (He & i & Hi & ->). simpl. now apply Hvalid.
Qed.

Lemma vert_items_built : vert_items ET ca = vert_items ET a0.
Proof.
  pose proof (frame_init_vert_element_data ET a0) as F. rewrite <- Hca in F.
  destruct (frame_adjacency_same F) as (Hc & Hn & _ & M1 & M2 & M3 & M4).
  now apply vert_items_same.
Qed.

Lemma adjacency_complete_init : adjacency_complete ET ca.
Proof.
  intros v e Hin. rewrite vert_items_built in Hin.
  pose proof (init_vert_element_data_build ET a0) as (F & Ep & Ee).
  rewrite <- Hca in F, Ep, Ee.
  pose proof (Csr.compressed_build (nverts a0) (vert_items ET a0) Hnv
                vert_items_keys Hlen) as C.
  pose proof (vert_items_keys (v, e) Hin) as Hv. simpl in Hv.
  destruct (proj2 (Csr.compressed_row (nverts a0) (vert_items ET a0) _ v e C Hv) Hin)
    as (jp & Hjp & Ej).
  rewrite <- Ep in Hjp. rewrite <- Ee in Ej.
  pose proof C as (_ & _ & G & _).
  destruct (frame_adjacency_same F) as (_ & _ & Env & _).
  unfold get_adjacent_elements_from_vert. rewrite Env.
  destruct (Z.ltb_spec v (nverts a0)) as [_|]; [|lia].
  simpl fst; simpl snd. unfold load. simpl p_arr; simpl p_off.
  fold (vert_elements ca).
  assert (W : v +w 1 = v + 1) by (apply Index.add_small, ok_of_bounds; lia).
  rewrite W.
  assert (B1 : 0 <= Arr.get (vert_element_ptr ca) v).
  { rewrite Ep, (G v) by lia. apply Csr.count_lt_nonneg. }
  assert (B2 : Arr.get (vert_element_ptr ca) (v + 1) <= Index.max).
  { rewrite Ep, (G (v + 1)) by lia.
    pose proof (Csr.count_lt_le_length (vert_items ET a0) (v + 1) (vert_items ET a0)).
    lia. }
  rewrite Index.sub_small by (apply ok_of_bounds; lia).
  exists (jp - Arr.get (vert_element_ptr ca) v).
  unfold vert_element_ptr, vert_elements in *. split; [lia|].
  rewrite <- Ej. unfold load_out, at_, load. simpl p_arr; simpl p_off.
  f_equal. lia.
Qed.

End AdjacencyComplete.


(** ** Edge numbers of a constructed [MeshConnectivity3D] *)

(** The input of the constructor is a mesh whose arrays can be allocated,
    whose vertices are vertex numbers and whose elements have no two local
    edges between the same two vertices. *)
Definition edge_mesh_ok (ET : ElementTypes) (nverts ntets : Z) (tets : list Z)
  (nhex : Z) (hex : list Z) (nwedge : Z) (wedge : list Z) (npyrmd : Z)
  (pyrmd : list Z) : Prop :=
  face_sizes_ok ET ntets nhex nwedge npyrmd /\
  0 <= nverts < Index.max /\
  verts_ok ET (alloc_conn ET nverts ntets tets nhex hex nwedge wedge npyrmd pyrmd) /\
  edges_ok ET (alloc_conn ET nverts ntets tets nhex hex nwedge wedge npyrmd pyrmd) /\
  total_edges ET (alloc_conn ET nverts ntets tets nhex hex nwedge wedge npyrmd pyrmd)
    < Index.max /\
  edge_tables_ok ET /\
  Z.of_nat (length (vert_items ET
    (alloc_conn ET nverts ntets tets nhex hex nwedge wedge npyrmd pyrmd)))
    <= Index.max /\
  valid_vertices ET
    (alloc_conn ET nverts ntets tets nhex hex nwedge wedge npyrmd pyrmd) /\
  edges_distinct ET
    (alloc_conn ET nverts ntets tets nhex hex nwedge wedge npyrmd pyrmd).

Section MeshEdges.

Variable ET : ElementTypes.
Variables nv nt nh nw np : Z.
Variables tets hex wedge pyrmd : list Z.
Hypothesis Hok :
  edge_mesh_ok ET nv nt tets nh hex nw wedge np pyrmd.

(** The states of the object between the phases of the constructor *)
Variables a0 ca c0 c1 c2 m : Conn.
Hypothesis Ha0 :
  a0 = alloc_conn ET nv nt tets nh hex nw wedge np pyrmd.
Hypothesis Hca : ca = init_vert_element_data ET a0.
Hypothesis Hc0 : c0 = faces_start ET ca.
Hypothesis Hc1 : c1 = discover_faces ET ca.
Hypothesis Hc2 : c2 = record_faces ET c1.
Hypothesis Hm : m = init_edge_data ET c2.

Lemma me_ca : ca = init_vert_element_data ET
  (alloc_conn ET nv nt tets nh hex nw wedge np pyrmd).
Proof. rewrite Hca, Ha0. reflexivity. Qed.

Lemma me_frame : frame adjacency_array a0 ca.
Proof. rewrite Hca. apply frame_init_vert_element_data. Qed.

Lemma me_mesh : same_mesh ca c2.
Proof.
  destruct Hok as (Hsz & _).
  pose proof (ca_faces_ok ET nv nt nh nw np tets hex wedge pyrmd
                Hsz ca me_ca) as Hf.
  pose proof (ca_nelems ET nv nt nh nw np tets hex wedge pyrmd
                Hsz ca me_ca) as Hn.
  pose proof (ca_total_faces ET nv nt nh nw np tets hex wedge pyrmd
                Hsz ca me_ca) as Ht.
  pose proof (ca_adjacency ET nv nt nh nw np tets hex wedge pyrmd
                ca me_ca) as Hadj.
  destruct (mfd_inv ET ca Hf Hn Ht Hadj c0 c1 Hc0 Hc1) as (I & P & B).
  apply same_mesh_trans with c0.
  - rewrite Hc0. apply same_mesh_start.
  - rewrite Hc2.
    apply (@face_data_mesh ET c0 (mfd_ok0 ET ca Hf c0 Hc0) (mfd_n0 ET ca Hn c0 Hc0)
             c1 I P B).
Qed.

(** The counts and the vertex arrays of the input reach [c2] unchanged. *)
Lemma me_same :
  same_counts a0 c2 /\ nelems c2 = nelems a0 /\ nverts c2 = nverts a0 /\
  mem c2 tet_verts_ = mem a0 tet_verts_ /\ mem c2 hex_verts_ = mem a0 hex_verts_ /\
  mem c2 wedge_verts_ = mem a0 wedge_verts_ /\
  mem c2 pyrmd_verts_ = mem a0 pyrmd_verts_.
Proof.
  destruct (frame_adjacency_same me_frame) as ((A1 & A2 & A3 & A4) & An & Av & M1 & M2 & M3 & M4).
  destruct me_mesh as (E0 & E1 & E2 & E3 & E4 & E5 & N1 & N2 & N3 & N4 & _).
  unfold same_counts. repeat split; congruence.
Qed.

Lemma me_edges_ok : edges_ok ET c2.
Proof.
  destruct Hok as (_ & _ & _ & He & _). rewrite <- Ha0 in He.
  apply (edges_ok_counts ET a0 c2); auto. apply me_same.
Qed.

Lemma me_verts_ok : verts_ok ET c2.
Proof.
  destruct Hok as (_ & _ & Hv & _). rewrite <- Ha0 in Hv.
  destruct me_same as ((E1 & E2 & E3 & E4) & _).
  unfold verts_ok, blocks_ok, counts_ok in *. now rewrite E1, E2, E3, E4.
Qed.

Lemma me_nelems : nelems c2 = total_elems c2.
Proof.
  destruct Hok as (Hsz & _).
  pose proof (ca_nelems ET nv nt nh nw np tets hex wedge pyrmd
                Hsz ca me_ca) as Hn.
  destruct me_mesh as (E0 & E1 & E2 & E3 & E4 & E5 & _).
  unfold total_elems in *. rewrite E5, E1, E2, E3, E4. exact Hn.
Qed.

Lemma me_total : total_edges ET c2 < Index.max.
Proof.
  destruct Hok as (_ & _ & _ & _ & Ht & _). rewrite <- Ha0 in Ht.
  destruct me_same as ((E1 & E2 & E3 & E4) & _).
  unfold total_edges in *. now rewrite E1, E2, E3, E4.
Qed.

Lemma me_nonneg : adjacency_nonneg c2.
Proof.
  pose proof (ca_adjacency ET nv nt nh nw np tets hex wedge pyrmd
                ca me_ca) as Hadj.
  destruct me_mesh as (_ & _ & _ & _ & _ & _ & _ & _ & _ & _ & _ & M).
  intros i. unfold vert_elements. rewrite M. apply Hadj.
Qed.

Lemma me_edge_valid e a : edge_valid ET c2 e a <-> edge_valid ET a0 e a.
Proof. apply edge_valid_counts, me_same. Qed.

Lemma me_edge_pair e a : edge_pair ET c2 e a = edge_pair ET a0 e a.
Proof.
  destruct me_same as (Hc & _ & _ & M1 & M2 & M3 & M4).
  now apply edge_pair_same.
Qed.

Lemma me_distinct : edges_distinct ET c2.
Proof.
  destruct Hok as (_ & _ & _ & _ & _ & _ & _ & _ & Hd). rewrite <- Ha0 in Hd.
  intros e a b Hv Hv' Hs. apply (Hd e a b).
  - now apply me_edge_valid.
  - now apply me_edge_valid.
  - unfold same_edge in *. now rewrite <- !me_edge_pair.
Qed.

Lemma me_complete : adjacency_complete ET c2.
Proof.
  destruct Hok as (_ & Hnv & _ & _ & _ & _ & Hlen & Hvv & _).
  rewrite <- Ha0 in Hlen, Hvv.
  assert (Hnv0 : 0 <= nverts a0 < Index.max) by (rewrite Ha0; exact Hnv).
  pose proof (adjacency_complete_init ET a0 ca Hca Hnv0 Hvv Hlen) as Hcomp.
  pose proof me_mesh as Hmesh.
  intros v e Hin.
  assert (Hi : vert_items ET c2 = vert_items ET ca).
  { destruct Hmesh as (E0 & E1 & E2 & E3 & E4 & E5 & N1 & N2 & N3 & N4 & _).
    apply vert_items_same; auto. unfold same_counts. auto. }
  rewrite Hi in Hin. destruct (Hcomp v e Hin) as (k & Hk & Ek).
  rewrite (adjacent_elements_mesh v None Hmesh).
  exists k. split; auto. rewrite <- Ek.
  unfold get_adjacent_elements_from_vert.
  destruct (v <? nverts ca); simpl; auto.
  unfold load. simpl p_arr.
  destruct Hmesh as (_ & _ & _ & _ & _ & _ & _ & _ & _ & _ & _ & M).
  now rewrite M.
Qed.

Lemma me_adjacent : edges_adjacent ET c2.
Proof.
  destruct Hok as (_ & _ & _ & _ & _ & Ht & _).
  apply edges_adjacent_complete; auto.
  - apply me_edges_ok.
  - apply me_verts_ok.
  - apply me_nelems.
  - apply me_complete.
Qed.

Lemma me_edges :
  forall e a, edge_valid ET m e a ->
    0 <= edge_label ET m e a < nedges m /\
    forall e' b, edge_valid ET m e' b ->
      (edge_label ET m e a = edge_label ET m e' b <-> same_edge ET m e a e' b).
Proof.
  destruct (init_edge_data_inv ET c2 me_edges_ok me_nelems me_total me_nonneg
              me_distinct me_adjacent) as (Hmesh & H).
  rewrite <- Hm in Hmesh, H.
  assert (Hv : forall e a, edge_valid ET m e a -> edge_valid ET c2 e a).
  { intros e a. apply (edge_valid_counts ET c2 m), same_mesh_counts, Hmesh. }
  intros e a Hva. destruct (H e a (Hv e a Hva)) as (R & _ & S).
  split; [exact R|].
  intros e' b Hvb. rewrite (S e' b (Hv e' b Hvb)).
  symmetry. apply same_edge_mesh, Hmesh.
Qed.

End MeshEdges.

(** C5.  In a constructed [MeshConnectivity3D], two local edges carry the
    same global edge number exactly when they join the same two vertices,
    in either listing direction; every edge number is below [nedges]. *)
Theorem edge_numbers_identify_edges (ET : ElementTypes) (nverts ntets : Z)
  (tets : list Z) (nhex : Z) (hex : list Z) (nwedge : Z) (wedge : list Z)
  (npyrmd : Z) (pyrmd : list Z) :
  edge_mesh_ok ET nverts ntets tets nhex hex nwedge wedge npyrmd pyrmd ->
  forall e a e' b,
    edge_valid ET
      (MeshConnectivity3D ET nverts ntets tets nhex hex nwedge wedge npyrmd pyrmd)
      e a ->
    edge_valid ET
      (MeshConnectivity3D ET nverts ntets tets nhex hex nwedge wedge npyrmd pyrmd)
      e' b ->
    (edge_label ET
       (MeshConnectivity3D ET nverts ntets tets nhex hex nwedge wedge npyrmd pyrmd)
       e a
     = edge_label ET
         (MeshConnectivity3D ET nverts ntets tets nhex hex nwedge wedge npyrmd pyrmd)
         e' b
     <->
     (Arr.get (edge_pair ET
        (MeshConnectivity3D ET nverts ntets tets nhex hex nwedge wedge npyrmd pyrmd)
        e a) 0
      = Arr.get (edge_pair ET
          (MeshConnectivity3D ET nverts ntets tets nhex hex nwedge wedge npyrmd pyrmd)
          e' b) 0 /\
      Arr.get (edge_pair ET
        (MeshConnectivity3D ET nverts ntets tets nhex hex nwedge wedge npyrmd pyrmd)
        e a) 1
      = Arr.get (edge_pair ET
          (MeshConnectivity3D ET nverts ntets tets nhex hex nwedge wedge npyrmd pyrmd)
          e' b) 1) \/
     (Arr.get (edge_pair ET
        (MeshConnectivity3D ET nverts ntets tets nhex hex nwedge wedge npyrmd pyrmd)
        e a) 0
      = Arr.get (edge_pair ET
          (MeshConnectivity3D ET nverts ntets tets nhex hex nwedge wedge npyrmd pyrmd)
          e' b) 1 /\
      Arr.get (edge_pair ET
        (MeshConnectivity3D ET nverts ntets tets nhex hex nwedge wedge npyrmd pyrmd)
        e a) 1
      = Arr.get (edge_pair ET
          (MeshConnectivity3D ET nverts ntets tets nhex hex nwedge wedge npyrmd pyrmd)
          e' b) 0)) /\
    0 <= edge_label ET
           (MeshConnectivity3D ET nverts ntets tets nhex hex nwedge wedge npyrmd pyrmd)
           e a
      < nedges
          (MeshConnectivity3D ET nverts ntets tets nhex hex nwedge wedge npyrmd pyrmd).
Proof.
  intros Hok e a e' b.
  rewrite mesh_phases.
  remember (alloc_conn ET nverts ntets tets nhex hex nwedge wedge npyrmd pyrmd)
    as a0 eqn:Ha0.
  remember (init_vert_element_data ET a0) as ca eqn:Hca.
  remember (faces_start ET ca) as c0 eqn:Hc0.
  remember (discover_faces ET ca) as c1 eqn:Hc1.
  remember (record_faces ET c1) as c2 eqn:Hc2.
  remember (init_edge_data ET c2) as m eqn:Hm.
  intros Hv Hv'.
  destruct (me_edges ET nverts ntets nhex nwedge npyrmd tets hex wedge pyrmd Hok
              a0 ca c0 c1 c2 m Ha0 Hca Hc0 Hc1 Hc2 Hm e a Hv) as (R & S).
  split; [|exact R].
  rewrite (S e' b Hv'). apply global_edge_equality_iff.
Qed.


(** * Numbering the degrees of freedom: the constructor of [ElementMesh] *)

Module Numbering.

Definition NO_INDEX : Z := Index.max.

(** The template parameter [Basis]: its header is not among the sources, so
    its constants and static functions are a parameter.  An element's slice
    of [element_dof] or [element_sign] is passed as the array and the
    offset of the slice. *)
Record Basis := {
  nbasis : Z;
  ndof : Z;
  (** [get_entity_ndof(basis, entity, index)] *)
  get_entity_ndof : Z -> ElementEntity -> Z -> Z;
  (** [get_entity_dof(basis, entity, index, &arr[off], dof)]: the new [dof] *)
  get_entity_dof : Z -> ElementEntity -> Z -> list Z -> Z -> list Z -> list Z;
  (** [set_entity_dof(basis, entity, index, orient, dof, &arr[off])]: the new
      [arr] *)
  set_entity_dof : Z -> ElementEntity -> Z -> Z -> list Z -> list Z -> Z -> list Z;
  (** [set_entity_signs(basis, entity, index, orient, &arr[off])]: the new
      [arr] *)
  set_entity_signs : Z -> ElementEntity -> Z -> Z -> list Z -> Z -> list Z
}.

Section Constructor.

Variable ET : ElementTypes.
Variable B : Basis.
Variable conn : Conn.

(** [ndof_per_element] *)
Definition ndof_per_element : Z := ndof B.

(** ** The sweep over the elements *)

Record sweep := {
  ids : list Z;
  stack : list Z;
  next : Z
}.

(** [if (e < nelems && ids[e] == NO_INDEX) { ids[e] = level;
    stack[next] = e; next++; }]; the second operand is read only when the
    first holds. *)
Definition visit (nelems level e : Z) (s : sweep) : sweep :=
  if (if e <? nelems then Arr.get (ids s) e =? NO_INDEX else false) then
    {| ids := Arr.set (ids s) e level;
       stack := Arr.set (stack s) (next s) e;
       next := next s +w 1 |}
  else s.

Definition sweep_face (nelems level : Z) (faces : out_ptr) (j : Z) (s : sweep)
  : sweep :=
  let '(_, e1, e2) := get_face_elements conn (load_out conn faces j) in
  visit nelems level e2 (visit nelems level e1 s).

Definition sweep_element (nelems level : Z) (i : Z) (s : sweep) : sweep :=
  let '(nf, faces) := get_element_faces ET conn (Arr.get (stack s) i) None in
  for_range 0 nf (sweep_face nelems level faces) s.

(** [while (start < end) { ... }] *)
Fixpoint sweep_levels (fuel : nat) (nelems start end_ level : Z) (s : sweep)
  : sweep :=
  match fuel with
  | O => s
  | S fuel =>
      if start <? end_ then
        let s := {| ids := ids s; stack := stack s; next := end_ |} in
        let level := level +w 1 in
        let s := for_range start end_ (sweep_element nelems level) s in
        sweep_levels fuel nelems end_ (next s) level s
      else s
  end.

Definition sweep_elements (nelems : Z) : sweep :=
  let ids := Arr.fill nelems NO_INDEX in
  let stack := Arr.fill nelems 0 in
  let stack := Arr.set stack 0 0 in
  let ids := Arr.set ids 0 0 in
  sweep_levels (Z.to_nat nelems) nelems 0 1 0
    {| ids := ids; stack := stack; next := 1 |}.

(** ** The numbering *)

Record numbering := {
  element_dof : list Z;
  element_sign : list Z;
  face_owners : list Z;
  edge_owners : list Z;
  vert_owners : list Z;
  dof_counter : Z;
  dof : list Z
}.

Definition set_dof (st : numbering) (d : list Z) : numbering :=
  {| element_dof := element_dof st; element_sign := element_sign st;
     face_owners := face_owners st; edge_owners := edge_owners st;
     vert_owners := vert_owners st; dof_counter := dof_counter st; dof := d |}.

(** [for (i = 0; i < n; i++, dof_counter++) dof[i] = dof_counter;] *)
Definition fresh_dof (n : Z) (st : numbering) : numbering :=
  for_range 0 n
    (fun i st =>
       {| element_dof := element_dof st; element_sign := element_sign st;
          face_owners := face_owners st; edge_owners := edge_owners st;
          vert_owners := vert_owners st;
          dof_counter := dof_counter st +w 1;
          dof := Arr.set (dof st) i (dof_counter st) |}) st.

(** [set_entity_dof] and [set_entity_signs] on the slice of [elem] *)
Definition store_entity (basis : Z) (entity : ElementEntity) (index orient : Z)
  (elem : Z) (st : numbering) : numbering :=
  {| element_dof :=
       set_entity_dof B basis entity index orient (dof st) (element_dof st)
         (elem *w ndof_per_element);
     element_sign :=
       set_entity_signs B basis entity index orient (element_sign st)
         (elem *w ndof_per_element);
     face_owners := face_owners st; edge_owners := edge_owners st;
     vert_owners := vert_owners st; dof_counter := dof_counter st;
     dof := dof st |}.

Definition own_face (face elem : Z) (st : numbering) : numbering :=
  {| element_dof := element_dof st; element_sign := element_sign st;
     face_owners := Arr.set (face_owners st) face elem;
     edge_owners := edge_owners st; vert_owners := vert_owners st;
     dof_counter := dof_counter st; dof := dof st |}.

Definition own_edge (edge elem : Z) (st : numbering) : numbering :=
  {| element_dof := element_dof st; element_sign := element_sign st;
     face_owners := face_owners st;
     edge_owners := Arr.set (edge_owners st) edge elem;
     vert_owners := vert_owners st;
     dof_counter := dof_counter st; dof := dof st |}.

Definition own_vert (vert elem : Z) (st : numbering) : numbering :=
  {| element_dof := element_dof st; element_sign := element_sign st;
     face_owners := face_owners st; edge_owners := edge_owners st;
     vert_owners := Arr.set (vert_owners st) vert elem;
     dof_counter := dof_counter st; dof := dof st |}.

(** The volume degrees of freedom of [elem] *)
Definition order_volume (basis elem : Z) (st : numbering) : numbering :=
  let st := fresh_dof (get_entity_ndof B basis VOLUME 0) st in
  store_entity basis VOLUME 0 0 elem st.

(** The search of the owner's faces for [face]; the state carries [orient]
    and the flag of the [break]. *)
Definition copy_face (basis elem index face owner_elem : Z) (owner_faces : out_ptr)
  (i : Z) (acc : numbering * Z * bool) : numbering * Z * bool :=
  let '(st, orient, found) := acc in
  if found then acc
  else if load_out conn owner_faces i =? face then
    let '(nverts, ref) := get_element_face_verts ET conn owner_elem i (uninit 4) in
    let '(_, verts) := get_element_face_verts ET conn elem index (uninit 4) in
    let st :=
      set_dof st
        (get_entity_dof B basis FACE i (element_dof st)
           (owner_elem *w ndof_per_element) (dof st)) in
    let orient :=
      if nverts =? 4 then get_quad_face_orientation ET ref verts else orient in
    (st, orient, true)
  else acc.

Definition order_face (basis elem : Z) (faces : out_ptr) (index : Z)
  (st : numbering) : numbering :=
  let face := load_out conn faces index in
  let '(st, orient) :=
    if (Arr.get (face_owners st) face =? NO_INDEX)
       || (Arr.get (face_owners st) face =? elem)
    then
      let st := own_face face elem st in
      (fresh_dof (get_entity_ndof B basis FACE index) st, 0)
    else
      let owner_elem := Arr.get (face_owners st) face in
      let '(nf_owner, owner_faces) := get_element_faces ET conn owner_elem None in
      let '(st, orient, _) :=
        for_range 0 nf_owner
          (copy_face basis elem index face owner_elem owner_faces)
          (st, 0, false) in
      (st, orient) in
  store_entity basis FACE index orient elem st.

Definition copy_edge (basis elem index edge owner_elem : Z) (owner_edges : out_ptr)
  (i : Z) (acc : numbering * Z * bool) : numbering * Z * bool :=
  let '(st, orient, found) := acc in
  if found then acc
  else if load_out conn owner_edges i =? edge then
    let ref := get_element_edge_verts ET conn owner_elem i (uninit 2) in
    let verts := get_element_edge_verts ET conn elem index (uninit 2) in
    let st :=
      set_dof st
        (get_entity_dof B basis EDGE i (element_dof st)
           (owner_elem *w ndof_per_element) (dof st)) in
    let orient :=
      if (Arr.get ref 0 =? Arr.get verts 1) && (Arr.get ref 1 =? Arr.get verts 0)
      then 1 else orient in
    (st, orient, true)
  else acc.

Definition order_edge (basis elem : Z) (edges : out_ptr) (index : Z)
  (st : numbering) : numbering :=
  let edge := load_out conn edges index in
  let '(st, orient) :=
    if (Arr.get (edge_owners st) edge =? NO_INDEX)
       || (Arr.get (edge_owners st) edge =? elem)
    then
      let st := own_edge edge elem st in
      (fresh_dof (get_entity_ndof B basis EDGE index) st, 0)
    else
      let owner_elem := Arr.get (edge_owners st) edge in
      let '(ne_owner, owner_edges) := get_element_edges ET conn owner_elem None in
      let '(st, orient, _) :=
        for_range 0 ne_owner
          (copy_edge basis elem index edge owner_elem owner_edges)
          (st, 0, false) in
      (st, orient) in
  store_entity basis EDGE index orient elem st.

Definition copy_vert (basis vert owner_elem : Z) (owner_verts : out_ptr)
  (i : Z) (acc : numbering * bool) : numbering * bool :=
  let '(st, found) := acc in
  if found then acc
  else if load_out conn owner_verts i =? vert then
    (set_dof st
       (get_entity_dof B basis VERTEX i (element_dof st)
          (owner_elem *w ndof_per_element) (dof st)), true)
  else acc.

Definition order_vert (basis elem : Z) (verts : out_ptr) (index : Z)
  (st : numbering) : numbering :=
  let vert := load_out conn verts index in
  let st :=
    if (Arr.get (vert_owners st) vert =? NO_INDEX)
       || (Arr.get (vert_owners st) vert =? elem)
    then
      let st := own_vert vert elem st in
      fresh_dof (get_entity_ndof B basis VERTEX index) st
    else
      let owner_elem := Arr.get (vert_owners st) vert in
      let '(nv_owner, owner_verts) := get_element_verts ET conn owner_elem None in
      fst (for_range 0 nv_owner (copy_vert basis vert owner_elem owner_verts)
             (st, false)) in
  store_entity basis VERTEX index 0 elem st.

(** The body of the loop over the stack *)
Definition order_element (stack : list Z) (basis counter : Z) (st : numbering)
  : numbering :=
  let elem := Arr.get stack (counter -w 1) in
  let st := order_volume basis elem st in
  let '(nf, faces) := get_element_faces ET conn elem None in
  let st := for_range 0 nf (order_face basis elem faces) st in
  let '(ne, edges) := get_element_edges ET conn elem None in
  let st := for_range 0 ne (order_edge basis elem edges) st in
  let '(nv, verts) := get_element_verts ET conn elem None in
  for_range 0 nv (order_vert basis elem verts) st.

Definition order_elements (nelems : Z) (stack : list Z) : numbering :=
  for_range 0 (nbasis B)
    (fun basis st =>
       for_down (Z.to_nat nelems) nelems (order_element stack basis) st)
    {| element_dof := Arr.fill (nelems *w ndof_per_element) NO_INDEX;
       element_sign := uninit (nelems *w ndof_per_element);
       face_owners := Arr.fill (nfaces conn) NO_INDEX;
       edge_owners := Arr.fill (nedges conn) NO_INDEX;
       vert_owners := Arr.fill (nverts conn) NO_INDEX;
       dof_counter := 0;
       dof := uninit ndof_per_element |}.

(** [ElementMesh(MeshConnectivity3D& conn)] *)
Definition ElementMesh_of_conn : DofMesh.ElementMesh :=
  let nelems := nelems conn in
  let s := sweep_elements nelems in
  let st := order_elements nelems (stack s) in
  {| DofMesh.nelems := nelems;
     DofMesh.num_dof := dof_counter st;
     DofMesh.element_dof := element_dof st;
     DofMesh.element_sign := element_sign st |}.

End Constructor.

End Numbering.


(** * Boundary conditions from marked vertices *)

Module Boundary.

Import Numbering.

(** [std::fill(a, a + n, v)] *)
Definition fill_prefix (a : list Z) (n v : Z) : list Z :=
  for_range 0 n (fun i a => Arr.set a i v) a.

Record labels := {
  vert_labels : list Z;
  edge_labels : list Z;
  face_labels : list Z
}.

Section Labels.

Variable ET : ElementTypes.
Variable conn : Conn.

(** [if (verts[i] < nverts) vert_labels[verts[i]] = i;] for the template
    argument [IdxType = index_t]: the entries of [verts] are unsigned.  A
    negative entry of a signed [IdxType] is converted to a large unsigned
    value by the comparison in the source and is skipped there; the
    comparison in [Z] below does not represent it, and the results that
    depend on which vertices are labelled take the entries to be
    non-negative. *)
Definition label_vert (verts : list Z) (i : Z) (l : labels) : labels :=
  if Arr.get verts i <? nverts conn then
    {| vert_labels := Arr.set (vert_labels l) (Arr.get verts i) i;
       edge_labels := edge_labels l; face_labels := face_labels l |}
  else l.

Definition label_marked_edge (elem : Z) (elem_edges : out_ptr) (e : Z) (l : labels)
  : labels :=
  let v := get_element_edge_verts ET conn elem e (uninit 2) in
  if negb (Arr.get (vert_labels l) (Arr.get v 0) =? NO_LABEL)
     && negb (Arr.get (vert_labels l) (Arr.get v 1) =? NO_LABEL)
  then
    {| vert_labels := vert_labels l;
       edge_labels :=
         Arr.set (edge_labels l) (load_out conn elem_edges e)
           (load_out conn elem_edges e);
       face_labels := face_labels l |}
  else l.

Definition mark_face (elem_faces : out_ptr) (f : Z) (l : labels) : labels :=
  {| vert_labels := vert_labels l; edge_labels := edge_labels l;
     face_labels :=
       Arr.set (face_labels l) (load_out conn elem_faces f)
         (load_out conn elem_faces f) |}.

Definition label_marked_face (elem : Z) (elem_faces : out_ptr) (f : Z) (l : labels)
  : labels :=
  let '(nfv, fv) := get_element_face_verts ET conn elem f (uninit 4) in
  if nfv =? 3 then
    if negb (Arr.get (vert_labels l) (Arr.get fv 0) =? NO_LABEL)
       && negb (Arr.get (vert_labels l) (Arr.get fv 1) =? NO_LABEL)
       && negb (Arr.get (vert_labels l) (Arr.get fv 2) =? NO_LABEL)
    then mark_face elem_faces f l else l
  else if nfv =? 4 then
    if negb (Arr.get (vert_labels l) (Arr.get fv 0) =? NO_LABEL)
       && negb (Arr.get (vert_labels l) (Arr.get fv 1) =? NO_LABEL)
       && negb (Arr.get (vert_labels l) (Arr.get fv 2) =? NO_LABEL)
       && negb (Arr.get (vert_labels l) (Arr.get fv 3) =? NO_LABEL)
    then mark_face elem_faces f l else l
  else l.

Definition label_element (elem : Z) (l : labels) : labels :=
  let '(ne, elem_edges) := get_element_edges ET conn elem None in
  let l := for_range 0 ne (label_marked_edge elem elem_edges) l in
  let '(nf, elem_faces) := get_element_faces ET conn elem None in
  for_range 0 nf (label_marked_face elem elem_faces) l.

(** [get_labels_from_verts(nv, verts, vert_labels, edge_labels, face_labels)] *)
Definition get_labels_from_verts (nv : Z) (verts : list Z) (l : labels) : labels :=
  let l :=
    {| vert_labels := fill_prefix (vert_labels l) (nverts conn) NO_LABEL;
       edge_labels := fill_prefix (edge_labels l) (nedges conn) NO_LABEL;
       face_labels := fill_prefix (face_labels l) (nfaces conn) NO_LABEL |} in
  let l := for_range 0 nv (label_vert verts) l in
  for_range 0 (nelems conn) label_element l.

End Labels.

(** The state of a [BoundaryCondition<Basis>] object *)
Record BoundaryCondition := {
  bc_ndof : Z;
  bc_dof : list Z
}.

(** [get_bcs(bcs)]: the count and the array *)
Definition get_bcs (bc : BoundaryCondition) : Z * list Z := (bc_ndof bc, bc_dof bc).

Section Collect.

Variable ET : ElementTypes.
Variable B : Basis.
Variable conn : Conn.
Variable mesh : DofMesh.ElementMesh.
Variable basis_select : list Z.

Record collect := {
  marks : labels;
  boundary_dof : list Z;
  boundary_dof_counter : Z
}.

(** The loops over the bases and over the degrees of freedom of one
    entity: append them to [boundary_dof]. *)
Definition collect_entity (entity : ElementEntity) (elem index : Z)
  (acc : list Z * list Z * Z) : list Z * list Z * Z :=
  for_range 0 (nbasis B)
    (fun basis acc =>
       if negb (Arr.get basis_select basis =? 0) then
         let '(dof, boundary_dof, counter) := acc in
         let n := get_entity_ndof B basis entity index in
         let dof :=
           get_entity_dof B basis entity index (DofMesh.element_dof mesh)
             (ndof B *w elem) dof in
         for_range 0 n
           (fun k acc =>
              let '(dof, boundary_dof, counter) := acc in
              (dof, Arr.set boundary_dof counter (Arr.get dof k), counter +w 1))
           (dof, boundary_dof, counter)
       else acc) acc.

Definition scan_face (elem : Z) (elem_faces : out_ptr) (f : Z)
  (acc : list Z * collect) : list Z * collect :=
  let '(dof, st) := acc in
  let face := load_out conn elem_faces f in
  if negb (Arr.get (face_labels (marks st)) face =? NO_LABEL) then
    let '(dof, bd, counter) :=
      collect_entity FACE elem f (dof, boundary_dof st, boundary_dof_counter st) in
    (dof,
     {| marks :=
          {| vert_labels := vert_labels (marks st);
             edge_labels := edge_labels (marks st);
             face_labels := Arr.set (face_labels (marks st)) face NO_LABEL |};
        boundary_dof := bd; boundary_dof_counter := counter |})
  else acc.

Definition scan_edge (elem : Z) (elem_edges : out_ptr) (e : Z)
  (acc : list Z * collect) : list Z * collect :=
  let '(dof, st) := acc in
  let edge := load_out conn elem_edges e in
  if negb (Arr.get (edge_labels (marks st)) edge =? NO_LABEL) then
    let '(dof, bd, counter) :=
      collect_entity EDGE elem e (dof, boundary_dof st, boundary_dof_counter st) in
    (dof,
     {| marks :=
          {| vert_labels := vert_labels (marks st);
             edge_labels := Arr.set (edge_labels (marks st)) edge NO_LABEL;
             face_labels := face_labels (marks st) |};
        boundary_dof := bd; boundary_dof_counter := counter |})
  else acc.

Definition scan_vert (elem : Z) (elem_verts : out_ptr) (v : Z)
  (acc : list Z * collect) : list Z * collect :=
  let '(dof, st) := acc in
  let vert := load_out conn elem_verts v in
  if negb (Arr.get (vert_labels (marks st)) vert =? NO_LABEL) then
    let '(dof, bd, counter) :=
      collect_entity VERTEX elem v (dof, boundary_dof st, boundary_dof_counter st) in
    (dof,
     {| marks :=
          {| vert_labels := Arr.set (vert_labels (marks st)) vert NO_LABEL;
             edge_labels := edge_labels (marks st);
             face_labels := face_labels (marks st) |};
        boundary_dof := bd; boundary_dof_counter := counter |})
  else acc.

(** The body of the loop over the elements.  The edge scan takes its count
    and its array from [get_element_faces], as the source does. *)
Definition scan_element (elem : Z) (st : collect) : collect :=
  let dof := uninit (ndof B) in
  let '(nf, elem_faces) := get_element_faces ET conn elem None in
  let '(dof, st) := for_range 0 nf (scan_face elem elem_faces) (dof, st) in
  let '(ne, elem_edges) := get_element_faces ET conn elem None in
  let '(dof, st) := for_range 0 ne (scan_edge elem elem_edges) (dof, st) in
  let '(nv, elem_verts) := get_element_verts ET conn elem None in
  snd (for_range 0 nv (scan_vert elem elem_verts) (dof, st)).

(** [BoundaryCondition(conn, mesh, basis_select, nv, verts)] *)
Definition BoundaryCondition_of (nv : Z) (verts : list Z) : BoundaryCondition :=
  let l :=
    get_labels_from_verts ET conn nv verts
      {| vert_labels := uninit (nverts conn);
         edge_labels := uninit (nedges conn);
         face_labels := uninit (nfaces conn) |} in
  let st :=
    for_range 0 (nelems conn) scan_element
      {| marks := l;
         boundary_dof := uninit (DofMesh.get_num_dof mesh);
         boundary_dof_counter := 0 |} in
  {| bc_ndof := boundary_dof_counter st;
     bc_dof := copy_array (boundary_dof_counter st) (boundary_dof st) |}.

End Collect.

End Boundary.


(** * Examples: the theorems at concrete meshes *)

(** The catalog of the linear elements: the counts and local tables of a
    tetrahedron, a hexahedron, a wedge and a pyramid *)
Definition sample_catalog : ElementTypes := {|
  TET_VERTS := 4; TET_EDGES := 6; TET_FACES := 4;
  HEX_VERTS := 8; HEX_EDGES := 12; HEX_FACES := 6;
  WEDGE_VERTS := 6; WEDGE_EDGES := 9; WEDGE_FACES := 5; WEDGE_TRI_FACES := 2;
  PYRMD_VERTS := 5; PYRMD_EDGES := 8; PYRMD_FACES := 5; PYRMD_TRI_FACES := 4;
  TET_EDGE_VERTS := [[0;1];[1;2];[2;0];[0;3];[1;3];[2;3]];
  HEX_EDGE_VERTS := [[0;1];[3;2];[4;5];[7;6];[0;3];[1;2];[4;7];[5;6];
                     [0;4];[1;5];[3;7];[2;6]];
  WEDGE_EDGE_VERTS := [[0;1];[1;2];[2;0];[3;4];[4;5];[5;3];[0;3];[1;4];[2;5]];
  PYRMD_EDGE_VERTS := [[0;1];[1;2];[2;3];[3;0];[0;4];[1;4];[2;4];[3;4]];
  TET_FACE_VERTS := [[1;2;3];[0;3;2];[0;1;3];[0;2;1]];
  HEX_FACE_VERTS := [[0;4;7;3];[1;2;6;5];[0;1;5;4];[3;7;6;2];[0;3;2;1];[4;5;6;7]];
  WEDGE_TRI_FACE_VERTS := [[0;1;2];[3;4;5]];
  WEDGE_QUAD_FACE_VERTS := [[0;3;4;1];[1;4;5;2];[0;2;5;3]];
  PYRMD_TRI_FACE_VERTS := [[0;1;4];[1;2;4];[2;3;4];[0;4;3]];
  PYRMD_QUAD_FACE_VERTS := [0;3;2;1];
  get_quad_face_orientation := fun _ _ => 0
|}.

(** One tetrahedron *)
Abbreviation one_tet :=
  (MeshConnectivity3D sample_catalog 4 1 [0;1;2;3] 0 [] 0 [] 0 []).

(** Two tetrahedra that share the face of the vertices 1, 2 and 3 *)
Abbreviation two_tets :=
  (MeshConnectivity3D sample_catalog 5 2 [0;1;2;3; 1;2;3;4] 0 [] 0 [] 0 []).

Lemma forall_below (P : Z -> Prop) (l : list Z) (n : Z) :
  l = zrange 0 (Z.to_nat n) -> Forall P l -> forall x, 0 <= x < n -> P x.
Proof.
  intros -> H x Hx. rewrite Forall_forall in H. apply H, in_zrange. lia.
Qed.

(** Case analysis on [x] from [H : 0 <= x < n] for a numeral [n] *)
Ltac by_cases x H :=
  match type of H with
  | 0 <= x < ?n =>
      let l := eval vm_compute in (zrange 0 (Z.to_nat n)) in
      pattern x; apply (forall_below _ l n);
      [ vm_compute; reflexivity
      | repeat first [apply Forall_nil | apply Forall_cons]; cbv beta
      | exact H ]
  end.

(** A comparison of numerals *)
Ltac refute := let X := fresh in intros X; discriminate X.

Ltac numerals :=
  vm_compute;
  first [ reflexivity | refute
        | split; [refute | reflexivity]
        | split; refute ].

Lemma sample_face_sizes n : 0 <= n <= 1000 -> face_sizes_ok sample_catalog n 0 0 0.
Proof.
  intros Hn. unfold face_sizes_ok. simpl TET_FACES; simpl HEX_FACES;
    simpl WEDGE_FACES; simpl PYRMD_FACES.
  unfold Index.max. rewrite Index.modulus_eq. lia.
Qed.

(** C10 at the two tetrahedra: element 2 is out of range. *)
Lemma element_query_out_of_range_witness :
  counts_ok two_tets /\ nelems two_tets <= 2 /\
  get_element_verts sample_catalog two_tets 2 None = (0, None).
Proof.
  assert (H1 : counts_ok two_tets).
  { unfold counts_ok. repeat split; numerals. }
  assert (H2 : nelems two_tets
               = ntets two_tets + nhex two_tets + nwedge two_tets + npyrmd two_tets).
  { numerals. }
  assert (H3 : nelems two_tets <= 2) by numerals.
  split; [exact H1|]. split; [exact H3|].
  exact (proj1 (@element_query_out_of_range sample_catalog two_tets 2 None H1 H2 H3)).
Defined.

(** C6 at the two tetrahedra *)
Lemma face_index_partition_witness :
  face_sizes_ok sample_catalog 2 0 0 0 /\
  nfaces two_tets = ntri_faces two_tets + nquad_faces two_tets.
Proof.
  assert (H : face_sizes_ok sample_catalog 2 0 0 0) by (apply sample_face_sizes; lia).
  split; [exact H|].
  exact (proj1 (face_index_partition sample_catalog 5 2 0 0 0
                  [0;1;2;3; 1;2;3;4] [] [] [] H)).
Defined.

(** ** Edge numbers *)

Lemma sample_edge_tables : edge_tables_ok sample_catalog.
Proof.
  unfold edge_tables_ok. simpl.
  split; [|split; [|split]]; intros a k Ha Hk;
    by_cases k Hk; by_cases a Ha; (vm_compute; split; [refute|reflexivity]).
Qed.

Lemma two_tets_ok :
  edge_mesh_ok sample_catalog 5 2 [0;1;2;3; 1;2;3;4] 0 [] 0 [] 0 [].
Proof.
  unfold edge_mesh_ok.
  split. { apply sample_face_sizes. lia. }
  split. { numerals. }
  split. { unfold verts_ok, blocks_ok, counts_ok. simpl.
           repeat split; try lia; try discriminate; numerals. }
  split. { unfold edges_ok, blocks_ok, counts_ok. simpl.
           repeat split; try lia; try discriminate; numerals. }
  split. { numerals. }
  split. { exact sample_edge_tables. }
  split. { numerals. }
  split.
  { intros e i He. change (0 <= e < 2) in He. revert i.
    by_cases e He; intros i Hi; change (0 <= i < 4) in Hi;
      by_cases i Hi; (vm_compute; split; [refute|reflexivity]). }
  { intros e a b (He & Ha) (_ & Hb). change (0 <= e < 2) in He.
    revert a b Ha Hb.
    by_cases e He; intros a b Ha Hb;
      change (0 <= a < 6) in Ha; change (0 <= b < 6) in Hb;
      by_cases a Ha; by_cases b Hb; intros S;
      first [reflexivity | vm_compute in S; discriminate S]. }
Qed.

(** C5 at the two tetrahedra: edge 1 of the first and edge 0 of the second
    join the vertices 1 and 2. *)
Lemma edge_numbers_identify_edges_witness :
  edge_mesh_ok sample_catalog 5 2 [0;1;2;3; 1;2;3;4] 0 [] 0 [] 0 [] /\
  edge_label sample_catalog two_tets 0 1 = edge_label sample_catalog two_tets 1 0.
Proof.
  assert (Ha : edge_valid sample_catalog two_tets 0 1) by (split; numerals).
  assert (Hb : edge_valid sample_catalog two_tets 1 0) by (split; numerals).
  split; [exact two_tets_ok|].
  apply (edge_numbers_identify_edges sample_catalog 5 2 [0;1;2;3; 1;2;3;4]
           0 [] 0 [] 0 [] two_tets_ok 0 1 1 0 Ha Hb).
  left. split; vm_compute; reflexivity.
Defined.

(** ** Projection *)

(** A quadratic line element and its two linear halves *)
Definition line_mesh : DofMesh.ElementMesh :=
  {| DofMesh.nelems := 2; DofMesh.num_dof := 5;
     DofMesh.element_dof := [0;1;2; 2;3;4];
     DofMesh.element_sign := [1;1;1; 1;-1;1] |}.

Definition halves : DofMesh.ElemProj :=
  {| DofMesh.get_num_projection_elements := 2;
     DofMesh.get_projection_index :=
       fun i index => Arr.set (Arr.set index 0 i) 1 (i + 1);
     DofMesh.get_projection_signs :=
       fun i signs => Arr.set (Arr.set signs 0 1) 1 1 |}.

(** C7 at the line mesh *)
Lemma projected_mesh_inherits_dof_witness :
  DofMesh.projection_sizes_ok 2 3 line_mesh halves /\
  DofMesh.num_dof (DofMesh.project_mesh 2 3 line_mesh halves) = 5.
Proof.
  assert (H : DofMesh.projection_sizes_ok 2 3 line_mesh halves).
  { unfold DofMesh.projection_sizes_ok. simpl.
    unfold Index.max. rewrite Index.modulus_eq. lia. }
  split; [exact H|].
  exact (proj1 (DofMesh.projected_mesh_inherits_dof 2 3 line_mesh halves H)).
Defined.

(** ** Block patterns *)

(** Two elements of four degrees of freedom each that share two of them *)
Definition mesh_two_quads : DofMesh.ElementMesh :=
  {| DofMesh.nelems := 2; DofMesh.num_dof := 7;
     DofMesh.element_dof := [0;1;2;3; 2;3;5;6];
     DofMesh.element_sign := [1;1;1;1;1;1;1;1] |}.

(** C8 at the two elements, with blocks of size 2 *)
Lemma create_block_matrix_pattern_witness :
  Pattern.block_sizes_ok 4 2 mesh_two_quads /\
  Bsr.nbrows (Pattern.create_block_matrix 4 2 mesh_two_quads) = (7 + 2 - 1) / 2.
Proof.
  assert (H : Pattern.block_sizes_ok 4 2 mesh_two_quads).
  { unfold Pattern.block_sizes_ok.
    cbn [DofMesh.nelems DofMesh.num_dof DofMesh.element_dof mesh_two_quads].
    split; [lia|]. split; [numerals|]. split; [lia|].
    split; [numerals|]. split; [numerals|].
    split; [|numerals].
    intros k Hk. change (0 <= k < 8) in Hk.
    by_cases k Hk; (vm_compute; split; [refute|reflexivity]). }
  split; [exact H|].
  exact (proj1 (Pattern.create_block_matrix_pattern 4 2 mesh_two_quads H)).
Defined.

(** C9 at the pattern of the two elements: the block (1, 3) is found at
    a position that holds column 3. *)
Lemma find_value_index_spec_witness :
  0 <= 1 < Bsr.nbrows (Pattern.create_block_matrix 4 2 mesh_two_quads) /\
  Arr.get (Bsr.cols (Pattern.create_block_matrix 4 2 mesh_two_quads))
    (Bsr.find_value_index (Pattern.create_block_matrix 4 2 mesh_two_quads) 1 3) = 3.
Proof.
  assert (H1 : 0 <= 1 < Bsr.nbrows (Pattern.create_block_matrix 4 2 mesh_two_quads))
    by numerals.
  assert (H2 : Bsr.nbrows (Pattern.create_block_matrix 4 2 mesh_two_quads)
               <= Index.max) by numerals.
  assert (H3 : 0 <= Arr.get (Bsr.rowp (Pattern.create_block_matrix 4 2 mesh_two_quads)) 1)
    by numerals.
  assert (H4 : Arr.get (Bsr.rowp (Pattern.create_block_matrix 4 2 mesh_two_quads)) (1 + 1)
               <= Index.max) by numerals.
  split; [exact H1|].
  apply (proj2 (Bsr.find_value_index_spec
                  (Pattern.create_block_matrix 4 2 mesh_two_quads) 1 3 H1 H2 H3 H4)).
  numerals.
Defined.

(** ** Boundary conditions *)

Import Numbering.

(** A quadratic tetrahedron: one degree of freedom per vertex (local
    positions 0 to 3) and one per edge (positions 4 to 9) *)
Definition entity_position (entity : ElementEntity) (index : Z) : option Z :=
  match entity with
  | VERTEX => Some index
  | EDGE => Some (4 + index)
  | _ => None
  end.

Definition quadratic_tet : Basis := {|
  nbasis := 1;
  ndof := 10;
  get_entity_ndof := fun _ entity _ =>
    match entity_position entity 0 with Some _ => 1 | None => 0 end;
  get_entity_dof := fun _ entity index arr off dof =>
    match entity_position entity index with
    | Some p => Arr.set dof 0 (Arr.get arr (off + p))
    | None => dof
    end;
  set_entity_dof := fun _ entity index _ dof arr off =>
    match entity_position entity index with
    | Some p => Arr.set arr (off + p) (Arr.get dof 0)
    | None => arr
    end;
  set_entity_signs := fun _ entity index _ arr off =>
    match entity_position entity index with
    | Some p => Arr.set arr (off + p) 1
    | None => arr
    end
|}.

Definition one_tet_mesh : DofMesh.ElementMesh :=
  ElementMesh_of_conn sample_catalog quadratic_tet one_tet.

(** C3.  One quadratic tetrahedron with its four vertices marked: its six
    edges are marked and carry the degrees of freedom 0 to 5, and the
    constructor of [BoundaryCondition] collects those of the local edges 0
    to 3 only, next to the four of the vertices; the degrees of freedom 4
    and 5 of the marked edges 4 and 5 are not in its list. *)
Theorem boundary_condition_misses_edges :
  DofMesh.element_dof one_tet_mesh = [6; 7; 8; 9; 0; 1; 2; 3; 4; 5] /\
  Boundary.edge_labels
    (Boundary.get_labels_from_verts sample_catalog one_tet 4 [0; 1; 2; 3]
       {| Boundary.vert_labels := uninit 4; Boundary.edge_labels := uninit 6;
          Boundary.face_labels := uninit 4 |})
  = [0; 1; 2; 3; 4; 5] /\
  Boundary.get_bcs
    (Boundary.BoundaryCondition_of sample_catalog quadratic_tet one_tet
       one_tet_mesh [1] 4 [0; 1; 2; 3])
  = (8, [0; 1; 2; 3; 6; 7; 8; 9]) /\
  ~ In 4 (Boundary.bc_dof
            (Boundary.BoundaryCondition_of sample_catalog quadratic_tet one_tet
               one_tet_mesh [1] 4 [0; 1; 2; 3])) /\
  ~ In 5 (Boundary.bc_dof
            (Boundary.BoundaryCondition_of sample_catalog quadratic_tet one_tet
               one_tet_mesh [1] 4 [0; 1; 2; 3])).
Proof.
  assert (E : Boundary.bc_dof
            (Boundary.BoundaryCondition_of sample_catalog quadratic_tet one_tet
               one_tet_mesh [1] 4 [0; 1; 2; 3]) = [0; 1; 2; 3; 6; 7; 8; 9])
    by (vm_compute; reflexivity).
  split; [vm_compute; reflexivity|]. split; [vm_compute; reflexivity|].
  split; [vm_compute; reflexivity|].
  rewrite E. split; intros H; simpl in H;
    repeat (destruct H as [H|H]; [discriminate H|]); exact H.
Qed.


(** * Further properties of the connectivity *)

(** ** The canonical vertex tuple of a face *)

(** The eight ways to list the ring [a, b, d, e] of a quadrilateral: its
    rotations and their reversals *)
Definition quad_rings (a b d e : Z) : list (list Z) :=
  [[a; b; d; e]; [b; d; e; a]; [d; e; a; b]; [e; a; b; d];
   [a; e; d; b]; [e; d; b; a]; [d; b; a; e]; [b; a; e; d]].

Lemma nodup3 (a b d : Z) : NoDup [a; b; d] -> a <> b /\ a <> d /\ b <> d.
Proof.
  intros H. inversion H as [|? ? N1 K1]; inversion K1 as [|? ? N2 K2];
    subst; simpl in *; intuition.
Qed.

Lemma nodup4 (a b d e : Z) :
  NoDup [a; b; d; e] -> a <> b /\ a <> d /\ a <> e /\ b <> d /\ b <> e /\ d <> e.
Proof.
  intros H. inversion H as [|? ? N1 K1]; inversion K1 as [|? ? N2 K2];
    inversion K2 as [|? ? N3 K3]; subst; simpl in *; intuition.
Qed.

Lemma perm3 (x y z : Z) (l : list Z) :
  In l [[x; y; z]; [x; z; y]; [y; x; z]; [y; z; x]; [z; x; y]; [z; y; x]] ->
  Permutation l [x; y; z].
Proof.
  simpl. intros [<-|[<-|[<-|[<-|[<-|[<-|[]]]]]]].
  - apply Permutation_refl.
  - apply perm_skip, perm_swap.
  - apply perm_swap.
  - apply (Permutation_trans (perm_skip y (perm_swap x z []))), perm_swap.
  - apply (Permutation_trans (perm_swap x z [y])), perm_skip, perm_swap.
  - apply (Permutation_trans (perm_skip z (perm_swap x y []))).
    apply (Permutation_trans (perm_swap x z [y])), perm_skip, perm_swap.
Qed.

Ltac face_cases :=
  unfold sort_face_verts;
  repeat match goal with
         | |- context [Arr.get (?p :: ?l) ?k] =>
             let y := eval cbv in (Arr.get (p :: l) k) in
             change (Arr.get (p :: l) k) with y
         end;
  repeat match goal with
         | |- context [?x =? ?y] =>
             let y' := eval cbv in (x =? y) in change (x =? y) with y'
         end;
  cbv iota;
  repeat match goal with
         | |- context [?x <? ?y] =>
             destruct (Z.ltb_spec x y); cbn [andb fst snd]; try lia
         end.

(** X1.  The tuple that [get_element_global_face_verts] forms from three
    distinct vertices is their ascending listing, whatever the fourth entry
    of the local array holds. *)
Theorem canonical_triangle_sorted (a b d x : Z) (v : list Z) :
  NoDup [a; b; d] -> (3 <= length v)%nat ->
  fst (sort_face_verts 3 [a; b; d; x] v) = 3 /\
  exists lo mid hi,
    firstn 3 (snd (sort_face_verts 3 [a; b; d; x] v)) = [lo; mid; hi] /\
    lo < mid < hi /\ Permutation [lo; mid; hi] [a; b; d].
Proof.
  intros H Hv. apply nodup3 in H.
  face_cases; (split; [reflexivity|]); rewrite firstn_put3 by exact Hv;
    eexists _, _, _; (split; [reflexivity|]); (split; [lia|]);
    apply perm3; simpl; auto 10.
Qed.

Lemma canonical_triangle_sorted_witness :
  NoDup [7; 2; 5] /\ fst (sort_face_verts 3 [7; 2; 5; 0] (uninit 4)) = 3.
Proof.
  assert (H : NoDup [7; 2; 5]).
  { repeat constructor; simpl; intros K;
      repeat (destruct K as [K|K]; [discriminate K|]); exact K. }
  assert (L : (3 <= length (uninit 4))%nat) by (simpl; lia).
  split; [exact H|].
  exact (proj1 (canonical_triangle_sorted 7 2 5 0 (uninit 4) H L)).
Defined.

(** X2.  From four distinct vertices the tuple starts at the smallest one,
    continues with the smaller of its two neighbours and keeps the ring; it
    is the same for every rotation and reversal of the ring. *)
Theorem canonical_quad_ring (a b d e : Z) (v : list Z) :
  NoDup [a; b; d; e] -> (4 <= length v)%nat ->
  fst (sort_face_verts 4 [a; b; d; e] v) = 4 /\
  (exists p q r s,
     firstn 4 (snd (sort_face_verts 4 [a; b; d; e] v)) = [p; q; r; s] /\
     p < q /\ p < r /\ p < s /\ q < s /\ In [p; q; r; s] (quad_rings a b d e)) /\
  forall l, In l (quad_rings a b d e) ->
    sort_face_verts 4 l v = sort_face_verts 4 [a; b; d; e] v.
Proof.
  intros H Hv. apply nodup4 in H. split; [|split].
  - face_cases; reflexivity.
  - face_cases; rewrite firstn_put4 by exact Hv;
      eexists _, _, _, _; (split; [reflexivity|]);
      (repeat (split; [lia|])); simpl; auto 12.
  - intros l Hl. simpl in Hl.
    destruct Hl as [<-|[<-|[<-|[<-|[<-|[<-|[<-|[<-|[]]]]]]]]];
      face_cases; reflexivity.
Qed.

Lemma canonical_quad_ring_witness :
  NoDup [7; 2; 5; 3] /\ fst (sort_face_verts 4 [7; 2; 5; 3] (uninit 4)) = 4.
Proof.
  assert (H : NoDup [7; 2; 5; 3]).
  { repeat constructor; simpl; intros K;
      repeat (destruct K as [K|K]; [discriminate K|]); exact K. }
  assert (L : (4 <= length (uninit 4))%nat) by (simpl; lia).
  split; [exact H|].
  exact (proj1 (canonical_quad_ring 7 2 5 3 (uninit 4) H L)).
Defined.


(** ** The adjacency lists hold exactly the incident elements *)

Section AdjacencyExact.

Variable ET : ElementTypes.
Variable c : Conn.
Hypothesis Hnv : 0 <= nverts c < Index.max.
Hypothesis Hvalid : valid_vertices ET c.
Hypothesis Hlen : Z.of_nat (length (vert_items ET c)) <= Index.max.

Lemma adjacency_rows v :
  0 <= v < nverts c ->
  get_adjacent_elements_from_vert (init_vert_element_data ET c) v None
  = (Csr.count_eq v (vert_items ET c),
     at_ vert_elements_ (Csr.count_lt v (vert_items ET c))) /\
  forall r, 0 <= r < Csr.count_eq v (vert_items ET c) ->
    load_out (init_vert_element_data ET c)
      (at_ vert_elements_ (Csr.count_lt v (vert_items ET c))) r
    = nth (Z.to_nat r) (Csr.bucket v (vert_items ET c)) 0.
Proof.
  intros Hv.
  pose proof (init_vert_element_data_build ET c) as (F & Ep & Ee).
  pose proof (Csr.compressed_build (nverts c) (vert_items ET c) Hnv
                (vert_items_keys ET c Hvalid) Hlen) as C.
  pose proof C as (_ & _ & G & Gc).
  destruct (frame_adjacency_same F) as (_ & _ & Env & _).
  remember (init_vert_element_data ET c) as ca eqn:Hca.
  unfold get_adjacent_elements_from_vert. rewrite Env.
  destruct (Z.ltb_spec v (nverts c)) as [_|]; [|lia].
  assert (W : v +w 1 = v + 1) by (apply Index.add_small, ok_of_bounds; lia).
  rewrite W, Ep, (G v), (G (v + 1)) by lia.
  rewrite Csr.count_lt_succ.
  pose proof (Csr.count_lt_nonneg v (vert_items ET c)).
  pose proof (Csr.count_eq_nonneg v (vert_items ET c)).
  pose proof (Csr.count_lt_le_length (vert_items ET c) (v + 1) (vert_items ET c)) as B.
  rewrite Csr.count_lt_succ in B.
  rewrite Index.sub_small by (apply ok_of_bounds; lia).
  split; [f_equal; lia|].
  intros r Hr. unfold load_out, at_, load. simpl p_arr; simpl p_off.
  fold (vert_elements ca). rewrite Ee. apply Gc; lia.
Qed.

End AdjacencyExact.

Section BucketOrder.

Variable ET : ElementTypes.
Variable c : Conn.

Lemma bucket_elem_items v e x :
  In x (Csr.bucket v (elem_items ET c e)) -> x = e.
Proof.
  unfold Csr.bucket, elem_items. intros H.
  apply in_map_iff in H. destruct H as ([a b] & <- & H).
  apply filter_In in H. destruct H as (H & _).
  apply in_map_iff in H. destruct H as (i & E & _).
  injection E as _ <-. reflexivity.
Qed.

Lemma bucket_items_sorted v n : forall lo,
  StronglySorted Z.le (Csr.bucket v (flat_map (elem_items ET c) (zrange lo n))) /\
  Forall (fun x => lo <= x) (Csr.bucket v (flat_map (elem_items ET c) (zrange lo n))).
Proof.
  induction n as [|n IH]; intros lo; simpl.
  - split; constructor.
  - rewrite Csr.bucket_app. destruct (IH (lo + 1)) as (S & F).
    assert (A : forall x, In x (Csr.bucket v (elem_items ET c lo)) -> x = lo).
    { intros x. apply bucket_elem_items. }
    split.
    + induction (Csr.bucket v (elem_items ET c lo)) as [|y l IHl]; simpl; auto.
      constructor.
      * apply IHl. intros x Hx. apply A. now right.
      * rewrite (A y (or_introl eq_refl)). apply Forall_app. split.
        -- apply Forall_forall. intros x Hx. rewrite (A x (or_intror Hx)). lia.
        -- eapply Forall_impl; [|exact F]. simpl. intros x Hx. lia.
    + apply Forall_app. split.
      * apply Forall_forall. intros x Hx. rewrite (A x Hx). lia.
      * eapply Forall_impl; [|exact F]. simpl. intros x Hx. lia.
Qed.

Lemma sorted_le_nth (l : list Z) :
  StronglySorted Z.le l ->
  forall a b, (a <= b < length l)%nat -> nth a l 0 <= nth b l 0.
Proof.
  induction 1 as [|x t Ht IH Hx]; intros a b Hab; simpl in *; [lia|].
  destruct b as [|b]; destruct a as [|a]; try lia.
  - rewrite Forall_forall in Hx. apply Hx, nth_In. lia.
  - apply IH. lia.
Qed.

End BucketOrder.

(** X3.  After [init_vert_element_data], the list that
    [get_adjacent_elements_from_vert] returns for a vertex [v] holds
    exactly the elements that have [v] among their vertices, once per
    occurrence and in increasing order of the elements. *)
Theorem adjacency_lists_incident_elements (ET : ElementTypes) (c : Conn) (v : Z) :
  0 <= nverts c < Index.max -> valid_vertices ET c ->
  Z.of_nat (length (vert_items ET c)) <= Index.max ->
  0 <= v < nverts c ->
  (forall e,
     (exists k,
        0 <= k < fst (get_adjacent_elements_from_vert
                        (init_vert_element_data ET c) v None) /\
        load_out (init_vert_element_data ET c)
          (snd (get_adjacent_elements_from_vert
                  (init_vert_element_data ET c) v None)) k = e)
     <-> (0 <= e < nelems c /\
          exists i, 0 <= i < elem_nverts ET c e /\ elem_vert ET c e i = v)) /\
  fst (get_adjacent_elements_from_vert (init_vert_element_data ET c) v None)
  = Z.of_nat (length (filter (fun it => fst it =? v) (vert_items ET c))) /\
  forall k k',
    0 <= k -> k <= k' ->
    k' < fst (get_adjacent_elements_from_vert
                (init_vert_element_data ET c) v None) ->
    load_out (init_vert_element_data ET c)
      (snd (get_adjacent_elements_from_vert
              (init_vert_element_data ET c) v None)) k
    <= load_out (init_vert_element_data ET c)
         (snd (get_adjacent_elements_from_vert
                 (init_vert_element_data ET c) v None)) k'.
Proof.
  intros Hnv Hvalid Hlen Hv.
  destruct (adjacency_rows ET c Hnv Hvalid Hlen v Hv) as (E & R).
  rewrite E. simpl fst; simpl snd.
  pose proof (Csr.length_bucket v (vert_items ET c)) as Hlb.
  split; [|split].
  - intros e.
    assert (Hb : In e (Csr.bucket v (vert_items ET c)) <->
                 (0 <= e < nelems c /\
                  exists i, 0 <= i < elem_nverts ET c e /\ elem_vert ET c e i = v)).
    { rewrite Csr.in_bucket, in_vert_items.
      split; intros (A & i & Hi & Ei); (split; [exact A|]); exists i; split; auto. }
    rewrite <- Hb. split.
    + intros (k & Hk & <-). rewrite (R k Hk). apply nth_In. lia.
    + intros Hin. destruct (In_nth _ _ 0 Hin) as (r & Hr & Er).
      exists (Z.of_nat r). split; [lia|].
      rewrite R by lia. now rewrite Nat2Z.id.
  - reflexivity.
  - intros k k' Hk Hkk Hk'. rewrite !R by lia.
    apply sorted_le_nth; [|lia].
    apply (bucket_items_sorted ET c v _ 0).
Qed.

Lemma adjacency_lists_incident_elements_witness :
  valid_vertices sample_catalog
    (alloc_conn sample_catalog 5 2 [0;1;2;3; 1;2;3;4] 0 [] 0 [] 0 []) /\
  fst (get_adjacent_elements_from_vert
         (init_vert_element_data sample_catalog
            (alloc_conn sample_catalog 5 2 [0;1;2;3; 1;2;3;4] 0 [] 0 [] 0 []))
         1 None) = 2.
Proof.
  assert (H1 : 0 <= nverts (alloc_conn sample_catalog 5 2 [0;1;2;3; 1;2;3;4]
                              0 [] 0 [] 0 []) < Index.max) by numerals.
  assert (H2 : valid_vertices sample_catalog
                 (alloc_conn sample_catalog 5 2 [0;1;2;3; 1;2;3;4] 0 [] 0 [] 0 [])).
  { apply two_tets_ok. }
  assert (H3 : Z.of_nat (length (vert_items sample_catalog
                 (alloc_conn sample_catalog 5 2 [0;1;2;3; 1;2;3;4] 0 [] 0 [] 0 [])))
               <= Index.max) by numerals.
  assert (H4 : 0 <= 1 < nverts (alloc_conn sample_catalog 5 2 [0;1;2;3; 1;2;3;4]
                                  0 [] 0 [] 0 [])) by numerals.
  split; [exact H2|].
  rewrite (proj1 (proj2 (adjacency_lists_incident_elements sample_catalog _ 1
                           H1 H2 H3 H4))).
  numerals.
Defined.


(** ** The edge numbers leave no gap *)

Section EdgeCover.

Variable ET : ElementTypes.
Variable c0 : Conn.

Hypothesis Hok0 : edges_ok ET c0.
Hypothesis Htot : total_edges ET c0 < Index.max.
Hypothesis Hnn : adjacency_nonneg c0.
Hypothesis Hnd : edges_distinct ET c0.
Hypothesis Hadj : edges_adjacent ET c0.

(** Every number below [nedges] is the number of some edge. *)
Definition edge_cover (c : Conn) : Prop :=
  forall L, 0 <= L < nedges c ->
    exists e a, edge_valid ET c0 e a /\ edge_label ET c e a = L.

(** What one visit of [(elem, e0)] does *)
Lemma label_edge_cases elem e0 c :
  edge_valid ET c0 elem e0 -> edge_inv ET c0 elem e0 c ->
  (edge_label ET c elem e0 <> NO_LABEL /\
   label_edge ET elem (edge_ptr ET c0 elem) e0 c = c) \/
  (edge_label ET c elem e0 = NO_LABEL /\
   marking ET c0 elem e0 (nedges c) c
     (label_edge ET elem (edge_ptr ET c0 elem) e0 c)).
Proof.
  intros Hv0 I. pose proof I as [Im Ia Ic Ir Is Ii Id].
  pose proof (edges_ok_mesh ET c0 Hok0 c Im) as Hok.
  pose proof (edge_valid_mesh ET c0 c elem e0 Im Hv0) as Hvc.
  pose proof (edges_before_valid ET c0 Hok0 elem e0 Hv0) as Hpos.
  unfold label_edge.
  assert (Hld : load_out c (edge_ptr ET c0 elem) e0 = edge_label ET c elem e0).
  { unfold edge_label, entry. fold (edge_ptr ET c elem).
    now rewrite (edge_ptr_counts ET c0 c elem (same_mesh_counts Im)). }
  rewrite Hld.
  destruct (Z.eqb_spec (edge_label ET c elem e0) NO_LABEL) as [E|E].
  2:{ left. split; auto. }
  right. split; [exact E|].
  set (num := nedges c) in *.
  assert (W : num +w 1 = num + 1).
  { apply Index.add_small, ok_of_bounds. lia. }
  rewrite W.
  set (c1 := set_nedges c (num + 1)).
  assert (M1 : same_mesh c0 c1) by exact Im.
  rewrite (store_edge ET c0 c1 elem e0 num M1).
  set (c2 := set_edge_label ET c1 elem e0 num).
  assert (Hok1 : edges_ok ET c1) by exact Hok.
  assert (Hal1 : edges_allocated ET c1) by exact Ia.
  assert (Hv1 : edge_valid ET c1 elem e0) by exact Hvc.
  assert (M2 : same_mesh c0 c2).
  { apply same_mesh_trans with c1; auto. apply same_mesh_set_edge_label; auto. }
  assert (Hrd : forall e a, edge_valid ET c0 e a ->
            edge_label ET c2 e a
            = if Z.eq_dec e elem then if Z.eq_dec a e0 then num
                                      else edge_label ET c e a
              else edge_label ET c e a).
  { intros e a Hva. pose proof (edge_valid_mesh ET c0 c1 e a M1 Hva) as Hvac.
    unfold c2.
    destruct (Z.eq_dec e elem) as [->|N1].
    - destruct (Z.eq_dec a e0) as [->|N2].
      + apply edge_label_set_eq; auto.
      + rewrite edge_label_set_ne; auto. intros H. injection H. lia.
    - rewrite edge_label_set_ne; auto. intros H. injection H. lia. }
  assert (Mk : marking ET c0 elem e0 num c c2).
  { constructor; auto.
    - apply edges_allocated_set; auto.
    - unfold c2. rewrite nedges_set_edge_label; auto.
    - rewrite (Hrd elem e0 Hv0).
      destruct (Z.eq_dec elem elem); [|congruence].
      destruct (Z.eq_dec e0 e0); congruence.
    - intros e a Hva Hs. rewrite (Hrd e a Hva).
      destruct (Z.eq_dec e elem); [destruct (Z.eq_dec a e0)|]; auto;
        left; rewrite <- E; apply Is; auto.
    - intros e a Hva Hs. rewrite (Hrd e a Hva).
      destruct (Z.eq_dec e elem) as [->|]; [destruct (Z.eq_dec a e0) as [->|]|];
        auto. exfalso. apply Hs, same_edge_refl. }
  fold (edge_pair ET c2 elem e0).
  rewrite (edge_pair_mesh ET c0 c2 elem e0 M2).
  rewrite (adjacent_elements_mesh _ _ M2).
  destruct (mark_adjacent ET c0 Hok0 Hnn elem e0 num c c2
              (Arr.get (edge_pair ET c0 elem e0) 0) Hv0 Mk) as (M' & _).
  destruct (get_adjacent_elements_from_vert c0
              (Arr.get (edge_pair ET c0 elem e0) 0) None) as [nadj adj].
  exact M'.
Qed.

Lemma label_edge_cover elem e0 c :
  edge_valid ET c0 elem e0 -> edge_inv ET c0 elem e0 c -> edge_cover c ->
  edge_cover (label_edge ET elem (edge_ptr ET c0 elem) e0 c).
Proof.
  intros Hv0 I Hc.
  destruct (label_edge_cases elem e0 c Hv0 I) as [(_ & ->)|(E & M)]; auto.
  pose proof I as [Im Ia Ic Ir Is Ii Id].
  destruct M as [Mm Ma Mc Ms Mk Mo].
  pose proof (edges_before_valid ET c0 Hok0 elem e0 Hv0) as Hpos.
  intros L HL. rewrite Mc in HL.
  destruct (Z.eq_dec L (nedges c)) as [->|Hne].
  - exists elem, e0. split; auto.
  - destruct (Hc L ltac:(lia)) as (e & a & Hva & El).
    exists e, a. split; auto. rewrite Mo; auto.
    intros Hs. pose proof (Is e a elem e0 Hva Hv0 Hs) as Eq.
    rewrite El, E in Eq. unfold NO_LABEL in Eq. lia.
Qed.

Lemma label_element_edges_cover elem c :
  0 <= elem < total_elems c0 -> edge_inv ET c0 elem 0 c -> edge_cover c ->
  edge_cover (label_element_edges ET elem c).
Proof.
  intros He I Hc. pose proof I as [Im Ia Ic Ir Is Ii Id].
  unfold label_element_edges.
  assert (Hptr : snd (get_element_edges ET c elem None) = edge_ptr ET c0 elem).
  { rewrite get_element_edges_block. fold (edge_ptr ET c elem).
    apply (edge_ptr_counts ET c0 c elem (same_mesh_counts Im)). }
  assert (Hnum : fst (get_element_edges ET c elem None) = num_edges ET c0 elem).
  { fold (num_edges ET c elem).
    apply (num_edges_counts ET c0 c elem (same_mesh_counts Im)). }
  destruct (get_element_edges ET c elem None) as [ne p].
  simpl fst in Hnum; simpl snd in Hptr. subst ne p.
  pose proof (num_edges_nonneg ET c0 Hok0 elem) as Hnn0.
  apply (for_range_inv (fun j c' => edge_inv ET c0 elem j c' /\ edge_cover c'));
    auto.
  intros j c' Hj (I' & C').
  assert (Hvj : edge_valid ET c0 elem j).
  { split; [lia|]. unfold num_edges in Hj.
    rewrite get_element_edges_block in Hj. exact Hj. }
  split.
  - apply label_edge_spec; auto.
  - apply label_edge_cover; auto.
Qed.

Lemma label_all_edges_cover c :
  edge_inv ET c0 0 0 c -> edge_cover c ->
  edge_cover (for_range 0 (total_elems c0) (label_element_edges ET) c).
Proof.
  intros I Hc.
  apply (for_range_inv (fun j c' => edge_inv ET c0 j 0 c' /\ edge_cover c')); auto.
  - destruct Hok0 as ((C1 & C2 & C3 & C4 & C5) & _). unfold total_elems. lia.
  - intros j c' Hj (I' & C'). split.
    + apply label_element_edges_spec; auto.
    + apply label_element_edges_cover; auto.
Qed.

End EdgeCover.

Section MeshEdgeCover.

Variable ET : ElementTypes.
Variables nv nt nh nw np : Z.
Variables tets hex wedge pyrmd : list Z.
Hypothesis Hok : edge_mesh_ok ET nv nt tets nh hex nw wedge np pyrmd.

Variables a0 ca c0 c1 c2 m : Conn.
Hypothesis Ha0 : a0 = alloc_conn ET nv nt tets nh hex nw wedge np pyrmd.
Hypothesis Hca : ca = init_vert_element_data ET a0.
Hypothesis Hc0 : c0 = faces_start ET ca.
Hypothesis Hc1 : c1 = discover_faces ET ca.
Hypothesis Hc2 : c2 = record_faces ET c1.
Hypothesis Hm : m = init_edge_data ET c2.

Lemma me_cover :
  0 <= nedges m <= total_edges ET m /\
  forall L, 0 <= L < nedges m ->
    exists e a, edge_valid ET m e a /\ edge_label ET m e a = L.
Proof.
  pose proof (me_edges_ok ET nv nt nh nw np tets hex wedge pyrmd Hok
                a0 ca c0 c1 c2 Ha0 Hca Hc0 Hc1 Hc2) as Eok.
  pose proof (me_nelems ET nv nt nh nw np tets hex wedge pyrmd Hok
                a0 ca c0 c1 c2 Ha0 Hca Hc0 Hc1 Hc2) as En.
  pose proof (me_total ET nv nt nh nw np tets hex wedge pyrmd Hok
                a0 ca c0 c1 c2 Ha0 Hca Hc0 Hc1 Hc2) as Et.
  pose proof (me_nonneg ET nv nt nh nw np tets hex wedge pyrmd Hok
                a0 ca c0 c1 c2 Ha0 Hca Hc0 Hc1 Hc2) as Enn.
  pose proof (me_distinct ET nv nt nh nw np tets hex wedge pyrmd Hok
                a0 ca c0 c1 c2 Ha0 Hca Hc0 Hc1 Hc2) as Ed.
  pose proof (me_adjacent ET nv nt nh nw np tets hex wedge pyrmd Hok
                a0 ca c0 c1 c2 Ha0 Hca Hc0 Hc1 Hc2) as Ea.
  pose proof (edge_inv_start ET c2 Eok) as Is.
  assert (Cs : edge_cover ET c2 (edges_start ET c2)).
  { intros L HL. simpl in HL. lia. }
  pose proof (label_all_edges ET c2 Eok Et Enn Ed Ea _ Is) as I.
  pose proof (label_all_edges_cover ET c2 Eok Et Enn Ed Ea _ Is Cs) as C.
  rewrite <- En, <- init_edge_data_unfold, <- Hm in I, C.
  destruct I as [Im Ia Ic Ir Is' Ii Id].
  rewrite En, (edges_before_total ET c2 Eok) in Ic.
  assert (Hcounts : same_counts c2 m) by (apply same_mesh_counts, Im).
  split.
  - destruct Hcounts as (E1 & E2 & E3 & E4).
    unfold total_edges in *. rewrite E1, E2, E3, E4. lia.
  - intros L HL. destruct (C L HL) as (e & a & Hv & El).
    exists e, a. split; auto.
    apply (edge_valid_counts ET c2 m); auto.
Qed.

End MeshEdgeCover.

(** X4.  The edges of a constructed [MeshConnectivity3D] are numbered
    without gaps: [nedges] is at most the number of local edges, and every
    number below [nedges] is the number of some local edge. *)
Theorem edge_numbers_without_gaps (ET : ElementTypes) (nverts ntets : Z)
  (tets : list Z) (nhex : Z) (hex : list Z) (nwedge : Z) (wedge : list Z)
  (npyrmd : Z) (pyrmd : list Z) :
  edge_mesh_ok ET nverts ntets tets nhex hex nwedge wedge npyrmd pyrmd ->
  0 <= nedges
         (MeshConnectivity3D ET nverts ntets tets nhex hex nwedge wedge npyrmd pyrmd)
    <= total_edges ET
         (MeshConnectivity3D ET nverts ntets tets nhex hex nwedge wedge npyrmd pyrmd) /\
  forall L,
    0 <= L < nedges
      (MeshConnectivity3D ET nverts ntets tets nhex hex nwedge wedge npyrmd pyrmd) ->
    exists e a,
      edge_valid ET
        (MeshConnectivity3D ET nverts ntets tets nhex hex nwedge wedge npyrmd pyrmd)
        e a /\
      edge_label ET
        (MeshConnectivity3D ET nverts ntets tets nhex hex nwedge wedge npyrmd pyrmd)
        e a = L.
Proof.
  intros Hok. rewrite mesh_phases.
  remember (alloc_conn ET nverts ntets tets nhex hex nwedge wedge npyrmd pyrmd)
    as a0 eqn:Ha0.
  remember (init_vert_element_data ET a0) as ca eqn:Hca.
  remember (faces_start ET ca) as c0 eqn:Hc0.
  remember (discover_faces ET ca) as c1 eqn:Hc1.
  remember (record_faces ET c1) as c2 eqn:Hc2.
  remember (init_edge_data ET c2) as m eqn:Hm.
  exact (me_cover ET nverts ntets nhex nwedge npyrmd tets hex wedge pyrmd Hok
           a0 ca c0 c1 c2 m Ha0 Hca Hc0 Hc1 Hc2 Hm).
Qed.

Lemma edge_numbers_without_gaps_witness :
  edge_mesh_ok sample_catalog 5 2 [0;1;2;3; 1;2;3;4] 0 [] 0 [] 0 [] /\
  0 <= nedges two_tets <= total_edges sample_catalog two_tets.
Proof.
  split; [exact two_tets_ok|].
  exact (proj1 (edge_numbers_without_gaps sample_catalog 5 2 [0;1;2;3; 1;2;3;4]
                  0 [] 0 [] 0 [] two_tets_ok)).
Defined.


(** ** The block pattern is symmetric and holds the diagonal *)

Module PatternShape.

Import Pattern.

(** The block [(r, c)] is stored in row [r] of the matrix. *)
Definition stored (A : Bsr.BSRMat) (r c : Z) : Prop :=
  exists jp,
    Arr.get (Bsr.rowp A) r <= jp < Arr.get (Bsr.rowp A) (r + 1) /\
    Arr.get (Bsr.cols A) jp = c.

Section Shape.

Variable ndof : Z.
Variable M : Z.
Variable mesh : DofMesh.ElementMesh.
Hypothesis Hok : block_sizes_ok ndof M mesh.

Lemma stored_pattern r c :
  0 <= r < block_rows M mesh ->
  (stored (create_block_matrix ndof M mesh) r c <-> in_pattern ndof M mesh r c).
Proof.
  intros Hr.
  destruct (block_matrix_arrays ndof M mesh Hok) as (st & C & E).
  rewrite E. clear E.
  destruct (block_rows_bounds ndof M mesh Hok) as [Hn _].
  pose proof (node_set_keys ndof M mesh Hok) as Hk.
  destruct (build_node_set_spec ndof M mesh Hok) as (Ho & Hin).
  remember (block_rows M mesh) as n eqn:En.
  remember (build_node_set ndof M mesh) as items eqn:Ei.
  pose proof C as (L1 & L2 & G & Gc).
  assert (W : n +w 1 = n + 1) by (apply Index.add_small, ok_of_bounds; lia).
  unfold stored, Bsr.make. cbn [Bsr.rowp Bsr.cols]. rewrite W.
  destruct (copy_array_spec (n + 1) (fst st) ltac:(lia)) as (Lr & Gr).
  destruct (copy_array_spec (Z.of_nat (length items)) (snd st) ltac:(lia))
    as (Lc & Gcc).
  rewrite !Gr by lia. rewrite <- Hin.
  rewrite <- (Csr.compressed_row n items st r c C Hr).
  assert (B1 : 0 <= Arr.get (fst st) r) by (rewrite (G r) by lia; apply Csr.count_lt_nonneg).
  assert (B2 : Arr.get (fst st) (r + 1) <= Z.of_nat (length items)).
  { rewrite (G (r + 1)) by lia. apply (Csr.count_lt_le_length items). }
  split; intros (jp & Hjp & Ej); exists jp; (split; [exact Hjp|]).
  - rewrite Gcc in Ej by lia. exact Ej.
  - rewrite Gcc by lia. exact Ej.
Qed.

Lemma pattern_rows : Bsr.nbrows (create_block_matrix ndof M mesh) = block_rows M mesh /\
  Bsr.nbcols (create_block_matrix ndof M mesh) = block_rows M mesh.
Proof.
  destruct (block_matrix_arrays ndof M mesh Hok) as (st & C & E).
  rewrite E. split; reflexivity.
Qed.

End Shape.

(** X5.  The pattern that [create_block_matrix] stores is symmetric, every
    stored column is a block column of the matrix, and the diagonal block
    of the block row of every degree of freedom of every element is
    stored. *)
Theorem block_pattern_symmetric (ndof M : Z) (mesh : DofMesh.ElementMesh) :
  block_sizes_ok ndof M mesh ->
  (forall r c, 0 <= r < Bsr.nbrows (create_block_matrix ndof M mesh) ->
     stored (create_block_matrix ndof M mesh) r c ->
     0 <= c < Bsr.nbcols (create_block_matrix ndof M mesh) /\
     stored (create_block_matrix ndof M mesh) c r) /\
  (forall i j, 0 <= i < DofMesh.nelems mesh -> 0 <= j < ndof ->
     0 <= Arr.get (DofMesh.element_dof mesh) (i * ndof + j) / M
       < Bsr.nbrows (create_block_matrix ndof M mesh) /\
     stored (create_block_matrix ndof M mesh)
       (Arr.get (DofMesh.element_dof mesh) (i * ndof + j) / M)
       (Arr.get (DofMesh.element_dof mesh) (i * ndof + j) / M)).
Proof.
  intros Hok. destruct (pattern_rows ndof M mesh Hok) as (Er & Ec).
  rewrite Er, Ec. split.
  - intros r c Hr Hs. apply (stored_pattern ndof M mesh Hok r c Hr) in Hs.
    destruct (in_pattern_bounds ndof M mesh Hok r c Hs) as (_ & Hc).
    split; [exact Hc|].
    apply (stored_pattern ndof M mesh Hok c r Hc).
    destruct Hs as (i & j1 & j2 & Hi & H1 & H2 & E1 & E2).
    exists i, j2, j1. auto.
  - intros i j Hi Hj.
    assert (Hp : in_pattern ndof M mesh
                   (Arr.get (DofMesh.element_dof mesh) (i * ndof + j) / M)
                   (Arr.get (DofMesh.element_dof mesh) (i * ndof + j) / M)).
    { exists i, j, j. unfold dof_row. auto. }
    destruct (in_pattern_bounds ndof M mesh Hok _ _ Hp) as (Hr & _).
    split; [exact Hr|]. apply (stored_pattern ndof M mesh Hok _ _ Hr), Hp.
Qed.

End PatternShape.

Lemma two_quads_ok : Pattern.block_sizes_ok 4 2 mesh_two_quads.
Proof.
  unfold Pattern.block_sizes_ok.
  cbn [DofMesh.nelems DofMesh.num_dof DofMesh.element_dof mesh_two_quads].
  split; [lia|]. split; [numerals|]. split; [lia|].
  split; [numerals|]. split; [numerals|].
  split; [|numerals].
  intros k Hk. change (0 <= k < 8) in Hk.
  by_cases k Hk; (vm_compute; split; [refute|reflexivity]).
Qed.

(** The pattern of the two elements stores the diagonal block of the row of
    the second degree of freedom of the first element. *)
Lemma block_pattern_symmetric_witness :
  Pattern.block_sizes_ok 4 2 mesh_two_quads /\
  PatternShape.stored (Pattern.create_block_matrix 4 2 mesh_two_quads)
    (Arr.get (DofMesh.element_dof mesh_two_quads) (0 * 4 + 1) / 2)
    (Arr.get (DofMesh.element_dof mesh_two_quads) (0 * 4 + 1) / 2).
Proof.
  split; [exact two_quads_ok|].
  apply (proj2 (PatternShape.block_pattern_symmetric 4 2 mesh_two_quads two_quads_ok));
    [cbn [DofMesh.nelems mesh_two_quads]; lia | lia].
Defined.


(** ** Labels from a vertex list *)

Module BoundaryLabels.

Import Boundary.

Lemma fill_prefix_spec (a : list Z) (n v : Z) :
  Arr.len (fill_prefix a n v) = Arr.len a /\
  forall i, 0 <= i ->
    Arr.get (fill_prefix a n v) i =
      if (i <? n) && (i <? Arr.len a) then v else Arr.get a i.
Proof.
  unfold fill_prefix.
  destruct (Z_le_gt_dec 0 n) as [Hn|Hn].
  2:{ rewrite for_range_empty by lia. split; [reflexivity|].
      intros i Hi. destruct (Z.ltb_spec i n); [lia|reflexivity]. }
  apply (for_range_inv
    (fun k b => Arr.len b = Arr.len a /\
       forall i, 0 <= i ->
         Arr.get b i = if (i <? k) && (i <? Arr.len a) then v else Arr.get a i)).
  - exact Hn.
  - split; [reflexivity|]. intros i Hi.
    destruct (Z.ltb_spec i 0); [lia|reflexivity].
  - intros j t Hj (Hl & Hg). split; [rewrite Arr.len_set; exact Hl|].
    intros i Hi. destruct (Z.eq_dec i j) as [->|Hne].
    + destruct (Z.ltb_spec j (j + 1)); [|lia]. cbn [andb].
      destruct (Z.ltb_spec j (Arr.len a)).
      * apply Arr.get_set_eq. lia.
      * unfold Arr.get, Arr.set.
        assert (Hll : (length t <= Z.to_nat j)%nat) by (unfold Arr.len in *; lia).
        rewrite nth_overflow by (rewrite Arr.length_set_nat; exact Hll).
        rewrite nth_overflow; [reflexivity|]. unfold Arr.len in *. lia.
    + rewrite Arr.get_set_ne by lia. rewrite Hg by lia.
      destruct (Z.ltb_spec i j), (Z.ltb_spec i (j + 1)); try lia; reflexivity.
Qed.

Section Vertices.

Variable conn : Conn.
Variable nv : Z.
Variable verts : list Z.
Variable l0 : labels.

Hypothesis Hnv : 0 <= nv <= Index.max.
Hypothesis Hverts : forall i, 0 <= i < nv -> 0 <= Arr.get verts i.
Hypothesis Hlen : nverts conn <= Arr.len (vert_labels l0).

(** The state after the three fills *)
Definition filled : labels :=
  {| vert_labels := fill_prefix (vert_labels l0) (nverts conn) NO_LABEL;
     edge_labels := fill_prefix (edge_labels l0) (nedges conn) NO_LABEL;
     face_labels := fill_prefix (face_labels l0) (nfaces conn) NO_LABEL |}.

(** The vertex labels after the first [k] entries of the list: a vertex
    holds the last position at which the list names it, a vertex the list
    does not name holds [NO_LABEL], and the array is as it was past
    [nverts]. *)
Definition verts_listed (k : Z) (vl : list Z) : Prop :=
  Arr.len vl = Arr.len (vert_labels l0) /\
  (forall v, nverts conn <= v -> Arr.get vl v = Arr.get (vert_labels l0) v) /\
  forall v, 0 <= v < nverts conn ->
    (forall i, 0 <= i < k -> Arr.get verts i = v ->
       (forall j, i < j < k -> Arr.get verts j <> v) ->
       Arr.get vl v = i) /\
    ((forall i, 0 <= i < k -> Arr.get verts i <> v) ->
       Arr.get vl v = NO_LABEL).

Definition vert_state (k : Z) (l : labels) : Prop :=
  edge_labels l = edge_labels filled /\
  face_labels l = face_labels filled /\
  verts_listed k (vert_labels l).

Lemma vert_state_filled : vert_state 0 filled.
Proof.
  destruct (fill_prefix_spec (vert_labels l0) (nverts conn) NO_LABEL) as (Hl & Hg).
  split; [reflexivity|]. split; [reflexivity|]. split; [exact Hl|].
  split.
  - intros v Hv. cbn [vert_labels filled].
    destruct (Z_lt_le_dec v 0) as [Hneg|Hpos].
    + unfold Arr.get. replace (Z.to_nat v) with (Z.to_nat 0) by lia.
      change (Arr.get (fill_prefix (vert_labels l0) (nverts conn) NO_LABEL) 0
              = Arr.get (vert_labels l0) 0).
      rewrite Hg by lia.
      destruct (Z.ltb_spec 0 (nverts conn)); [lia|reflexivity].
    + rewrite Hg by lia. destruct (Z.ltb_spec v (nverts conn)); [lia|reflexivity].
  - intros v Hv. split; [intros i Hi; lia|]. intros _.
    cbn [vert_labels filled]. rewrite Hg by lia.
    destruct (Z.ltb_spec v (nverts conn)); [|lia].
    destruct (Z.ltb_spec v (Arr.len (vert_labels l0))); [|lia]. reflexivity.
Qed.

Lemma vert_state_step k l :
  0 <= k < nv -> vert_state k l -> vert_state (k + 1) (label_vert conn verts k l).
Proof.
  intros Hk (He & Hf & Hl & Hout & Hin). unfold label_vert.
  pose proof (Hverts k Hk) as Hvk.
  destruct (Z.ltb_spec (Arr.get verts k) (nverts conn)) as [Hlt|Hge].
  - split; [exact He|]. split; [exact Hf|]. cbn [vert_labels].
    split; [rewrite Arr.len_set; exact Hl|]. split.
    + intros v Hv. destruct (Z_lt_le_dec v 0) as [Hneg|Hpos].
      * unfold Arr.get. replace (Z.to_nat v) with (Z.to_nat 0) by lia.
        pose proof (Hout v Hv) as Ho. unfold Arr.get in Ho.
        replace (Z.to_nat v) with (Z.to_nat 0) in Ho by lia. lia.
      * rewrite Arr.get_set_ne by lia. apply Hout, Hv.
    + intros v Hv. destruct (Z.eq_dec (Arr.get verts k) v) as [E|N].
      * split.
        -- intros i Hi Ei Hlast. destruct (Z.eq_dec i k) as [->|Nik].
           ++ rewrite E. apply Arr.get_set_eq. lia.
           ++ exfalso. apply (Hlast k); [lia|exact E].
        -- intros Hnone. exfalso. apply (Hnone k); [lia|exact E].
      * rewrite Arr.get_set_ne by lia. destruct (Hin v Hv) as (H1 & H2). split.
        -- intros i Hi Ei Hlast. assert (i <> k) by congruence.
           apply H1; [lia|exact Ei|]. intros j Hj. apply Hlast. lia.
        -- intros Hnone. apply H2. intros i Hi. apply Hnone. lia.
  - split; [exact He|]. split; [exact Hf|]. split; [exact Hl|].
    split; [exact Hout|]. intros v Hv. destruct (Hin v Hv) as (H1 & H2). split.
    + intros i Hi Ei Hlast. assert (i <> k) by (intros ->; lia).
      apply H1; [lia|exact Ei|]. intros j Hj. apply Hlast. lia.
    + intros Hnone. apply H2. intros i Hi. apply Hnone. lia.
Qed.

Lemma vert_state_listed :
  vert_state nv (for_range 0 nv (label_vert conn verts) filled).
Proof.
  apply (for_range_inv vert_state).
  - lia.
  - exact vert_state_filled.
  - intros j t Hj. apply vert_state_step. lia.
Qed.

(** A list that names [v] names it at a last position. *)
Lemma last_position (v : Z) :
  forall k, 0 <= k ->
    (exists i, 0 <= i < k /\ Arr.get verts i = v) ->
    exists i, 0 <= i < k /\ Arr.get verts i = v /\
      forall j, i < j < k -> Arr.get verts j <> v.
Proof.
  intros k Hk. pattern k. apply natlike_ind; [| |exact Hk].
  - intros (i & Hi & _). lia.
  - intros x Hx IH (i & Hi & Ei).
    destruct (Z.eq_dec (Arr.get verts x) v) as [E|N].
    + exists x. split; [lia|]. split; [exact E|]. intros j Hj. lia.
    + destruct IH as (i' & Hi' & Ei' & Hl).
      { exists i. split; [|exact Ei]. assert (i <> x) by congruence. lia. }
      exists i'. split; [lia|]. split; [exact Ei'|].
      intros j Hj. destruct (Z.eq_dec j x) as [->|Nj]; [exact N|].
      apply Hl. lia.
Qed.

(** A vertex is marked exactly when the list names it. *)
Lemma listed_marked (vl : list Z) (v : Z) :
  verts_listed nv vl -> 0 <= v < nverts conn ->
  (Arr.get vl v <> NO_LABEL <-> exists i, 0 <= i < nv /\ Arr.get verts i = v).
Proof.
  intros (_ & _ & Hin) Hv. destruct (Hin v Hv) as (H1 & H2). split.
  - intros Hm.
    assert (D : forall k, 0 <= k ->
              (exists i, 0 <= i < k /\ Arr.get verts i = v) \/
              (forall i, 0 <= i < k -> Arr.get verts i <> v)).
    { intros k Hk. pattern k. apply natlike_ind; [| |exact Hk].
      - right. intros i Hi. lia.
      - intros x Hx [(i & Hi & Ei)|Hn].
        + left. exists i. split; [lia|exact Ei].
        + destruct (Z.eq_dec (Arr.get verts x) v) as [E|N].
          * left. exists x. split; [lia|exact E].
          * right. intros i Hi. destruct (Z.eq_dec i x) as [->|Ni]; [exact N|].
            apply Hn. lia. }
    destruct (D nv ltac:(lia)) as [Hex|Hn]; [exact Hex|].
    exfalso. apply Hm, H2, Hn.
  - intros Hex. destruct (last_position v nv ltac:(lia) Hex) as (i & Hi & Ei & Hl).
    rewrite (H1 i Hi Ei Hl). unfold NO_LABEL. lia.
Qed.

End Vertices.

(** ** Marking loops

    Both the edge and the face loop of [get_labels_from_verts] visit the
    entries [(elem, e)] in order and store [key elem e] at position
    [key elem e] when [cond elem e] holds. *)

Section Marking.

Variable key : Z -> Z -> Z.
Variable cond : Z -> Z -> bool.
Variable num : Z -> Z.
Variable a0 : list Z.

(** The entries visited before entry [e'] of element [E] *)
Definition slot_before (E e' elem e : Z) : Prop :=
  (0 <= elem < E /\ 0 <= e < num elem) \/ (elem = E /\ 0 <= e < e').

Definition marked_to (E e' : Z) (a : list Z) : Prop :=
  Arr.len a = Arr.len a0 /\
  forall L, 0 <= L < Arr.len a0 ->
    ((exists elem e, slot_before E e' elem e /\ cond elem e = true /\ key elem e = L) ->
       Arr.get a L = L) /\
    ((forall elem e, slot_before E e' elem e -> cond elem e = true -> key elem e <> L) ->
       Arr.get a L = Arr.get a0 L).

Lemma marked_start : marked_to 0 0 a0.
Proof.
  split; [reflexivity|]. intros L HL. split.
  - intros (elem & e & [H|H] & _); lia.
  - reflexivity.
Qed.

Lemma marked_step E e' a :
  0 <= E -> 0 <= e' -> 0 <= key E e' ->
  marked_to E e' a ->
  marked_to E (e' + 1)
    (if cond E e' then Arr.set a (key E e') (key E e') else a).
Proof.
  intros HE He Hk (Hl & Hm).
  split; [destruct (cond E e'); [rewrite Arr.len_set|]; exact Hl|].
  intros L HL. destruct (Hm L HL) as (H1 & H2).
  destruct (cond E e') eqn:Ec.
  - destruct (Z.eq_dec (key E e') L) as [Ek|Nk].
    + split.
      * intros _. rewrite Ek. apply Arr.get_set_eq. lia.
      * intros Hn. exfalso. apply (Hn E e'); [right; lia|exact Ec|exact Ek].
    + rewrite Arr.get_set_ne by lia. split.
      * intros (elem & e & Hs & Hc & Hke). apply H1. exists elem, e.
        split; [|auto]. destruct Hs as [Hs|(-> & Hs)]; [left; exact Hs|].
        right. split; [reflexivity|]. assert (e <> e') by congruence. lia.
      * intros Hn. apply H2. intros elem e Hs. apply Hn.
        destruct Hs as [Hs|(-> & Hs)]; [left; exact Hs|right; lia].
  - split.
    + intros (elem & e & Hs & Hc & Hke). apply H1. exists elem, e.
      split; [|auto]. destruct Hs as [Hs|(-> & Hs)]; [left; exact Hs|].
      right. split; [reflexivity|]. assert (e <> e') by congruence. lia.
    + intros Hn. apply H2. intros elem e Hs. apply Hn.
      destruct Hs as [Hs|(-> & Hs)]; [left; exact Hs|right; lia].
Qed.

Lemma marked_next E a :
  0 <= E -> marked_to E (num E) a -> marked_to (E + 1) 0 a.
Proof.
  intros HE (Hl & Hm). split; [exact Hl|]. intros L HL.
  destruct (Hm L HL) as (H1 & H2). split.
  - intros (elem & e & Hs & Hc & Hke). apply H1. exists elem, e.
    split; [|auto]. destruct Hs as [(Hs1 & Hs2)|Hs]; [|lia].
    destruct (Z.eq_dec elem E) as [->|N]; [right; lia|left; lia].
  - intros Hn. apply H2. intros elem e Hs. apply Hn.
    destruct Hs as [Hs|(-> & Hs)]; left; lia.
Qed.

(** One element's loop over its entries *)
Lemma marked_element E a :
  0 <= E -> (forall e, 0 <= e < num E -> 0 <= key E e) ->
  marked_to E 0 a ->
  marked_to (E + 1) 0
    (for_range 0 (num E)
       (fun e a => if cond E e then Arr.set a (key E e) (key E e) else a) a).
Proof.
  intros HE Hk Hm. apply marked_next; [exact HE|].
  destruct (Z_le_gt_dec 0 (num E)) as [Hn|Hn].
  - apply (for_range_inv (fun e a => marked_to E e a)); [exact Hn|exact Hm|].
    intros j t Hj Ht. apply marked_step; [exact HE|lia|apply Hk; lia|exact Ht].
  - rewrite for_range_empty by lia.
    destruct Hm as (Hl & Hm). split; [exact Hl|]. intros L HL.
    destruct (Hm L HL) as (H1 & H2). split.
    + intros (elem & e & Hs & Hc & Hke). apply H1. exists elem, e.
      split; [|auto]. destruct Hs as [Hs|Hs]; [left; exact Hs|lia].
    + intros Hnn. apply H2. intros elem e Hs. apply Hnn.
      destruct Hs as [Hs|Hs]; [left; exact Hs|lia].
Qed.

End Marking.


Section Elements.

Variable ET : ElementTypes.
Variable conn : Conn.

(** [vert_labels[v] != NO_LABEL] *)
Definition marked (vl : list Z) (v : Z) : bool :=
  negb (Arr.get vl v =? NO_LABEL).

(** The test of the edge loop: both end points are marked. *)
Definition edge_marked (vl : list Z) (elem e : Z) : bool :=
  marked vl (Arr.get (edge_pair ET conn elem e) 0)
  && marked vl (Arr.get (edge_pair ET conn elem e) 1).

(** The test of the face loop: all vertices of the face are marked. *)
Definition face_marked (vl : list Z) (elem f : Z) : bool :=
  let '(nfv, fv) := get_element_face_verts ET conn elem f (uninit 4) in
  if nfv =? 3 then
    marked vl (Arr.get fv 0) && marked vl (Arr.get fv 1) && marked vl (Arr.get fv 2)
  else if nfv =? 4 then
    marked vl (Arr.get fv 0) && marked vl (Arr.get fv 1) && marked vl (Arr.get fv 2)
    && marked vl (Arr.get fv 3)
  else false.

Lemma label_element_unfold elem l :
  label_element ET conn elem l
  = for_range 0 (num_faces ET conn elem)
      (label_marked_face ET conn elem (snd (get_element_faces ET conn elem None)))
      (for_range 0 (num_edges ET conn elem)
         (label_marked_edge ET conn elem (snd (get_element_edges ET conn elem None)))
         l).
Proof.
  unfold label_element, num_faces, num_edges.
  destruct (get_element_edges ET conn elem None) as [ne pe].
  destruct (get_element_faces ET conn elem None) as [nf pf]. reflexivity.
Qed.

Lemma label_marked_edge_spec elem e l :
  let r := label_marked_edge ET conn elem (snd (get_element_edges ET conn elem None)) e l in
  vert_labels r = vert_labels l /\ face_labels r = face_labels l /\
  edge_labels r =
    if edge_marked (vert_labels l) elem e
    then Arr.set (edge_labels l) (edge_label ET conn elem e) (edge_label ET conn elem e)
    else edge_labels l.
Proof.
  unfold label_marked_edge, edge_marked, marked, edge_pair. cbv zeta.
  destruct (negb _ && negb _); cbn [vert_labels edge_labels face_labels];
    repeat split; reflexivity.
Qed.

Lemma label_marked_face_spec elem f l :
  let r := label_marked_face ET conn elem (snd (get_element_faces ET conn elem None)) f l in
  vert_labels r = vert_labels l /\ edge_labels r = edge_labels l /\
  face_labels r =
    if face_marked (vert_labels l) elem f
    then Arr.set (face_labels l) (face_label ET conn elem f) (face_label ET conn elem f)
    else face_labels l.
Proof.
  unfold label_marked_face, face_marked, marked. cbv zeta.
  destruct (get_element_face_verts ET conn elem f (uninit 4)) as [nfv fv].
  destruct (nfv =? 3).
  - destruct (negb _ && negb _ && negb _);
      cbn [vert_labels edge_labels face_labels mark_face]; repeat split; reflexivity.
  - destruct (nfv =? 4); [|repeat split; reflexivity].
    destruct (negb _ && negb _ && negb _ && negb _);
      cbn [vert_labels edge_labels face_labels mark_face]; repeat split; reflexivity.
Qed.

(** The element loop leaves the vertex labels as they are. *)
Lemma label_element_verts elem l :
  vert_labels (label_element ET conn elem l) = vert_labels l.
Proof.
  rewrite label_element_unfold.
  apply (for_range_preserves (fun t => vert_labels t = vert_labels l)).
  - intros j t _ Ht. rewrite <- Ht. apply label_marked_face_spec.
  - apply (for_range_preserves (fun t => vert_labels t = vert_labels l)).
    + intros j t _ Ht. rewrite <- Ht. apply label_marked_edge_spec.
    + reflexivity.
Qed.

Lemma label_elements_verts n l :
  vert_labels (for_range 0 n (label_element ET conn) l) = vert_labels l.
Proof.
  apply (for_range_preserves (fun t => vert_labels t = vert_labels l)).
  - intros j t _ Ht. rewrite <- Ht. apply label_element_verts.
  - reflexivity.
Qed.

Section EdgeLoop.

Variable l0 : labels.

Hypothesis Hkey : forall elem e,
  0 <= elem < nelems conn -> 0 <= e < num_edges ET conn elem ->
  0 <= edge_label ET conn elem e.

Definition edge_state (E : Z) (l : labels) : Prop :=
  vert_labels l = vert_labels l0 /\
  marked_to (edge_label ET conn) (edge_marked (vert_labels l0)) (num_edges ET conn)
    (edge_labels l0) E 0 (edge_labels l).

Lemma edge_state_element E l :
  0 <= E < nelems conn -> edge_state E l ->
  edge_state (E + 1) (label_element ET conn E l).
Proof.
  intros HE (Hv & Hm). split; [rewrite label_element_verts; exact Hv|].
  rewrite label_element_unfold.
  apply (for_range_preserves
    (fun t => marked_to (edge_label ET conn) (edge_marked (vert_labels l0))
                (num_edges ET conn) (edge_labels l0) (E + 1) 0 (edge_labels t))).
  { intros j t _ Ht.
    destruct (label_marked_face_spec E j t) as (_ & Ee & _). cbv zeta in Ee.
    rewrite Ee. exact Ht. }
  apply marked_next; [lia|].
  destruct (Z_le_gt_dec 0 (num_edges ET conn E)) as [Hn|Hn].
  - apply (for_range_inv
      (fun e t => vert_labels t = vert_labels l0 /\
         marked_to (edge_label ET conn) (edge_marked (vert_labels l0))
           (num_edges ET conn) (edge_labels l0) E e (edge_labels t)));
      [exact Hn|split; assumption|].
    intros j t Hj (Hvt & Hmt).
    destruct (label_marked_edge_spec E j t) as (Ev & _ & Ee). cbv zeta in Ev, Ee.
    split; [rewrite Ev; exact Hvt|]. rewrite Ee, Hvt.
    apply marked_step; [lia|lia|apply Hkey; lia|exact Hmt].
  - rewrite for_range_empty by lia.
    destruct Hm as (Hl & Hm). split; [exact Hl|]. intros L HL.
    destruct (Hm L HL) as (H1 & H2). split.
    + intros (elem & e & Hs & Hc & Hke). apply H1. exists elem, e.
      split; [|auto]. destruct Hs as [Hs|Hs]; [left; exact Hs|lia].
    + intros Hnn. apply H2. intros elem e Hs. apply Hnn.
      destruct Hs as [Hs|Hs]; [left; exact Hs|lia].
Qed.

Lemma edge_state_all :
  0 <= nelems conn ->
  edge_state (nelems conn) (for_range 0 (nelems conn) (label_element ET conn) l0).
Proof.
  intros Hn. apply (for_range_inv edge_state); [exact Hn| |].
  - split; [reflexivity|apply marked_start].
  - intros j t Hj. apply edge_state_element. lia.
Qed.

End EdgeLoop.

Section FaceLoop.

Variable l0 : labels.

Hypothesis Hkey : forall elem f,
  0 <= elem < nelems conn -> 0 <= f < num_faces ET conn elem ->
  0 <= face_label ET conn elem f.

Definition face_state (E : Z) (l : labels) : Prop :=
  vert_labels l = vert_labels l0 /\
  marked_to (face_label ET conn) (face_marked (vert_labels l0)) (num_faces ET conn)
    (face_labels l0) E 0 (face_labels l).

Lemma face_state_element E l :
  0 <= E < nelems conn -> face_state E l ->
  face_state (E + 1) (label_element ET conn E l).
Proof.
  intros HE (Hv & Hm). split; [rewrite label_element_verts; exact Hv|].
  rewrite label_element_unfold.
  remember (for_range 0 (num_edges ET conn E)
              (label_marked_edge ET conn E (snd (get_element_edges ET conn E None))) l)
    as l1 eqn:El1.
  assert (H1 : vert_labels l1 = vert_labels l0 /\ face_labels l1 = face_labels l).
  { subst l1.
    apply (for_range_preserves
      (fun t => vert_labels t = vert_labels l0 /\ face_labels t = face_labels l)).
    - intros j t _ (Ht1 & Ht2).
      destruct (label_marked_edge_spec E j t) as (Ev & Ef & _). cbv zeta in Ev, Ef.
      rewrite Ev, Ef. split; assumption.
    - split; [exact Hv|reflexivity]. }
  destruct H1 as (Hv1 & Hf1). rewrite <- Hf1 in Hm.
  apply marked_next; [lia|].
  destruct (Z_le_gt_dec 0 (num_faces ET conn E)) as [Hn|Hn].
  - apply (for_range_inv
      (fun f t => vert_labels t = vert_labels l0 /\
         marked_to (face_label ET conn) (face_marked (vert_labels l0))
           (num_faces ET conn) (face_labels l0) E f (face_labels t)));
      [exact Hn|split; assumption|].
    intros j t Hj (Hvt & Hmt).
    destruct (label_marked_face_spec E j t) as (Ev & _ & Ef). cbv zeta in Ev, Ef.
    split; [rewrite Ev; exact Hvt|]. rewrite Ef, Hvt.
    apply marked_step; [lia|lia|apply Hkey; lia|exact Hmt].
  - rewrite for_range_empty by lia.
    destruct Hm as (Hl & Hm). split; [exact Hl|]. intros L HL.
    destruct (Hm L HL) as (H1 & H2). split.
    + intros (elem & e & Hs & Hc & Hke). apply H1. exists elem, e.
      split; [|auto]. destruct Hs as [Hs|Hs]; [left; exact Hs|lia].
    + intros Hnn. apply H2. intros elem e Hs. apply Hnn.
      destruct Hs as [Hs|Hs]; [left; exact Hs|lia].
Qed.

Lemma face_state_all :
  0 <= nelems conn ->
  face_state (nelems conn) (for_range 0 (nelems conn) (label_element ET conn) l0).
Proof.
  intros Hn. apply (for_range_inv face_state); [exact Hn| |].
  - split; [reflexivity|apply marked_start].
  - intros j t Hj. apply face_state_element. lia.
Qed.

End FaceLoop.

End Elements.

(** The list names the vertex [v]. *)
Definition listed (nv : Z) (verts : list Z) (v : Z) : Prop :=
  exists i, 0 <= i < nv /\ Arr.get verts i = v.

Lemma labels_unfold ET conn nv verts l0 :
  get_labels_from_verts ET conn nv verts l0
  = for_range 0 (nelems conn) (label_element ET conn)
      (for_range 0 nv (label_vert conn verts) (filled conn l0)).
Proof. reflexivity. Qed.

Lemma labels_verts_listed ET conn nv verts l0 :
  0 <= nv <= Index.max ->
  (forall i, 0 <= i < nv -> 0 <= Arr.get verts i) ->
  nverts conn <= Arr.len (vert_labels l0) ->
  verts_listed conn verts l0 nv
    (vert_labels (get_labels_from_verts ET conn nv verts l0)).
Proof.
  intros Hnv Hverts Hlen. rewrite labels_unfold, label_elements_verts.
  apply (vert_state_listed conn nv verts l0 Hnv Hverts Hlen).
Qed.

Section MeshEdgeLabels.

Variable ET : ElementTypes.
Variables nv nt nh nw np : Z.
Variables tets hex wedge pyrmd : list Z.
Hypothesis Hok : edge_mesh_ok ET nv nt tets nh hex nw wedge np pyrmd.

Variables a0 ca c0 c1 c2 m : Conn.
Hypothesis Ha0 : a0 = alloc_conn ET nv nt tets nh hex nw wedge np pyrmd.
Hypothesis Hca : ca = init_vert_element_data ET a0.
Hypothesis Hc0 : c0 = faces_start ET ca.
Hypothesis Hc1 : c1 = discover_faces ET ca.
Hypothesis Hc2 : c2 = record_faces ET c1.
Hypothesis Hm : m = init_edge_data ET c2.

Variable nl : Z.
Variable verts : list Z.
Variable l0 : labels.

Hypothesis Hnl : 0 <= nl <= Index.max.
Hypothesis Hverts : forall i, 0 <= i < nl -> 0 <= Arr.get verts i.
Hypothesis Hlen_v : nverts m <= Arr.len (vert_labels l0).
Hypothesis Hlen_e : nedges m <= Arr.len (edge_labels l0).

Lemma me_end_points e a k :
  edge_valid ET m e a -> 0 <= k < 2 ->
  0 <= Arr.get (edge_pair ET m e a) k < nverts m.
Proof.
  intros Hv Hk.
  pose proof (me_edges_ok ET nv nt nh nw np tets hex wedge pyrmd Hok
                a0 ca c0 c1 c2 Ha0 Hca Hc0 Hc1 Hc2) as Eok.
  pose proof (me_nelems ET nv nt nh nw np tets hex wedge pyrmd Hok
                a0 ca c0 c1 c2 Ha0 Hca Hc0 Hc1 Hc2) as En.
  pose proof (me_total ET nv nt nh nw np tets hex wedge pyrmd Hok
                a0 ca c0 c1 c2 Ha0 Hca Hc0 Hc1 Hc2) as Et.
  pose proof (me_nonneg ET nv nt nh nw np tets hex wedge pyrmd Hok
                a0 ca c0 c1 c2 Ha0 Hca Hc0 Hc1 Hc2) as Enn.
  pose proof (me_distinct ET nv nt nh nw np tets hex wedge pyrmd Hok
                a0 ca c0 c1 c2 Ha0 Hca Hc0 Hc1 Hc2) as Ed.
  pose proof (me_adjacent ET nv nt nh nw np tets hex wedge pyrmd Hok
                a0 ca c0 c1 c2 Ha0 Hca Hc0 Hc1 Hc2) as Ea.
  pose proof (me_same ET nv nt nh nw np tets hex wedge pyrmd Hok
                a0 ca c0 c1 c2 Ha0 Hca Hc0 Hc1 Hc2) as (Sc & Sn & Sv & _).
  destruct (init_edge_data_inv ET c2 Eok En Et Enn Ed Ea) as (Hmesh & _).
  rewrite <- Hm in Hmesh.
  rewrite (edge_pair_mesh ET c2 m e a Hmesh).
  rewrite (me_edge_pair ET nv nt nh nw np tets hex wedge pyrmd Hok
             a0 ca c0 c1 c2 Ha0 Hca Hc0 Hc1 Hc2).
  assert (Hv2 : edge_valid ET c2 e a).
  { apply (edge_valid_counts ET c2 m); [apply same_mesh_counts, Hmesh|exact Hv]. }
  assert (Hv0 : edge_valid ET a0 e a).
  { apply (me_edge_valid ET nv nt nh nw np tets hex wedge pyrmd Hok
             a0 ca c0 c1 c2 Ha0 Hca Hc0 Hc1 Hc2), Hv2. }
  destruct Hok as (_ & _ & Vok & Eok0 & _ & Tok & _ & Vv & _).
  rewrite <- Ha0 in Vok, Eok0, Vv.
  destruct (edge_pair_vert ET a0 e a k Eok0 Vok Tok Hv0 Hk) as (E1 & E2).
  rewrite E1. destruct Hmesh as (Mv & _). rewrite Mv, Sv.
  apply Vv; [|exact E2].
  destruct Hv0 as (He & _).
  destruct Sc as (C1 & C2 & C3 & C4). unfold total_elems in *.
  rewrite <- Sn, En. lia.
Qed.

Lemma me_edge_labels e a :
  edge_valid ET m e a ->
  (Arr.get (edge_labels (get_labels_from_verts ET m nl verts l0)) (edge_label ET m e a)
     = edge_label ET m e a <->
   listed nl verts (Arr.get (edge_pair ET m e a) 0) /\
   listed nl verts (Arr.get (edge_pair ET m e a) 1)) /\
  (Arr.get (edge_labels (get_labels_from_verts ET m nl verts l0)) (edge_label ET m e a)
     = edge_label ET m e a \/
   Arr.get (edge_labels (get_labels_from_verts ET m nl verts l0)) (edge_label ET m e a)
     = NO_LABEL).
Proof.
  intros Hv.
  pose proof (me_edges_ok ET nv nt nh nw np tets hex wedge pyrmd Hok
                a0 ca c0 c1 c2 Ha0 Hca Hc0 Hc1 Hc2) as Eok.
  pose proof (me_nelems ET nv nt nh nw np tets hex wedge pyrmd Hok
                a0 ca c0 c1 c2 Ha0 Hca Hc0 Hc1 Hc2) as En.
  pose proof (me_total ET nv nt nh nw np tets hex wedge pyrmd Hok
                a0 ca c0 c1 c2 Ha0 Hca Hc0 Hc1 Hc2) as Et.
  pose proof (me_nonneg ET nv nt nh nw np tets hex wedge pyrmd Hok
                a0 ca c0 c1 c2 Ha0 Hca Hc0 Hc1 Hc2) as Enn.
  pose proof (me_distinct ET nv nt nh nw np tets hex wedge pyrmd Hok
                a0 ca c0 c1 c2 Ha0 Hca Hc0 Hc1 Hc2) as Ed.
  pose proof (me_adjacent ET nv nt nh nw np tets hex wedge pyrmd Hok
                a0 ca c0 c1 c2 Ha0 Hca Hc0 Hc1 Hc2) as Ea.
  pose proof (me_edges ET nv nt nh nw np tets hex wedge pyrmd Hok
                a0 ca c0 c1 c2 m Ha0 Hca Hc0 Hc1 Hc2 Hm) as Hedges.
  pose proof (me_cover ET nv nt nh nw np tets hex wedge pyrmd Hok
                a0 ca c0 c1 c2 m Ha0 Hca Hc0 Hc1 Hc2 Hm) as ((_ & Hne) & _).
  destruct (init_edge_data_inv ET c2 Eok En Et Enn Ed Ea) as (Hmesh & _).
  rewrite <- Hm in Hmesh.
  pose proof (same_mesh_counts Hmesh) as Hcnt.
  assert (Hnm : nelems m = total_elems m).
  { destruct Hmesh as (_ & M1 & M2 & M3 & M4 & M5 & _).
    unfold total_elems in *. rewrite M5, M1, M2, M3, M4. exact En. }
  assert (Htot : total_edges ET m < Index.max).
  { destruct Hcnt as (C1 & C2 & C3 & C4). unfold total_edges in *.
    rewrite C1, C2, C3, C4. exact Et. }
  assert (Hslot : forall elem x,
            0 <= elem < nelems m /\ 0 <= x < num_edges ET m elem <->
            edge_valid ET m elem x).
  { intros elem x. unfold edge_valid, valid_entry. rewrite Hnm. reflexivity. }
  pose proof (labels_verts_listed ET m nl verts l0 Hnl Hverts Hlen_v) as Hlist.
  rewrite labels_unfold in *.
  remember (for_range 0 nl (label_vert m verts) (filled m l0)) as lv eqn:Elv.
  assert (Helv : edge_labels lv = edge_labels (filled m l0)).
  { subst lv. apply (vert_state_listed m nl verts l0 Hnl Hverts Hlen_v). }
  assert (Hkey : forall elem x,
            0 <= elem < nelems m -> 0 <= x < num_edges ET m elem ->
            0 <= edge_label ET m elem x).
  { intros elem x H1 H2. apply Hedges, Hslot. split; assumption. }
  assert (Hn0 : 0 <= nelems m) by (destruct Hv as (Hv1 & _); lia).
  destruct (edge_state_all ET m lv Hkey Hn0) as (Evl & Hlen & Hmk).
  rewrite label_elements_verts in Hlist.
  remember (for_range 0 (nelems m) (label_element ET m) lv) as r eqn:Er.
  destruct (Hedges e a Hv) as (HL & Hsame).
  remember (edge_label ET m e a) as L eqn:EL.
  assert (HLlen : 0 <= L < Arr.len (edge_labels lv)).
  { rewrite Helv. cbn [edge_labels filled].
    rewrite (proj1 (fill_prefix_spec _ _ _)). lia. }
  destruct (Hmk L HLlen) as (Hyes & Hno).
  assert (Hcond : forall elem x, edge_valid ET m elem x -> edge_label ET m elem x = L ->
            edge_marked ET m (vert_labels lv) elem x
            = edge_marked ET m (vert_labels lv) e a).
  { intros elem x Hvx Hx. symmetry in Hx.
    apply (proj1 (Hsame elem x Hvx)) in Hx.
    apply global_edge_equality_iff in Hx. unfold edge_marked.
    destruct Hx as [(X1 & X2)|(X1 & X2)]; rewrite X1, X2;
      [reflexivity|apply andb_comm]. }
  assert (Hmarked : edge_marked ET m (vert_labels lv) e a = true <->
            listed nl verts (Arr.get (edge_pair ET m e a) 0) /\
            listed nl verts (Arr.get (edge_pair ET m e a) 1)).
  { unfold edge_marked, marked. rewrite andb_true_iff, !negb_true_iff, !Z.eqb_neq.
    rewrite (listed_marked m nl verts l0 Hnl _ _ Hlist
               (me_end_points e a 0 Hv ltac:(lia))).
    rewrite (listed_marked m nl verts l0 Hnl _ _ Hlist
               (me_end_points e a 1 Hv ltac:(lia))).
    reflexivity. }
  assert (Hfill : Arr.get (edge_labels lv) L = NO_LABEL).
  { rewrite Helv. cbn [edge_labels filled].
    rewrite (proj2 (fill_prefix_spec _ _ _)) by lia.
    destruct (Z.ltb_spec L (nedges m)); [|lia].
    destruct (Z.ltb_spec L (Arr.len (edge_labels l0))); [reflexivity|lia]. }
  assert (HLne : L <> NO_LABEL) by (unfold NO_LABEL; lia).
  destruct (edge_marked ET m (vert_labels lv) e a) eqn:Em.
  - assert (Hget : Arr.get (edge_labels r) L = L).
    { apply Hyes. exists e, a. split; [left; apply Hslot, Hv|].
      split; [exact Em|symmetry; exact EL]. }
    split; [|left; exact Hget].
    split; [intros _; apply Hmarked; reflexivity|intros _; exact Hget].
  - assert (Hget : Arr.get (edge_labels r) L = NO_LABEL).
    { rewrite <- Hfill. apply Hno. intros elem x [Hs|Hs] Hc Hx; [|lia].
      apply Hslot in Hs. rewrite (Hcond elem x Hs Hx) in Hc. discriminate Hc. }
    split; [|right; exact Hget].
    split.
    + intros Hx. rewrite Hget in Hx. congruence.
    + intros Hx. apply Hmarked in Hx. discriminate Hx.
Qed.

End MeshEdgeLabels.

End BoundaryLabels.

(** X6.  [get_labels_from_verts] keeps the length of the vertex label array;
    a vertex below [nverts] is labelled (its entry differs from [NO_LABEL])
    exactly when the list names it, and its label is then the last position
    at which the list names it; the entries from [nverts] on are as before
    the call. *)
Theorem vertex_labels_from_list (ET : ElementTypes) (conn : Conn) (nv : Z)
  (verts : list Z) (l0 : Boundary.labels) :
  0 <= nv <= Index.max ->
  (forall i, 0 <= i < nv -> 0 <= Arr.get verts i) ->
  nverts conn <= Arr.len (Boundary.vert_labels l0) ->
  Arr.len (Boundary.vert_labels (Boundary.get_labels_from_verts ET conn nv verts l0))
    = Arr.len (Boundary.vert_labels l0) /\
  (forall v, 0 <= v < nverts conn ->
     (Arr.get (Boundary.vert_labels (Boundary.get_labels_from_verts ET conn nv verts l0)) v
        <> NO_LABEL <-> BoundaryLabels.listed nv verts v) /\
     (forall i, 0 <= i < nv -> Arr.get verts i = v ->
        (forall j, i < j < nv -> Arr.get verts j <> v) ->
        Arr.get (Boundary.vert_labels (Boundary.get_labels_from_verts ET conn nv verts l0)) v
          = i)) /\
  (forall v, nverts conn <= v ->
     Arr.get (Boundary.vert_labels (Boundary.get_labels_from_verts ET conn nv verts l0)) v
       = Arr.get (Boundary.vert_labels l0) v).
Proof.
  intros Hnv Hverts Hlen.
  pose proof (BoundaryLabels.labels_verts_listed ET conn nv verts l0 Hnv Hverts Hlen)
    as Hl.
  pose proof Hl as (H1 & H2 & H3).
  split; [exact H1|]. split; [|exact H2].
  intros v Hv. split.
  - apply (BoundaryLabels.listed_marked conn nv verts l0 Hnv _ _ Hl Hv).
  - apply (H3 v Hv).
Qed.

(** X7.  On a constructed mesh, [get_labels_from_verts] stores at the
    position of the number of a local edge that number when the list names
    both end points of the edge, and [NO_LABEL] otherwise. *)
Theorem edge_labels_from_list (ET : ElementTypes) (nv nt : Z)
  (tets : list Z) (nh : Z) (hex : list Z) (nw : Z) (wedge : list Z)
  (np : Z) (pyrmd : list Z) (nl : Z) (verts : list Z) (l0 : Boundary.labels) :
  edge_mesh_ok ET nv nt tets nh hex nw wedge np pyrmd ->
  0 <= nl <= Index.max ->
  (forall i, 0 <= i < nl -> 0 <= Arr.get verts i) ->
  nverts
    (MeshConnectivity3D ET nv nt tets nh hex nw wedge np pyrmd)
    <= Arr.len (Boundary.vert_labels l0) ->
  nedges (MeshConnectivity3D ET nv nt tets nh hex nw wedge np pyrmd)
    <= Arr.len (Boundary.edge_labels l0) ->
  forall e a,
    edge_valid ET
      (MeshConnectivity3D ET nv nt tets nh hex nw wedge np pyrmd)
      e a ->
    (Arr.get
       (Boundary.edge_labels
          (Boundary.get_labels_from_verts ET
             (MeshConnectivity3D ET nv nt tets nh hex nw wedge np pyrmd)
             nl verts l0))
       (edge_label ET
          (MeshConnectivity3D ET nv nt tets nh hex nw wedge np pyrmd)
          e a)
     = edge_label ET
         (MeshConnectivity3D ET nv nt tets nh hex nw wedge np pyrmd)
         e a <->
     BoundaryLabels.listed nl verts
       (Arr.get (edge_pair ET
          (MeshConnectivity3D ET nv nt tets nh hex nw wedge np pyrmd)
          e a) 0) /\
     BoundaryLabels.listed nl verts
       (Arr.get (edge_pair ET
          (MeshConnectivity3D ET nv nt tets nh hex nw wedge np pyrmd)
          e a) 1)) /\
    (Arr.get
       (Boundary.edge_labels
          (Boundary.get_labels_from_verts ET
             (MeshConnectivity3D ET nv nt tets nh hex nw wedge np pyrmd)
             nl verts l0))
       (edge_label ET
          (MeshConnectivity3D ET nv nt tets nh hex nw wedge np pyrmd)
          e a)
     = edge_label ET
         (MeshConnectivity3D ET nv nt tets nh hex nw wedge np pyrmd)
         e a \/
     Arr.get
       (Boundary.edge_labels
          (Boundary.get_labels_from_verts ET
             (MeshConnectivity3D ET nv nt tets nh hex nw wedge np pyrmd)
             nl verts l0))
       (edge_label ET
          (MeshConnectivity3D ET nv nt tets nh hex nw wedge np pyrmd)
          e a)
     = NO_LABEL).
Proof.
  intros Hok Hnl Hverts. rewrite mesh_phases.
  remember (alloc_conn ET nv nt tets nh hex nw wedge np pyrmd)
    as a0 eqn:Ha0.
  remember (init_vert_element_data ET a0) as ca eqn:Hca.
  remember (faces_start ET ca) as c0 eqn:Hc0.
  remember (discover_faces ET ca) as c1 eqn:Hc1.
  remember (record_faces ET c1) as c2 eqn:Hc2.
  remember (init_edge_data ET c2) as m eqn:Hm.
  intros Hlv Hle e a Hv.
  exact (BoundaryLabels.me_edge_labels ET nv nt nh nw np
           tets hex wedge pyrmd Hok a0 ca c0 c1 c2 m Ha0 Hca Hc0 Hc1 Hc2 Hm
           nl verts l0 Hnl Hverts Hlv Hle e a Hv).
Qed.

(** Label arrays for the mesh of the two tetrahedra *)
Definition sample_labels : Boundary.labels :=
  {| Boundary.vert_labels := Arr.fill 5 0;
     Boundary.edge_labels := Arr.fill 9 0;
     Boundary.face_labels := Arr.fill 7 0 |}.

Lemma sample_list i : 0 <= i < 3 -> 0 <= Arr.get [1; 2; 3] i.
Proof. intros Hi. by_cases i Hi; numerals. Qed.

(** X6 at the two tetrahedra and the list of their shared vertices *)
Lemma vertex_labels_from_list_witness :
  nverts two_tets <= Arr.len (Boundary.vert_labels sample_labels) /\
  Arr.len (Boundary.vert_labels
     (Boundary.get_labels_from_verts sample_catalog two_tets 3 [1; 2; 3] sample_labels))
  = Arr.len (Boundary.vert_labels sample_labels).
Proof.
  assert (H1 : 0 <= 3 <= Index.max) by numerals.
  assert (H3 : nverts two_tets <= Arr.len (Boundary.vert_labels sample_labels))
    by numerals.
  split; [exact H3|].
  exact (proj1 (vertex_labels_from_list sample_catalog two_tets 3 [1; 2; 3]
                  sample_labels H1 sample_list H3)).
Defined.

(** X7 at the two tetrahedra: the entry of the edge number of the second
    local edge of the first one *)
Lemma edge_labels_from_list_witness :
  edge_mesh_ok sample_catalog 5 2 [0;1;2;3; 1;2;3;4] 0 [] 0 [] 0 [] /\
  (Arr.get
     (Boundary.edge_labels
        (Boundary.get_labels_from_verts sample_catalog two_tets 3 [1; 2; 3]
           sample_labels))
     (edge_label sample_catalog two_tets 0 1)
   = edge_label sample_catalog two_tets 0 1 \/
   Arr.get
     (Boundary.edge_labels
        (Boundary.get_labels_from_verts sample_catalog two_tets 3 [1; 2; 3]
           sample_labels))
     (edge_label sample_catalog two_tets 0 1)
   = NO_LABEL).
Proof.
  assert (H1 : 0 <= 3 <= Index.max) by numerals.
  assert (H3 : nverts two_tets <= Arr.len (Boundary.vert_labels sample_labels))
    by numerals.
  assert (H4 : nedges two_tets <= Arr.len (Boundary.edge_labels sample_labels))
    by numerals.
  assert (Ha : edge_valid sample_catalog two_tets 0 1) by (split; numerals).
  split; [exact two_tets_ok|].
  exact (proj2 (edge_labels_from_list sample_catalog 5 2 [0;1;2;3; 1;2;3;4]
                  0 [] 0 [] 0 [] 3 [1; 2; 3] sample_labels two_tets_ok H1
                  sample_list H3 H4 0 1 Ha)).
Defined.


Module BoundaryFaces.

Import Boundary BoundaryLabels.

Section FaceTest.

Variable ET : ElementTypes.

(** An element of the mesh has faces of three or four vertices. *)
Lemma face_verts_arity c elem f v :
  counts_ok c -> 0 <= elem < total_elems c ->
  fst (get_element_face_verts ET c elem f v) = 3 \/
  fst (get_element_face_verts ET c elem f v) = 4.
Proof.
  intros Hc He. destruct (partial_sums Hc) as (S1 & S2 & S3).
  unfold total_elems in He. unfold get_element_face_verts.
  rewrite S3, S2, S1.
  repeat match goal with
         | |- context [if ?a <? ?b then _ else _] => destruct (Z.ltb_spec a b)
         end; cbn [fst]; auto; lia.
Qed.

(** The face test reads the vertices in local order; it holds exactly when
    every vertex of the sorted tuple is marked. *)
Lemma marked_sorted vl n t :
  n = 3 \/ n = 4 ->
  forallb (marked vl)
    (firstn (Z.to_nat (fst (sort_face_verts n t (uninit 4))))
       (snd (sort_face_verts n t (uninit 4))))
  = if n =? 3 then
      marked vl (Arr.get t 0) && marked vl (Arr.get t 1) && marked vl (Arr.get t 2)
    else
      marked vl (Arr.get t 0) && marked vl (Arr.get t 1) && marked vl (Arr.get t 2)
      && marked vl (Arr.get t 3).
Proof.
  assert (Hu : (4 <= length (uninit 4))%nat) by (simpl; lia).
  generalize (marked vl); intros mk.
  intros [-> | ->]; unfold sort_face_verts; cbv zeta.
  - change (3 =? 3) with true. cbv iota.
    repeat match goal with |- context [if ?b then _ else _] => destruct b end;
      cbn [fst snd]; change (Z.to_nat 3) with 3%nat;
      rewrite firstn_put3 by lia; cbn [forallb];
      destruct (mk (Arr.get t 0)), (mk (Arr.get t 1)), (mk (Arr.get t 2));
      reflexivity.
  - change (4 =? 3) with false. cbv iota.
    repeat match goal with |- context [if ?b then _ else _] => destruct b end;
      cbn [fst snd]; change (Z.to_nat 4) with 4%nat;
      rewrite firstn_put4 by lia; cbn [forallb];
      destruct (mk (Arr.get t 0)), (mk (Arr.get t 1)), (mk (Arr.get t 2)),
        (mk (Arr.get t 3)); reflexivity.
Qed.

Lemma face_marked_tuple c vl elem f :
  counts_ok c -> 0 <= elem < total_elems c ->
  face_marked ET c vl elem f = forallb (marked vl) (face_tuple ET c elem f).
Proof.
  intros Hc He.
  pose proof (face_verts_arity c elem f (uninit 4) Hc He) as Ha.
  unfold face_marked, face_tuple, get_element_global_face_verts.
  destruct (get_element_face_verts ET c elem f (uninit 4)) as [n t].
  cbn [fst] in Ha.
  pose proof (marked_sorted vl n t Ha) as Hs.
  destruct (sort_face_verts n t (uninit 4)) as [n' o]. cbn [fst snd] in Hs.
  rewrite Hs. destruct Ha as [-> | ->]; reflexivity.
Qed.

End FaceTest.

(** The vertex loop writes the vertex labels only. *)
Lemma label_verts_others conn verts n l :
  edge_labels (for_range 0 n (label_vert conn verts) l) = edge_labels l /\
  face_labels (for_range 0 n (label_vert conn verts) l) = face_labels l.
Proof.
  apply (for_range_preserves
    (fun t => edge_labels t = edge_labels l /\ face_labels t = face_labels l)).
  - intros j t _ Ht. unfold label_vert.
    destruct (Arr.get verts j <? nverts conn); exact Ht.
  - split; reflexivity.
Qed.

Section MeshFaceLabels.

Variable ET : ElementTypes.
Variable ca : Conn.
Hypothesis Hc : faces_ok ET ca.
Hypothesis Hn : nelems ca = total_elems ca.
Hypothesis Htot : 2 * total_faces ET ca <= Index.max.
Hypothesis Hadj : adjacency_nonneg ca.

Variables c0 c1 c2 m : Conn.
Hypothesis Hc0 : c0 = faces_start ET ca.
Hypothesis Hc1 : c1 = discover_faces ET ca.
Hypothesis Hc2 : c2 = record_faces ET c1.
Hypothesis Hm : m = init_edge_data ET c2.

Variable nl : Z.
Variable verts : list Z.
Variable l0 : labels.

Hypothesis Hlen_f : nfaces m <= Arr.len (face_labels l0).

Lemma mfd_face_labels e f :
  face_valid ET m e f ->
  (Arr.get (face_labels (get_labels_from_verts ET m nl verts l0)) (face_label ET m e f)
     = face_label ET m e f <->
   forall v, In v (face_tuple ET m e f) ->
     Arr.get (vert_labels (get_labels_from_verts ET m nl verts l0)) v <> NO_LABEL) /\
  (Arr.get (face_labels (get_labels_from_verts ET m nl verts l0)) (face_label ET m e f)
     = face_label ET m e f \/
   Arr.get (face_labels (get_labels_from_verts ET m nl verts l0)) (face_label ET m e f)
     = NO_LABEL).
Proof.
  intros Hv.
  pose proof (mfd_counts ET ca Hc Hn Htot Hadj c0 c1 c2 m Hc0 Hc1 Hc2 Hm)
    as (T0 & Q0 & T1 & Q1 & Hnf & Hnm).
  pose proof (mfd_inv ET ca Hc Hn Htot Hadj c0 c1 Hc0 Hc1) as (_ & _ & Hb).
  pose proof (mfd_mesh ET ca Hc Hn Htot Hadj c0 c1 c2 m Hc0 Hc1 Hc2 Hm) as Hmesh.
  pose proof (mfd_ok0 ET ca Hc c0 Hc0) as (Hcnt0 & _).
  assert (Hcnt : counts_ok m).
  { destruct Hmesh as (_ & E1 & E2 & E3 & E4 & _). unfold counts_ok in *.
    rewrite E1, E2, E3, E4. exact Hcnt0. }
  assert (Hrange : forall elem x, face_valid ET m elem x ->
            0 <= face_label ET m elem x < nfaces m).
  { intros elem x Hx.
    destruct (mfd_partition ET ca Hc Hn Htot Hadj c0 c1 c2 m Hc0 Hc1 Hc2 Hm elem x Hx)
      as [(_ & R & _)|(_ & R & _)]; lia. }
  assert (Hslot : forall elem x,
            0 <= elem < nelems m /\ 0 <= x < num_faces ET m elem <->
            face_valid ET m elem x).
  { intros elem x. unfold face_valid, valid_entry. rewrite Hnm. reflexivity. }
  rewrite labels_unfold.
  remember (for_range 0 nl (label_vert m verts) (filled m l0)) as lv eqn:Elv.
  assert (Hflv : face_labels lv = face_labels (filled m l0)).
  { subst lv. apply label_verts_others. }
  assert (Hkey : forall elem x,
            0 <= elem < nelems m -> 0 <= x < num_faces ET m elem ->
            0 <= face_label ET m elem x).
  { intros elem x H1 H2. apply Hrange, Hslot. split; assumption. }
  assert (Hn0 : 0 <= nelems m) by (destruct Hv as (Hv1 & _); lia).
  destruct (face_state_all ET m lv Hkey Hn0) as (Evl & Hlen & Hmk).
  remember (for_range 0 (nelems m) (label_element ET m) lv) as r eqn:Er.
  pose proof (Hrange e f Hv) as HL.
  remember (face_label ET m e f) as L eqn:EL.
  assert (HLlen : 0 <= L < Arr.len (face_labels lv)).
  { rewrite Hflv. cbn [face_labels filled].
    rewrite (proj1 (fill_prefix_spec _ _ _)). lia. }
  destruct (Hmk L HLlen) as (Hyes & Hno).
  assert (Hcond : forall elem x, face_valid ET m elem x -> face_label ET m elem x = L ->
            face_marked ET m (vert_labels lv) elem x
            = face_marked ET m (vert_labels lv) e f).
  { intros elem x Hvx Hx. rewrite EL in Hx.
    destruct (mfd_same_face ET ca Hc Hn Htot Hadj c0 c1 c2 m Hc0 Hc1 Hc2 Hm
                elem x e f Hvx Hv Hx) as (_ & Et & _).
    rewrite !(face_marked_tuple ET m _ _ _ Hcnt) by (apply Hvx || apply Hv).
    rewrite Et. reflexivity. }
  assert (Hmarked : face_marked ET m (vert_labels lv) e f = true <->
            forall v, In v (face_tuple ET m e f) -> Arr.get (vert_labels r) v <> NO_LABEL).
  { rewrite (face_marked_tuple ET m _ _ _ Hcnt) by apply Hv.
    rewrite forallb_forall, Evl. unfold marked. split; intros H v Hin.
    - apply Z.eqb_neq, negb_true_iff, H, Hin.
    - apply negb_true_iff, Z.eqb_neq, H, Hin. }
  assert (Hfill : Arr.get (face_labels lv) L = NO_LABEL).
  { rewrite Hflv. cbn [face_labels filled].
    rewrite (proj2 (fill_prefix_spec _ _ _)) by lia.
    destruct (Z.ltb_spec L (nfaces m)); [|lia].
    destruct (Z.ltb_spec L (Arr.len (face_labels l0))); [reflexivity|lia]. }
  assert (HLne : L <> NO_LABEL) by (unfold NO_LABEL; lia).
  destruct (face_marked ET m (vert_labels lv) e f) eqn:Em.
  - assert (Hget : Arr.get (face_labels r) L = L).
    { apply Hyes. exists e, f. split; [left; apply Hslot, Hv|].
      split; [exact Em|symmetry; exact EL]. }
    split; [|left; exact Hget].
    split; [intros _; apply Hmarked; reflexivity|intros _; exact Hget].
  - assert (Hget : Arr.get (face_labels r) L = NO_LABEL).
    { rewrite <- Hfill. apply Hno. intros elem x [Hs|Hs] Hcd Hx; [|lia].
      apply Hslot in Hs. rewrite (Hcond elem x Hs Hx) in Hcd. discriminate Hcd. }
    split; [|right; exact Hget].
    split.
    + intros Hx. rewrite Hget in Hx. congruence.
    + intros Hx. apply Hmarked in Hx. discriminate Hx.
Qed.

End MeshFaceLabels.

End BoundaryFaces.

(** X8.  On a constructed mesh, [get_labels_from_verts] stores at the
    position of the number of a local face that number when every vertex of
    the face is labelled, and [NO_LABEL] otherwise. *)
Theorem face_labels_from_list (ET : ElementTypes) (nv nt : Z)
  (tets : list Z) (nh : Z) (hex : list Z) (nw : Z) (wedge : list Z)
  (np : Z) (pyrmd : list Z) (nl : Z) (verts : list Z) (l0 : Boundary.labels) :
  face_sizes_ok ET nt nh nw np ->
  nfaces (MeshConnectivity3D ET nv nt tets nh hex nw wedge np pyrmd)
    <= Arr.len (Boundary.face_labels l0) ->
  forall e f,
    face_valid ET (MeshConnectivity3D ET nv nt tets nh hex nw wedge np pyrmd) e f ->
    (Arr.get
       (Boundary.face_labels
          (Boundary.get_labels_from_verts ET
             (MeshConnectivity3D ET nv nt tets nh hex nw wedge np pyrmd) nl verts l0))
       (face_label ET (MeshConnectivity3D ET nv nt tets nh hex nw wedge np pyrmd) e f)
     = face_label ET (MeshConnectivity3D ET nv nt tets nh hex nw wedge np pyrmd) e f <->
     forall v,
       In v (face_tuple ET (MeshConnectivity3D ET nv nt tets nh hex nw wedge np pyrmd)
               e f) ->
       Arr.get
         (Boundary.vert_labels
            (Boundary.get_labels_from_verts ET
               (MeshConnectivity3D ET nv nt tets nh hex nw wedge np pyrmd) nl verts l0))
         v <> NO_LABEL) /\
    (Arr.get
       (Boundary.face_labels
          (Boundary.get_labels_from_verts ET
             (MeshConnectivity3D ET nv nt tets nh hex nw wedge np pyrmd) nl verts l0))
       (face_label ET (MeshConnectivity3D ET nv nt tets nh hex nw wedge np pyrmd) e f)
     = face_label ET (MeshConnectivity3D ET nv nt tets nh hex nw wedge np pyrmd) e f \/
     Arr.get
       (Boundary.face_labels
          (Boundary.get_labels_from_verts ET
             (MeshConnectivity3D ET nv nt tets nh hex nw wedge np pyrmd) nl verts l0))
       (face_label ET (MeshConnectivity3D ET nv nt tets nh hex nw wedge np pyrmd) e f)
     = NO_LABEL).
Proof.
  intros Hsz. rewrite mesh_phases.
  remember (init_vert_element_data ET
              (alloc_conn ET nv nt tets nh hex nw wedge np pyrmd)) as ca eqn:Hca.
  remember (faces_start ET ca) as c0 eqn:Hc0.
  remember (discover_faces ET ca) as c1 eqn:Hc1.
  remember (record_faces ET c1) as c2 eqn:Hc2.
  remember (init_edge_data ET c2) as m eqn:Hm.
  pose proof (ca_faces_ok ET nv nt nh nw np tets hex wedge pyrmd Hsz ca Hca) as Hok.
  pose proof (ca_nelems ET nv nt nh nw np tets hex wedge pyrmd Hsz ca Hca) as Hne.
  pose proof (ca_total_faces ET nv nt nh nw np tets hex wedge pyrmd Hsz ca Hca) as Htf.
  pose proof (ca_adjacency ET nv nt nh nw np tets hex wedge pyrmd ca Hca) as Hadj.
  intros Hlf e f Hv.
  exact (BoundaryFaces.mfd_face_labels ET ca Hok Hne Htf Hadj c0 c1 c2 m
           Hc0 Hc1 Hc2 Hm nl verts l0 Hlf e f Hv).
Qed.

(** X8 at the two tetrahedra: the entry of the face number of the first
    local face of the first one *)
Lemma face_labels_from_list_witness :
  face_sizes_ok sample_catalog 2 0 0 0 /\
  (Arr.get
     (Boundary.face_labels
        (Boundary.get_labels_from_verts sample_catalog two_tets 3 [1; 2; 3]
           sample_labels))
     (face_label sample_catalog two_tets 0 0)
   = face_label sample_catalog two_tets 0 0 \/
   Arr.get
     (Boundary.face_labels
        (Boundary.get_labels_from_verts sample_catalog two_tets 3 [1; 2; 3]
           sample_labels))
     (face_label sample_catalog two_tets 0 0)
   = NO_LABEL).
Proof.
  assert (Hs : face_sizes_ok sample_catalog 2 0 0 0) by (apply sample_face_sizes; lia).
  assert (H4 : nfaces two_tets <= Arr.len (Boundary.face_labels sample_labels))
    by numerals.
  assert (Ha : face_valid sample_catalog two_tets 0 0) by (split; numerals).
  split; [exact Hs|].
  exact (proj2 (face_labels_from_list sample_catalog 5 2 [0;1;2;3; 1;2;3;4]
                  0 [] 0 [] 0 [] 3 [1; 2; 3] sample_labels Hs H4 0 0 Ha)).
Defined.


(** ** The constructed mesh holds the vertices it was given *)

Section MeshVertices.

Variable ET : ElementTypes.
Variables nv nt nh nw np : Z.
Variables tets hex wedge pyrmd : list Z.

Hypothesis Hsz : face_sizes_ok ET nt nh nw np.
Hypothesis Hvok :
  verts_ok ET (alloc_conn ET nv nt tets nh hex nw wedge np pyrmd).

Variables a0 ca c0 c1 c2 m : Conn.
Hypothesis Ha0 : a0 = alloc_conn ET nv nt tets nh hex nw wedge np pyrmd.
Hypothesis Hca : ca = init_vert_element_data ET a0.
Hypothesis Hc0 : c0 = faces_start ET ca.
Hypothesis Hc1 : c1 = discover_faces ET ca.
Hypothesis Hc2 : c2 = record_faces ET c1.
Hypothesis Hm : m = init_edge_data ET c2.

Lemma mv_same :
  same_counts a0 m /\ nelems m = nelems a0 /\ nverts m = nverts a0 /\
  mem m tet_verts_ = mem a0 tet_verts_ /\ mem m hex_verts_ = mem a0 hex_verts_ /\
  mem m wedge_verts_ = mem a0 wedge_verts_ /\
  mem m pyrmd_verts_ = mem a0 pyrmd_verts_.
Proof.
  assert (Hca' : ca = init_vert_element_data ET
                   (alloc_conn ET nv nt tets nh hex nw wedge np pyrmd))
    by (rewrite Hca, Ha0; reflexivity).
  pose proof (ca_faces_ok ET nv nt nh nw np tets hex wedge pyrmd Hsz ca Hca') as Hok.
  pose proof (ca_nelems ET nv nt nh nw np tets hex wedge pyrmd Hsz ca Hca') as Hne.
  pose proof (ca_total_faces ET nv nt nh nw np tets hex wedge pyrmd Hsz ca Hca') as Htf.
  pose proof (ca_adjacency ET nv nt nh nw np tets hex wedge pyrmd ca Hca') as Hadj.
  pose proof (mfd_mesh ET ca Hok Hne Htf Hadj c0 c1 c2 m Hc0 Hc1 Hc2 Hm) as H0m.
  pose proof (same_mesh_start ET ca) as Hs. rewrite <- Hc0 in Hs.
  pose proof (@same_mesh_trans _ _ _ Hs H0m)
    as (E0 & E1 & E2 & E3 & E4 & E5 & N1 & N2 & N3 & N4 & _).
  assert (F : frame adjacency_array a0 ca)
    by (rewrite Hca; apply frame_init_vert_element_data).
  destruct (frame_adjacency_same F)
    as ((A1 & A2 & A3 & A4) & An & Av & M1 & M2 & M3 & M4).
  unfold same_counts. repeat split; congruence.
Qed.

Lemma mv_elem_vert e i : elem_vert ET m e i = elem_vert ET a0 e i.
Proof.
  destruct mv_same as ((E1 & E2 & E3 & E4) & _ & _ & M1 & M2 & M3 & M4).
  unfold elem_vert, get_element_verts. rewrite E1, E2, E3, E4.
  repeat match goal with |- context [if ?b then _ else _] => destruct b end;
    simpl; auto; unfold load; simpl p_arr; congruence.
Qed.

Lemma mv_vertices :
  nverts m = nv /\ nelems m = nt + nh + nw + np /\
  (forall e i, 0 <= e < nt -> 0 <= i < TET_VERTS ET ->
     elem_nverts ET m e = TET_VERTS ET /\
     elem_vert ET m e i = Arr.get tets (TET_VERTS ET * e + i)) /\
  (forall e i, 0 <= e < nh -> 0 <= i < HEX_VERTS ET ->
     elem_nverts ET m (nt + e) = HEX_VERTS ET /\
     elem_vert ET m (nt + e) i = Arr.get hex (HEX_VERTS ET * e + i)) /\
  (forall e i, 0 <= e < nw -> 0 <= i < WEDGE_VERTS ET ->
     elem_nverts ET m (nt + nh + e) = WEDGE_VERTS ET /\
     elem_vert ET m (nt + nh + e) i = Arr.get wedge (WEDGE_VERTS ET * e + i)) /\
  (forall e i, 0 <= e < np -> 0 <= i < PYRMD_VERTS ET ->
     elem_nverts ET m (nt + nh + nw + e) = PYRMD_VERTS ET /\
     elem_vert ET m (nt + nh + nw + e) i = Arr.get pyrmd (PYRMD_VERTS ET * e + i)).
Proof.
  pose proof mv_same as ((E1 & E2 & E3 & E4) & En & Ev & _).
  pose proof Hvok as (Hc & P1 & P2 & P3 & P4 & B1 & B2 & B3 & B4 & _).
  rewrite <- Ha0 in Hc, B1, B2, B3, B4.
  destruct (partial_sums Hc) as (S1 & S2 & S3).
  destruct Hc as (C1 & C2 & C3 & C4 & C5).
  assert (Hmax : Index.max < Index.modulus)
    by (unfold Index.max; rewrite Index.modulus_eq; lia).
  assert (Hcnt : forall e, elem_nverts ET m e = elem_nverts ET a0 e).
  { intros e. unfold elem_nverts, get_element_verts. now rewrite E1, E2, E3, E4. }
  assert (Hn : ntets a0 = nt /\ nhex a0 = nh /\ nwedge a0 = nw /\ npyrmd a0 = np)
    by (rewrite Ha0; repeat split; reflexivity).
  destruct Hn as (N1 & N2 & N3 & N4).
  rewrite N1, N2, N3, N4 in *.
  split; [rewrite Ev, Ha0; reflexivity|].
  split; [rewrite En, Ha0; exact S3|].
  assert (Hsmall : forall s n e i, 0 <= s -> s * n <= Index.max -> 0 <= e < n ->
            0 <= i < s ->
            s *w e = s * e /\ 0 <= s * e + i < s * n /\ s *w n = s * n).
  { intros s n e i Hs Hb He Hi.
    assert (0 <= s * e) by (apply Z.mul_nonneg_nonneg; lia).
    assert (s * e + i < s * n) by nia.
    split; [apply Index.mul_small; unfold Index.ok; lia|].
    split; [lia|]. apply Index.mul_small. unfold Index.ok. nia. }
  split; [|split; [|split]]; intros e i He Hi; rewrite Hcnt, mv_elem_vert;
    unfold elem_nverts, elem_vert, get_element_verts;
    rewrite ?N1, ?N2, ?N3, ?N4, ?S3, ?S2, ?S1.
  - destruct (Z.ltb_spec e nt); [|lia]. cbn [fst snd load_out at_].
    split; [reflexivity|]. unfold load. cbn [p_arr p_off].
    destruct (Hsmall _ _ e i P1 B1 He Hi) as (X1 & X2 & X3).
    rewrite X1, Ha0. cbn [mem alloc_conn]. rewrite X3.
    apply Pattern.copy_array_spec; lia.
  - destruct (Z.ltb_spec (nt + e) nt); [lia|].
    destruct (Z.ltb_spec (nt + e) (nt + nh)); [|lia]. cbn [fst snd load_out at_].
    split; [reflexivity|]. unfold load. cbn [p_arr p_off].
    replace (nt + e -w nt) with e
      by (rewrite Index.sub_small by (unfold Index.ok; lia); lia).
    destruct (Hsmall _ _ e i P2 B2 He Hi) as (X1 & X2 & X3).
    rewrite X1, Ha0. cbn [mem alloc_conn]. rewrite X3.
    apply Pattern.copy_array_spec; lia.
  - destruct (Z.ltb_spec (nt + nh + e) nt); [lia|].
    destruct (Z.ltb_spec (nt + nh + e) (nt + nh)); [lia|].
    destruct (Z.ltb_spec (nt + nh + e) (nt + nh + nw)); [|lia].
    cbn [fst snd load_out at_].
    split; [reflexivity|]. unfold load. cbn [p_arr p_off].
    replace (nt + nh + e -w nt -w nh) with e
      by (rewrite (Index.sub_small (nt + nh + e) nt) by (unfold Index.ok; lia);
          rewrite Index.sub_small by (unfold Index.ok; lia); lia).
    destruct (Hsmall _ _ e i P3 B3 He Hi) as (X1 & X2 & X3).
    rewrite X1, Ha0. cbn [mem alloc_conn]. rewrite X3.
    apply Pattern.copy_array_spec; lia.
  - destruct (Z.ltb_spec (nt + nh + nw + e) nt); [lia|].
    destruct (Z.ltb_spec (nt + nh + nw + e) (nt + nh)); [lia|].
    destruct (Z.ltb_spec (nt + nh + nw + e) (nt + nh + nw)); [lia|].
    destruct (Z.ltb_spec (nt + nh + nw + e) (nt + nh + nw + np)); [|lia].
    cbn [fst snd load_out at_].
    split; [reflexivity|]. unfold load. cbn [p_arr p_off].
    replace (nt + nh + nw + e -w nt -w nh -w nw) with e
      by (rewrite (Index.sub_small (nt + nh + nw + e) nt) by (unfold Index.ok; lia);
          rewrite (Index.sub_small (nt + nh + nw + e - nt) nh)
            by (unfold Index.ok; lia);
          rewrite Index.sub_small by (unfold Index.ok; lia); lia).
    destruct (Hsmall _ _ e i P4 B4 He Hi) as (X1 & X2 & X3).
    rewrite X1, Ha0. cbn [mem alloc_conn]. rewrite X3.
    apply Pattern.copy_array_spec; lia.
Qed.

End MeshVertices.

(** X9.  A constructed mesh answers [get_element_verts] with the vertices
    the constructor was given: the elements are numbered tetrahedra first,
    then hexahedra, wedges and pyramids, and local vertex [i] of the [e]-th
    element of a kind is entry [e * VERTS + i] of the input array of that
    kind; the three construction phases leave the vertex data alone. *)
Theorem mesh_keeps_vertices (ET : ElementTypes) (nv nt : Z) (tets : list Z)
  (nh : Z) (hex : list Z) (nw : Z) (wedge : list Z) (np : Z) (pyrmd : list Z) :
  face_sizes_ok ET nt nh nw np ->
  verts_ok ET (alloc_conn ET nv nt tets nh hex nw wedge np pyrmd) ->
  nverts (MeshConnectivity3D ET nv nt tets nh hex nw wedge np pyrmd) = nv /\
  nelems (MeshConnectivity3D ET nv nt tets nh hex nw wedge np pyrmd)
    = nt + nh + nw + np /\
  (forall e i, 0 <= e < nt -> 0 <= i < TET_VERTS ET ->
     elem_nverts ET (MeshConnectivity3D ET nv nt tets nh hex nw wedge np pyrmd) e
       = TET_VERTS ET /\
     elem_vert ET (MeshConnectivity3D ET nv nt tets nh hex nw wedge np pyrmd) e i
       = Arr.get tets (TET_VERTS ET * e + i)) /\
  (forall e i, 0 <= e < nh -> 0 <= i < HEX_VERTS ET ->
     elem_nverts ET (MeshConnectivity3D ET nv nt tets nh hex nw wedge np pyrmd)
       (nt + e) = HEX_VERTS ET /\
     elem_vert ET (MeshConnectivity3D ET nv nt tets nh hex nw wedge np pyrmd)
       (nt + e) i = Arr.get hex (HEX_VERTS ET * e + i)) /\
  (forall e i, 0 <= e < nw -> 0 <= i < WEDGE_VERTS ET ->
     elem_nverts ET (MeshConnectivity3D ET nv nt tets nh hex nw wedge np pyrmd)
       (nt + nh + e) = WEDGE_VERTS ET /\
     elem_vert ET (MeshConnectivity3D ET nv nt tets nh hex nw wedge np pyrmd)
       (nt + nh + e) i = Arr.get wedge (WEDGE_VERTS ET * e + i)) /\
  (forall e i, 0 <= e < np -> 0 <= i < PYRMD_VERTS ET ->
     elem_nverts ET (MeshConnectivity3D ET nv nt tets nh hex nw wedge np pyrmd)
       (nt + nh + nw + e) = PYRMD_VERTS ET /\
     elem_vert ET (MeshConnectivity3D ET nv nt tets nh hex nw wedge np pyrmd)
       (nt + nh + nw + e) i = Arr.get pyrmd (PYRMD_VERTS ET * e + i)).
Proof.
  intros Hsz Hvok. rewrite mesh_phases.
  remember (alloc_conn ET nv nt tets nh hex nw wedge np pyrmd) as a0 eqn:Ha0.
  remember (init_vert_element_data ET a0) as ca eqn:Hca.
  remember (faces_start ET ca) as c0 eqn:Hc0.
  remember (discover_faces ET ca) as c1 eqn:Hc1.
  remember (record_faces ET c1) as c2 eqn:Hc2.
  remember (init_edge_data ET c2) as m eqn:Hm.
  rewrite Ha0 in Hvok.
  exact (mv_vertices ET nv nt nh nw np tets hex wedge pyrmd Hsz Hvok
           a0 ca c0 c1 c2 m Ha0 Hca Hc0 Hc1 Hc2 Hm).
Qed.

(** X9 at the two tetrahedra *)
Lemma mesh_keeps_vertices_witness :
  face_sizes_ok sample_catalog 2 0 0 0 /\ nverts two_tets = 5.
Proof.
  assert (Hs : face_sizes_ok sample_catalog 2 0 0 0) by (apply sample_face_sizes; lia).
  split; [exact Hs|].
  exact (proj1 (mesh_keeps_vertices sample_catalog 5 2 [0;1;2;3; 1;2;3;4]
                  0 [] 0 [] 0 [] Hs (proj1 (proj2 (proj2 two_tets_ok))))).
Defined.


(** ** Applying boundary conditions to a vector *)

Module BoundaryValues.

Import Boundary.

Section SetBcs.

(** The entry type of the vector *)
Variable T : Type.

Fixpoint vec_set_nat (vec : list T) (n : nat) (v : T) : list T :=
  match vec, n with
  | [], _ => []
  | _ :: t, O => v :: t
  | h :: t, S k => h :: vec_set_nat t k v
  end.

(** [vec[i] = v]; a write outside the vector is undefined in the source and
    leaves the vector unchanged here. *)
Definition vec_set (vec : list T) (i : Z) (v : T) : list T :=
  vec_set_nat vec (Z.to_nat i) v.

(** [set_bcs(vec, value)] *)
Definition set_bcs (bc : BoundaryCondition) (vec : list T) (value : T) : list T :=
  for_range 0 (bc_ndof bc)
    (fun i vec => vec_set vec (Arr.get (bc_dof bc) i) value) vec.

Lemma length_vec_set vec i v : length (vec_set vec i v) = length vec.
Proof.
  unfold vec_set. generalize (Z.to_nat i). intros n. revert n.
  induction vec as [|h t IH]; intros [|n]; simpl; auto.
Qed.

Lemma nth_vec_set_eq vec i v d :
  0 <= i < Z.of_nat (length vec) -> nth (Z.to_nat i) (vec_set vec i v) d = v.
Proof.
  unfold vec_set. intros Hi.
  assert (H : (Z.to_nat i < length vec)%nat) by lia.
  clear Hi. revert H. generalize (Z.to_nat i). intros n. revert n.
  induction vec as [|h t IH]; intros [|n] H; simpl in *; try lia; auto.
  apply IH. lia.
Qed.

Lemma nth_vec_set_ne vec i j v d :
  0 <= i -> 0 <= j -> i <> j ->
  nth (Z.to_nat j) (vec_set vec i v) d = nth (Z.to_nat j) vec d.
Proof.
  unfold vec_set. intros Hi Hj Hne.
  assert (H : Z.to_nat i <> Z.to_nat j) by lia.
  revert H. generalize (Z.to_nat i) (Z.to_nat j). intros n k. revert n k.
  induction vec as [|h t IH]; intros [|n] [|k] H; simpl; auto; congruence.
Qed.

Variable bc : BoundaryCondition.
Variable vec : list T.
Variable value : T.

Hypothesis Hdof : forall i, 0 <= i < bc_ndof bc -> 0 <= Arr.get (bc_dof bc) i.

Lemma set_bcs_entries :
  length (set_bcs bc vec value) = length vec /\
  forall d dflt, 0 <= d < Z.of_nat (length vec) ->
    ((exists i, 0 <= i < bc_ndof bc /\ Arr.get (bc_dof bc) i = d) ->
       nth (Z.to_nat d) (set_bcs bc vec value) dflt = value) /\
    ((forall i, 0 <= i < bc_ndof bc -> Arr.get (bc_dof bc) i <> d) ->
       nth (Z.to_nat d) (set_bcs bc vec value) dflt = nth (Z.to_nat d) vec dflt).
Proof.
  unfold set_bcs.
  destruct (Z_le_gt_dec 0 (bc_ndof bc)) as [Hn|Hn].
  2:{ rewrite for_range_empty by lia. split; [reflexivity|].
      intros d dflt Hd. split; [intros (i & Hi & _); lia|reflexivity]. }
  apply (for_range_inv
    (fun k t => length t = length vec /\
       forall d dflt, 0 <= d < Z.of_nat (length vec) ->
         ((exists i, 0 <= i < k /\ Arr.get (bc_dof bc) i = d) ->
            nth (Z.to_nat d) t dflt = value) /\
         ((forall i, 0 <= i < k -> Arr.get (bc_dof bc) i <> d) ->
            nth (Z.to_nat d) t dflt = nth (Z.to_nat d) vec dflt))).
  - exact Hn.
  - split; [reflexivity|]. intros d dflt Hd.
    split; [intros (i & Hi & _); lia|reflexivity].
  - intros j t Hj (Hl & Ht). split; [rewrite length_vec_set; exact Hl|].
    intros d dflt Hd. destruct (Ht d dflt Hd) as (H1 & H2).
    pose proof (Hdof j Hj) as Hnn.
    destruct (Z.eq_dec (Arr.get (bc_dof bc) j) d) as [E|N].
    + split.
      * intros _. rewrite E. apply nth_vec_set_eq. lia.
      * intros Hno. exfalso. apply (Hno j); [lia|exact E].
    + rewrite nth_vec_set_ne by lia. split.
      * intros (i & Hi & Ei). apply H1. exists i. split; [|exact Ei].
        assert (i <> j) by congruence. lia.
      * intros Hno. apply H2. intros i Hi. apply Hno. lia.
Qed.

End SetBcs.

End BoundaryValues.

(** X10.  [set_bcs] keeps the length of the vector, stores the value at
    every position that the list of constrained degrees of freedom names,
    and leaves every other entry as it was. *)
Theorem set_bcs_sets_listed (T : Type) (bc : Boundary.BoundaryCondition)
  (vec : list T) (value : T) :
  (forall i, 0 <= i < Boundary.bc_ndof bc -> 0 <= Arr.get (Boundary.bc_dof bc) i) ->
  length (BoundaryValues.set_bcs T bc vec value) = length vec /\
  forall d dflt, 0 <= d < Z.of_nat (length vec) ->
    ((exists i, 0 <= i < Boundary.bc_ndof bc /\ Arr.get (Boundary.bc_dof bc) i = d) ->
       nth (Z.to_nat d) (BoundaryValues.set_bcs T bc vec value) dflt = value) /\
    ((forall i, 0 <= i < Boundary.bc_ndof bc -> Arr.get (Boundary.bc_dof bc) i <> d) ->
       nth (Z.to_nat d) (BoundaryValues.set_bcs T bc vec value) dflt
       = nth (Z.to_nat d) vec dflt).
Proof. intros Hdof. exact (BoundaryValues.set_bcs_entries T bc vec value Hdof). Qed.

(** X10 at a list of two degrees of freedom and a vector of four entries *)
Lemma set_bcs_sets_listed_witness :
  length (BoundaryValues.set_bcs bool
            {| Boundary.bc_ndof := 2; Boundary.bc_dof := [3; 1] |}
            [false; false; false; false] true) = 4%nat.
Proof.
  assert (H : forall i, 0 <= i < 2 -> 0 <= Arr.get [3; 1] i).
  { intros i Hi. by_cases i Hi; numerals. }
  exact (proj1 (set_bcs_sets_listed bool
                  {| Boundary.bc_ndof := 2; Boundary.bc_dof := [3; 1] |}
                  [false; false; false; false] true H)).
Defined.


(** ** The sweep over the elements *)

Module Sweep.

Import Numbering.

Lemma length_zrange n lo : length (zrange lo n) = n.
Proof. revert lo. induction n as [|n IH]; intros lo; simpl; auto. Qed.

Lemma nodup_map_zrange (f : Z -> Z) n :
  forall lo,
    (forall a b, lo <= a -> a < b -> b < lo + Z.of_nat n -> f a <> f b) ->
    NoDup (map f (zrange lo n)).
Proof.
  induction n as [|n IH]; intros lo Hinj; simpl; [constructor|].
  constructor.
  - rewrite in_map_iff. intros (j & Ej & Hj). apply in_zrange in Hj.
    apply (Hinj lo j); first [lia | congruence].
  - apply IH. intros a b Ha Hab Hb. apply Hinj; lia.
Qed.

Section Sweep.

Variable ET : ElementTypes.
Variable conn : Conn.

(** The number of elements, [nelems] in the constructor *)
Variable n : Z.
Hypothesis Hn : 0 < n < Index.max.

(** Element [e] is among the first [next] entries of the stack. *)
Definition on_stack (s : sweep) (e : Z) : Prop :=
  exists k, 0 <= k < next s /\ Arr.get (stack s) k = e.

Record sweep_inv (s : sweep) : Prop := {
  inv_ids : Arr.len (ids s) = n;
  inv_stack : Arr.len (stack s) = n;
  inv_next : 1 <= next s <= n;
  inv_first : Arr.get (stack s) 0 = 0;
  inv_range : forall k, 0 <= k < next s -> 0 <= Arr.get (stack s) k < n;
  inv_distinct : forall k k', 0 <= k -> k < k' -> k' < next s ->
    Arr.get (stack s) k <> Arr.get (stack s) k';
  inv_marked : forall e, 0 <= e < n ->
    (Arr.get (ids s) e <> NO_INDEX <-> on_stack s e)
}.

(** The stack keeps its entries and gains new ones at its end. *)
Definition grows (s s' : sweep) : Prop :=
  next s <= next s' /\
  forall k, 0 <= k < next s -> Arr.get (stack s') k = Arr.get (stack s) k.

Lemma stack_grows_refl s : grows s s.
Proof. split; [lia|auto]. Qed.

Lemma stack_grows_trans s1 s2 s3 : grows s1 s2 -> grows s2 s3 -> grows s1 s3.
Proof.
  intros (A1 & A2) (B1 & B2). split; [lia|].
  intros k Hk. rewrite B2 by lia. apply A2, Hk.
Qed.

Lemma grows_on_stack s s' e : grows s s' -> on_stack s e -> on_stack s' e.
Proof.
  intros (G1 & G2) (k & Hk & Ek). exists k. split; [lia|].
  rewrite G2 by lia. exact Ek.
Qed.

(** An element that is not on the stack leaves room for one more entry. *)
Lemma stack_room s e :
  sweep_inv s -> 0 <= e < n -> ~ on_stack s e -> next s < n.
Proof.
  intros I He Hno.
  pose proof (inv_next s I) as Hnx.
  set (l := map (Arr.get (stack s)) (zrange 0 (Z.to_nat (next s)))).
  assert (Hnd : NoDup (e :: l)).
  { constructor.
    - unfold l. rewrite in_map_iff. intros (k & Ek & Hk).
      apply in_zrange in Hk. apply Hno. exists k. split; [lia|exact Ek].
    - apply nodup_map_zrange. intros a b Ha Hab Hb.
      apply (inv_distinct s I); lia. }
  assert (Hincl : incl (e :: l) (zrange 0 (Z.to_nat n))).
  { intros x [<-|Hx]; apply in_zrange.
    - lia.
    - unfold l in Hx. rewrite in_map_iff in Hx. destruct Hx as (k & Ek & Hk).
      apply in_zrange in Hk. pose proof (inv_range s I k ltac:(lia)). lia. }
  pose proof (NoDup_incl_length Hnd Hincl) as Hlen.
  simpl in Hlen. unfold l in Hlen.
  rewrite length_map, !length_zrange in Hlen. lia.
Qed.

Lemma visit_inv level e s :
  sweep_inv s -> 0 <= level < NO_INDEX ->
  sweep_inv (visit n level e s) /\ grows s (visit n level e s) /\
  (0 <= e < n -> on_stack (visit n level e s) e) /\
  (forall x, on_stack (visit n level e s) x ->
     on_stack s x \/ (x = e /\ 0 <= e < n)).
Proof.
  intros I Hl. pose proof (inv_next s I) as Hnx.
  assert (H0 : Arr.get (ids s) 0 <> NO_INDEX).
  { apply (inv_marked s I); [lia|]. exists 0. split; [lia|apply (inv_first s I)]. }
  assert (Hsame : visit n level e s = s ->
    sweep_inv (visit n level e s) /\ grows s (visit n level e s) /\
    (forall x, on_stack (visit n level e s) x ->
       on_stack s x \/ (x = e /\ 0 <= e < n))).
  { intros ->. split; [exact I|]. split; [apply stack_grows_refl|]. intros x Hx. now left. }
  unfold visit in *.
  destruct (Z.ltb_spec e n) as [Hlt|Hge].
  2:{ destruct (Hsame eq_refl) as (A & B & C).
      split; [exact A|]. split; [exact B|]. split; [intros; lia|exact C]. }
  destruct (Z.eqb_spec (Arr.get (ids s) e) NO_INDEX) as [Eno|Nno].
  2:{ destruct (Hsame eq_refl) as (A & B & C).
      split; [exact A|]. split; [exact B|]. split; [|exact C].
      intros He. apply (inv_marked s I); assumption. }
  clear Hsame.
  assert (He : 0 <= e).
  { destruct (Z_lt_le_dec e 0) as [Hneg|]; [|assumption].
    exfalso. apply H0. unfold Arr.get in *.
    replace (Z.to_nat e) with (Z.to_nat 0) in Eno by lia. exact Eno. }
  assert (Hoff : ~ on_stack s e).
  { intros Hon. apply (inv_marked s I) in Hon; [|lia]. contradiction. }
  pose proof (stack_room s e I ltac:(lia) Hoff) as Hroom.
  assert (Hw : next s +w 1 = next s + 1).
  { apply Index.add_small, ok_of_bounds. lia. }
  rewrite Hw.
  assert (Hget : forall k, 0 <= k < next s ->
            Arr.get (Arr.set (stack s) (next s) e) k = Arr.get (stack s) k).
  { intros k Hk. apply Arr.get_set_ne; lia. }
  assert (Hnew : Arr.get (Arr.set (stack s) (next s) e) (next s) = e).
  { apply Arr.get_set_eq. rewrite (inv_stack s I). lia. }
  split; [|split; [|split]].
  - constructor; cbn [ids stack next].
    + rewrite Arr.len_set. apply (inv_ids s I).
    + rewrite Arr.len_set. apply (inv_stack s I).
    + lia.
    + rewrite Hget by lia. apply (inv_first s I).
    + intros k Hk. destruct (Z.eq_dec k (next s)) as [->|Nk].
      * rewrite Hnew. lia.
      * rewrite Hget by lia. apply (inv_range s I). lia.
    + intros k k' Hk Hkk Hk'. rewrite (Hget k) by lia.
      destruct (Z.eq_dec k' (next s)) as [->|Nk].
      * rewrite Hnew. intros E. apply Hoff. exists k. split; [lia|exact E].
      * rewrite Hget by lia. apply (inv_distinct s I); lia.
    + intros x Hx. unfold on_stack. cbn [ids stack next].
      destruct (Z.eq_dec x e) as [->|Nx].
      * rewrite Arr.get_set_eq by (rewrite (inv_ids s I); lia).
        split; [|unfold NO_INDEX in *; lia].
        intros _. exists (next s). split; [lia|exact Hnew].
      * rewrite Arr.get_set_ne by lia. rewrite (inv_marked s I x Hx). split.
        -- intros (k & Hk & Ek). exists k. split; [lia|].
           rewrite Hget by lia. exact Ek.
        -- intros (k & Hk & Ek). destruct (Z.eq_dec k (next s)) as [->|Nk].
           ++ rewrite Hnew in Ek. congruence.
           ++ exists k. split; [lia|]. rewrite Hget in Ek by lia. exact Ek.
  - split; cbn [ids stack next]; [lia|exact Hget].
  - intros _. exists (next s). cbn [ids stack next]. split; [lia|exact Hnew].
  - intros x (k & Hk & Ek). cbn [ids stack next] in Hk, Ek.
    destruct (Z.eq_dec k (next s)) as [->|Nk].
    + rewrite Hnew in Ek. right. split; [congruence|lia].
    + left. exists k. split; [lia|]. rewrite Hget in Ek by lia. exact Ek.
Qed.

(** Element [x] shares a face of element [e]: it is one of the two entries
    that [get_face_elements] returns for a face of [e], and it is below
    [nelems]. *)
Definition neighbour (e x : Z) : Prop :=
  exists j, 0 <= j < num_faces ET conn e /\
    (x = snd (fst (get_face_elements conn (face_label ET conn e j))) \/
     x = snd (get_face_elements conn (face_label ET conn e j))) /\
    0 <= x < n.

Lemma sweep_face_inv level cur j s :
  sweep_inv s -> 0 <= level < NO_INDEX -> 0 <= j < num_faces ET conn cur ->
  let s' := sweep_face conn n level (snd (get_element_faces ET conn cur None)) j s in
  sweep_inv s' /\ grows s s' /\
  (forall x,
     (x = snd (fst (get_face_elements conn (face_label ET conn cur j))) \/
      x = snd (get_face_elements conn (face_label ET conn cur j))) ->
     0 <= x < n -> on_stack s' x) /\
  (forall x, on_stack s' x -> on_stack s x \/ neighbour cur x).
Proof.
  intros I Hl Hj. unfold sweep_face.
  change (load_out conn (snd (get_element_faces ET conn cur None)) j)
    with (face_label ET conn cur j).
  destruct (get_face_elements conn (face_label ET conn cur j)) as [[b e1] e2] eqn:Ef.
  cbn [fst snd]. cbv zeta.
  destruct (visit_inv level e1 s I Hl) as (I1 & G1 & O1 & S1).
  destruct (visit_inv level e2 _ I1 Hl) as (I2 & G2 & O2 & S2).
  split; [exact I2|]. split; [exact (stack_grows_trans _ _ _ G1 G2)|]. split.
  - intros x [-> | ->] Hx.
    + apply (grows_on_stack _ _ _ G2), O1, Hx.
    + apply O2, Hx.
  - intros x Hx. destruct (S2 x Hx) as [Hx1|(-> & He)].
    + destruct (S1 x Hx1) as [Hx0|(-> & He)]; [left; exact Hx0|].
      right. exists j. rewrite Ef. cbn [fst snd]. auto.
    + right. exists j. rewrite Ef. cbn [fst snd]. auto.
Qed.

Lemma sweep_element_inv level i s :
  sweep_inv s -> 0 <= level < NO_INDEX ->
  let cur := Arr.get (stack s) i in
  let s' := sweep_element ET conn n level i s in
  sweep_inv s' /\ grows s s' /\
  (forall x, neighbour cur x -> on_stack s' x) /\
  (forall x, on_stack s' x -> on_stack s x \/ neighbour cur x).
Proof.
  intros I Hl cur. unfold sweep_element. fold cur.
  pose proof (eq_refl : num_faces ET conn cur = fst (get_element_faces ET conn cur None))
    as Enf.
  destruct (get_element_faces ET conn cur None) as [nf faces] eqn:Eg.
  cbn [fst] in Enf. cbv zeta.
  assert (Ef : faces = snd (get_element_faces ET conn cur None)) by (rewrite Eg; reflexivity).
  set (P := fun (j : Z) (t : sweep) =>
    sweep_inv t /\ grows s t /\
    (forall j' x, 0 <= j' < j ->
       (x = snd (fst (get_face_elements conn (face_label ET conn cur j'))) \/
        x = snd (get_face_elements conn (face_label ET conn cur j'))) ->
       0 <= x < n -> on_stack t x) /\
    (forall x, on_stack t x -> on_stack s x \/ neighbour cur x)).
  assert (Hend : P (Z.max 0 nf) (for_range 0 nf (sweep_face conn n level faces) s)).
  { destruct (Z_le_gt_dec 0 nf) as [Hnf|Hnf].
    - rewrite Z.max_r by lia. apply (for_range_inv P); [exact Hnf| |].
      + split; [exact I|]. split; [apply stack_grows_refl|]. split.
        * intros j' x Hj'. lia.
        * intros x Hx. now left.
      + intros j t Hj (It & Gt & Ct & St). rewrite Ef.
        destruct (sweep_face_inv level cur j t It Hl ltac:(lia)) as (I' & G' & C' & S').
        split; [exact I'|]. split; [exact (stack_grows_trans _ _ _ Gt G')|]. split.
        * intros j' x Hj' Hx Hr. destruct (Z.eq_dec j' j) as [->|Nj].
          -- apply C'; assumption.
          -- apply (grows_on_stack _ _ _ G'), (Ct j' x); [lia|assumption|assumption].
        * intros x Hx. destruct (S' x Hx) as [Hx1|Hx1]; [apply St, Hx1|now right].
    - rewrite for_range_empty by lia. rewrite Z.max_l by lia.
      split; [exact I|]. split; [apply stack_grows_refl|]. split.
      + intros j' x Hj'. lia.
      + intros x Hx. now left. }
  destruct Hend as (I' & G' & C' & S').
  split; [exact I'|]. split; [exact G'|]. split; [|exact S'].
  intros x (j & Hj & Hx & Hr). apply (C' j x); [lia|exact Hx|exact Hr].
Qed.

(** The elements that the sweep can reach from element [0] through shared
    faces *)
Inductive reachable : Z -> Prop :=
| reach_first : reachable 0
| reach_next e x : reachable e -> neighbour e x -> reachable x.

(** Every neighbour of the first [p] stack entries is on the stack. *)
Definition closed (p : Z) (s : sweep) : Prop :=
  forall k x, 0 <= k < p -> neighbour (Arr.get (stack s) k) x -> on_stack s x.

Definition sound (s : sweep) : Prop := forall x, on_stack s x -> reachable x.

Lemma closed_grows p s s' :
  grows s s' -> p <= next s -> closed p s -> closed p s'.
Proof.
  intros G Hp C k x Hk Hx. apply (grows_on_stack _ _ _ G).
  apply (C k x Hk). destruct G as (_ & G2). rewrite <- G2 by lia. exact Hx.
Qed.

(** One level: the loop over the stack entries [start .. end_) *)
Lemma sweep_level_inv level start end_ s :
  sweep_inv s -> 0 <= level < NO_INDEX -> 0 <= start <= end_ -> next s = end_ ->
  closed start s -> sound s ->
  let s' := for_range start end_ (sweep_element ET conn n level) s in
  sweep_inv s' /\ grows s s' /\ closed end_ s' /\ sound s'.
Proof.
  intros I Hl Hse Hnx Hc Hs.
  apply (for_range_inv
    (fun i t => sweep_inv t /\ grows s t /\ closed i t /\ sound t)).
  - lia.
  - split; [exact I|]. split; [apply stack_grows_refl|]. split; assumption.
  - intros i t Hi (It & Gt & Ct & St).
    destruct (sweep_element_inv level i t It Hl) as (I' & G' & C' & S').
    cbv zeta in C', S'.
    split; [exact I'|]. split; [exact (stack_grows_trans _ _ _ Gt G')|]. split.
    + intros k x Hk Hx. destruct (Z.eq_dec k i) as [->|Nk].
      * apply C'. destruct G' as (_ & G2). rewrite <- G2; [exact Hx|].
        destruct Gt as (Gt1 & _). lia.
      * assert (Hle : i <= next t) by (destruct Gt as (Gt1 & _); lia).
        exact (closed_grows i t _ G' Hle Ct k x ltac:(lia) Hx).
    + intros x Hx. destruct (S' x Hx) as [Hx1|Hx1]; [apply St, Hx1|].
      apply reach_next with (Arr.get (stack t) i); [|exact Hx1].
      apply St. exists i. split; [destruct Gt as (Gt1 & _); lia|reflexivity].
Qed.

(** The state at the head of the [while] loop *)
Definition at_head (start end_ level : Z) (s : sweep) : Prop :=
  sweep_inv s /\ next s = end_ /\ 0 <= start <= end_ /\ 0 <= level <= start /\
  closed start s /\ sound s.

Lemma same_next s : {| ids := ids s; stack := stack s; next := next s |} = s.
Proof. destruct s; reflexivity. Qed.

Lemma head_step start end_ level s :
  at_head start end_ level s -> start < end_ ->
  let s' := for_range start end_ (sweep_element ET conn n (level +w 1))
              {| ids := ids s; stack := stack s; next := end_ |} in
  at_head end_ (next s') (level +w 1) s' /\ grows s s'.
Proof.
  intros (I & Hnx & Hse & Hl & Hc & Hs) Hlt. rewrite <- Hnx, same_next.
  pose proof (inv_next s I) as Hb.
  assert (Hw : level +w 1 = level + 1).
  { apply Index.add_small, ok_of_bounds. lia. }
  rewrite Hw.
  assert (Hl' : 0 <= level + 1 < NO_INDEX) by (unfold NO_INDEX; lia).
  destruct (sweep_level_inv (level + 1) start (next s) s I Hl' ltac:(lia) eq_refl Hc Hs)
    as (I' & G' & C' & S').
  cbv zeta. split; [|exact G'].
  split; [exact I'|]. split; [reflexivity|].
  destruct G' as (G1 & _). repeat split; try lia; assumption.
Qed.

(** With fuel for the remaining stack positions the loop runs to its end:
    it stops at a state whose stack is closed. *)
Lemma sweep_levels_run fuel :
  forall start end_ level s,
    at_head start end_ level s -> n - start <= Z.of_nat fuel ->
    let r := sweep_levels ET conn fuel n start end_ level s in
    sweep_inv r /\ grows s r /\ closed (next r) r /\ sound r /\
    forall more, sweep_levels ET conn (fuel + more) n start end_ level s = r.
Proof.
  induction fuel as [|fuel IH]; intros start end_ level s H Hf; cbv zeta.
  - pose proof H as (I & Hnx & Hse & Hl & Hc & Hs).
    pose proof (inv_next s I) as Hb.
    assert (start = end_) by lia. subst start.
    cbn [sweep_levels]. split; [exact I|]. split; [apply stack_grows_refl|].
    split; [rewrite Hnx; exact Hc|]. split; [exact Hs|].
    intros [|more]; cbn [sweep_levels Nat.add]; [reflexivity|].
    destruct (Z.ltb_spec end_ end_); [lia|reflexivity].
  - pose proof H as (I & Hnx & Hse & Hl & Hc & Hs).
    cbn [sweep_levels Nat.add].
    destruct (Z.ltb_spec start end_) as [Hlt|Hge].
    + destruct (head_step start end_ level s H Hlt) as (H' & G'). cbv zeta in H', G'.
      destruct (IH _ _ _ _ H' ltac:(lia)) as (Ir & Gr & Cr & Sr & Mr). cbv zeta in *.
      split; [exact Ir|]. split; [exact (stack_grows_trans _ _ _ G' Gr)|].
      split; [exact Cr|]. split; [exact Sr|exact Mr].
    + assert (start = end_) by lia. subst start.
      split; [exact I|]. split; [apply stack_grows_refl|].
      split; [rewrite Hnx; exact Hc|]. split; [exact Hs|reflexivity].
Qed.

(** The state before the loop *)
Definition sweep_start : sweep :=
  {| ids := Arr.set (Arr.fill n NO_INDEX) 0 0;
     stack := Arr.set (Arr.fill n 0) 0 0;
     next := 1 |}.

Lemma sweep_elements_unfold :
  sweep_elements ET conn n = sweep_levels ET conn (Z.to_nat n) n 0 1 0 sweep_start.
Proof. reflexivity. Qed.

Lemma sweep_start_head : at_head 0 1 0 sweep_start.
Proof.
  assert (Hs0 : Arr.get (stack sweep_start) 0 = 0).
  { cbn [stack sweep_start]. apply Arr.get_set_eq. rewrite Arr.len_fill; lia. }
  split; [|split; [reflexivity|split; [lia|split; [lia|split]]]].
  - constructor; cbn [ids stack next sweep_start].
    + rewrite Arr.len_set, Arr.len_fill; lia.
    + rewrite Arr.len_set, Arr.len_fill; lia.
    + lia.
    + exact Hs0.
    + intros k Hk. replace k with 0 by lia.
      change (0 <= Arr.get (stack sweep_start) 0 < n). rewrite Hs0. lia.
    + intros k k' Hk Hkk Hk'. lia.
    + intros e He. unfold on_stack. cbn [ids stack next sweep_start].
      destruct (Z.eq_dec e 0) as [->|Ne].
      * rewrite Arr.get_set_eq by (rewrite Arr.len_fill; lia). split.
        -- intros _. exists 0. split; [lia|exact Hs0].
        -- intros _. unfold NO_INDEX, Index.max. rewrite Index.modulus_eq. lia.
      * rewrite Arr.get_set_ne by lia. rewrite Arr.get_fill by lia. split.
        -- intros H. congruence.
        -- intros (k & Hk & Ek). replace k with 0 in Ek by lia.
           change (Arr.get (stack sweep_start) 0 = e) in Ek. congruence.
  - intros k x Hk. lia.
  - intros x (k & Hk & Ek). cbn [next sweep_start] in Hk.
    replace k with 0 in Ek by lia. rewrite Hs0 in Ek. subst x. apply reach_first.
Qed.

Lemma reachable_range x : reachable x -> 0 <= x < n.
Proof. intros [|e y _ (j & _ & _ & Hr)]; [lia|exact Hr]. Qed.

Lemma sweep_elements_spec :
  sweep_inv (sweep_elements ET conn n) /\
  (forall x, reachable x <-> on_stack (sweep_elements ET conn n) x) /\
  forall more,
    sweep_levels ET conn (Z.to_nat n + more) n 0 1 0 sweep_start
    = sweep_elements ET conn n.
Proof.
  rewrite sweep_elements_unfold.
  destruct (sweep_levels_run (Z.to_nat n) 0 1 0 sweep_start sweep_start_head
              ltac:(lia)) as (I & G & C & S & M).
  cbv zeta in *. split; [exact I|]. split; [|exact M].
  intros x. split; [|apply S].
  intros Hr. induction Hr as [|e x Hr IH Hx].
  - apply (grows_on_stack _ _ _ G). exists 0.
    split; [cbn [next sweep_start]; lia|]. apply sweep_start_head.
  - destruct IH as (k & Hk & Ek). apply (C k x Hk). rewrite Ek. exact Hx.
Qed.

End Sweep.

End Sweep.

(** X11.  The sweep of the [ElementMesh] constructor over a mesh of
    [0 < nelems < max] elements stops within [nelems] rounds of its [while]
    loop (further rounds change nothing), never writes past the end of the
    stack, and leaves a stack that starts with element [0] and holds
    distinct elements below [nelems]; an element has an entry other than
    [NO_INDEX] in [ids] exactly when it is on the stack. *)
Theorem sweep_stack_distinct (ET : ElementTypes) (conn : Conn) (n : Z) :
  0 < n < Index.max ->
  1 <= Numbering.next (Numbering.sweep_elements ET conn n) <= n /\
  Arr.len (Numbering.stack (Numbering.sweep_elements ET conn n)) = n /\
  Arr.get (Numbering.stack (Numbering.sweep_elements ET conn n)) 0 = 0 /\
  (forall k, 0 <= k < Numbering.next (Numbering.sweep_elements ET conn n) ->
     0 <= Arr.get (Numbering.stack (Numbering.sweep_elements ET conn n)) k < n) /\
  (forall k k', 0 <= k -> k < k' ->
     k' < Numbering.next (Numbering.sweep_elements ET conn n) ->
     Arr.get (Numbering.stack (Numbering.sweep_elements ET conn n)) k
     <> Arr.get (Numbering.stack (Numbering.sweep_elements ET conn n)) k') /\
  (forall e, 0 <= e < n ->
     (Arr.get (Numbering.ids (Numbering.sweep_elements ET conn n)) e
        <> Numbering.NO_INDEX <->
      Sweep.on_stack (Numbering.sweep_elements ET conn n) e)) /\
  (forall more,
     Numbering.sweep_levels ET conn (Z.to_nat n + more) n 0 1 0 (Sweep.sweep_start n)
     = Numbering.sweep_elements ET conn n).
Proof.
  intros Hn. destruct (Sweep.sweep_elements_spec ET conn n Hn) as (I & _ & M).
  destruct I as [I1 I2 I3 I4 I5 I6 I7].
  split; [exact I3|]. split; [exact I2|]. split; [exact I4|].
  split; [exact I5|]. split; [exact I6|]. split; [exact I7|exact M].
Qed.

(** X11 at the two tetrahedra *)
Lemma sweep_stack_distinct_witness :
  1 <= Numbering.next (Numbering.sweep_elements sample_catalog two_tets 2) <= 2.
Proof.
  assert (H : 0 < 2 < Index.max) by (vm_compute; split; reflexivity).
  exact (proj1 (sweep_stack_distinct sample_catalog two_tets 2 H)).
Defined.

(** X12.  The stack that the sweep leaves holds exactly the elements that
    can be reached from element [0] by passing from an element to an
    element that [get_face_elements] names for one of its faces.  When
    every element can be reached, the stack is full: it lists every element
    of the mesh once. *)
Theorem sweep_reaches_connected (ET : ElementTypes) (conn : Conn) (n : Z) :
  0 < n < Index.max ->
  (forall x, Sweep.reachable ET conn n x <->
             Sweep.on_stack (Numbering.sweep_elements ET conn n) x) /\
  ((forall e, 0 <= e < n -> Sweep.reachable ET conn n e) ->
   Numbering.next (Numbering.sweep_elements ET conn n) = n).
Proof.
  intros Hn. destruct (Sweep.sweep_elements_spec ET conn n Hn) as (I & R & _).
  split; [exact R|]. intros Hall.
  pose proof (Sweep.inv_next n _ I) as Hb.
  set (r := Numbering.sweep_elements ET conn n) in *.
  set (l := map (Arr.get (Numbering.stack r))
                (zrange 0 (Z.to_nat (Numbering.next r)))).
  assert (Hnd : NoDup (zrange 0 (Z.to_nat n))).
  { rewrite <- (map_id (zrange 0 (Z.to_nat n))).
    apply Sweep.nodup_map_zrange. intros a b Ha Hab Hb'. lia. }
  assert (Hincl : incl (zrange 0 (Z.to_nat n)) l).
  { intros e He. apply in_zrange in He.
    destruct (proj1 (R e) (Hall e ltac:(lia))) as (k & Hk & Ek).
    unfold l. rewrite in_map_iff. exists k. split; [exact Ek|].
    apply in_zrange. lia. }
  pose proof (NoDup_incl_length Hnd Hincl) as Hlen. unfold l in Hlen.
  rewrite length_map, !Sweep.length_zrange in Hlen. lia.
Qed.

(** X12 at the two tetrahedra *)
Lemma sweep_reaches_connected_witness :
  Sweep.reachable sample_catalog two_tets 2 0 <->
  Sweep.on_stack (Numbering.sweep_elements sample_catalog two_tets 2) 0.
Proof.
  assert (H : 0 < 2 < Index.max) by (vm_compute; split; reflexivity).
  exact (proj1 (sweep_reaches_connected sample_catalog two_tets 2 H) 0).
Defined.


(** * The projection of a high-order hexahedron onto its sub-elements *)

Module HexProj.

(** The function spaces a basis can hold *)
Inductive BasisType := H1 | HCURL | HDIV | L2.

(** The static queries of a basis class that [HexProjection] uses; the
    basis headers are not among the sources, so they are a parameter. *)
Record SpaceBasis := {
  nbasis : Z;
  (** [get_basis_type<basis>()] *)
  get_basis_type : Z -> BasisType;
  (** [get_basis_stride<basis>()] *)
  get_basis_stride : Z -> Z;
  (** [get_dof_offset<basis>()] *)
  get_dof_offset : Z -> Z
}.

Section HexProjection.

(** The template parameters [degree], [HOrderBasis] and [Basis] *)
Variable degree : Z.
Variable HOrderBasis : SpaceBasis.
Variable Basis : SpaceBasis.

Definition order : Z := degree +w 1.

Definition get_num_projection_elements : Z :=
  (order -w 1) *w (order -w 1) *w (order -w 1).

Definition get_h1_index (basis i j k : Z) (dof : list Z) : list Z :=
  let stride := get_basis_stride Basis basis in
  let lo_offset := get_dof_offset Basis basis in
  let ho_offset := get_dof_offset HOrderBasis basis in
  for_range 0 2 (fun kk dof =>
    for_range 0 2 (fun jj dof =>
      for_range 0 2 (fun ii dof =>
        for_range 0 stride (fun n dof =>
          Arr.set dof
            (lo_offset +w n +w stride *w (ii +w 2 *w (jj +w 2 *w kk)))
            (ho_offset +w n +w
             stride *w ((i +w ii) +w order *w ((j +w jj) +w order *w (k +w kk)))))
          dof) dof) dof) dof.

Definition get_hdiv_index (basis i j k : Z) (dof : list Z) : list Z :=
  let lo_offset := get_dof_offset Basis basis in
  let ho_offset := get_dof_offset HOrderBasis basis in
  let dof := Arr.set dof lo_offset
    (ho_offset +w i +w order *w (j +w (order -w 1) *w k)) in
  let dof := Arr.set dof (lo_offset +w 1)
    (ho_offset +w i +w 1 +w order *w (j +w (order -w 1) *w k)) in
  let dof := Arr.set dof (lo_offset +w 2)
    (ho_offset +w i +w (order -w 1) *w (j +w (order -w 1) *w k) +w
     order *w (order -w 1) *w (order -w 1)) in
  let dof := Arr.set dof (lo_offset +w 3)
    (ho_offset +w i +w (order -w 1) *w (j +w 1 +w (order -w 1) *w k) +w
     order *w (order -w 1) *w (order -w 1)) in
  let dof := Arr.set dof (lo_offset +w 4)
    (ho_offset +w i +w (order -w 1) *w (j +w (order -w 1) *w k) +w
     2 *w order *w (order -w 1) *w (order -w 1)) in
  Arr.set dof (lo_offset +w 5)
    (ho_offset +w i +w (order -w 1) *w (j +w (order -w 1) *w (k +w 1)) +w
     2 *w order *w (order -w 1) *w (order -w 1)).

Definition get_l2_index (basis i j k : Z) (dof : list Z) : list Z :=
  let stride := get_basis_stride Basis basis in
  let lo_offset := get_dof_offset Basis basis in
  let ho_offset := get_dof_offset HOrderBasis basis in
  for_range 0 stride (fun n dof =>
    Arr.set dof (lo_offset +w n)
      (ho_offset +w n +w
       stride *w (i +w (order -w 1) *w (j +w (order -w 1) *w k)))) dof.

Definition get_h1_signs (basis i j k : Z) (signs : list Z) : list Z :=
  let stride := get_basis_stride Basis basis in
  let lo_offset := get_dof_offset Basis basis in
  for_range 0 (8 *w stride) (fun n signs => Arr.set signs (lo_offset +w n) 1) signs.

Definition get_hdiv_signs (basis i j k : Z) (signs : list Z) : list Z :=
  let lo_offset := get_dof_offset Basis basis in
  let signs := Arr.set signs lo_offset (if i =? 0 then 1 else -1) in
  let signs := Arr.set signs (lo_offset +w 1) 1 in
  let signs := Arr.set signs (lo_offset +w 2) (if j =? 0 then 1 else -1) in
  let signs := Arr.set signs (lo_offset +w 3) 1 in
  let signs := Arr.set signs (lo_offset +w 4) (if k =? 0 then 1 else -1) in
  Arr.set signs (lo_offset +w 5) 1.

Definition get_l2_signs (basis i j k : Z) (signs : list Z) : list Z :=
  let stride := get_basis_stride Basis basis in
  let lo_offset := get_dof_offset Basis basis in
  for_range 0 stride (fun n signs => Arr.set signs (lo_offset +w n) 1) signs.

(** One instance of [get_projection_index_<basis>] without its recursive
    call *)
Definition index_step (i j k basis : Z) (index : list Z) : list Z :=
  match get_basis_type Basis basis with
  | H1 => get_h1_index basis i j k index
  | HCURL => index
  | HDIV => get_hdiv_index basis i j k index
  | L2 => get_l2_index basis i j k index
  end.

Definition signs_step (i j k basis : Z) (signs : list Z) : list Z :=
  match get_basis_type Basis basis with
  | H1 => get_h1_signs basis i j k signs
  | HCURL => signs
  | HDIV => get_hdiv_signs basis i j k signs
  | L2 => get_l2_signs basis i j k signs
  end.

(** [get_projection_index_<0>]: the instances for
    [basis = 0, ..., nbasis - 1], each calling the next *)
Definition get_projection_index_ (i j k : Z) (index : list Z) : list Z :=
  for_range 0 (nbasis Basis) (index_step i j k) index.

Definition get_projection_signs_ (i j k : Z) (signs : list Z) : list Z :=
  for_range 0 (nbasis Basis) (signs_step i j k) signs.

Definition get_projection_index (n : Z) (index : list Z) : list Z :=
  let i := n mod degree in
  let j := (n mod (degree *w degree)) / degree in
  let k := n / (degree *w degree) in
  get_projection_index_ i j k index.

Definition get_projection_signs (n : Z) (signs : list Z) : list Z :=
  let i := n mod degree in
  let j := (n mod (degree *w degree)) / degree in
  let k := n / (degree *w degree) in
  get_projection_signs_ i j k signs.

(** The object as the projection constructor of [ElementMesh] uses it *)
Definition HexProjection : DofMesh.ElemProj :=
  {| DofMesh.get_num_projection_elements := get_num_projection_elements;
     DofMesh.get_projection_index := get_projection_index;
     DofMesh.get_projection_signs := get_projection_signs |}.

End HexProjection.

(** ** Arithmetic of the sub-element index *)

Lemma decode_digits d n :
  0 < d -> 0 <= n < d * d * d ->
  0 <= n mod d < d /\ 0 <= (n mod (d * d)) / d < d /\ 0 <= n / (d * d) < d /\
  n = n mod d + d * ((n mod (d * d)) / d + d * (n / (d * d))).
Proof.
  intros Hd Hn.
  assert (Hdd : 0 < d * d) by nia.
  pose proof (Z.div_mod n (d * d) ltac:(lia)) as E1.
  pose proof (Z.mod_pos_bound n (d * d) Hdd) as B1.
  remember (n / (d * d)) as k eqn:Ek. remember (n mod (d * d)) as r eqn:Er.
  pose proof (Z.div_mod r d ltac:(lia)) as E2.
  pose proof (Z.mod_pos_bound r d Hd) as B2.
  remember (r / d) as j eqn:Ej. remember (r mod d) as i eqn:Ei.
  assert (Hi : n mod d = i).
  { symmetry. apply (Z.mod_unique_pos n d (d * k + j) i); [lia|nia]. }
  rewrite Hi. repeat split; try lia; nia.
Qed.

(** ** Writing a block of consecutive entries *)

Lemma block_write (pos val : Z -> Z) (base s : Z) (dof : list Z) :
  0 <= base -> (forall n, 0 <= n < s -> pos n = base + n) ->
  Arr.len (for_range 0 s (fun n d => Arr.set d (pos n) (val n)) dof) = Arr.len dof /\
  forall p, 0 <= p ->
    Arr.get (for_range 0 s (fun n d => Arr.set d (pos n) (val n)) dof) p
    = if (base <=? p) && (p <? base + s) && (p <? Arr.len dof)
      then val (p - base) else Arr.get dof p.
Proof.
  intros Hb Hpos.
  destruct (Z_le_gt_dec 0 s) as [Hs|Hs].
  2:{ rewrite for_range_empty by lia. split; [reflexivity|]. intros p Hp.
      destruct (Z.leb_spec base p), (Z.ltb_spec p (base + s)); cbn [andb];
        try reflexivity; lia. }
  apply (for_range_inv
    (fun t d => Arr.len d = Arr.len dof /\
       forall p, 0 <= p ->
         Arr.get d p = if (base <=? p) && (p <? base + t) && (p <? Arr.len dof)
                       then val (p - base) else Arr.get dof p)).
  - exact Hs.
  - split; [reflexivity|]. intros p Hp.
    destruct (Z.leb_spec base p), (Z.ltb_spec p (base + 0)); cbn [andb];
      try reflexivity; lia.
  - intros t d Ht (Hl & Hg). rewrite (Hpos t Ht).
    split; [rewrite Arr.len_set; exact Hl|]. intros p Hp.
    destruct (Z.eq_dec p (base + t)) as [->|Np].
    + destruct (Z.leb_spec base (base + t)); [|lia].
      destruct (Z.ltb_spec (base + t) (base + (t + 1))); [|lia]. cbn [andb].
      destruct (Z.ltb_spec (base + t) (Arr.len dof)).
      * rewrite Arr.get_set_eq by lia. f_equal. lia.
      * unfold Arr.get, Arr.set.
        rewrite nth_overflow by (rewrite Arr.length_set_nat; unfold Arr.len in *; lia).
        rewrite nth_overflow by (unfold Arr.len in *; lia). reflexivity.
    + rewrite Arr.get_set_ne by lia. rewrite Hg by lia.
      destruct (Z.leb_spec base p), (Z.ltb_spec p (base + t)),
        (Z.ltb_spec p (base + (t + 1))); cbn [andb]; try reflexivity; lia.
Qed.

Lemma for_range_two {S : Type} (f : Z -> S -> S) (s : S) :
  for_range 0 2 f s = f 1 (f 0 s).
Proof. reflexivity. Qed.


Lemma nest8 {S : Type} (f : Z -> Z -> Z -> S -> S) (d : S) :
  for_range 0 2 (fun kk d =>
    for_range 0 2 (fun jj d =>
      for_range 0 2 (fun ii d => f ii jj kk d) d) d) d
  = f 1 1 1 (f 0 1 1 (f 1 0 1 (f 0 0 1 (f 1 1 0 (f 0 1 0 (f 1 0 0 (f 0 0 0 d))))))).
Proof. reflexivity. Qed.

Ltac decide_blocks :=
  repeat match goal with
         | |- context [?a <=? ?b] =>
             destruct (Z.leb_spec a b); try (exfalso; lia)
         | |- context [?a <? ?b] =>
             destruct (Z.ltb_spec a b); try (exfalso; lia)
         end;
  cbn [andb]; try reflexivity.

(** The position of sub-element [n] in the grid of sub-elements, as
    [get_projection_index] computes it *)
Definition cell_i (d n : Z) : Z := n mod d.
Definition cell_j (d n : Z) : Z := (n mod (d * d)) / d.
Definition cell_k (d n : Z) : Z := n / (d * d).

Lemma cell_unique d i j k :
  0 < d -> 0 <= i < d -> 0 <= j < d -> 0 <= k < d ->
  cell_i d (i + d * (j + d * k)) = i /\ cell_j d (i + d * (j + d * k)) = j /\
  cell_k d (i + d * (j + d * k)) = k.
Proof.
  intros Hd Hi Hj Hk. unfold cell_i, cell_j, cell_k.
  assert (Hdd : 0 < d * d) by nia.
  assert (Ek : (i + d * (j + d * k)) / (d * d) = k).
  { symmetry. apply (Z.div_unique_pos _ _ k (i + d * j)); [nia|lia]. }
  assert (Er : (i + d * (j + d * k)) mod (d * d) = i + d * j).
  { symmetry. apply (Z.mod_unique_pos _ _ k (i + d * j)); [nia|lia]. }
  rewrite Er, Ek.
  assert (Ej : (i + d * j) / d = j).
  { symmetry. apply (Z.div_unique_pos _ _ j i); [lia|lia]. }
  assert (Ei : (i + d * (j + d * k)) mod d = i).
  { symmetry. apply (Z.mod_unique_pos _ _ (j + d * k) i); [lia|lia]. }
  rewrite Ei, Ej. repeat split.
Qed.

Lemma node_bound d a bb c :
  0 < d -> 0 <= a <= d -> 0 <= bb <= d -> 0 <= c <= d ->
  0 <= a + (d + 1) * (bb + (d + 1) * c) /\
  a + (d + 1) * (bb + (d + 1) * c) + 1 <= (d + 1) * (d + 1) * (d + 1) /\
  0 <= (d + 1) * c /\ (d + 1) * c <= (d + 1) * (d + 1) * (d + 1) /\
  0 <= bb + (d + 1) * c /\
  (d + 1) * (bb + (d + 1) * c) <= (d + 1) * (d + 1) * (d + 1).
Proof.
  intros Hd Ha Hb Hc.
  assert (H1 : (d + 1) * c <= (d + 1) * d) by (apply Z.mul_le_mono_nonneg_l; lia).
  assert (H0 : 0 <= (d + 1) * c) by (apply Z.mul_nonneg_nonneg; lia).
  assert (H2 : (d + 1) * (bb + (d + 1) * c) <= (d + 1) * (d + (d + 1) * d))
    by (apply Z.mul_le_mono_nonneg_l; lia).
  assert (H3 : 0 <= (d + 1) * (bb + (d + 1) * c)) by (apply Z.mul_nonneg_nonneg; lia).
  assert (E : (d + 1) * (d + 1) * (d + 1) = d + (d + 1) * (d + (d + 1) * d) + 1) by ring.
  assert (E2 : (d + 1) * (d + (d + 1) * d) = (d + 1) * d + (d + 1) * (d + 1) * d) by ring.
  assert (H4 : 0 <= (d + 1) * (d + 1) * d) by (apply Z.mul_nonneg_nonneg; nia).
  lia.
Qed.

Section Helpers.

Variable degree : Z.
Variable HOrderBasis : SpaceBasis.
Variable Basis : SpaceBasis.

Hypothesis Hdegree : 0 < degree < Index.max.

Lemma max_modulus : Index.max < Index.modulus.
Proof. unfold Index.max. rewrite Index.modulus_eq. lia. Qed.

Lemma order_eq : order degree = degree + 1.
Proof. unfold order. apply Index.add_small, ok_of_bounds. lia. Qed.

Lemma order_pred : order degree -w 1 = degree.
Proof.
  rewrite order_eq. rewrite Index.sub_small by (apply ok_of_bounds; lia). lia.
Qed.

(** The number of entries a basis has in the arrays of a sub-element *)
Definition region_size (basis : Z) : Z :=
  match get_basis_type Basis basis with
  | H1 => 8 * get_basis_stride Basis basis
  | HCURL => 0
  | HDIV => 6
  | L2 => get_basis_stride Basis basis
  end.

(** The entries of basis [basis] lie within the [index_t] range. *)
Definition basis_ok (basis : Z) : Prop :=
  0 <= get_basis_stride Basis basis /\ 0 <= get_dof_offset Basis basis /\
  get_dof_offset Basis basis + region_size basis <= Index.max.

Section OneBasis.

Variable b : Z.
Variables i j k : Z.

Local Abbreviation s := (get_basis_stride Basis b).
Local Abbreviation lo := (get_dof_offset Basis b).
Local Abbreviation ho := (get_dof_offset HOrderBasis b).

(** The value [get_h1_index] stores for corner [(ii, jj, kk)] and
    component [m] *)
Definition h1_value (ii jj kk m : Z) : Z :=
  ho +w m +w
  s *w ((i +w ii) +w order degree *w ((j +w jj) +w order degree *w (k +w kk))).

Definition h1_block (ii jj kk : Z) (dof : list Z) : list Z :=
  for_range 0 s (fun n dof =>
    Arr.set dof (lo +w n +w s *w (ii +w 2 *w (jj +w 2 *w kk)))
      (h1_value ii jj kk n)) dof.

Lemma h1_index_blocks dof :
  get_h1_index degree HOrderBasis Basis b i j k dof
  = h1_block 1 1 1 (h1_block 0 1 1 (h1_block 1 0 1 (h1_block 0 0 1
      (h1_block 1 1 0 (h1_block 0 1 0 (h1_block 1 0 0 (h1_block 0 0 0 dof))))))).
Proof.
  unfold get_h1_index. cbv zeta.
  apply (nest8 (fun ii jj kk dof => h1_block ii jj kk dof)).
Qed.

Lemma h1_block_spec ii jj kk dof :
  0 <= s -> 0 <= lo -> lo + 8 * s <= Index.max ->
  0 <= ii < 2 -> 0 <= jj < 2 -> 0 <= kk < 2 ->
  Arr.len (h1_block ii jj kk dof) = Arr.len dof /\
  forall p, 0 <= p ->
    Arr.get (h1_block ii jj kk dof) p
    = if (lo + s * (ii + 2 * (jj + 2 * kk)) <=? p)
         && (p <? lo + s * (ii + 2 * (jj + 2 * kk)) + s)
         && (p <? Arr.len dof)
      then h1_value ii jj kk (p - (lo + s * (ii + 2 * (jj + 2 * kk))))
      else Arr.get dof p.
Proof.
  intros Hs Hlo Hmax Hii Hjj Hkk. unfold h1_block.
  pose proof max_modulus as Hmm.
  apply (block_write
           (fun n => lo +w n +w s *w (ii +w 2 *w (jj +w 2 *w kk)))
           (h1_value ii jj kk)); [nia|].
  intros n Hn.
  assert (Ec : ii +w 2 *w (jj +w 2 *w kk) = ii + 2 * (jj + 2 * kk)).
  { assert (E : (ii = 0 \/ ii = 1) /\ (jj = 0 \/ jj = 1) /\ (kk = 0 \/ kk = 1)) by lia.
    destruct E as ([-> | ->] & [-> | ->] & [-> | ->]); reflexivity. }
  rewrite Ec.
  rewrite (Index.mul_small s) by (apply ok_of_bounds; nia).
  rewrite (Index.add_small lo n) by (apply ok_of_bounds; nia).
  rewrite Index.add_small by (apply ok_of_bounds; nia). lia.
Qed.

Lemma h1_index_spec dof :
  0 <= s -> 0 <= lo -> lo + 8 * s <= Index.max ->
  Arr.len (get_h1_index degree HOrderBasis Basis b i j k dof) = Arr.len dof /\
  (forall p, 0 <= p -> p < lo \/ lo + 8 * s <= p ->
     Arr.get (get_h1_index degree HOrderBasis Basis b i j k dof) p = Arr.get dof p) /\
  (forall ii jj kk m, 0 <= ii < 2 -> 0 <= jj < 2 -> 0 <= kk < 2 -> 0 <= m < s ->
     lo + m + s * (ii + 2 * (jj + 2 * kk)) < Arr.len dof ->
     Arr.get (get_h1_index degree HOrderBasis Basis b i j k dof)
       (lo + m + s * (ii + 2 * (jj + 2 * kk)))
     = h1_value ii jj kk m).
Proof.
  intros Hs Hlo Hmax. rewrite h1_index_blocks.
  remember (h1_block 0 0 0 dof) as d0 eqn:E0.
  remember (h1_block 1 0 0 d0) as d1 eqn:E1.
  remember (h1_block 0 1 0 d1) as d2 eqn:E2.
  remember (h1_block 1 1 0 d2) as d3 eqn:E3.
  remember (h1_block 0 0 1 d3) as d4 eqn:E4.
  remember (h1_block 1 0 1 d4) as d5 eqn:E5.
  remember (h1_block 0 1 1 d5) as d6 eqn:E6.
  remember (h1_block 1 1 1 d6) as d7 eqn:E7.
  destruct (h1_block_spec 0 0 0 dof Hs Hlo Hmax) as (L0 & G0); try lia.
  destruct (h1_block_spec 1 0 0 d0 Hs Hlo Hmax) as (L1 & G1); try lia.
  destruct (h1_block_spec 0 1 0 d1 Hs Hlo Hmax) as (L2' & G2); try lia.
  destruct (h1_block_spec 1 1 0 d2 Hs Hlo Hmax) as (L3 & G3); try lia.
  destruct (h1_block_spec 0 0 1 d3 Hs Hlo Hmax) as (L4 & G4); try lia.
  destruct (h1_block_spec 1 0 1 d4 Hs Hlo Hmax) as (L5 & G5); try lia.
  destruct (h1_block_spec 0 1 1 d5 Hs Hlo Hmax) as (L6 & G6); try lia.
  destruct (h1_block_spec 1 1 1 d6 Hs Hlo Hmax) as (L7 & G7); try lia.
  rewrite <- E0 in L0, G0. rewrite <- E1 in L1, G1. rewrite <- E2 in L2', G2.
  rewrite <- E3 in L3, G3. rewrite <- E4 in L4, G4. rewrite <- E5 in L5, G5.
  rewrite <- E6 in L6, G6. rewrite <- E7 in L7, G7.
  assert (HL : Arr.len d7 = Arr.len dof) by congruence.
  split; [exact HL|].
  assert (Hall : forall p, 0 <= p -> Arr.get d7 p =
    if (lo + s * (1 + 2 * (1 + 2 * 1)) <=? p) && (p <? lo + s * (1 + 2 * (1 + 2 * 1)) + s)
       && (p <? Arr.len dof)
    then h1_value 1 1 1 (p - (lo + s * (1 + 2 * (1 + 2 * 1))))
    else if (lo + s * (0 + 2 * (1 + 2 * 1)) <=? p)
            && (p <? lo + s * (0 + 2 * (1 + 2 * 1)) + s) && (p <? Arr.len dof)
    then h1_value 0 1 1 (p - (lo + s * (0 + 2 * (1 + 2 * 1))))
    else if (lo + s * (1 + 2 * (0 + 2 * 1)) <=? p)
            && (p <? lo + s * (1 + 2 * (0 + 2 * 1)) + s) && (p <? Arr.len dof)
    then h1_value 1 0 1 (p - (lo + s * (1 + 2 * (0 + 2 * 1))))
    else if (lo + s * (0 + 2 * (0 + 2 * 1)) <=? p)
            && (p <? lo + s * (0 + 2 * (0 + 2 * 1)) + s) && (p <? Arr.len dof)
    then h1_value 0 0 1 (p - (lo + s * (0 + 2 * (0 + 2 * 1))))
    else if (lo + s * (1 + 2 * (1 + 2 * 0)) <=? p)
            && (p <? lo + s * (1 + 2 * (1 + 2 * 0)) + s) && (p <? Arr.len dof)
    then h1_value 1 1 0 (p - (lo + s * (1 + 2 * (1 + 2 * 0))))
    else if (lo + s * (0 + 2 * (1 + 2 * 0)) <=? p)
            && (p <? lo + s * (0 + 2 * (1 + 2 * 0)) + s) && (p <? Arr.len dof)
    then h1_value 0 1 0 (p - (lo + s * (0 + 2 * (1 + 2 * 0))))
    else if (lo + s * (1 + 2 * (0 + 2 * 0)) <=? p)
            && (p <? lo + s * (1 + 2 * (0 + 2 * 0)) + s) && (p <? Arr.len dof)
    then h1_value 1 0 0 (p - (lo + s * (1 + 2 * (0 + 2 * 0))))
    else if (lo + s * (0 + 2 * (0 + 2 * 0)) <=? p)
            && (p <? lo + s * (0 + 2 * (0 + 2 * 0)) + s) && (p <? Arr.len dof)
    then h1_value 0 0 0 (p - (lo + s * (0 + 2 * (0 + 2 * 0))))
    else Arr.get dof p).
  { intros p Hp.
    rewrite (G7 p Hp), (G6 p Hp), (G5 p Hp), (G4 p Hp), (G3 p Hp), (G2 p Hp),
      (G1 p Hp), (G0 p Hp).
    rewrite L6, L5, L4, L3, L2', L1, L0. reflexivity. }
  split.
  - intros p Hp Hout. rewrite (Hall p Hp). decide_blocks.
  - intros ii jj kk m Hii Hjj Hkk Hm Hlen.
    rewrite Hall by nia.
    assert (E : (ii = 0 \/ ii = 1) /\ (jj = 0 \/ jj = 1) /\ (kk = 0 \/ kk = 1)) by lia.
    destruct E as ([-> | ->] & [-> | ->] & [-> | ->]); decide_blocks; f_equal; lia.
Qed.

(** Six writes at [lo, lo + 1, ..., lo + 5] *)
Lemma six_writes (v0 v1 v2 v3 v4 v5 : Z) dof :
  0 <= lo -> lo + 6 <= Index.max ->
  let r := Arr.set (Arr.set (Arr.set (Arr.set (Arr.set (Arr.set dof lo v0)
             (lo +w 1) v1) (lo +w 2) v2) (lo +w 3) v3) (lo +w 4) v4) (lo +w 5) v5 in
  Arr.len r = Arr.len dof /\
  (forall p, 0 <= p -> p < lo \/ lo + 6 <= p -> Arr.get r p = Arr.get dof p) /\
  (lo + 5 < Arr.len dof ->
   Arr.get r lo = v0 /\ Arr.get r (lo + 1) = v1 /\ Arr.get r (lo + 2) = v2 /\
   Arr.get r (lo + 3) = v3 /\ Arr.get r (lo + 4) = v4 /\ Arr.get r (lo + 5) = v5).
Proof.
  intros Hlo Hmax. cbv zeta.
  rewrite !Index.add_small by (apply ok_of_bounds; lia).
  split; [rewrite !Arr.len_set; reflexivity|]. split.
  - intros p Hp Hout. rewrite !Arr.get_set_ne by lia. reflexivity.
  - intros Hlen.
    repeat split;
      repeat first [ rewrite Arr.get_set_eq by (rewrite ?Arr.len_set; lia); reflexivity
                   | rewrite Arr.get_set_ne by lia ].
Qed.

Lemma l2_index_spec dof :
  0 <= s -> 0 <= lo -> lo + s <= Index.max ->
  Arr.len (get_l2_index degree HOrderBasis Basis b i j k dof) = Arr.len dof /\
  (forall p, 0 <= p -> p < lo \/ lo + s <= p ->
     Arr.get (get_l2_index degree HOrderBasis Basis b i j k dof) p = Arr.get dof p) /\
  (forall m, 0 <= m < s -> lo + m < Arr.len dof ->
     Arr.get (get_l2_index degree HOrderBasis Basis b i j k dof) (lo + m)
     = ho +w m +w
       s *w (i +w (order degree -w 1) *w (j +w (order degree -w 1) *w k))).
Proof.
  intros Hs Hlo Hmax. unfold get_l2_index. cbv zeta.
  destruct (block_write (fun n => lo +w n)
              (fun n => ho +w n +w
                 s *w (i +w (order degree -w 1) *w (j +w (order degree -w 1) *w k)))
              lo s dof Hlo) as (Hl & Hg).
  { intros n Hn. apply Index.add_small, ok_of_bounds. lia. }
  split; [exact Hl|]. split.
  - intros p Hp Hout. rewrite (Hg p Hp). decide_blocks.
  - intros m Hm Hlen. rewrite Hg by lia. decide_blocks.
    replace (lo + m - lo) with m by lia. reflexivity.
Qed.

Lemma ones_spec n dof :
  0 <= n -> 0 <= lo -> lo + n <= Index.max ->
  Arr.len (for_range 0 n (fun t signs => Arr.set signs (lo +w t) 1) dof)
    = Arr.len dof /\
  (forall p, 0 <= p -> p < lo \/ lo + n <= p ->
     Arr.get (for_range 0 n (fun t signs => Arr.set signs (lo +w t) 1) dof) p
     = Arr.get dof p) /\
  (forall m, 0 <= m < n -> lo + m < Arr.len dof ->
     Arr.get (for_range 0 n (fun t signs => Arr.set signs (lo +w t) 1) dof) (lo + m)
     = 1).
Proof.
  intros Hn Hlo Hmax.
  destruct (block_write (fun t => lo +w t) (fun _ => 1) lo n dof Hlo) as (Hl & Hg).
  { intros t Ht. apply Index.add_small, ok_of_bounds. lia. }
  split; [exact Hl|]. split.
  - intros p Hp Hout. rewrite (Hg p Hp). decide_blocks.
  - intros m Hm Hlen. rewrite Hg by lia. decide_blocks.
Qed.

(** Each instance writes within the entries of its basis. *)
Lemma index_step_frame dof :
  basis_ok b ->
  Arr.len (index_step degree HOrderBasis Basis i j k b dof) = Arr.len dof /\
  forall p, 0 <= p -> p < lo \/ lo + region_size b <= p ->
    Arr.get (index_step degree HOrderBasis Basis i j k b dof) p = Arr.get dof p.
Proof.
  unfold basis_ok, region_size, index_step. intros (Hs & Hlo & Hmax).
  destruct (get_basis_type Basis b).
  - destruct (h1_index_spec dof Hs Hlo Hmax) as (A & B & _). split; assumption.
  - split; reflexivity.
  - unfold get_hdiv_index. cbv zeta.
    match goal with
    | |- context [Arr.set (Arr.set (Arr.set (Arr.set (Arr.set (Arr.set dof lo ?v0)
                    _ ?v1) _ ?v2) _ ?v3) _ ?v4) _ ?v5] =>
        destruct (six_writes v0 v1 v2 v3 v4 v5 dof Hlo Hmax) as (A & B & _)
    end.
    split; assumption.
  - destruct (l2_index_spec dof Hs Hlo Hmax) as (A & B & _). split; assumption.
Qed.

Lemma signs_step_frame dof :
  basis_ok b ->
  Arr.len (signs_step Basis i j k b dof) = Arr.len dof /\
  forall p, 0 <= p -> p < lo \/ lo + region_size b <= p ->
    Arr.get (signs_step Basis i j k b dof) p = Arr.get dof p.
Proof.
  unfold basis_ok, region_size, signs_step. intros (Hs & Hlo & Hmax).
  pose proof max_modulus as Hmm.
  destruct (get_basis_type Basis b).
  - unfold get_h1_signs. cbv zeta.
    rewrite (Index.mul_small 8) by (apply ok_of_bounds; lia).
    destruct (ones_spec (8 * s) dof ltac:(lia) Hlo Hmax) as (A & B & _).
    split; assumption.
  - split; reflexivity.
  - unfold get_hdiv_signs. cbv zeta.
    match goal with
    | |- context [Arr.set (Arr.set (Arr.set (Arr.set (Arr.set (Arr.set dof lo ?v0)
                    _ ?v1) _ ?v2) _ ?v3) _ ?v4) _ ?v5] =>
        destruct (six_writes v0 v1 v2 v3 v4 v5 dof Hlo Hmax) as (A & B & _)
    end.
    split; assumption.
  - unfold get_l2_signs. cbv zeta.
    destruct (ones_spec s dof Hs Hlo Hmax) as (A & B & _). split; assumption.
Qed.

End OneBasis.

(** The values [get_hdiv_index] stores, without wrap-around *)
Lemma hdiv_values (ho i j k : Z) :
  0 <= i < degree -> 0 <= j < degree -> 0 <= k < degree ->
  0 <= ho -> ho + 3 * ((degree + 1) * degree * degree) <= Index.max ->
  ho +w i +w order degree *w (j +w (order degree -w 1) *w k)
    = ho + i + (degree + 1) * (j + degree * k) /\
  ho +w i +w 1 +w order degree *w (j +w (order degree -w 1) *w k)
    = ho + i + 1 + (degree + 1) * (j + degree * k) /\
  ho +w i +w (order degree -w 1) *w (j +w (order degree -w 1) *w k) +w
    order degree *w (order degree -w 1) *w (order degree -w 1)
    = ho + i + degree * (j + degree * k) + (degree + 1) * degree * degree /\
  ho +w i +w (order degree -w 1) *w (j +w 1 +w (order degree -w 1) *w k) +w
    order degree *w (order degree -w 1) *w (order degree -w 1)
    = ho + i + degree * (j + 1 + degree * k) + (degree + 1) * degree * degree /\
  ho +w i +w (order degree -w 1) *w (j +w (order degree -w 1) *w k) +w
    2 *w order degree *w (order degree -w 1) *w (order degree -w 1)
    = ho + i + degree * (j + degree * k) + 2 * ((degree + 1) * degree * degree) /\
  ho +w i +w (order degree -w 1) *w (j +w (order degree -w 1) *w (k +w 1)) +w
    2 *w order degree *w (order degree -w 1) *w (order degree -w 1)
    = ho + i + degree * (j + degree * (k + 1))
      + 2 * ((degree + 1) * degree * degree).
Proof.
  intros Hi Hj Hk Hho Hmax. rewrite !order_pred, !order_eq.
  assert (Hd : 0 < degree) by lia.
  assert (B1 : 0 <= degree * k /\ degree * k + degree <= degree * degree)
    by (clear - Hd Hk; nia).
  assert (B2 : 0 <= degree * (k + 1) /\ degree * (k + 1) <= degree * degree)
    by (clear - Hd Hk; nia).
  assert (P0 : (degree + 1) * degree * degree
               = degree * degree * degree + degree * degree) by ring.
  assert (P1 : degree <= degree * degree) by (clear - Hd; nia).
  assert (P2 : degree * degree <= degree * degree * degree) by (clear - Hd; nia).
  assert (B3 : 0 <= degree * (j + degree * k) /\
               degree * (j + degree * k) + degree <= degree * degree * degree).
  { assert (X : 0 <= j + degree * k /\ j + degree * k + 1 <= degree * degree) by lia.
    remember (j + degree * k) as q. clear - Hd X. nia. }
  assert (B4 : 0 <= degree * (j + 1 + degree * k) /\
               degree * (j + 1 + degree * k) <= degree * degree * degree).
  { assert (X : 0 <= j + 1 + degree * k /\ j + 1 + degree * k <= degree * degree) by lia.
    remember (j + 1 + degree * k) as q. clear - Hd X. nia. }
  assert (B5 : 0 <= degree * (j + degree * (k + 1)) /\
               degree * (j + degree * (k + 1)) + degree
                 <= degree * degree * degree + degree * degree).
  { assert (X : 0 <= j + degree * (k + 1) /\
                j + degree * (k + 1) + 1 <= degree * degree + degree) by lia.
    remember (j + degree * (k + 1)) as q. clear - Hd X. nia. }
  assert (B6 : 0 <= (degree + 1) * (j + degree * k) /\
               (degree + 1) * (j + degree * k) + degree + 1
                 <= (degree + 1) * degree * degree).
  { assert (X : 0 <= j + degree * k /\ j + degree * k + 1 <= degree * degree) by lia.
    remember (j + degree * k) as q. clear - Hd X. nia. }
  assert (B7 : 0 <= (degree + 1) * degree /\
               (degree + 1) * degree <= (degree + 1) * degree * degree)
    by (clear - Hd; nia).
  assert (B8 : 2 * (degree + 1) * degree * degree
               = 2 * ((degree + 1) * degree * degree)) by ring.
  assert (B9 : 0 <= 2 * (degree + 1) * degree /\
               2 * (degree + 1) * degree <= 2 * ((degree + 1) * degree * degree))
    by (clear - Hd; nia).
  rewrite (Index.mul_small degree k) by (apply ok_of_bounds; lia).
  rewrite (Index.add_small k 1) by (apply ok_of_bounds; lia).
  rewrite (Index.mul_small degree (k + 1)) by (apply ok_of_bounds; lia).
  rewrite (Index.add_small j 1) by (apply ok_of_bounds; lia).
  rewrite (Index.add_small j (degree * k)) by (apply ok_of_bounds; lia).
  rewrite (Index.add_small (j + 1) (degree * k)) by (apply ok_of_bounds; lia).
  rewrite (Index.add_small j (degree * (k + 1))) by (apply ok_of_bounds; lia).
  rewrite (Index.mul_small degree (j + degree * k)) by (apply ok_of_bounds; lia).
  rewrite (Index.mul_small degree (j + 1 + degree * k)) by (apply ok_of_bounds; lia).
  rewrite (Index.mul_small degree (j + degree * (k + 1))) by (apply ok_of_bounds; lia).
  rewrite (Index.mul_small (degree + 1) (j + degree * k)) by (apply ok_of_bounds; lia).
  rewrite (Index.mul_small (degree + 1) degree) by (apply ok_of_bounds; lia).
  rewrite (Index.mul_small ((degree + 1) * degree) degree) by (apply ok_of_bounds; lia).
  rewrite (Index.mul_small 2 (degree + 1)) by (apply ok_of_bounds; lia).
  rewrite (Index.mul_small (2 * (degree + 1)) degree) by (apply ok_of_bounds; lia).
  rewrite (Index.mul_small (2 * (degree + 1) * degree) degree)
    by (apply ok_of_bounds; lia).
  rewrite (Index.add_small ho i) by (apply ok_of_bounds; lia).
  rewrite (Index.add_small (ho + i) 1) by (apply ok_of_bounds; lia).
  rewrite (Index.add_small (ho + i) ((degree + 1) * (j + degree * k)))
    by (apply ok_of_bounds; lia).
  rewrite (Index.add_small (ho + i + 1)) by (apply ok_of_bounds; lia).
  rewrite (Index.add_small (ho + i) (degree * (j + degree * k)))
    by (apply ok_of_bounds; lia).
  rewrite (Index.add_small (ho + i) (degree * (j + 1 + degree * k)))
    by (apply ok_of_bounds; lia).
  rewrite (Index.add_small (ho + i) (degree * (j + degree * (k + 1))))
    by (apply ok_of_bounds; lia).
  rewrite !Index.add_small by (apply ok_of_bounds; lia).
  repeat split; lia.
Qed.

(** ** The loop over the bases *)

Section Bases.

(** One instance of the recursion, for the indices or for the signs *)
Variable step : Z -> list Z -> list Z.

Hypothesis step_frame : forall b dof,
  basis_ok b ->
  Arr.len (step b dof) = Arr.len dof /\
  forall p, 0 <= p ->
    p < get_dof_offset Basis b \/ get_dof_offset Basis b + region_size b <= p ->
    Arr.get (step b dof) p = Arr.get dof p.

Hypothesis Hbases : forall b, 0 <= b < nbasis Basis -> basis_ok b.

Lemma bases_length dof :
  Arr.len (for_range 0 (nbasis Basis) step dof) = Arr.len dof.
Proof.
  apply (for_range_preserves (fun t => Arr.len t = Arr.len dof)); [|reflexivity].
  intros b t Hb Ht. rewrite <- Ht. apply step_frame, Hbases, Hb.
Qed.

(** An entry outside the entries of every basis is left as it was. *)
Lemma bases_frame dof p :
  0 <= p ->
  (forall b, 0 <= b < nbasis Basis ->
     p < get_dof_offset Basis b \/ get_dof_offset Basis b + region_size b <= p) ->
  Arr.get (for_range 0 (nbasis Basis) step dof) p = Arr.get dof p.
Proof.
  intros Hp Hout.
  apply (for_range_preserves (fun t => Arr.get t p = Arr.get dof p)); [|reflexivity].
  intros b t Hb Ht. rewrite <- Ht. apply step_frame; [apply Hbases, Hb|exact Hp|].
  apply Hout, Hb.
Qed.

(** An entry of basis [b] holds what the instance for [b] stores there,
    when no other basis shares entries with [b]. *)
Lemma bases_entry b dof p v :
  0 <= b < nbasis Basis ->
  (forall b', 0 <= b' < nbasis Basis -> b' <> b ->
     get_dof_offset Basis b' + region_size b' <= get_dof_offset Basis b \/
     get_dof_offset Basis b + region_size b <= get_dof_offset Basis b') ->
  0 <= p ->
  get_dof_offset Basis b <= p < get_dof_offset Basis b + region_size b ->
  (forall d, Arr.len d = Arr.len dof -> Arr.get (step b d) p = v) ->
  Arr.get (for_range 0 (nbasis Basis) step dof) p = v.
Proof.
  intros Hb Hdis Hp Hin Hval.
  assert (H : Arr.len (for_range 0 (nbasis Basis) step dof) = Arr.len dof /\
              (b < nbasis Basis -> Arr.get (for_range 0 (nbasis Basis) step dof) p = v)).
  { apply (for_range_inv
      (fun t d => Arr.len d = Arr.len dof /\ (b < t -> Arr.get d p = v))).
    - lia.
    - split; [reflexivity|lia].
    - intros t d Ht (Hl & Hd).
      destruct (step_frame t d (Hbases t Ht)) as (Fl & Fg).
      split; [congruence|]. intros Hbt.
      destruct (Z.eq_dec t b) as [->|Nt].
      + apply Hval, Hl.
      + rewrite Fg; [apply Hd; lia|exact Hp|].
        destruct (Hdis t Ht Nt); lia. }
  apply H. lia.
Qed.

End Bases.

(** ** The public queries *)

Section Queries.

Hypothesis Hcube : degree * degree * degree <= Index.max.
Hypothesis Hbases : forall b, 0 <= b < nbasis Basis -> basis_ok b.

Variable b : Z.
Hypothesis Hb : 0 <= b < nbasis Basis.
Hypothesis Hdisjoint : forall b', 0 <= b' < nbasis Basis -> b' <> b ->
  get_dof_offset Basis b' + region_size b' <= get_dof_offset Basis b \/
  get_dof_offset Basis b + region_size b <= get_dof_offset Basis b'.

Local Abbreviation s := (get_basis_stride Basis b).
Local Abbreviation lo := (get_dof_offset Basis b).
Local Abbreviation ho := (get_dof_offset HOrderBasis b).

Lemma square_small : degree *w degree = degree * degree.
Proof. apply Index.mul_small, ok_of_bounds. nia. Qed.

Lemma num_projection_elements :
  get_num_projection_elements degree = degree * degree * degree.
Proof.
  unfold get_num_projection_elements. rewrite order_pred, square_small.
  apply Index.mul_small, ok_of_bounds. nia.
Qed.

Lemma index_length n index :
  Arr.len (get_projection_index degree HOrderBasis Basis n index) = Arr.len index.
Proof.
  unfold get_projection_index, get_projection_index_. cbv zeta.
  apply bases_length; [|exact Hbases].
  intros b' d Hok. apply index_step_frame, Hok.
Qed.

Lemma signs_length n signs :
  Arr.len (get_projection_signs degree Basis n signs) = Arr.len signs.
Proof.
  unfold get_projection_signs, get_projection_signs_. cbv zeta.
  apply bases_length; [|exact Hbases].
  intros b' d Hok. apply signs_step_frame, Hok.
Qed.

(** The entry of basis [b] at [p] after [get_projection_index] *)
Lemma index_entry n index p v :
  0 <= p -> lo <= p < lo + region_size b ->
  (forall d, Arr.len d = Arr.len index ->
     Arr.get (index_step degree HOrderBasis Basis (cell_i degree n)
                (cell_j degree n) (cell_k degree n) b d) p
     = v) ->
  Arr.get (get_projection_index degree HOrderBasis Basis n index) p = v.
Proof.
  intros Hp Hin Hval.
  unfold get_projection_index, get_projection_index_. cbv zeta.
  rewrite square_small.
  apply (bases_entry
           (index_step degree HOrderBasis Basis (n mod degree)
              ((n mod (degree * degree)) / degree) (n / (degree * degree)))
           (fun b' d Hok => index_step_frame b' _ _ _ d Hok)
           Hbases b index p v Hb Hdisjoint Hp Hin Hval).
Qed.

Lemma signs_entry n signs p v :
  0 <= p -> lo <= p < lo + region_size b ->
  (forall d, Arr.len d = Arr.len signs ->
     Arr.get (signs_step Basis (cell_i degree n)
                (cell_j degree n) (cell_k degree n) b d) p
     = v) ->
  Arr.get (get_projection_signs degree Basis n signs) p = v.
Proof.
  intros Hp Hin Hval.
  unfold get_projection_signs, get_projection_signs_. cbv zeta.
  rewrite square_small.
  apply (bases_entry
           (signs_step Basis (n mod degree)
              ((n mod (degree * degree)) / degree) (n / (degree * degree)))
           (fun b' d Hok => signs_step_frame b' _ _ _ d Hok)
           Hbases b signs p v Hb Hdisjoint Hp Hin Hval).
Qed.

Section Entries.

Variable n : Z.
Hypothesis Hn : 0 <= n < degree * degree * degree.

Local Abbreviation i := (cell_i degree n).
Local Abbreviation j := (cell_j degree n).
Local Abbreviation k := (cell_k degree n).

Lemma cell_bounds :
  0 <= i < degree /\ 0 <= j < degree /\ 0 <= k < degree /\
  n = i + degree * (j + degree * k).
Proof. apply decode_digits; [lia|exact Hn]. Qed.

Lemma l2_entries index m :
  get_basis_type Basis b = L2 ->
  0 <= ho -> ho + s * (degree * degree * degree) <= Index.max ->
  0 <= m < s -> lo + m < Arr.len index ->
  Arr.get (get_projection_index degree HOrderBasis Basis n index) (lo + m)
  = ho + m + s * n.
Proof.
  intros Ht Hho Hmax Hm Hlen.
  destruct (Hbases b Hb) as (Hs & Hlo & Hreg). unfold region_size in Hreg.
  rewrite Ht in Hreg.
  destruct cell_bounds as (Bi & Bj & Bk & En).
  apply index_entry; [lia|unfold region_size; rewrite Ht; lia|].
  intros d Hd. unfold index_step. rewrite Ht.
  destruct (l2_index_spec b i j k d Hs Hlo Hreg) as (_ & _ & Hv).
  rewrite (Hv m Hm) by lia. rewrite order_pred.
  assert (A1 : degree *w k = degree * k)
    by (apply Index.mul_small, ok_of_bounds; nia).
  rewrite A1.
  assert (A2 : j +w degree * k = j + degree * k)
    by (apply Index.add_small, ok_of_bounds; nia).
  rewrite A2.
  assert (A3 : degree *w (j + degree * k) = degree * (j + degree * k))
    by (apply Index.mul_small, ok_of_bounds; nia).
  rewrite A3.
  assert (A4 : i +w degree * (j + degree * k) = n)
    by (rewrite Index.add_small by (apply ok_of_bounds; nia); lia).
  rewrite A4.
  assert (A5 : s * n + s <= s * (degree * degree * degree)) by nia.
  rewrite (Index.mul_small s n) by (apply ok_of_bounds; nia).
  rewrite (Index.add_small ho m) by (apply ok_of_bounds; nia).
  apply Index.add_small, ok_of_bounds. nia.
Qed.

Lemma h1_entries index ii jj kk m :
  get_basis_type Basis b = H1 ->
  0 <= ho ->
  ho + s * ((degree + 1) * (degree + 1) * (degree + 1)) <= Index.max ->
  0 <= ii < 2 -> 0 <= jj < 2 -> 0 <= kk < 2 -> 0 <= m < s ->
  lo + m + s * (ii + 2 * (jj + 2 * kk)) < Arr.len index ->
  Arr.get (get_projection_index degree HOrderBasis Basis n index)
    (lo + m + s * (ii + 2 * (jj + 2 * kk)))
  = ho + m + s * ((i + ii) + (degree + 1) * ((j + jj) + (degree + 1) * (k + kk))) /\
  (i + ii) + (degree + 1) * ((j + jj) + (degree + 1) * (k + kk))
    < (degree + 1) * (degree + 1) * (degree + 1).
Proof.
  intros Ht Hho Hmax Hii Hjj Hkk Hm Hlen.
  destruct (Hbases b Hb) as (Hs & Hlo & Hreg). unfold region_size in Hreg.
  rewrite Ht in Hreg.
  destruct cell_bounds as (Bi & Bj & Bk & _).
  destruct (node_bound degree (i + ii) (j + jj) (k + kk)) as (N1 & N2 & N3 & N4 & N5 & N6);
    try lia.
  split; [|lia].
  assert (Hc : 0 <= ii + 2 * (jj + 2 * kk) <= 7) by lia.
  assert (Hpos : 0 <= s * (ii + 2 * (jj + 2 * kk)) /\
                 s * (ii + 2 * (jj + 2 * kk)) + s <= 8 * s).
  { remember (ii + 2 * (jj + 2 * kk)) as c. clear - Hs Hc. nia. }
  apply index_entry; [lia|unfold region_size; rewrite Ht; lia|].
  intros d Hd. unfold index_step. rewrite Ht.
  destruct (h1_index_spec b i j k d Hs Hlo Hreg) as (_ & _ & Hv).
  rewrite (Hv ii jj kk m Hii Hjj Hkk Hm) by lia.
  unfold h1_value. rewrite order_eq.
  remember ((degree + 1) * (degree + 1) * (degree + 1)) as O3 eqn:EO3.
  assert (Hs1 : 0 < s) by lia.
  assert (HO3 : O3 <= Index.max).
  { clear - Hmax Hho Hs1 N1 N2. nia. }
  rewrite (Index.add_small i ii) by (apply ok_of_bounds; lia).
  rewrite (Index.add_small j jj) by (apply ok_of_bounds; lia).
  rewrite (Index.add_small k kk) by (apply ok_of_bounds; lia).
  rewrite (Index.mul_small (degree + 1) (k + kk)) by (apply ok_of_bounds; lia).
  rewrite (Index.add_small (j + jj)) by (apply ok_of_bounds; lia).
  rewrite (Index.mul_small (degree + 1)) by (apply ok_of_bounds; lia).
  rewrite (Index.add_small (i + ii)) by (apply ok_of_bounds; lia).
  remember (i + ii + (degree + 1) * (j + jj + (degree + 1) * (k + kk))) as N eqn:EN.
  assert (HsN : 0 <= s * N /\ s * N + s <= s * O3).
  { clear - Hs N1 N2. nia. }
  rewrite (Index.mul_small s) by (apply ok_of_bounds; lia).
  rewrite (Index.add_small ho m) by (apply ok_of_bounds; lia).
  apply Index.add_small, ok_of_bounds. lia.
Qed.

Lemma hdiv_step_entries d :
  get_basis_type Basis b = HDIV ->
  0 <= ho -> ho + 3 * ((degree + 1) * degree * degree) <= Index.max ->
  lo + 5 < Arr.len d ->
  Arr.get (index_step degree HOrderBasis Basis i j k b d) lo
    = ho + i + (degree + 1) * (j + degree * k) /\
  Arr.get (index_step degree HOrderBasis Basis i j k b d) (lo + 1)
    = ho + i + 1 + (degree + 1) * (j + degree * k) /\
  Arr.get (index_step degree HOrderBasis Basis i j k b d) (lo + 2)
    = ho + i + degree * (j + degree * k) + (degree + 1) * degree * degree /\
  Arr.get (index_step degree HOrderBasis Basis i j k b d) (lo + 3)
    = ho + i + degree * (j + 1 + degree * k) + (degree + 1) * degree * degree /\
  Arr.get (index_step degree HOrderBasis Basis i j k b d) (lo + 4)
    = ho + i + degree * (j + degree * k) + 2 * ((degree + 1) * degree * degree) /\
  Arr.get (index_step degree HOrderBasis Basis i j k b d) (lo + 5)
    = ho + i + degree * (j + degree * (k + 1))
      + 2 * ((degree + 1) * degree * degree).
Proof.
  intros Ht Hho Hmax Hlen.
  destruct (Hbases b Hb) as (Hs & Hlo & Hreg). unfold region_size in Hreg.
  rewrite Ht in Hreg.
  destruct cell_bounds as (Bi & Bj & Bk & _).
  destruct (hdiv_values ho i j k Bi Bj Bk Hho Hmax)
    as (V0 & V1 & V2 & V3 & V4 & V5).
  unfold index_step. rewrite Ht. unfold get_hdiv_index. cbv zeta.
  rewrite V0, V1, V2, V3, V4, V5.
  match goal with
  | |- context [Arr.set (Arr.set (Arr.set (Arr.set (Arr.set (Arr.set d lo ?v0)
                  _ ?v1) _ ?v2) _ ?v3) _ ?v4) _ ?v5] =>
      destruct (six_writes b v0 v1 v2 v3 v4 v5 d Hlo Hreg) as (_ & _ & Hv)
  end.
  exact (Hv Hlen).
Qed.

Lemma hdiv_entries index :
  get_basis_type Basis b = HDIV ->
  0 <= ho -> ho + 3 * ((degree + 1) * degree * degree) <= Index.max ->
  lo + 5 < Arr.len index ->
  Arr.get (get_projection_index degree HOrderBasis Basis n index) lo
    = ho + i + (degree + 1) * (j + degree * k) /\
  Arr.get (get_projection_index degree HOrderBasis Basis n index) (lo + 1)
    = ho + i + 1 + (degree + 1) * (j + degree * k) /\
  Arr.get (get_projection_index degree HOrderBasis Basis n index) (lo + 2)
    = ho + i + degree * (j + degree * k) + (degree + 1) * degree * degree /\
  Arr.get (get_projection_index degree HOrderBasis Basis n index) (lo + 3)
    = ho + i + degree * (j + 1 + degree * k) + (degree + 1) * degree * degree /\
  Arr.get (get_projection_index degree HOrderBasis Basis n index) (lo + 4)
    = ho + i + degree * (j + degree * k) + 2 * ((degree + 1) * degree * degree) /\
  Arr.get (get_projection_index degree HOrderBasis Basis n index) (lo + 5)
    = ho + i + degree * (j + degree * (k + 1))
      + 2 * ((degree + 1) * degree * degree).
Proof.
  intros Ht Hho Hmax Hlen.
  destruct (Hbases b Hb) as (Hs & Hlo & Hreg).
  assert (Hsize : region_size b = 6) by (unfold region_size; rewrite Ht; reflexivity).
  assert (Hall : forall d, Arr.len d = Arr.len index -> lo + 5 < Arr.len d)
    by (intros d Hd; lia).
  repeat split; (apply index_entry; [lia|lia|]); intros d Hd;
    apply (hdiv_step_entries d Ht Hho Hmax (Hall d Hd)).
Qed.

Lemma hdiv_signs_entries signs :
  get_basis_type Basis b = HDIV -> lo + 5 < Arr.len signs ->
  Arr.get (get_projection_signs degree Basis n signs) lo
    = (if i =? 0 then 1 else -1) /\
  Arr.get (get_projection_signs degree Basis n signs) (lo + 1) = 1 /\
  Arr.get (get_projection_signs degree Basis n signs) (lo + 2)
    = (if j =? 0 then 1 else -1) /\
  Arr.get (get_projection_signs degree Basis n signs) (lo + 3) = 1 /\
  Arr.get (get_projection_signs degree Basis n signs) (lo + 4)
    = (if k =? 0 then 1 else -1) /\
  Arr.get (get_projection_signs degree Basis n signs) (lo + 5) = 1.
Proof.
  intros Ht Hlen.
  destruct (Hbases b Hb) as (Hs & Hlo & Hreg).
  assert (Hsize : region_size b = 6) by (unfold region_size; rewrite Ht; reflexivity).
  rewrite Hsize in Hreg.
  assert (Hstep : forall d, Arr.len d = Arr.len signs ->
    Arr.get (signs_step Basis i j k b d) lo = (if i =? 0 then 1 else -1) /\
    Arr.get (signs_step Basis i j k b d) (lo + 1) = 1 /\
    Arr.get (signs_step Basis i j k b d) (lo + 2) = (if j =? 0 then 1 else -1) /\
    Arr.get (signs_step Basis i j k b d) (lo + 3) = 1 /\
    Arr.get (signs_step Basis i j k b d) (lo + 4) = (if k =? 0 then 1 else -1) /\
    Arr.get (signs_step Basis i j k b d) (lo + 5) = 1).
  { intros d Hd. unfold signs_step. rewrite Ht. unfold get_hdiv_signs. cbv zeta.
    match goal with
    | |- context [Arr.set (Arr.set (Arr.set (Arr.set (Arr.set (Arr.set d lo ?v0)
                    _ ?v1) _ ?v2) _ ?v3) _ ?v4) _ ?v5] =>
        destruct (six_writes b v0 v1 v2 v3 v4 v5 d Hlo Hreg) as (_ & _ & Hv)
    end.
    apply Hv. lia. }
  repeat split; (apply signs_entry; [lia|lia|]); intros d Hd;
    apply (Hstep d Hd).
Qed.

End Entries.

(** Two sub-elements that are neighbours in the grid share the face between
    them: both name the same degree of freedom, with opposite signs. *)
Lemma hdiv_shared n index signs :
  0 <= n < degree * degree * degree ->
  get_basis_type Basis b = HDIV ->
  0 <= ho -> ho + 3 * ((degree + 1) * degree * degree) <= Index.max ->
  lo + 5 < Arr.len index -> lo + 5 < Arr.len signs ->
  (cell_i degree n + 1 < degree ->
   Arr.get (get_projection_index degree HOrderBasis Basis n index) (lo + 1)
   = Arr.get (get_projection_index degree HOrderBasis Basis (n + 1) index) lo /\
   Arr.get (get_projection_signs degree Basis n signs) (lo + 1) = 1 /\
   Arr.get (get_projection_signs degree Basis (n + 1) signs) lo = -1) /\
  (cell_j degree n + 1 < degree ->
   Arr.get (get_projection_index degree HOrderBasis Basis n index) (lo + 3)
   = Arr.get (get_projection_index degree HOrderBasis Basis (n + degree) index)
       (lo + 2) /\
   Arr.get (get_projection_signs degree Basis n signs) (lo + 3) = 1 /\
   Arr.get (get_projection_signs degree Basis (n + degree) signs) (lo + 2) = -1) /\
  (cell_k degree n + 1 < degree ->
   Arr.get (get_projection_index degree HOrderBasis Basis n index) (lo + 5)
   = Arr.get (get_projection_index degree HOrderBasis Basis
                (n + degree * degree) index) (lo + 4) /\
   Arr.get (get_projection_signs degree Basis n signs) (lo + 5) = 1 /\
   Arr.get (get_projection_signs degree Basis (n + degree * degree) signs) (lo + 4)
   = -1).
Proof.
  intros Hn Ht Hho Hmax Hli Hls.
  destruct (cell_bounds n Hn) as (Bi & Bj & Bk & En).
  assert (Hd : 0 < degree) by lia.
  destruct (hdiv_entries n Hn index Ht Hho Hmax Hli) as (I0 & I1 & I2 & I3 & I4 & I5).
  destruct (hdiv_signs_entries n signs Ht Hls) as (S0 & S1 & S2 & S3 & S4 & S5).
  assert (Hnext : forall i' j' k' n',
    0 <= i' < degree -> 0 <= j' < degree -> 0 <= k' < degree ->
    n' = i' + degree * (j' + degree * k') ->
    0 <= n' < degree * degree * degree /\
    cell_i degree n' = i' /\ cell_j degree n' = j' /\ cell_k degree n' = k').
  { intros i' j' k' n' Hi' Hj' Hk' ->.
    split; [|apply cell_unique; assumption].
    assert (X : 0 <= j' + degree * k' /\ j' + degree * k' + 1 <= degree * degree).
    { clear - Hd Hj' Hk'. nia. }
    remember (j' + degree * k') as q. clear - Hd Hi' X. nia. }
  split; [|split]; intros Hnb.
  - destruct (Hnext (cell_i degree n + 1) (cell_j degree n) (cell_k degree n) (n + 1))
      as (Hn' & Ci & Cj & Ck); try lia.
    destruct (hdiv_entries (n + 1) Hn' index Ht Hho Hmax Hli) as (J0 & _).
    destruct (hdiv_signs_entries (n + 1) signs Ht Hls) as (T0 & _).
    rewrite I1, J0, S1, T0, Ci, Cj, Ck.
    destruct (Z.eqb_spec (cell_i degree n + 1) 0); [lia|]. repeat split; lia.
  - destruct (Hnext (cell_i degree n) (cell_j degree n + 1) (cell_k degree n)
                (n + degree)) as (Hn' & Ci & Cj & Ck); try lia.
    destruct (hdiv_entries (n + degree) Hn' index Ht Hho Hmax Hli)
      as (_ & _ & J2 & _).
    destruct (hdiv_signs_entries (n + degree) signs Ht Hls) as (_ & _ & T2 & _).
    rewrite I3, J2, S3, T2, Ci, Cj, Ck.
    destruct (Z.eqb_spec (cell_j degree n + 1) 0); [lia|]. repeat split; lia.
  - destruct (Hnext (cell_i degree n) (cell_j degree n) (cell_k degree n + 1)
                (n + degree * degree)) as (Hn' & Ci & Cj & Ck); try lia.
    destruct (hdiv_entries (n + degree * degree) Hn' index Ht Hho Hmax Hli)
      as (_ & _ & _ & _ & J4 & _).
    destruct (hdiv_signs_entries (n + degree * degree) signs Ht Hls)
      as (_ & _ & _ & _ & T4 & _).
    rewrite I5, J4, S5, T4, Ci, Cj, Ck.
    destruct (Z.eqb_spec (cell_k degree n + 1) 0); [lia|]. repeat split; lia.
Qed.

End Queries.

End Helpers.

(** The sizes fit [index_t], every basis keeps its entries within the
    [index_t] range, and basis [b] shares no entry with another basis. *)
Definition projection_ok (degree : Z) (Basis : SpaceBasis) (b : Z) : Prop :=
  0 < degree /\ degree * degree * degree <= Index.max /\
  (forall b', 0 <= b' < nbasis Basis -> basis_ok Basis b') /\
  0 <= b < nbasis Basis /\
  forall b', 0 <= b' < nbasis Basis -> b' <> b ->
    get_dof_offset Basis b' + region_size Basis b' <= get_dof_offset Basis b \/
    get_dof_offset Basis b + region_size Basis b <= get_dof_offset Basis b'.

Lemma degree_small d : 0 < d -> d * d * d <= Index.max -> 0 < d < Index.max.
Proof.
  intros Hd Hc. split; [exact Hd|].
  assert (H : d <= 1 \/ 2 <= d) by lia. destruct H as [H|H].
  - unfold Index.max. rewrite Index.modulus_eq. lia.
  - assert (2 * d <= d * d * d) by nia. lia.
Qed.

(** A basis with a single space of stride [stride] at offset 0 *)
Definition one_space (t : BasisType) (stride : Z) : SpaceBasis :=
  {| nbasis := 1; get_basis_type := fun _ => t;
     get_basis_stride := fun _ => stride; get_dof_offset := fun _ => 0 |}.

Lemma one_space_ok t : projection_ok 2 (one_space t 1) 0.
Proof.
  unfold projection_ok. cbn [nbasis get_dof_offset one_space].
  assert (Hm : 8 <= Index.max) by (unfold Index.max; rewrite Index.modulus_eq; lia).
  split; [lia|]. split; [lia|]. split; [|split; [lia|]].
  - intros b' Hb'. unfold basis_ok, region_size.
    cbn [get_basis_type get_basis_stride get_dof_offset one_space].
    destruct t; lia.
  - intros b' Hb' Hne. lia.
Qed.

End HexProj.

(** X13.  For an L2 space of the basis, [get_projection_index] of
    sub-element [n] names the [n]-th block of [stride] degrees of freedom of
    the high-order element: entry [lo + m] is [ho + m + stride * n]; the
    array keeps its length. *)
Theorem hex_projection_l2_block (degree : Z) (HO LO : HexProj.SpaceBasis)
  (b n : Z) (index : list Z) :
  HexProj.projection_ok degree LO b ->
  HexProj.get_basis_type LO b = HexProj.L2 ->
  0 <= HexProj.get_dof_offset HO b ->
  HexProj.get_dof_offset HO b
    + HexProj.get_basis_stride LO b * (degree * degree * degree) <= Index.max ->
  0 <= n < HexProj.get_num_projection_elements degree ->
  HexProj.get_num_projection_elements degree = degree * degree * degree /\
  Arr.len (HexProj.get_projection_index degree HO LO n index) = Arr.len index /\
  forall m, 0 <= m < HexProj.get_basis_stride LO b ->
    HexProj.get_dof_offset LO b + m < Arr.len index ->
    Arr.get (HexProj.get_projection_index degree HO LO n index)
      (HexProj.get_dof_offset LO b + m)
    = HexProj.get_dof_offset HO b + m + HexProj.get_basis_stride LO b * n.
Proof.
  intros (Hd & Hc & Hbases & Hb & Hdis) Ht Hho Hmax Hn.
  pose proof (HexProj.degree_small degree Hd Hc) as Hdeg.
  pose proof (HexProj.num_projection_elements degree Hdeg Hc) as En.
  rewrite En in Hn. split; [exact En|].
  split; [apply (HexProj.index_length degree HO LO Hdeg Hbases)|].
  intros m Hm Hlen.
  apply (HexProj.l2_entries degree HO LO Hdeg Hc Hbases b Hb Hdis n Hn index m
           Ht Hho Hmax Hm Hlen).
Qed.

Lemma hex_projection_l2_block_witness :
  HexProj.projection_ok 2 (HexProj.one_space HexProj.L2 1) 0 /\
  Arr.len (HexProj.get_projection_index 2 (HexProj.one_space HexProj.L2 1)
             (HexProj.one_space HexProj.L2 1) 3 [0]) = Arr.len [0].
Proof.
  assert (H1 : 0 <= 0) by lia.
  assert (H2 : 0 + 1 * (2 * 2 * 2) <= Index.max) by numerals.
  assert (H3 : 0 <= 3 < HexProj.get_num_projection_elements 2) by numerals.
  split; [apply HexProj.one_space_ok|].
  exact (proj1 (proj2 (hex_projection_l2_block 2 (HexProj.one_space HexProj.L2 1)
                  (HexProj.one_space HexProj.L2 1) 0 3 [0]
                  (HexProj.one_space_ok HexProj.L2) eq_refl H1 H2 H3))).
Defined.

(** X14.  For an H1 space of the basis, [get_projection_index] of the
    sub-element at grid position [(i, j, k)] names at corner [(ii, jj, kk)]
    the node [(i + ii, j + jj, k + kk)] of the grid of
    [(degree + 1)^3] nodes of the high-order element, for each of the
    [stride] components; the node is within the grid. *)
Theorem hex_projection_h1_corners (degree : Z) (HO LO : HexProj.SpaceBasis)
  (b n : Z) (index : list Z) :
  HexProj.projection_ok degree LO b ->
  HexProj.get_basis_type LO b = HexProj.H1 ->
  0 <= HexProj.get_dof_offset HO b ->
  HexProj.get_dof_offset HO b
    + HexProj.get_basis_stride LO b * ((degree + 1) * (degree + 1) * (degree + 1))
    <= Index.max ->
  0 <= n < HexProj.get_num_projection_elements degree ->
  forall ii jj kk m,
    0 <= ii < 2 -> 0 <= jj < 2 -> 0 <= kk < 2 ->
    0 <= m < HexProj.get_basis_stride LO b ->
    HexProj.get_dof_offset LO b + m
      + HexProj.get_basis_stride LO b * (ii + 2 * (jj + 2 * kk)) < Arr.len index ->
    Arr.get (HexProj.get_projection_index degree HO LO n index)
      (HexProj.get_dof_offset LO b + m
       + HexProj.get_basis_stride LO b * (ii + 2 * (jj + 2 * kk)))
    = HexProj.get_dof_offset HO b + m
      + HexProj.get_basis_stride LO b
        * ((HexProj.cell_i degree n + ii)
           + (degree + 1) * ((HexProj.cell_j degree n + jj)
                             + (degree + 1) * (HexProj.cell_k degree n + kk))) /\
    (HexProj.cell_i degree n + ii)
      + (degree + 1) * ((HexProj.cell_j degree n + jj)
                        + (degree + 1) * (HexProj.cell_k degree n + kk))
      < (degree + 1) * (degree + 1) * (degree + 1).
Proof.
  intros (Hd & Hc & Hbases & Hb & Hdis) Ht Hho Hmax Hn ii jj kk m Hii Hjj Hkk Hm Hlen.
  pose proof (HexProj.degree_small degree Hd Hc) as Hdeg.
  rewrite (HexProj.num_projection_elements degree Hdeg Hc) in Hn.
  apply (HexProj.h1_entries degree HO LO Hdeg Hc Hbases b Hb Hdis n Hn index
           ii jj kk m Ht Hho Hmax Hii Hjj Hkk Hm Hlen).
Qed.

Lemma hex_projection_h1_corners_witness :
  HexProj.projection_ok 2 (HexProj.one_space HexProj.H1 1) 0 /\
  HexProj.cell_i 2 3 + 1 + (2 + 1) * (HexProj.cell_j 2 3 + 1
                                      + (2 + 1) * (HexProj.cell_k 2 3 + 1))
    < (2 + 1) * (2 + 1) * (2 + 1).
Proof.
  assert (H1 : 0 <= 0) by lia.
  assert (H2 : 0 + 1 * ((2 + 1) * (2 + 1) * (2 + 1)) <= Index.max) by numerals.
  assert (H3 : 0 <= 3 < HexProj.get_num_projection_elements 2) by numerals.
  assert (H4 : 0 + 0 + 1 * (1 + 2 * (1 + 2 * 1)) < Arr.len (uninit 8)) by numerals.
  assert (H5 : 0 <= 1 < 2) by lia.
  assert (H6 : 0 <= 0 < 1) by lia.
  split; [apply HexProj.one_space_ok|].
  exact (proj2 (hex_projection_h1_corners 2 (HexProj.one_space HexProj.H1 1)
                  (HexProj.one_space HexProj.H1 1) 0 3 (uninit 8)
                  (HexProj.one_space_ok HexProj.H1) eq_refl H1 H2 H3
                  1 1 1 0 H5 H5 H5 H6 H4)).
Defined.

(** X15.  For an H(div) space of the basis, [get_projection_index] of the
    sub-element at grid position [(i, j, k)] names its six faces: the two
    faces across the first direction are [i] and [i + 1] in row
    [j + degree * k] of the first family of faces, and likewise for the
    second and third directions in the second and third family;
    [get_projection_signs] gives the lower face of a direction the sign [1]
    when the sub-element is first in that direction and [-1] otherwise, and
    every upper face the sign [1]. *)
Theorem hex_projection_hdiv_faces (degree : Z) (HO LO : HexProj.SpaceBasis)
  (b n : Z) (index signs : list Z) :
  HexProj.projection_ok degree LO b ->
  HexProj.get_basis_type LO b = HexProj.HDIV ->
  0 <= HexProj.get_dof_offset HO b ->
  HexProj.get_dof_offset HO b + 3 * ((degree + 1) * degree * degree) <= Index.max ->
  0 <= n < HexProj.get_num_projection_elements degree ->
  HexProj.get_dof_offset LO b + 5 < Arr.len index ->
  HexProj.get_dof_offset LO b + 5 < Arr.len signs ->
  (Arr.get (HexProj.get_projection_index degree HO LO n index)
     (HexProj.get_dof_offset LO b)
   = HexProj.get_dof_offset HO b + HexProj.cell_i degree n
     + (degree + 1) * (HexProj.cell_j degree n + degree * HexProj.cell_k degree n) /\
   Arr.get (HexProj.get_projection_index degree HO LO n index)
     (HexProj.get_dof_offset LO b + 1)
   = HexProj.get_dof_offset HO b + HexProj.cell_i degree n + 1
     + (degree + 1) * (HexProj.cell_j degree n + degree * HexProj.cell_k degree n) /\
   Arr.get (HexProj.get_projection_index degree HO LO n index)
     (HexProj.get_dof_offset LO b + 2)
   = HexProj.get_dof_offset HO b + HexProj.cell_i degree n
     + degree * (HexProj.cell_j degree n + degree * HexProj.cell_k degree n)
     + (degree + 1) * degree * degree /\
   Arr.get (HexProj.get_projection_index degree HO LO n index)
     (HexProj.get_dof_offset LO b + 3)
   = HexProj.get_dof_offset HO b + HexProj.cell_i degree n
     + degree * (HexProj.cell_j degree n + 1 + degree * HexProj.cell_k degree n)
     + (degree + 1) * degree * degree /\
   Arr.get (HexProj.get_projection_index degree HO LO n index)
     (HexProj.get_dof_offset LO b + 4)
   = HexProj.get_dof_offset HO b + HexProj.cell_i degree n
     + degree * (HexProj.cell_j degree n + degree * HexProj.cell_k degree n)
     + 2 * ((degree + 1) * degree * degree) /\
   Arr.get (HexProj.get_projection_index degree HO LO n index)
     (HexProj.get_dof_offset LO b + 5)
   = HexProj.get_dof_offset HO b + HexProj.cell_i degree n
     + degree * (HexProj.cell_j degree n + degree * (HexProj.cell_k degree n + 1))
     + 2 * ((degree + 1) * degree * degree)) /\
  (Arr.get (HexProj.get_projection_signs degree LO n signs)
     (HexProj.get_dof_offset LO b)
   = (if HexProj.cell_i degree n =? 0 then 1 else -1) /\
   Arr.get (HexProj.get_projection_signs degree LO n signs)
     (HexProj.get_dof_offset LO b + 1) = 1 /\
   Arr.get (HexProj.get_projection_signs degree LO n signs)
     (HexProj.get_dof_offset LO b + 2)
   = (if HexProj.cell_j degree n =? 0 then 1 else -1) /\
   Arr.get (HexProj.get_projection_signs degree LO n signs)
     (HexProj.get_dof_offset LO b + 3) = 1 /\
   Arr.get (HexProj.get_projection_signs degree LO n signs)
     (HexProj.get_dof_offset LO b + 4)
   = (if HexProj.cell_k degree n =? 0 then 1 else -1) /\
   Arr.get (HexProj.get_projection_signs degree LO n signs)
     (HexProj.get_dof_offset LO b + 5) = 1).
Proof.
  intros (Hd & Hc & Hbases & Hb & Hdis) Ht Hho Hmax Hn Hli Hls.
  pose proof (HexProj.degree_small degree Hd Hc) as Hdeg.
  rewrite (HexProj.num_projection_elements degree Hdeg Hc) in Hn.
  split.
  - apply (HexProj.hdiv_entries degree HO LO Hdeg Hc Hbases b Hb Hdis n Hn index
             Ht Hho Hmax Hli).
  - apply (HexProj.hdiv_signs_entries degree LO Hdeg Hc Hbases b Hb Hdis n signs
             Ht Hls).
Qed.

Lemma hex_projection_hdiv_faces_witness :
  HexProj.projection_ok 2 (HexProj.one_space HexProj.HDIV 1) 0 /\
  Arr.get (HexProj.get_projection_signs 2 (HexProj.one_space HexProj.HDIV 1) 3
             (uninit 6)) (0 + 1) = 1.
Proof.
  assert (H1 : 0 <= 0) by lia.
  assert (H2 : 0 + 3 * ((2 + 1) * 2 * 2) <= Index.max) by numerals.
  assert (H3 : 0 <= 3 < HexProj.get_num_projection_elements 2) by numerals.
  assert (H4 : 0 + 5 < Arr.len (uninit 6)) by numerals.
  split; [apply HexProj.one_space_ok|].
  exact (proj1 (proj2 (proj2 (hex_projection_hdiv_faces 2
                  (HexProj.one_space HexProj.HDIV 1)
                  (HexProj.one_space HexProj.HDIV 1) 0 3 (uninit 6) (uninit 6)
                  (HexProj.one_space_ok HexProj.HDIV) eq_refl H1 H2 H3 H4 H4)))).
Defined.

(** X16.  For an H(div) space, two sub-elements that are neighbours in one
    of the three grid directions name the same degree of freedom for the
    face between them, the first with sign [1] and the second with sign
    [-1]. *)
Theorem hex_projection_hdiv_shared (degree : Z) (HO LO : HexProj.SpaceBasis)
  (b n : Z) (index signs : list Z) :
  HexProj.projection_ok degree LO b ->
  HexProj.get_basis_type LO b = HexProj.HDIV ->
  0 <= HexProj.get_dof_offset HO b ->
  HexProj.get_dof_offset HO b + 3 * ((degree + 1) * degree * degree) <= Index.max ->
  0 <= n < HexProj.get_num_projection_elements degree ->
  HexProj.get_dof_offset LO b + 5 < Arr.len index ->
  HexProj.get_dof_offset LO b + 5 < Arr.len signs ->
  (HexProj.cell_i degree n + 1 < degree ->
   Arr.get (HexProj.get_projection_index degree HO LO n index)
     (HexProj.get_dof_offset LO b + 1)
   = Arr.get (HexProj.get_projection_index degree HO LO (n + 1) index)
       (HexProj.get_dof_offset LO b) /\
   Arr.get (HexProj.get_projection_signs degree LO n signs)
     (HexProj.get_dof_offset LO b + 1) = 1 /\
   Arr.get (HexProj.get_projection_signs degree LO (n + 1) signs)
     (HexProj.get_dof_offset LO b) = -1) /\
  (HexProj.cell_j degree n + 1 < degree ->
   Arr.get (HexProj.get_projection_index degree HO LO n index)
     (HexProj.get_dof_offset LO b + 3)
   = Arr.get (HexProj.get_projection_index degree HO LO (n + degree) index)
       (HexProj.get_dof_offset LO b + 2) /\
   Arr.get (HexProj.get_projection_signs degree LO n signs)
     (HexProj.get_dof_offset LO b + 3) = 1 /\
   Arr.get (HexProj.get_projection_signs degree LO (n + degree) signs)
     (HexProj.get_dof_offset LO b + 2) = -1) /\
  (HexProj.cell_k degree n + 1 < degree ->
   Arr.get (HexProj.get_projection_index degree HO LO n index)
     (HexProj.get_dof_offset LO b + 5)
   = Arr.get (HexProj.get_projection_index degree HO LO (n + degree * degree) index)
       (HexProj.get_dof_offset LO b + 4) /\
   Arr.get (HexProj.get_projection_signs degree LO n signs)
     (HexProj.get_dof_offset LO b + 5) = 1 /\
   Arr.get (HexProj.get_projection_signs degree LO (n + degree * degree) signs)
     (HexProj.get_dof_offset LO b + 4) = -1).
Proof.
  intros (Hd & Hc & Hbases & Hb & Hdis) Ht Hho Hmax Hn Hli Hls.
  pose proof (HexProj.degree_small degree Hd Hc) as Hdeg.
  rewrite (HexProj.num_projection_elements degree Hdeg Hc) in Hn.
  apply (HexProj.hdiv_shared degree HO LO Hdeg Hc Hbases b Hb Hdis n index signs
           Hn Ht Hho Hmax Hli Hls).
Qed.

Lemma hex_projection_hdiv_shared_witness :
  HexProj.projection_ok 2 (HexProj.one_space HexProj.HDIV 1) 0 /\
  Arr.get (HexProj.get_projection_index 2 (HexProj.one_space HexProj.HDIV 1)
             (HexProj.one_space HexProj.HDIV 1) 2 (uninit 6)) (0 + 1)
  = Arr.get (HexProj.get_projection_index 2 (HexProj.one_space HexProj.HDIV 1)
               (HexProj.one_space HexProj.HDIV 1) (2 + 1) (uninit 6)) 0 /\
  Arr.get (HexProj.get_projection_signs 2 (HexProj.one_space HexProj.HDIV 1) 2
             (uninit 6)) (0 + 1) = 1 /\
  Arr.get (HexProj.get_projection_signs 2 (HexProj.one_space HexProj.HDIV 1)
             (2 + 1) (uninit 6)) 0 = -1.
Proof.
  assert (H1 : 0 <= 0) by lia.
  assert (H2 : 0 + 3 * ((2 + 1) * 2 * 2) <= Index.max) by numerals.
  assert (H3 : 0 <= 2 < HexProj.get_num_projection_elements 2) by numerals.
  assert (H4 : 0 + 5 < Arr.len (uninit 6)) by numerals.
  assert (H5 : HexProj.cell_i 2 2 + 1 < 2) by numerals.
  split; [apply HexProj.one_space_ok|].
  exact (proj1 (hex_projection_hdiv_shared 2
                  (HexProj.one_space HexProj.HDIV 1)
                  (HexProj.one_space HexProj.HDIV 1) 0 2 (uninit 6) (uninit 6)
                  (HexProj.one_space_ok HexProj.HDIV) eq_refl H1 H2 H3 H4 H4) H5).
Defined.


(** ** The low-order mesh of a hexahedral projection *)

Module HexMesh.

Import DofMesh.

(** The entries of sub-element [i] of parent element [j] in the arrays of
    the projected mesh *)
Lemma projected_entry (ndof horder_ndof : Z) (mesh : ElementMesh) (proj : ElemProj)
  (j i k : Z) :
  projection_sizes_ok ndof horder_ndof mesh proj ->
  0 <= j < nelems mesh -> 0 <= i < get_num_projection_elements proj ->
  0 <= k < ndof ->
  Arr.get (element_dof (project_mesh ndof horder_ndof mesh proj))
    (ndof * (i + j * get_num_projection_elements proj) + k)
  = Arr.get (element_dof mesh)
      (horder_ndof * j + Arr.get (get_projection_index proj i (uninit ndof)) k) /\
  Arr.get (element_sign (project_mesh ndof horder_ndof mesh proj))
    (ndof * (i + j * get_num_projection_elements proj) + k)
  = Arr.get (get_projection_signs proj i (uninit ndof)) k
    * Arr.get (element_sign mesh)
        (horder_ndof * j + Arr.get (get_projection_index proj i (uninit ndof)) k).
Proof.
  intros Hs Hj Hi Hk.
  pose proof (project_mesh_filled ndof horder_ndof mesh proj Hs) as (_ & _ & Hq).
  destruct Hs as (S1 & S2 & S3 & S4 & S5 & S6 & S7).
  set (num := get_num_projection_elements proj) in *.
  assert (He : 0 <= i + j * num < num * nelems mesh) by nia.
  assert (Hp : 0 <= ndof * (i + j * num) + k < num * nelems mesh * ndof) by nia.
  destruct (Hq _ Hp) as (Q1 & Q2). simpl fst in Q1; simpl snd in Q2.
  rewrite Q1, Q2. unfold projected_dof, projected_sign, projected. fold num.
  destruct (decode_position ndof (i + j * num) k Hk) as (D1 & D2).
  destruct (decode_position num j i Hi) as (D3 & D4).
  rewrite D1, D2. replace (i + j * num) with (num * j + i) by lia.
  rewrite D3, D4. split; reflexivity.
Qed.


Section Conformity.

Variables ndof horder_ndof : Z.
Variable mesh : ElementMesh.
Variable degree : Z.
Variables HO LO : HexProj.SpaceBasis.
Variable b : Z.

Local Abbreviation proj := (HexProj.HexProjection degree HO LO).
Local Abbreviation lo := (HexProj.get_dof_offset LO b).
Local Abbreviation low := (project_mesh ndof horder_ndof mesh proj).

(** The position of slot [k] of sub-element [n] of parent element [j] *)
Definition slot (j n k : Z) : Z :=
  ndof * (n + j * HexProj.get_num_projection_elements degree) + k.

Hypothesis Hsizes : projection_sizes_ok ndof horder_ndof mesh proj.
Hypothesis Hok : HexProj.projection_ok degree LO b.
Hypothesis Htype : HexProj.get_basis_type LO b = HexProj.HDIV.
Hypothesis Hho : 0 <= HexProj.get_dof_offset HO b.
Hypothesis Hmax :
  HexProj.get_dof_offset HO b + 3 * ((degree + 1) * degree * degree) <= Index.max.
Hypothesis Hslots : lo + 5 < ndof.

(** Slot [k'] of sub-element [n'] names the degree of freedom of slot [k]
    of sub-element [n], with the opposite sign. *)
Definition opposite (j n k n' k' : Z) : Prop :=
  Arr.get (element_dof low) (slot j n k) = Arr.get (element_dof low) (slot j n' k') /\
  Arr.get (element_sign low) (slot j n k)
  = - Arr.get (element_sign low) (slot j n' k').

Lemma low_opposite j n k n' k' :
  0 <= j < nelems mesh ->
  0 <= n < HexProj.get_num_projection_elements degree ->
  0 <= n' < HexProj.get_num_projection_elements degree ->
  0 <= k < ndof -> 0 <= k' < ndof ->
  Arr.get (HexProj.get_projection_index degree HO LO n (uninit ndof)) k
  = Arr.get (HexProj.get_projection_index degree HO LO n' (uninit ndof)) k' ->
  Arr.get (HexProj.get_projection_signs degree LO n (uninit ndof)) k = 1 ->
  Arr.get (HexProj.get_projection_signs degree LO n' (uninit ndof)) k' = -1 ->
  opposite j n k n' k'.
Proof.
  intros Hj Hn Hn' Hk Hk' Ei S1 S2.
  destruct (projected_entry ndof horder_ndof mesh proj j n k Hsizes Hj Hn Hk)
    as (A1 & A2).
  destruct (projected_entry ndof horder_ndof mesh proj j n' k' Hsizes Hj Hn' Hk')
    as (B1 & B2).
  cbn [get_projection_index get_projection_signs get_num_projection_elements
       HexProj.HexProjection] in A1, A2, B1, B2.
  unfold opposite, slot. rewrite A1, A2, B1, B2, Ei, S1, S2. split; [reflexivity|lia].
Qed.

Lemma low_conforming j n :
  0 <= j < nelems mesh ->
  0 <= n < HexProj.get_num_projection_elements degree ->
  (HexProj.cell_i degree n + 1 < degree -> opposite j n (lo + 1) (n + 1) lo) /\
  (HexProj.cell_j degree n + 1 < degree ->
   opposite j n (lo + 3) (n + degree) (lo + 2)) /\
  (HexProj.cell_k degree n + 1 < degree ->
   opposite j n (lo + 5) (n + degree * degree) (lo + 4)).
Proof.
  intros Hj Hn.
  pose proof Hok as (Hd & Hc & Hbases & Hb & Hdis).
  pose proof (HexProj.degree_small degree Hd Hc) as Hdeg.
  pose proof (HexProj.num_projection_elements degree Hdeg Hc) as En.
  destruct (Hbases b Hb) as (_ & Hlo & _).
  assert (Hlen : lo + 5 < Arr.len (uninit ndof)).
  { unfold uninit. rewrite Arr.len_fill; lia. }
  assert (Hn0 : 0 <= n < degree * degree * degree) by lia.
  destruct (HexProj.hdiv_shared degree HO LO Hdeg Hc Hbases b Hb Hdis n
              (uninit ndof) (uninit ndof) Hn0 Htype Hho Hmax Hlen Hlen)
    as (Xd & Yd & Zd).
  destruct (HexProj.cell_bounds degree Hdeg n Hn0) as (Bi & Bj & Bk & Ecell).
  assert (Hrow : 0 <= HexProj.cell_j degree n + degree * HexProj.cell_k degree n /\
                 HexProj.cell_j degree n + degree * HexProj.cell_k degree n + 1
                   <= degree * degree).
  { clear - Hd Bj Bk. nia. }
  split; [|split]; intros Hnb.
  - destruct (Xd Hnb) as (Ei & S1 & S2).
    apply low_opposite; try lia; try assumption.
    rewrite En. remember (HexProj.cell_j degree n + degree * HexProj.cell_k degree n) as q.
    clear - Hd Bi Hnb Hrow Ecell. nia.
  - destruct (Yd Hnb) as (Ei & S1 & S2).
    apply low_opposite; try lia; try assumption.
    rewrite En.
    assert (HexProj.cell_j degree n + 1 + degree * HexProj.cell_k degree n + 1
            <= degree * degree) by (clear - Hd Bj Bk Hnb; nia).
    remember (HexProj.cell_j degree n + 1 + degree * HexProj.cell_k degree n) as q.
    assert (n + degree = HexProj.cell_i degree n + degree * q) by (subst q; lia).
    clear - Hd Bi H H0 Hn0. nia.
  - destruct (Zd Hnb) as (Ei & S1 & S2).
    apply low_opposite; try lia; try assumption.
    rewrite En.
    assert (HexProj.cell_j degree n + degree * (HexProj.cell_k degree n + 1) + 1
            <= degree * degree) by (clear - Hd Bj Bk Hnb; nia).
    remember (HexProj.cell_j degree n + degree * (HexProj.cell_k degree n + 1)) as q.
    assert (n + degree * degree = HexProj.cell_i degree n + degree * q)
      by (subst q; lia).
    clear - Hd Bi H H0 Hn0. nia.
Qed.

End Conformity.

End HexMesh.

(** X17.  The low-order mesh that the projection constructor builds with a
    [HexProjection] is conforming for an H(div) space: two sub-elements of
    one parent element that are neighbours in a grid direction hold the same
    global degree of freedom in the slots of the face between them, with
    opposite signs. *)
Theorem hex_projected_mesh_conforming (ndof horder_ndof : Z)
  (mesh : DofMesh.ElementMesh) (degree : Z) (HO LO : HexProj.SpaceBasis)
  (b j n : Z) :
  DofMesh.projection_sizes_ok ndof horder_ndof mesh
    (HexProj.HexProjection degree HO LO) ->
  HexProj.projection_ok degree LO b ->
  HexProj.get_basis_type LO b = HexProj.HDIV ->
  0 <= HexProj.get_dof_offset HO b ->
  HexProj.get_dof_offset HO b + 3 * ((degree + 1) * degree * degree) <= Index.max ->
  HexProj.get_dof_offset LO b + 5 < ndof ->
  0 <= j < DofMesh.nelems mesh ->
  0 <= n < HexProj.get_num_projection_elements degree ->
  (HexProj.cell_i degree n + 1 < degree ->
   HexMesh.opposite ndof horder_ndof mesh degree HO LO j
     n (HexProj.get_dof_offset LO b + 1) (n + 1) (HexProj.get_dof_offset LO b)) /\
  (HexProj.cell_j degree n + 1 < degree ->
   HexMesh.opposite ndof horder_ndof mesh degree HO LO j
     n (HexProj.get_dof_offset LO b + 3)
     (n + degree) (HexProj.get_dof_offset LO b + 2)) /\
  (HexProj.cell_k degree n + 1 < degree ->
   HexMesh.opposite ndof horder_ndof mesh degree HO LO j
     n (HexProj.get_dof_offset LO b + 5)
     (n + degree * degree) (HexProj.get_dof_offset LO b + 4)).
Proof.
  intros Hsizes Hok Htype Hho Hmax Hslots Hj Hn.
  exact (HexMesh.low_conforming ndof horder_ndof mesh degree HO LO b
           Hsizes Hok Htype Hho Hmax Hslots j n Hj Hn).
Qed.

(** One hexahedron of degree 2 with an H(div) space of 36 faces *)
Definition hdiv_parent : DofMesh.ElementMesh :=
  {| DofMesh.nelems := 1; DofMesh.num_dof := 36;
     DofMesh.element_dof := zrange 0 36;
     DofMesh.element_sign := repeat 1 36 |}.

(** X17 at the first two sub-elements of the hexahedron *)
Lemma hex_projected_mesh_conforming_witness :
  HexProj.projection_ok 2 (HexProj.one_space HexProj.HDIV 1) 0 /\
  HexMesh.opposite 6 36 hdiv_parent 2 (HexProj.one_space HexProj.HDIV 1)
    (HexProj.one_space HexProj.HDIV 1) 0 0 (0 + 1) (0 + 1) 0.
Proof.
  assert (H0 : DofMesh.projection_sizes_ok 6 36 hdiv_parent
                 (HexProj.HexProjection 2 (HexProj.one_space HexProj.HDIV 1)
                    (HexProj.one_space HexProj.HDIV 1))).
  { unfold DofMesh.projection_sizes_ok. repeat split; vm_compute; refute. }
  assert (H1 : 0 <= 0) by lia.
  assert (H2 : 0 + 3 * ((2 + 1) * 2 * 2) <= Index.max) by numerals.
  assert (H3 : 0 <= 0 < HexProj.get_num_projection_elements 2) by numerals.
  assert (H4 : 0 + 5 < 6) by lia.
  assert (H5 : 0 <= 0 < DofMesh.nelems hdiv_parent) by numerals.
  assert (H6 : HexProj.cell_i 2 0 + 1 < 2) by numerals.
  split; [apply HexProj.one_space_ok|].
  exact (proj1 (hex_projected_mesh_conforming 6 36 hdiv_parent 2
                  (HexProj.one_space HexProj.HDIV 1)
                  (HexProj.one_space HexProj.HDIV 1) 0 0 0
                  H0 (HexProj.one_space_ok HexProj.HDIV) eq_refl H1 H2 H4 H5 H3) H6).
Defined.


(** ** The owners of faces, edges and vertices *)

Module Owners.

Import Numbering.

Lemma for_down_range {S : Type} (P : S -> Prop) (body : Z -> S -> S) :
  forall m i s,
    P s -> (forall j t, i - Z.of_nat m < j <= i -> P t -> P (body j t)) ->
    P (for_down m i body s).
Proof.
  induction m as [|m IH]; intros i s H0 Hstep; simpl for_down; [exact H0|].
  apply IH.
  - apply Hstep; [lia|exact H0].
  - intros j t Hj Ht. apply Hstep; [lia|exact Ht].
Qed.

Section Owners.

Variable ET : ElementTypes.
Variable B : Basis.
Variable conn : Conn.

(** Element [e] lists the face, edge or vertex [x]. *)
Definition has_face (e x : Z) : Prop :=
  exists i, 0 <= i < num_faces ET conn e /\ face_label ET conn e i = x.

Definition has_edge (e x : Z) : Prop :=
  exists i, 0 <= i < num_edges ET conn e /\ edge_label ET conn e i = x.

Definition has_vert (e x : Z) : Prop :=
  exists i, 0 <= i < elem_nverts ET conn e /\ elem_vert ET conn e i = x.



(** The three tables of a state *)
Definition tables (st : numbering) : list Z * list Z * list Z :=
  (face_owners st, edge_owners st, vert_owners st).



Lemma tables_fresh_dof k st : tables (fresh_dof k st) = tables st.
Proof.
  unfold fresh_dof.
  apply (for_range_preserves (fun t => tables t = tables st)); [|reflexivity].
  intros j t _ Ht. rewrite <- Ht. reflexivity.
Qed.

Lemma tables_store_entity basis entity index orient elem st :
  tables (store_entity B basis entity index orient elem st) = tables st.
Proof. reflexivity. Qed.

(** *** Faces *)

Lemma copy_face_loop basis elem index face owner_elem st :
  let r := for_range 0 (num_faces ET conn owner_elem)
             (copy_face ET B conn basis elem index face owner_elem
                (snd (get_element_faces ET conn owner_elem None)))
             (st, 0, false) in
  tables (fst (fst r)) = tables st /\
  (has_face owner_elem face -> snd r = true).
Proof.
  cbv zeta.
  destruct (Z_le_gt_dec 0 (num_faces ET conn owner_elem)) as [Hn|Hn].
  2:{ rewrite for_range_empty by lia. split; [reflexivity|].
      intros (i & Hi & _). lia. }
  assert (H : (fun t (r : numbering * Z * bool) =>
                 tables (fst (fst r)) = tables st /\
                 ((exists i, 0 <= i < t /\ face_label ET conn owner_elem i = face) ->
                  snd r = true))
              (num_faces ET conn owner_elem)
              (for_range 0 (num_faces ET conn owner_elem)
                 (copy_face ET B conn basis elem index face owner_elem
                    (snd (get_element_faces ET conn owner_elem None)))
                 (st, 0, false))).
  { apply for_range_inv; [exact Hn| |].
    - split; [reflexivity|]. intros (i & Hi & _). lia.
    - intros t [[s o] f] Ht (Hs & Hf). cbn [fst snd] in Hs, Hf.
      unfold copy_face.
      change (load_out conn (snd (get_element_faces ET conn owner_elem None)) t)
        with (face_label ET conn owner_elem t).
      destruct f.
      + cbn [fst snd]. split; [exact Hs|reflexivity].
      + destruct (Z.eqb_spec (face_label ET conn owner_elem t) face) as [E|N].
        * destruct (get_element_face_verts ET conn owner_elem t (uninit 4)) as [nv ref].
          destruct (get_element_face_verts ET conn elem index (uninit 4)) as [nv' vs].
          cbn [fst snd]. split; [exact Hs|reflexivity].
        * cbn [fst snd]. split; [exact Hs|].
          intros (i & Hi & Ei). apply Hf. exists i. split; [|exact Ei].
          assert (i <> t) by congruence. lia. }
  cbv beta in H. destruct H as (H1 & H2). split; [exact H1|exact H2].
Qed.

Lemma order_face_tables basis elem index st :
  tables (order_face ET B conn basis elem
            (snd (get_element_faces ET conn elem None)) index st)
  = if (Arr.get (face_owners st) (face_label ET conn elem index) =? NO_INDEX)
       || (Arr.get (face_owners st) (face_label ET conn elem index) =? elem)
    then (Arr.set (face_owners st) (face_label ET conn elem index) elem,
          edge_owners st, vert_owners st)
    else tables st.
Proof.
  unfold order_face. cbv zeta.
  change (load_out conn (snd (get_element_faces ET conn elem None)) index)
    with (face_label ET conn elem index).
  destruct ((Arr.get (face_owners st) (face_label ET conn elem index) =? NO_INDEX)
            || (Arr.get (face_owners st) (face_label ET conn elem index) =? elem)).
  - rewrite tables_store_entity, tables_fresh_dof. reflexivity.
  - pose proof (copy_face_loop basis elem index (face_label ET conn elem index)
                  (Arr.get (face_owners st) (face_label ET conn elem index)) st)
      as (Ht & _). cbv zeta in Ht.
    unfold num_faces in Ht.
    destruct (get_element_faces ET conn
                (Arr.get (face_owners st) (face_label ET conn elem index)) None)
      as [nf owner_faces]. cbn [fst snd] in Ht.
    destruct (for_range 0 nf _ _) as [[s o] f]. cbn [fst snd] in Ht.
    rewrite tables_store_entity. exact Ht.
Qed.

(** *** Edges *)

Lemma copy_edge_loop basis elem index edge owner_elem st :
  let r := for_range 0 (num_edges ET conn owner_elem)
             (copy_edge ET B conn basis elem index edge owner_elem
                (snd (get_element_edges ET conn owner_elem None)))
             (st, 0, false) in
  tables (fst (fst r)) = tables st /\
  (has_edge owner_elem edge -> snd r = true).
Proof.
  cbv zeta.
  destruct (Z_le_gt_dec 0 (num_edges ET conn owner_elem)) as [Hn|Hn].
  2:{ rewrite for_range_empty by lia. split; [reflexivity|].
      intros (i & Hi & _). lia. }
  assert (H : (fun t (r : numbering * Z * bool) =>
                 tables (fst (fst r)) = tables st /\
                 ((exists i, 0 <= i < t /\ edge_label ET conn owner_elem i = edge) ->
                  snd r = true))
              (num_edges ET conn owner_elem)
              (for_range 0 (num_edges ET conn owner_elem)
                 (copy_edge ET B conn basis elem index edge owner_elem
                    (snd (get_element_edges ET conn owner_elem None)))
                 (st, 0, false))).
  { apply for_range_inv; [exact Hn| |].
    - split; [reflexivity|]. intros (i & Hi & _). lia.
    - intros t [[s o] f] Ht (Hs & Hf). cbn [fst snd] in Hs, Hf.
      unfold copy_edge.
      change (load_out conn (snd (get_element_edges ET conn owner_elem None)) t)
        with (edge_label ET conn owner_elem t).
      destruct f.
      + cbn [fst snd]. split; [exact Hs|reflexivity].
      + destruct (Z.eqb_spec (edge_label ET conn owner_elem t) edge) as [E|N].
        * cbv zeta. cbn [fst snd]. split; [exact Hs|reflexivity].
        * cbn [fst snd]. split; [exact Hs|].
          intros (i & Hi & Ei). apply Hf. exists i. split; [|exact Ei].
          assert (i <> t) by congruence. lia. }
  cbv beta in H. destruct H as (H1 & H2). split; [exact H1|exact H2].
Qed.

Lemma order_edge_tables basis elem index st :
  tables (order_edge ET B conn basis elem
            (snd (get_element_edges ET conn elem None)) index st)
  = if (Arr.get (edge_owners st) (edge_label ET conn elem index) =? NO_INDEX)
       || (Arr.get (edge_owners st) (edge_label ET conn elem index) =? elem)
    then (face_owners st,
          Arr.set (edge_owners st) (edge_label ET conn elem index) elem,
          vert_owners st)
    else tables st.
Proof.
  unfold order_edge. cbv zeta.
  change (load_out conn (snd (get_element_edges ET conn elem None)) index)
    with (edge_label ET conn elem index).
  destruct ((Arr.get (edge_owners st) (edge_label ET conn elem index) =? NO_INDEX)
            || (Arr.get (edge_owners st) (edge_label ET conn elem index) =? elem)).
  - rewrite tables_store_entity, tables_fresh_dof. reflexivity.
  - pose proof (copy_edge_loop basis elem index (edge_label ET conn elem index)
                  (Arr.get (edge_owners st) (edge_label ET conn elem index)) st)
      as (Ht & _). cbv zeta in Ht.
    unfold num_edges in Ht.
    destruct (get_element_edges ET conn
                (Arr.get (edge_owners st) (edge_label ET conn elem index)) None)
      as [ne owner_edges]. cbn [fst snd] in Ht.
    destruct (for_range 0 ne _ _) as [[s o] f]. cbn [fst snd] in Ht.
    rewrite tables_store_entity. exact Ht.
Qed.

(** *** Vertices *)

Lemma copy_vert_loop basis vert owner_elem st :
  let r := for_range 0 (elem_nverts ET conn owner_elem)
             (copy_vert B conn basis vert owner_elem
                (snd (get_element_verts ET conn owner_elem None)))
             (st, false) in
  tables (fst r) = tables st /\
  (has_vert owner_elem vert -> snd r = true).
Proof.
  cbv zeta.
  destruct (Z_le_gt_dec 0 (elem_nverts ET conn owner_elem)) as [Hn|Hn].
  2:{ rewrite for_range_empty by lia. split; [reflexivity|].
      intros (i & Hi & _). lia. }
  assert (H : (fun t (r : numbering * bool) =>
                 tables (fst r) = tables st /\
                 ((exists i, 0 <= i < t /\ elem_vert ET conn owner_elem i = vert) ->
                  snd r = true))
              (elem_nverts ET conn owner_elem)
              (for_range 0 (elem_nverts ET conn owner_elem)
                 (copy_vert B conn basis vert owner_elem
                    (snd (get_element_verts ET conn owner_elem None)))
                 (st, false))).
  { apply for_range_inv; [exact Hn| |].
    - split; [reflexivity|]. intros (i & Hi & _). lia.
    - intros t [s f] Ht (Hs & Hf). cbn [fst snd] in Hs, Hf.
      unfold copy_vert.
      change (load_out conn (snd (get_element_verts ET conn owner_elem None)) t)
        with (elem_vert ET conn owner_elem t).
      destruct f.
      + cbn [fst snd]. split; [exact Hs|reflexivity].
      + destruct (Z.eqb_spec (elem_vert ET conn owner_elem t) vert) as [E|N].
        * cbn [fst snd]. split; [exact Hs|reflexivity].
        * cbn [fst snd]. split; [exact Hs|].
          intros (i & Hi & Ei). apply Hf. exists i. split; [|exact Ei].
          assert (i <> t) by congruence. lia. }
  cbv beta in H. destruct H as (H1 & H2). split; [exact H1|exact H2].
Qed.

Lemma order_vert_tables basis elem index st :
  tables (order_vert ET B conn basis elem
            (snd (get_element_verts ET conn elem None)) index st)
  = if (Arr.get (vert_owners st) (elem_vert ET conn elem index) =? NO_INDEX)
       || (Arr.get (vert_owners st) (elem_vert ET conn elem index) =? elem)
    then (face_owners st, edge_owners st,
          Arr.set (vert_owners st) (elem_vert ET conn elem index) elem)
    else tables st.
Proof.
  unfold order_vert. cbv zeta.
  change (load_out conn (snd (get_element_verts ET conn elem None)) index)
    with (elem_vert ET conn elem index).
  destruct ((Arr.get (vert_owners st) (elem_vert ET conn elem index) =? NO_INDEX)
            || (Arr.get (vert_owners st) (elem_vert ET conn elem index) =? elem)).
  - rewrite tables_store_entity, tables_fresh_dof. reflexivity.
  - pose proof (copy_vert_loop basis (elem_vert ET conn elem index)
                  (Arr.get (vert_owners st) (elem_vert ET conn elem index)) st)
      as (Ht & _). cbv zeta in Ht.
    unfold elem_nverts in Ht.
    destruct (get_element_verts ET conn
                (Arr.get (vert_owners st) (elem_vert ET conn elem index)) None)
      as [nv owner_verts]. cbn [fst snd] in Ht.
    destruct (for_range 0 nv _ _) as [s f]. cbn [fst snd] in Ht.
    rewrite tables_store_entity. exact Ht.
Qed.

(** *** The loops over the elements *)




Lemma order_element_unfold stack basis counter st :
  order_element ET B conn stack basis counter st
  = let elem := Arr.get stack (counter -w 1) in
    for_range 0 (elem_nverts ET conn elem)
      (order_vert ET B conn basis elem (snd (get_element_verts ET conn elem None)))
      (for_range 0 (num_edges ET conn elem)
         (order_edge ET B conn basis elem (snd (get_element_edges ET conn elem None)))
         (for_range 0 (num_faces ET conn elem)
            (order_face ET B conn basis elem
               (snd (get_element_faces ET conn elem None)))
            (order_volume B basis elem st))).
Proof.
  unfold order_element, elem_nverts, num_edges, num_faces. cbv zeta.
  destruct (get_element_faces ET conn (Arr.get stack (counter -w 1)) None).
  destruct (get_element_edges ET conn (Arr.get stack (counter -w 1)) None).
  destruct (get_element_verts ET conn (Arr.get stack (counter -w 1)) None).
  reflexivity.
Qed.







End Owners.

End Owners.


(** A basis with one space and no degree of freedom *)
Definition empty_basis : Numbering.Basis :=
  {| Numbering.nbasis := 1; Numbering.ndof := 0;
     Numbering.get_entity_ndof := fun _ _ _ => 0;
     Numbering.get_entity_dof := fun _ _ _ _ _ dof => dof;
     Numbering.set_entity_dof := fun _ _ _ _ _ arr _ => arr;
     Numbering.set_entity_signs := fun _ _ _ _ arr _ => arr |}.




(** ** Which element owns an entity *)

Module FirstOwner.

Import Numbering Owners.

(** [if (owners[x] == NO_INDEX || owners[x] == elem) owners[x] = elem;] *)
Definition own_step (elem x : Z) (t : list Z) : list Z :=
  if (Arr.get t x =? NO_INDEX) || (Arr.get t x =? elem) then Arr.set t x elem else t.

Section Table.

(** The number of entities of an element and the entity at a local index *)
Variable num : Z -> Z.
Variable label : Z -> Z -> Z.

Definition has (e x : Z) : Prop := exists i, 0 <= i < num e /\ label e i = x.

(** The effect of one element's loop on the table of its kind *)
Definition upd (elem : Z) (t : list Z) : list Z :=
  for_range 0 (num elem) (fun i t => own_step elem (label elem i) t) t.

Lemma has_below_dec e y :
  forall m, 0 <= m ->
    (exists i, 0 <= i < m /\ label e i = y) \/ (forall i, 0 <= i < m -> label e i <> y).
Proof.
  intros m Hm. pattern m. apply natlike_ind; [| |exact Hm].
  - right. intros i Hi. lia.
  - intros x Hx [(i & Hi & Ei)|Hno].
    + left. exists i. split; [lia|exact Ei].
    + destruct (Z.eq_dec (label e x) y) as [E|N].
      * left. exists x. split; [lia|exact E].
      * right. intros i Hi. destruct (Z.eq_dec i x) as [->|Ni]; [exact N|].
        apply Hno. lia.
Qed.

Lemma has_dec e y : has e y \/ ~ has e y.
Proof.
  destruct (Z_le_gt_dec 0 (num e)) as [Hn|Hn].
  - destruct (has_below_dec e y (num e) Hn) as [H|H]; [left; exact H|].
    right. intros (i & Hi & Ei). apply (H i Hi Ei).
  - right. intros (i & Hi & _). lia.
Qed.

Lemma upd_spec elem t :
  elem <> NO_INDEX ->
  (forall i, 0 <= i < num elem -> 0 <= label elem i < Arr.len t) ->
  Arr.len (upd elem t) = Arr.len t /\
  forall y, 0 <= y < Arr.len t ->
    (Arr.get t y <> NO_INDEX -> Arr.get (upd elem t) y = Arr.get t y) /\
    (Arr.get t y = NO_INDEX -> has elem y -> Arr.get (upd elem t) y = elem) /\
    (Arr.get t y = NO_INDEX -> ~ has elem y -> Arr.get (upd elem t) y = NO_INDEX).
Proof.
  intros He Hl. unfold upd.
  destruct (Z_le_gt_dec 0 (num elem)) as [Hn|Hn].
  2:{ rewrite for_range_empty by lia. split; [reflexivity|]. intros y Hy.
      split; [reflexivity|]. split; [|auto]. intros _ (i & Hi & _). lia. }
  assert (H : (fun m u => Arr.len u = Arr.len t /\
       forall y, 0 <= y < Arr.len t ->
         (Arr.get t y <> NO_INDEX -> Arr.get u y = Arr.get t y) /\
         (Arr.get t y = NO_INDEX -> (exists i, 0 <= i < m /\ label elem i = y) ->
            Arr.get u y = elem) /\
         (Arr.get t y = NO_INDEX -> (forall i, 0 <= i < m -> label elem i <> y) ->
            Arr.get u y = NO_INDEX))
      (num elem)
      (for_range 0 (num elem) (fun i t => own_step elem (label elem i) t) t)).
  2:{ cbv beta in H. destruct H as (Hlen & Hu). split; [exact Hlen|].
      intros y Hy. destruct (Hu y Hy) as (U1 & U2 & U3).
      split; [exact U1|]. split; [exact U2|]. intros Hno Hnone. apply (U3 Hno).
      intros i Hi Ei. apply Hnone. exists i. split; assumption. }
  apply for_range_inv.
  - exact Hn.
  - split; [reflexivity|]. intros y Hy. split; [reflexivity|].
    split; [|auto]. intros _ (i & Hi & _). lia.
  - intros m u Hm (Hlen & Hu). pose proof (Hl m Hm) as Hr. unfold own_step.
    set (x := label elem m) in *.
    remember ((Arr.get u x =? NO_INDEX) || (Arr.get u x =? elem)) as b eqn:Eb.
    assert (HA : forall y, 0 <= y -> y <> x ->
              Arr.get (if b then Arr.set u x elem else u) y = Arr.get u y).
    { intros y Hy Ny. destruct b; [|reflexivity]. apply Arr.get_set_ne; lia. }
    assert (HB : Arr.get (if b then Arr.set u x elem else u) x
                 = if b then elem else Arr.get u x).
    { destruct b; [|reflexivity]. apply Arr.get_set_eq. lia. }
    split; [destruct b; [rewrite Arr.len_set|]; exact Hlen|].
    intros y Hy. destruct (Hu y Hy) as (U1 & U2 & U3).
    destruct (Z.eq_dec y x) as [Ey|Ny].
    + subst y. rewrite HB. split; [|split].
      * intros Hne. rewrite (U1 Hne) in *.
        destruct (Z.eqb_spec (Arr.get t x) NO_INDEX) as [E|N]; [contradiction|].
        cbn [orb] in Eb.
        destruct (Z.eqb_spec (Arr.get t x) elem) as [E2|N2]; subst b;
          [symmetry; exact E2|reflexivity].
      * intros Hno _.
        destruct (has_below_dec elem x m ltac:(lia)) as [Hex|Hnone].
        -- rewrite (U2 Hno Hex) in *. rewrite Z.eqb_refl, orb_true_r in Eb.
           subst b. reflexivity.
        -- rewrite (U3 Hno Hnone) in *. rewrite Z.eqb_refl in Eb. cbn [orb] in Eb.
           subst b. reflexivity.
      * intros Hno Hnone. exfalso. apply (Hnone m); [lia|reflexivity].
    + rewrite (HA y (proj1 Hy) Ny). split; [exact U1|]. split.
      * intros Hno (i & Hi & Ei). apply (U2 Hno). exists i. split; [|exact Ei].
        assert (i <> m) by (intros ->; apply Ny; symmetry; exact Ei). lia.
      * intros Hno Hnone. apply (U3 Hno). intros i Hi. apply Hnone. lia.
Qed.

(** The stack and the number of elements *)
Variable stack : list Z.
Variable n : Z.

(** The owner of [y] is the element of the last stack position from [c] on
    that has [y]; an entity that none of these elements has is not owned. *)
Definition owned_by_last (c : Z) (t : list Z) : Prop :=
  forall y, 0 <= y < Arr.len t ->
    (Arr.get t y = NO_INDEX /\
     forall k, c <= k < n -> ~ has (Arr.get stack k) y) \/
    (exists k, c <= k < n /\ Arr.get t y = Arr.get stack k /\
               has (Arr.get stack k) y /\
               forall k', k < k' < n -> ~ has (Arr.get stack k') y).

Hypothesis Hstack : forall k, 0 <= k < n -> Arr.get stack k <> NO_INDEX.

Lemma owned_start len : owned_by_last n (Arr.fill len NO_INDEX).
Proof.
  intros y Hy. left. split; [|intros k Hk; lia].
  destruct (Z_le_gt_dec 0 len) as [Hl|Hl].
  - rewrite Arr.len_fill in Hy by lia. apply Arr.get_fill. lia.
  - unfold Arr.len, Arr.fill in Hy. rewrite repeat_length in Hy. lia.
Qed.

Lemma owned_step c t :
  0 < c <= n ->
  (forall i, 0 <= i < num (Arr.get stack (c - 1)) ->
     0 <= label (Arr.get stack (c - 1)) i < Arr.len t) ->
  owned_by_last c t ->
  owned_by_last (c - 1) (upd (Arr.get stack (c - 1)) t).
Proof.
  intros Hc Hl Ho.
  destruct (upd_spec (Arr.get stack (c - 1)) t (Hstack (c - 1) ltac:(lia)) Hl)
    as (Hlen & Hu).
  intros y Hy. rewrite Hlen in Hy. destruct (Hu y Hy) as (U1 & U2 & U3).
  destruct (Ho y Hy) as [(Hno & Hnone)|(k & Hk & Ek & Hk1 & Hk2)].
  - destruct (has_dec (Arr.get stack (c - 1)) y) as [Hh|Hh].
    + right. exists (c - 1). split; [lia|]. split; [apply U2; assumption|].
      split; [exact Hh|]. intros k' Hk'. apply Hnone. lia.
    + left. split; [apply U3; assumption|]. intros k Hk.
      destruct (Z.eq_dec k (c - 1)) as [->|Nk]; [exact Hh|]. apply Hnone. lia.
  - right. exists k. split; [lia|]. split; [|split; assumption].
    rewrite U1; [exact Ek|]. rewrite Ek. apply Hstack. lia.
Qed.

Lemma owned_fixed k t :
  0 <= k < n ->
  (forall i, 0 <= i < num (Arr.get stack k) ->
     0 <= label (Arr.get stack k) i < Arr.len t) ->
  owned_by_last 0 t -> owned_by_last 0 (upd (Arr.get stack k) t).
Proof.
  intros Hk Hl Ho.
  destruct (upd_spec (Arr.get stack k) t (Hstack k Hk) Hl) as (Hlen & Hu).
  intros y Hy. rewrite Hlen in Hy. destruct (Hu y Hy) as (U1 & U2 & U3).
  destruct (Ho y Hy) as [(Hno & Hnone)|(k0 & Hk0 & Ek & Hk1 & Hk2)].
  - left. split; [|exact Hnone]. apply U3; [exact Hno|]. apply Hnone. lia.
  - right. exists k0. split; [lia|]. split; [|split; assumption].
    rewrite U1; [exact Ek|]. rewrite Ek. apply Hstack. lia.
Qed.

End Table.

(** A loop that counts down, with an invariant that follows the counter *)
Lemma for_down_counts {S : Type} (P : Z -> S -> Prop) (body : Z -> S -> S) :
  forall m i s,
    P i s ->
    (forall j t, i - Z.of_nat m < j <= i -> P j t -> P (j - 1) (body j t)) ->
    P (i - Z.of_nat m) (for_down m i body s).
Proof.
  induction m as [|m IH]; intros i s H0 Hstep; simpl for_down.
  - replace (i - Z.of_nat 0) with i by lia. exact H0.
  - replace (i - Z.of_nat (Datatypes.S m)) with (i - 1 - Z.of_nat m) by lia.
    apply IH.
    + apply Hstep; [lia|exact H0].
    + intros j t Hj Ht. apply Hstep; [lia|exact Ht].
Qed.

Section Mesh.

Variable ET : ElementTypes.
Variable B : Basis.
Variable conn : Conn.

(** The faces, edges and vertices of [e] are entities of the mesh. *)
Definition entity_in_range (e : Z) : Prop :=
  (forall i, 0 <= i < num_faces ET conn e ->
     0 <= face_label ET conn e i < nfaces conn) /\
  (forall i, 0 <= i < num_edges ET conn e ->
     0 <= edge_label ET conn e i < nedges conn) /\
  (forall i, 0 <= i < elem_nverts ET conn e ->
     0 <= elem_vert ET conn e i < nverts conn).

Definition upd3 (elem : Z) (t : list Z * list Z * list Z)
  : list Z * list Z * list Z :=
  (upd (num_faces ET conn) (face_label ET conn) elem (fst (fst t)),
   upd (num_edges ET conn) (edge_label ET conn) elem (snd (fst t)),
   upd (elem_nverts ET conn) (elem_vert ET conn) elem (snd t)).

Lemma order_element_tables stack basis counter st :
  tables (order_element ET B conn stack basis counter st)
  = upd3 (Arr.get stack (counter -w 1)) (tables st).
Proof.
  rewrite order_element_unfold. cbv zeta.
  set (elem := Arr.get stack (counter -w 1)).
  unfold upd3, upd. cbn [tables fst snd].
  set (F := for_range 0 (num_faces ET conn elem)
              (fun i t => own_step elem (face_label ET conn elem i) t)
              (face_owners st)).
  set (E := for_range 0 (num_edges ET conn elem)
              (fun i t => own_step elem (edge_label ET conn elem i) t)
              (edge_owners st)).
  apply (for_range_sim (fun s t => tables s = (F, E, t))).
  { intros i s t _ Hs. rewrite order_vert_tables. unfold own_step.
    unfold tables in *. injection Hs as H1 H2 H3. rewrite H1, H2, H3.
    destruct (_ || _); reflexivity. }
  apply (for_range_sim (fun s t => tables s = (F, t, vert_owners st))).
  { intros i s t _ Hs. rewrite order_edge_tables. unfold own_step.
    unfold tables in *. injection Hs as H1 H2 H3. rewrite H1, H2, H3.
    destruct (_ || _); reflexivity. }
  apply (for_range_sim
           (fun s t => tables s = (t, edge_owners st, vert_owners st))).
  { intros i s t _ Hs. rewrite order_face_tables. unfold own_step.
    unfold tables in *. injection Hs as H1 H2 H3. rewrite H1, H2, H3.
    destruct (_ || _); reflexivity. }
  unfold order_volume. cbv zeta.
  rewrite tables_store_entity, tables_fresh_dof. reflexivity.
Qed.

Variable stack : list Z.
Variable n : Z.

(** The three tables have the sizes of the mesh and record the owners of
    the stack positions from [c] on. *)
Definition owned3 (c : Z) (t : list Z * list Z * list Z) : Prop :=
  (Arr.len (fst (fst t)) = nfaces conn /\
   owned_by_last (num_faces ET conn) (face_label ET conn) stack n c (fst (fst t))) /\
  (Arr.len (snd (fst t)) = nedges conn /\
   owned_by_last (num_edges ET conn) (edge_label ET conn) stack n c (snd (fst t))) /\
  (Arr.len (snd t) = nverts conn /\
   owned_by_last (elem_nverts ET conn) (elem_vert ET conn) stack n c (snd t)).

Hypothesis Hstack : forall k, 0 <= k < n -> Arr.get stack k <> NO_INDEX.
Hypothesis Hrange : forall k, 0 <= k < n -> entity_in_range (Arr.get stack k).

Lemma owned3_step c t :
  0 < c <= n -> owned3 c t -> owned3 (c - 1) (upd3 (Arr.get stack (c - 1)) t).
Proof.
  intros Hc ((L1 & O1) & (L2 & O2) & (L3 & O3)).
  destruct (Hrange (c - 1) ltac:(lia)) as (R1 & R2 & R3).
  pose proof (Hstack (c - 1) ltac:(lia)) as Hne.
  rewrite <- L1 in R1. rewrite <- L2 in R2. rewrite <- L3 in R3.
  unfold owned3, upd3. cbn [fst snd].
  rewrite (proj1 (upd_spec _ _ _ _ Hne R1)), (proj1 (upd_spec _ _ _ _ Hne R2)),
    (proj1 (upd_spec _ _ _ _ Hne R3)).
  split; [|split]; (split; [assumption|]);
    apply owned_step; assumption.
Qed.

Lemma owned3_fixed k t :
  0 <= k < n -> owned3 0 t -> owned3 0 (upd3 (Arr.get stack k) t).
Proof.
  intros Hk ((L1 & O1) & (L2 & O2) & (L3 & O3)).
  destruct (Hrange k Hk) as (R1 & R2 & R3).
  pose proof (Hstack k Hk) as Hne.
  rewrite <- L1 in R1. rewrite <- L2 in R2. rewrite <- L3 in R3.
  unfold owned3, upd3. cbn [fst snd].
  rewrite (proj1 (upd_spec _ _ _ _ Hne R1)), (proj1 (upd_spec _ _ _ _ Hne R2)),
    (proj1 (upd_spec _ _ _ _ Hne R3)).
  split; [|split]; (split; [assumption|]);
    apply owned_fixed; assumption.
Qed.

Lemma order_elements_owned :
  0 <= n <= Index.max -> 1 <= nbasis B ->
  0 <= nfaces conn -> 0 <= nedges conn -> 0 <= nverts conn ->
  owned3 0 (tables (order_elements ET B conn n stack)).
Proof.
  intros Hn Hb Hf He Hv. unfold order_elements.
  set (st0 := {| element_dof := _ |}).
  assert (H : (fun basis st => (basis = 0 -> owned3 n (tables st)) /\
                               (0 < basis -> owned3 0 (tables st)))
              (nbasis B)
              (for_range 0 (nbasis B)
                 (fun basis st =>
                    for_down (Z.to_nat n) n (order_element ET B conn stack basis) st)
                 st0)).
  2:{ cbv beta in H. apply H. lia. }
  apply for_range_inv; [lia| |].
  - split; [|lia]. intros _. unfold owned3, st0. cbn [tables fst snd face_owners
      edge_owners vert_owners].
    rewrite !Arr.len_fill by assumption.
    split; [|split]; (split; [reflexivity|apply owned_start]).
  - intros basis st Hbasis (H0 & H1). split; [lia|]. intros _.
    destruct (Z.eq_dec basis 0) as [E0|N0].
    + pose proof (for_down_counts (fun c s => owned3 c (tables s))
                    (order_element ET B conn stack basis) (Z.to_nat n) n st
                    (H0 E0)) as Hd. cbv beta in Hd.
      replace (n - Z.of_nat (Z.to_nat n)) with 0 in Hd by lia.
      apply Hd. intros j t Hj Ht. rewrite order_element_tables.
      rewrite Index.sub_small by (apply ok_of_bounds; lia).
      apply owned3_step; [lia|exact Ht].
    + apply (for_down_range (fun s => owned3 0 (tables s))); [apply H1; lia|].
      intros j t Hj Ht. rewrite order_element_tables.
      rewrite Index.sub_small by (apply ok_of_bounds; lia).
      apply owned3_fixed; [lia|exact Ht].
Qed.

End Mesh.

End FirstOwner.

(** X19.  Over a stack of [n] elements whose faces, edges and vertices are
    entities of the mesh, and with at least one space in the basis, the
    [ElementMesh] constructor leaves in each owner table, for each entity,
    the element at the last stack position that has the entity (the first
    one that the descending loop over the stack reaches), and [NO_INDEX]
    for an entity that no element of the stack has; the passes for the
    later spaces of the basis do not change the owners. *)
Theorem owner_is_first_ordered (ET : ElementTypes) (B : Numbering.Basis)
  (conn : Conn) (n : Z) (stack : list Z) :
  0 <= n <= Index.max -> 1 <= Numbering.nbasis B ->
  0 <= nfaces conn -> 0 <= nedges conn -> 0 <= nverts conn ->
  (forall k, 0 <= k < n -> Arr.get stack k <> Numbering.NO_INDEX) ->
  (forall k, 0 <= k < n -> FirstOwner.entity_in_range ET conn (Arr.get stack k)) ->
  let st := Numbering.order_elements ET B conn n stack in
  (Arr.len (Numbering.face_owners st) = nfaces conn /\
   FirstOwner.owned_by_last (num_faces ET conn) (face_label ET conn) stack n 0
     (Numbering.face_owners st)) /\
  (Arr.len (Numbering.edge_owners st) = nedges conn /\
   FirstOwner.owned_by_last (num_edges ET conn) (edge_label ET conn) stack n 0
     (Numbering.edge_owners st)) /\
  (Arr.len (Numbering.vert_owners st) = nverts conn /\
   FirstOwner.owned_by_last (elem_nverts ET conn) (elem_vert ET conn) stack n 0
     (Numbering.vert_owners st)).
Proof.
  intros Hn Hb Hf He Hv Hstack Hrange. cbv zeta.
  exact (FirstOwner.order_elements_owned ET B conn stack n Hstack Hrange
           Hn Hb Hf He Hv).
Qed.

Lemma two_tets_in_range k :
  0 <= k < 2 -> FirstOwner.entity_in_range sample_catalog two_tets (Arr.get [0; 1] k).
Proof.
  intros Hk.
  assert (Ef : forall e, 0 <= e < 2 -> num_faces sample_catalog two_tets e = 4).
  { intros e He. by_cases e He; vm_compute; reflexivity. }
  assert (Ee : forall e, 0 <= e < 2 -> num_edges sample_catalog two_tets e = 6).
  { intros e He. by_cases e He; vm_compute; reflexivity. }
  assert (Ev : forall e, 0 <= e < 2 -> elem_nverts sample_catalog two_tets e = 4).
  { intros e He. by_cases e He; vm_compute; reflexivity. }
  assert (Es : Arr.get [0; 1] k = k) by (by_cases k Hk; reflexivity).
  rewrite Es. unfold FirstOwner.entity_in_range.
  rewrite (Ef k Hk), (Ee k Hk), (Ev k Hk).
  split; [|split]; intros i Hi; by_cases k Hk; by_cases i Hi;
    vm_compute; split; first [reflexivity | intros Hx; discriminate Hx].
Qed.

Lemma two_tets_stack k : 0 <= k < 2 -> Arr.get [0; 1] k <> Numbering.NO_INDEX.
Proof. intros Hk. by_cases k Hk; vm_compute; intros Hx; discriminate Hx. Qed.

(** X19 at the two tetrahedra *)
Lemma owner_is_first_ordered_witness :
  0 <= 2 <= Index.max /\
  FirstOwner.owned_by_last (num_faces sample_catalog two_tets)
    (face_label sample_catalog two_tets) [0; 1] 2 0
    (Numbering.face_owners
       (Numbering.order_elements sample_catalog empty_basis two_tets 2 [0; 1])).
Proof.
  assert (H : 0 <= 2 <= Index.max) by numerals.
  assert (Hb : 1 <= Numbering.nbasis empty_basis) by (vm_compute; discriminate).
  assert (Hf : 0 <= nfaces two_tets) by (vm_compute; discriminate).
  assert (He : 0 <= nedges two_tets) by (vm_compute; discriminate).
  assert (Hv : 0 <= nverts two_tets) by (vm_compute; discriminate).
  split; [exact H|].
  exact (proj2 (proj1 (owner_is_first_ordered sample_catalog empty_basis two_tets 2
                         [0; 1] H Hb Hf He Hv two_tets_stack two_tets_in_range))).
Defined.


(** * Faces as rings of vertices

    Two elements share a face when their local faces list the same cycle of
    vertices, each from its own starting vertex and in its own direction. *)

(** The cyclic shifts of a list *)
Definition rotations (l : list Z) : list (list Z) :=
  map (fun k => skipn k l ++ firstn k l) (seq 0 (length l)).

(** [b] lists the cycle [a] from some starting vertex, in the same or in
    the opposite direction. *)
Definition same_ring (a b : list Z) : Prop :=
  In b (rotations a ++ rotations (rev a)).

Definition same_ringb (a b : list Z) : bool :=
  existsb (fun l => if list_eq_dec Z.eq_dec l b then true else false)
    (rotations a ++ rotations (rev a)).

Lemma same_ringb_spec a b : same_ringb a b = true <-> same_ring a b.
Proof.
  unfold same_ringb, same_ring. rewrite existsb_exists. split.
  - intros (l & Hl & E). destruct (list_eq_dec Z.eq_dec l b); [subst; auto|discriminate].
  - intros H. exists b. split; auto.
    destruct (list_eq_dec Z.eq_dec b b); congruence.
Qed.

Lemma same_ring_length a b : same_ring a b -> length b = length a.
Proof.
  unfold same_ring, rotations. rewrite in_app_iff, !in_map_iff.
  intros [(k & <- & Hk)|(k & <- & Hk)]; apply in_seq in Hk;
    rewrite length_app, length_skipn, length_firstn, ?length_rev in *; lia.
Qed.

Section Rings.

Lemma nodup4_rotate (a b d e : Z) : NoDup [a; b; d; e] -> NoDup [b; d; e; a].
Proof.
  intros H. apply (Permutation_NoDup (l := [a; b; d; e])); [|exact H].
  change [b; d; e; a] with ([b; d; e] ++ [a]). apply Permutation_cons_append.
Qed.

Lemma nodup4_reverse (a b d e : Z) : NoDup [a; b; d; e] -> NoDup [e; d; b; a].
Proof.
  intros H. apply (Permutation_NoDup (l := [a; b; d; e])); [|exact H].
  apply (Permutation_rev [a; b; d; e]).
Qed.

Lemma nodup3_rotate (a b d : Z) : NoDup [a; b; d] -> NoDup [b; d; a].
Proof.
  intros H. apply (Permutation_NoDup (l := [a; b; d])); [|exact H].
  change [b; d; a] with ([b; d] ++ [a]). apply Permutation_cons_append.
Qed.

Lemma nodup3_reverse (a b d : Z) : NoDup [a; b; d] -> NoDup [d; b; a].
Proof.
  intros H. apply (Permutation_NoDup (l := [a; b; d])); [|exact H].
  apply (Permutation_rev [a; b; d]).
Qed.

(** The sorting step reads three entries of a triangle. *)
Lemma sort_tri_entries a b d x v :
  sort_face_verts 3 [a; b; d; x] v = sort_face_verts 3 [a; b; d] v.
Proof. reflexivity. Qed.

(** The sorted vertices of a face depend on its cycle of vertices only. *)
Lemma sort_same_ring l l' v :
  (length l = 3 \/ length l = 4)%nat -> NoDup l -> same_ring l l' ->
  sort_face_verts (Z.of_nat (length l)) l' v
  = sort_face_verts (Z.of_nat (length l)) l v.
Proof.
  intros Hlen Hnd Hr.
  destruct l as [|a [|b [|d [|e [|]]]]]; simpl in Hlen; try lia.
  - (* triangles *)
    change (Z.of_nat (length [a; b; d])) with 3.
    pose proof (nodup3_rotate a b d Hnd) as R1.
    pose proof (nodup3_rotate b d a R1) as R2.
    pose proof (nodup3_reverse a b d Hnd) as V0.
    pose proof (nodup3_rotate d b a V0) as V1.
    pose proof (nodup3_rotate b a d V1) as V2.
    unfold same_ring in Hr. simpl in Hr.
    rewrite <- (sort_tri_entries a b d 0 v).
    destruct Hr as [<-|[<-|[<-|[<-|[<-|[<-|[]]]]]]];
      rewrite <- (sort_tri_entries _ _ _ 0 v).
    + reflexivity.
    + apply (sort_tri_rotate 0 0 v Hnd).
    + rewrite (sort_tri_rotate 0 0 v R1). apply (sort_tri_rotate 0 0 v Hnd).
    + apply (sort_tri_reverse 0 0 v Hnd).
    + rewrite (sort_tri_rotate 0 0 v V0). apply (sort_tri_reverse 0 0 v Hnd).
    + rewrite (sort_tri_rotate 0 0 v V1), (sort_tri_rotate 0 0 v V0).
      apply (sort_tri_reverse 0 0 v Hnd).
  - (* quadrilaterals *)
    change (Z.of_nat (length [a; b; d; e])) with 4.
    pose proof (nodup4_rotate a b d e Hnd) as R1.
    pose proof (nodup4_rotate b d e a R1) as R2.
    pose proof (nodup4_reverse a b d e Hnd) as V0.
    pose proof (nodup4_rotate e d b a V0) as V1.
    pose proof (nodup4_rotate d b a e V1) as V2.
    unfold same_ring in Hr. simpl in Hr.
    destruct Hr as [<-|[<-|[<-|[<-|[<-|[<-|[<-|[<-|[]]]]]]]]].
    + reflexivity.
    + apply (sort_quad_rotate v Hnd).
    + rewrite (sort_quad_rotate v R1). apply (sort_quad_rotate v Hnd).
    + rewrite (sort_quad_rotate v R2), (sort_quad_rotate v R1).
      apply (sort_quad_rotate v Hnd).
    + apply (sort_quad_reverse v Hnd).
    + rewrite (sort_quad_rotate v V0). apply (sort_quad_reverse v Hnd).
    + rewrite (sort_quad_rotate v V1), (sort_quad_rotate v V0).
      apply (sort_quad_reverse v Hnd).
    + rewrite (sort_quad_rotate v V2), (sort_quad_rotate v V1),
        (sort_quad_rotate v V0).
      apply (sort_quad_reverse v Hnd).
Qed.

Ltac ring_member :=
  unfold same_ring; simpl;
  repeat first [ left; reflexivity | right ].

(** The sorted vertices list the cycle of the face. *)
Lemma sort_in_ring l v :
  (length l = 3 \/ length l = 4)%nat -> (4 <= length v)%nat ->
  same_ring l
    (firstn (length l) (snd (sort_face_verts (Z.of_nat (length l)) l v))).
Proof.
  intros Hlen Hv.
  destruct l as [|a [|b [|d [|e [|]]]]]; simpl in Hlen; try lia.
  - change (Z.of_nat (length [a; b; d])) with 3.
    change (length [a; b; d]) with 3%nat.
    unfold sort_face_verts. change (3 =? 3) with true. cbv iota zeta.
    repeat match goal with |- context [if ?c then _ else _] => destruct c end;
      simpl snd; rewrite firstn_put3 by lia; unfold Arr.get; ring_member.
  - change (Z.of_nat (length [a; b; d; e])) with 4.
    change (length [a; b; d; e]) with 4%nat.
    unfold sort_face_verts. change (4 =? 3) with false. cbv iota zeta.
    repeat match goal with |- context [if ?c then _ else _] => destruct c end;
      simpl snd; rewrite firstn_put4 by lia; unfold Arr.get; ring_member.
Qed.

(** Two cycles that have a listing in common are the same cycle. *)
Lemma same_ring_common a b t :
  (length a = 3 \/ length a = 4)%nat ->
  same_ring a t -> same_ring b t -> same_ring a b.
Proof.
  intros Hlen Ha Hb.
  pose proof (same_ring_length _ _ Ha) as La.
  pose proof (same_ring_length _ _ Hb) as Lb.
  destruct a as [|a0 [|a1 [|a2 [|a3 [|]]]]]; simpl in Hlen; try lia.
  - destruct b as [|b0 [|b1 [|b2 [|]]]]; simpl in La, Lb; try lia.
    unfold same_ring in Ha, Hb. simpl in Ha, Hb.
    destruct Ha as [<-|[<-|[<-|[<-|[<-|[<-|[]]]]]]];
      destruct Hb as [E|[E|[E|[E|[E|[E|[]]]]]]];
      injection E as -> -> ->; ring_member.
  - destruct b as [|b0 [|b1 [|b2 [|b3 [|]]]]]; simpl in La, Lb; try lia.
    unfold same_ring in Ha, Hb. simpl in Ha, Hb.
    destruct Ha as [<-|[<-|[<-|[<-|[<-|[<-|[<-|[<-|[]]]]]]]]];
      destruct Hb as [E|[E|[E|[E|[E|[E|[E|[E|[]]]]]]]]];
      injection E as -> -> -> ->; ring_member.
Qed.

Lemma same_ring_refl a : (0 < length a)%nat -> same_ring a a.
Proof.
  intros H. unfold same_ring, rotations. apply in_or_app. left.
  apply in_map_iff. exists 0%nat. split.
  - simpl. apply app_nil_r.
  - apply in_seq. lia.
Qed.

Lemma same_ring_sym a b :
  (length a = 3 \/ length a = 4)%nat -> same_ring a b -> same_ring b a.
Proof.
  intros Hlen H. pose proof (same_ring_length _ _ H) as L.
  apply same_ring_common with b; [lia|apply same_ring_refl; lia|exact H].
Qed.

End Rings.

(** * The vertices of a face *)

Section FaceRings.

Variable ET : ElementTypes.

(** The vertices of local face [f] of [e] in the element's own order, as
    [get_element_face_verts] writes them *)
Definition face_ring (c : Conn) (e f : Z) : list Z :=
  let '(n, t) := get_element_face_verts ET c e f (uninit 4) in
  firstn (Z.to_nat n) t.

(** The local vertex number of vertex [k] of local face [f] of [e] *)
Definition face_vertex (c : Conn) (e f k : Z) : Z :=
  if e <? ntets c then tbl (TET_FACE_VERTS ET) f k
  else if e <? ntets c + nhex c then tbl (HEX_FACE_VERTS ET) f k
  else if e <? ntets c + nhex c + nwedge c then
    if f <? WEDGE_TRI_FACES ET then tbl (WEDGE_TRI_FACE_VERTS ET) f k
    else tbl (WEDGE_QUAD_FACE_VERTS ET) (f - WEDGE_TRI_FACES ET) k
  else
    if f <? PYRMD_TRI_FACES ET then tbl (PYRMD_TRI_FACE_VERTS ET) f k
    else Arr.get (PYRMD_QUAD_FACE_VERTS ET) k.

(** The face tables of the catalog name local vertices. *)
Definition face_tables_ok : Prop :=
  (forall f k, 0 <= f < TET_FACES ET -> 0 <= k < 3 ->
     0 <= tbl (TET_FACE_VERTS ET) f k < TET_VERTS ET) /\
  (forall f k, 0 <= f < HEX_FACES ET -> 0 <= k < 4 ->
     0 <= tbl (HEX_FACE_VERTS ET) f k < HEX_VERTS ET) /\
  0 <= WEDGE_TRI_FACES ET /\
  (forall f k, 0 <= f < WEDGE_TRI_FACES ET -> 0 <= k < 3 ->
     0 <= tbl (WEDGE_TRI_FACE_VERTS ET) f k < WEDGE_VERTS ET) /\
  (forall g k, 0 <= g < WEDGE_FACES ET - WEDGE_TRI_FACES ET -> 0 <= k < 4 ->
     0 <= tbl (WEDGE_QUAD_FACE_VERTS ET) g k < WEDGE_VERTS ET) /\
  (forall f k, 0 <= f < PYRMD_TRI_FACES ET -> 0 <= k < 3 ->
     0 <= tbl (PYRMD_TRI_FACE_VERTS ET) f k < PYRMD_VERTS ET) /\
  (forall k, 0 <= k < 4 ->
     0 <= Arr.get (PYRMD_QUAD_FACE_VERTS ET) k < PYRMD_VERTS ET).

Lemma set_tet x y z :
  Arr.set (Arr.set (Arr.set (uninit 4) 1 x) 2 y) 0 z = [z; x; y; 0].
Proof. reflexivity. Qed.

Lemma set_tri x y z :
  Arr.set (Arr.set (Arr.set (uninit 4) 0 x) 1 y) 2 z = [x; y; z; 0].
Proof. reflexivity. Qed.

Lemma set_quad x y z w :
  Arr.set (Arr.set (Arr.set (Arr.set (uninit 4) 0 x) 1 y) 2 z) 3 w = [x; y; z; w].
Proof. reflexivity. Qed.

Lemma get_below3 (g : Z -> Z) k :
  0 <= k < 3 -> Arr.get [g 0; g 1; g 2; 0] k = g k.
Proof.
  intros Hk. assert (E : k = 0 \/ k = 1 \/ k = 2) by lia.
  destruct E as [->|[->| ->]]; reflexivity.
Qed.

Lemma get_below4 (g : Z -> Z) k :
  0 <= k < 4 -> Arr.get [g 0; g 1; g 2; g 3] k = g k.
Proof.
  intros Hk. assert (E : k = 0 \/ k = 1 \/ k = 2 \/ k = 3) by lia.
  destruct E as [->|[->|[->| ->]]]; reflexivity.
Qed.

(** What [get_element_face_verts] writes for a face of the mesh *)
Lemma face_verts_raw c e f :
  faces_ok ET c -> verts_ok ET c -> face_tables_ok -> face_valid ET c e f ->
  exists n t,
    get_element_face_verts ET c e f (uninit 4) = (n, t) /\
    (n = 3 \/ n = 4) /\ length t = 4%nat /\
    forall k, 0 <= k < n ->
      Arr.get t k = elem_vert ET c e (face_vertex c e f k) /\
      0 <= face_vertex c e f k < elem_nverts ET c e.
Proof.
  intros Hok Hvok (T1 & T2 & W0 & T3 & T4 & T5 & T6) (He & Hf).
  destruct Hok as (Hc & Q1 & Q2 & Q3 & Q4 & F1 & F2 & F3 & F4 & _).
  destruct Hvok as (_ & P1 & P2 & P3 & P4 & B1 & B2 & B3 & B4 & _).
  destruct (partial_sums Hc) as (S1 & S2 & S3).
  destruct Hc as (C1 & C2 & C3 & C4 & C5).
  unfold total_elems in He.
  unfold block_size, element_block in Hf. rewrite S3, S2, S1 in Hf.
  unfold get_element_face_verts, elem_vert, elem_nverts, get_element_verts,
    face_vertex.
  cbv zeta. rewrite S3, S2, S1.
  destruct (Z.ltb_spec e (ntets c)) as [L1|L1].
  { simpl in Hf. rewrite set_tet. eexists; eexists. split; [reflexivity|].
    split; [left; reflexivity|]. split; [reflexivity|]. intros k Hk.
    pose proof (T1 f 0 Hf ltac:(lia)). pose proof (T1 f 1 Hf ltac:(lia)).
    pose proof (T1 f 2 Hf ltac:(lia)). pose proof (T1 f k Hf Hk).
    simpl fst; simpl snd. unfold load. simpl p_arr; simpl p_off.
    rewrite Index.mul_small by (apply ok_of_bounds; nia).
    rewrite !Index.add_small by (apply ok_of_bounds; nia).
    split; [|lia].
    apply (get_below3 (fun k => Arr.get (tet_verts c)
             (TET_VERTS ET * e + tbl (TET_FACE_VERTS ET) f k)) k Hk). }
  assert (E1 : e -w ntets c = e - ntets c).
  { apply Index.sub_small. apply ok_of_bounds. lia. }
  destruct (Z.ltb_spec e (ntets c + nhex c)) as [L2|L2].
  { simpl in Hf. rewrite set_quad. eexists; eexists. split; [reflexivity|].
    split; [right; reflexivity|]. split; [reflexivity|]. intros k Hk.
    pose proof (T2 f 0 Hf ltac:(lia)). pose proof (T2 f 1 Hf ltac:(lia)).
    pose proof (T2 f 2 Hf ltac:(lia)). pose proof (T2 f 3 Hf ltac:(lia)).
    pose proof (T2 f k Hf Hk).
    simpl fst; simpl snd. unfold load. simpl p_arr; simpl p_off.
    rewrite E1.
    rewrite Index.mul_small by (apply ok_of_bounds; nia).
    rewrite !Index.add_small by (apply ok_of_bounds; nia).
    split; [|lia].
    apply (get_below4 (fun k => Arr.get (hex_verts c)
             (HEX_VERTS ET * (e - ntets c) + tbl (HEX_FACE_VERTS ET) f k)) k Hk). }
  assert (E2 : e -w ntets c -w nhex c = e - ntets c - nhex c).
  { rewrite E1. apply Index.sub_small. apply ok_of_bounds. lia. }
  destruct (Z.ltb_spec e (ntets c + nhex c + nwedge c)) as [L3|L3].
  { simpl in Hf. destruct (Z.ltb_spec f (WEDGE_TRI_FACES ET)) as [Lf|Lf].
    - rewrite set_tri. eexists; eexists. split; [reflexivity|].
      split; [left; reflexivity|]. split; [reflexivity|]. intros k Hk.
      assert (Hf3 : 0 <= f < WEDGE_TRI_FACES ET) by lia.
      pose proof (T3 f 0 Hf3 ltac:(lia)). pose proof (T3 f 1 Hf3 ltac:(lia)).
      pose proof (T3 f 2 Hf3 ltac:(lia)). pose proof (T3 f k Hf3 Hk).
      simpl fst; simpl snd. unfold load. simpl p_arr; simpl p_off.
      rewrite E2.
      rewrite Index.mul_small by (apply ok_of_bounds; nia).
      rewrite !Index.add_small by (apply ok_of_bounds; nia).
      split; [|lia].
      apply (get_below3 (fun k => Arr.get (wedge_verts c)
               (WEDGE_VERTS ET * (e - ntets c - nhex c)
                + tbl (WEDGE_TRI_FACE_VERTS ET) f k)) k Hk).
    - assert (Eg : f -w WEDGE_TRI_FACES ET = f - WEDGE_TRI_FACES ET).
      { apply Index.sub_small. apply ok_of_bounds. nia. }
      rewrite Eg. rewrite set_quad. eexists; eexists. split; [reflexivity|].
      split; [right; reflexivity|]. split; [reflexivity|]. intros k Hk.
      assert (Hg : 0 <= f - WEDGE_TRI_FACES ET
                   < WEDGE_FACES ET - WEDGE_TRI_FACES ET) by lia.
      pose proof (T4 _ 0 Hg ltac:(lia)). pose proof (T4 _ 1 Hg ltac:(lia)).
      pose proof (T4 _ 2 Hg ltac:(lia)). pose proof (T4 _ 3 Hg ltac:(lia)).
      pose proof (T4 _ k Hg Hk).
      simpl fst; simpl snd. unfold load. simpl p_arr; simpl p_off.
      rewrite E2.
      rewrite Index.mul_small by (apply ok_of_bounds; nia).
      rewrite !Index.add_small by (apply ok_of_bounds; nia).
      split; [|lia].
      apply (get_below4 (fun k => Arr.get (wedge_verts c)
               (WEDGE_VERTS ET * (e - ntets c - nhex c)
                + tbl (WEDGE_QUAD_FACE_VERTS ET) (f - WEDGE_TRI_FACES ET) k))
               k Hk). }
  assert (E3 : e -w ntets c -w nhex c -w nwedge c = e - ntets c - nhex c - nwedge c).
  { rewrite E2. apply Index.sub_small. apply ok_of_bounds. lia. }
  destruct (Z.ltb_spec e (ntets c + nhex c + nwedge c + npyrmd c)) as [L4|L4]; [|lia].
  simpl in Hf. destruct (Z.ltb_spec f (PYRMD_TRI_FACES ET)) as [Lf|Lf].
  - rewrite set_tri. eexists; eexists. split; [reflexivity|].
    split; [left; reflexivity|]. split; [reflexivity|]. intros k Hk.
    assert (Hf3 : 0 <= f < PYRMD_TRI_FACES ET) by lia.
    pose proof (T5 f 0 Hf3 ltac:(lia)). pose proof (T5 f 1 Hf3 ltac:(lia)).
    pose proof (T5 f 2 Hf3 ltac:(lia)). pose proof (T5 f k Hf3 Hk).
    simpl fst; simpl snd. unfold load. simpl p_arr; simpl p_off.
    rewrite E3.
    rewrite Index.mul_small by (apply ok_of_bounds; nia).
    rewrite !Index.add_small by (apply ok_of_bounds; nia).
    split; [|lia].
    apply (get_below3 (fun k => Arr.get (pyrmd_verts c)
             (PYRMD_VERTS ET * (e - ntets c - nhex c - nwedge c)
              + tbl (PYRMD_TRI_FACE_VERTS ET) f k)) k Hk).
  - rewrite set_quad. eexists; eexists. split; [reflexivity|].
    split; [right; reflexivity|]. split; [reflexivity|]. intros k Hk.
    pose proof (T6 0 ltac:(lia)). pose proof (T6 1 ltac:(lia)).
    pose proof (T6 2 ltac:(lia)). pose proof (T6 3 ltac:(lia)).
    pose proof (T6 k Hk).
    simpl fst; simpl snd. unfold load. simpl p_arr; simpl p_off.
    rewrite E3.
    rewrite Index.mul_small by (apply ok_of_bounds; nia).
    rewrite !Index.add_small by (apply ok_of_bounds; nia).
    split; [|lia].
    apply (get_below4 (fun k => Arr.get (pyrmd_verts c)
             (PYRMD_VERTS ET * (e - ntets c - nhex c - nwedge c)
              + Arr.get (PYRMD_QUAD_FACE_VERTS ET) k)) k Hk).
Qed.

End FaceRings.

Section RingTuples.

Variable ET : ElementTypes.

Lemma face_verts_shape c e f :
  faces_ok ET c -> face_valid ET c e f ->
  exists n t,
    get_element_face_verts ET c e f (uninit 4) = (n, t) /\
    ((n = 3 /\ exists x y z, t = [x; y; z; 0]) \/
     (n = 4 /\ exists x y z w, t = [x; y; z; w])).
Proof.
  intros Hok (He & Hf).
  destruct Hok as (Hc & _).
  destruct (partial_sums Hc) as (S1 & S2 & S3).
  unfold total_elems in He.
  unfold get_element_face_verts. cbv zeta. rewrite S3, S2, S1.
  repeat match goal with
         | |- context [?a <? ?b] => destruct (Z.ltb_spec a b)
         end; try lia;
    rewrite ?set_tet, ?set_tri, ?set_quad;
    eexists; eexists; (split; [reflexivity|]);
    first [ left; split; [reflexivity|]; eexists; eexists; eexists; reflexivity
          | right; split; [reflexivity|]; eexists; eexists; eexists; eexists;
            reflexivity ].
Qed.

Lemma sort_fst n t v : n = 3 \/ n = 4 -> fst (sort_face_verts n t v) = n.
Proof.
  intros [-> | ->]; unfold sort_face_verts;
    [change (3 =? 3) with true | change (4 =? 3) with false]; cbv iota zeta;
    repeat match goal with |- context [if ?c then _ else _] => destruct c end;
    reflexivity.
Qed.

(** The sorted vertices of a face of the mesh are computed from its ring. *)
Lemma face_sorted_ring c e f :
  faces_ok ET c -> face_valid ET c e f ->
  (length (face_ring ET c e f) = 3 \/ length (face_ring ET c e f) = 4)%nat /\
  face_arity ET c e f = Z.of_nat (length (face_ring ET c e f)) /\
  forall v,
    get_element_global_face_verts ET c e f v
    = sort_face_verts (Z.of_nat (length (face_ring ET c e f)))
        (face_ring ET c e f) v.
Proof.
  intros Hok Hv.
  destruct (face_verts_shape c e f Hok Hv) as (n & t & E & Hs).
  unfold face_ring, face_arity, get_element_global_face_verts. rewrite E.
  destruct Hs as [(-> & x & y & z & ->)|(-> & x & y & z & w & ->)].
  - change (firstn (Z.to_nat 3) [x; y; z; 0]) with [x; y; z].
    change (Z.of_nat (length [x; y; z])) with 3.
    split; [left; reflexivity|]. split; [apply sort_fst; auto|].
    intros v. apply sort_tri_entries.
  - change (firstn (Z.to_nat 4) [x; y; z; w]) with [x; y; z; w].
    change (Z.of_nat (length [x; y; z; w])) with 4.
    split; [right; reflexivity|]. split; [apply sort_fst; auto|].
    intros v. reflexivity.
Qed.

Lemma face_tuple_ring c e f :
  faces_ok ET c -> face_valid ET c e f ->
  face_tuple ET c e f
  = firstn (length (face_ring ET c e f))
      (snd (sort_face_verts (Z.of_nat (length (face_ring ET c e f)))
              (face_ring ET c e f) (uninit 4))).
Proof.
  intros Hok Hv. destruct (face_sorted_ring c e f Hok Hv) as (L & A & G).
  unfold face_tuple. rewrite G.
  destruct (sort_face_verts _ _ _) as [n v] eqn:Es.
  assert (En : n = Z.of_nat (length (face_ring ET c e f))).
  { change n with (fst (n, v)). rewrite <- Es. apply sort_fst. lia. }
  rewrite En, Nat2Z.id. reflexivity.
Qed.

(** Two faces with the same ring of distinct vertices get the same sorted
    vertices, whatever arrays the callers pass. *)
Lemma same_ring_same_tuple c ea fa eb fb va vb :
  faces_ok ET c -> face_valid ET c ea fa -> face_valid ET c eb fb ->
  NoDup (face_ring ET c ea fa) ->
  same_ring (face_ring ET c ea fa) (face_ring ET c eb fb) ->
  (4 <= length va)%nat -> (4 <= length vb)%nat ->
  fst (get_element_global_face_verts ET c ea fa va)
  = fst (get_element_global_face_verts ET c eb fb vb) /\
  firstn (Z.to_nat (fst (get_element_global_face_verts ET c ea fa va)))
    (snd (get_element_global_face_verts ET c ea fa va))
  = firstn (Z.to_nat (fst (get_element_global_face_verts ET c eb fb vb)))
      (snd (get_element_global_face_verts ET c eb fb vb)).
Proof.
  intros Hok Ha Hb Hnd Hr La Lb.
  destruct (face_sorted_ring c ea fa Hok Ha) as (L1 & A1 & G1).
  destruct (face_sorted_ring c eb fb Hok Hb) as (L2 & A2 & G2).
  rewrite G1, G2, (same_ring_length _ _ Hr).
  rewrite (sort_same_ring _ _ vb L1 Hnd Hr).
  apply sort_face_verts_out; assumption.
Qed.

Lemma global_face_equality_refl n v :
  global_face_equality n v n v = true.
Proof.
  unfold global_face_equality. rewrite !Z.eqb_refl.
  destruct (n =? 3); reflexivity.
Qed.

Lemma same_ring_match c ea fa eb fb :
  faces_ok ET c -> face_valid ET c ea fa -> face_valid ET c eb fb ->
  NoDup (face_ring ET c ea fa) ->
  same_ring (face_ring ET c ea fa) (face_ring ET c eb fb) ->
  faces_match ET c ea fa eb fb = true.
Proof.
  intros Hok Ha Hb Hnd Hr.
  destruct (face_sorted_ring c ea fa Hok Ha) as (L1 & A1 & G1).
  destruct (face_sorted_ring c eb fb Hok Hb) as (L2 & A2 & G2).
  unfold faces_match.
  rewrite G1, G2, (same_ring_length _ _ Hr).
  rewrite (sort_same_ring _ _ (uninit 4) L1 Hnd Hr).
  destruct (sort_face_verts _ _ _) as [n v].
  apply global_face_equality_refl.
Qed.

Lemma match_same_ring c ea fa eb fb :
  faces_ok ET c -> face_valid ET c ea fa -> face_valid ET c eb fb ->
  faces_match ET c ea fa eb fb = true ->
  same_ring (face_ring ET c ea fa) (face_ring ET c eb fb).
Proof.
  intros Hok Ha Hb Hm.
  destruct (face_sorted_ring c ea fa Hok Ha) as (L1 & A1 & G1).
  destruct (face_sorted_ring c eb fb Hok Hb) as (L2 & A2 & G2).
  pose proof (faces_match_arity ET c ea fa eb fb Hm) as Ear.
  pose proof (faces_match_tuple ET c ea fa eb fb Hm) as Etu.
  rewrite (face_tuple_ring c ea fa Hok Ha), (face_tuple_ring c eb fb Hok Hb) in Etu.
  assert (Hu : (4 <= length (uninit 4))%nat) by (simpl; lia).
  pose proof (sort_in_ring (face_ring ET c ea fa) (uninit 4) L1 Hu) as R1.
  pose proof (sort_in_ring (face_ring ET c eb fb) (uninit 4) L2 Hu) as R2.
  rewrite <- Etu in R2.
  apply (same_ring_common _ _ _ L1 R1 R2).
Qed.

Lemma global_face_equality_sym na a nb b :
  global_face_equality na a nb b = global_face_equality nb b na a.
Proof.
  unfold global_face_equality. rewrite (Z.eqb_sym nb na).
  destruct (Z.eqb_spec na nb) as [->|]; [|reflexivity].
  rewrite (Z.eqb_sym (Arr.get b 0)), (Z.eqb_sym (Arr.get b 1)),
    (Z.eqb_sym (Arr.get b 2)), (Z.eqb_sym (Arr.get b 3)). reflexivity.
Qed.

Lemma faces_match_sym c ea fa eb fb :
  faces_match ET c ea fa eb fb = faces_match ET c eb fb ea fa.
Proof.
  unfold faces_match.
  destruct (get_element_global_face_verts ET c ea fa (uninit 4)) as [n v].
  destruct (get_element_global_face_verts ET c eb fb (uninit 4)) as [n' v'].
  apply global_face_equality_sym.
Qed.

Lemma global_face_equality_trans na a nb b nc d :
  global_face_equality na a nb b = true ->
  global_face_equality nb b nc d = true ->
  global_face_equality na a nc d = true.
Proof.
  unfold global_face_equality.
  destruct (Z.eqb_spec na nb) as [->|]; [|discriminate].
  destruct (Z.eqb_spec nb nc) as [->|]; [|discriminate].
  destruct (nc =? 3); rewrite !andb_true_iff, !Z.eqb_eq; intuition congruence.
Qed.

Lemma faces_match_trans c ea fa eb fb ec fc :
  faces_match ET c ea fa eb fb = true -> faces_match ET c eb fb ec fc = true ->
  faces_match ET c ea fa ec fc = true.
Proof.
  unfold faces_match.
  destruct (get_element_global_face_verts ET c ea fa (uninit 4)) as [n v].
  destruct (get_element_global_face_verts ET c eb fb (uninit 4)) as [n' v'].
  destruct (get_element_global_face_verts ET c ec fc (uninit 4)) as [n'' v''].
  apply global_face_equality_trans.
Qed.

Lemma global_face_equality_head na a nb b :
  global_face_equality na a nb b = true -> Arr.get a 0 = Arr.get b 0.
Proof.
  unfold global_face_equality.
  destruct (na =? nb); [|discriminate].
  destruct (na =? 3); rewrite !andb_true_iff, !Z.eqb_eq; intuition.
Qed.

Lemma sort_head n t :
  n = 3 \/ n = 4 ->
  exists k, 0 <= k < n /\
    Arr.get (snd (sort_face_verts n t (uninit 4))) 0 = Arr.get t k.
Proof.
  intros [-> | ->]; unfold sort_face_verts;
    [change (3 =? 3) with true | change (4 =? 3) with false]; cbv iota zeta;
    repeat match goal with |- context [if ?c then _ else _] => destruct c end;
    simpl snd;
    first [ exists 0; split; [lia|reflexivity]
          | exists 1; split; [lia|reflexivity]
          | exists 2; split; [lia|reflexivity]
          | exists 3; split; [lia|reflexivity] ].
Qed.

(** The first sorted vertex of a face is a vertex of its element. *)
Lemma face_head_vert c e f :
  faces_ok ET c -> verts_ok ET c -> face_tables_ok ET -> face_valid ET c e f ->
  exists i, 0 <= i < elem_nverts ET c e /\
    Arr.get (snd (get_element_global_face_verts ET c e f (uninit 4))) 0
    = elem_vert ET c e i.
Proof.
  intros Hok Hvok Ht Hv.
  destruct (face_verts_raw ET c e f Hok Hvok Ht Hv) as (n & t & E & Hn & _ & Hk).
  unfold get_element_global_face_verts. rewrite E.
  destruct (sort_head n t Hn) as (k & Hkr & Ek). rewrite Ek.
  destruct (Hk k Hkr) as (Ev & Hr). eauto.
Qed.

(** The element of a matching face is found from the first sorted vertex. *)
Definition found_from (c : Conn) (e f adj : Z) : Prop :=
  exists k,
    0 <= k < fst (get_adjacent_elements_from_vert c
                    (Arr.get (snd (get_element_global_face_verts ET c e f
                                     (uninit 4))) 0) None) /\
    load_out c
      (snd (get_adjacent_elements_from_vert c
              (Arr.get (snd (get_element_global_face_verts ET c e f
                               (uninit 4))) 0) None)) k = adj.

Lemma match_found_from c ea fa eb fb :
  faces_ok ET c -> verts_ok ET c -> face_tables_ok ET ->
  nelems c = total_elems c -> adjacency_complete ET c ->
  face_valid ET c ea fa -> face_valid ET c eb fb ->
  faces_match ET c ea fa eb fb = true ->
  found_from c ea fa eb.
Proof.
  intros Hok Hvok Ht Hn Hcomp Ha Hb Hm.
  destruct (face_head_vert c eb fb Hok Hvok Ht Hb) as (i & Hi & Ei).
  assert (E0 : Arr.get (snd (get_element_global_face_verts ET c ea fa (uninit 4))) 0
               = Arr.get (snd (get_element_global_face_verts ET c eb fb (uninit 4))) 0).
  { unfold faces_match in Hm.
    destruct (get_element_global_face_verts ET c ea fa (uninit 4)) as [n v].
    destruct (get_element_global_face_verts ET c eb fb (uninit 4)) as [n' v'].
    apply (global_face_equality_head _ _ _ _ Hm). }
  unfold found_from. rewrite E0, Ei.
  apply Hcomp. apply in_vert_items. split; [rewrite Hn; apply Hb|].
  exists i. split; [exact Hi|reflexivity].
Qed.

End RingTuples.


(** * Face discovery finds the partner of a shared face *)

(** A loop with a [break] flag that some iteration sets ends with the flag
    set. *)
Lemma for_range_hit {S : Type} (P : S -> Prop) (flag : S -> bool)
  (body : Z -> S -> S) lo hi s j :
  P s ->
  (forall i t, lo <= i < hi -> P t -> P (body i t)) ->
  (forall i t, flag t = true -> flag (body i t) = true) ->
  lo <= j < hi ->
  (forall t, P t -> flag (body j t) = true) ->
  flag (for_range lo hi body s) = true.
Proof.
  intros H0 Hstep Hsticky Hj Hhit.
  assert (H : (fun i t => P t /\ (j < i -> flag t = true)) hi
                (for_range lo hi body s)).
  { apply for_range_inv; [lia|split; [exact H0|lia]|].
    intros i t Hi (Ht & Hf). split; [apply Hstep; assumption|].
    intros Hji. destruct (Z.eq_dec i j) as [->|Hn].
    - apply Hhit, Ht.
    - apply Hsticky, Hf. lia. }
  cbv beta in H. apply H. lia.
Qed.

Section FaceSearchHit.

Variable ET : ElementTypes.

Lemma match_adj_face_sticky elem faces face n fv adj adj_faces adj_face st :
  snd st = true ->
  snd (match_adj_face ET elem faces face n fv adj adj_faces adj_face st) = true.
Proof. destruct st as [c b]. simpl. intros ->. reflexivity. Qed.

Lemma match_adj_elem_sticky elem faces face n fv adj_elems k st :
  snd st = true ->
  snd (match_adj_elem ET elem faces face n fv adj_elems k st) = true.
Proof. destruct st as [c b]. simpl. intros ->. reflexivity. Qed.

Lemma match_face_vert_sticky elem faces face n fv m st :
  snd st = true ->
  snd (match_face_vert ET elem faces face n fv m st) = true.
Proof. destruct st as [c b]. simpl. intros ->. reflexivity. Qed.

Lemma outcome_cases c elem face st :
  search_outcome ET c elem face st -> st = (c, false) \/ snd st = true.
Proof.
  intros [->|(a & f & _ & _ & _ & _ & ->)]; [left|right]; reflexivity.
Qed.

Lemma match_adj_face_hit c elem face adj adj_face st :
  search_outcome ET c elem face st ->
  face_label ET c adj adj_face = NO_LABEL ->
  faces_match ET c elem face adj adj_face = true ->
  snd (match_adj_face ET elem (face_ptr ET c elem) face (face_arity ET c elem face)
         (snd (get_element_global_face_verts ET c elem face (uninit 4)))
         adj (face_ptr ET c adj) adj_face st) = true.
Proof.
  intros Hs Hl Hm. destruct (outcome_cases c elem face st Hs) as [->|Hf].
  2:{ apply match_adj_face_sticky, Hf. }
  unfold match_adj_face.
  unfold faces_match, face_arity in *.
  destruct (get_element_global_face_verts ET c elem face (uninit 4)) as [n v].
  destruct (get_element_global_face_verts ET c adj adj_face (uninit 4)) as [n' v'].
  change (load_out c (face_ptr ET c adj) adj_face) with (face_label ET c adj adj_face).
  simpl fst; simpl snd. rewrite Hl, Z.eqb_refl, Hm. simpl andb. cbv iota.
  destruct (n =? 3); reflexivity.
Qed.

Lemma match_adj_elem_hit c elem face adj_elems k adj_face st :
  faces_ok ET c -> face_valid ET c elem face ->
  face_valid ET c (load_out c adj_elems k) adj_face ->
  load_out c adj_elems k <> elem ->
  face_label ET c (load_out c adj_elems k) adj_face = NO_LABEL ->
  faces_match ET c elem face (load_out c adj_elems k) adj_face = true ->
  search_outcome ET c elem face st ->
  snd (match_adj_elem ET elem (face_ptr ET c elem) face (face_arity ET c elem face)
         (snd (get_element_global_face_verts ET c elem face (uninit 4)))
         adj_elems k st) = true.
Proof.
  intros Hok Hv Hva Hne Hl Hm Hs.
  destruct (outcome_cases c elem face st Hs) as [->|Hf].
  2:{ apply match_adj_elem_sticky, Hf. }
  unfold match_adj_elem.
  set (adj := load_out c adj_elems k) in *.
  destruct (Z.eqb_spec adj elem) as [E|_]; [contradiction|]. simpl negb. cbv iota.
  rewrite (get_element_faces_valid Hok (proj1 Hva)).
  apply (for_range_hit (search_outcome ET c elem face) snd) with (j := adj_face).
  - left; reflexivity.
  - intros i t Hi Ht. apply match_adj_face_outcome; auto.
    split; [apply Hva|exact Hi].
  - intros i t Ht. apply match_adj_face_sticky, Ht.
  - destruct Hva as (_ & Hf). rewrite num_faces_block. exact Hf.
  - intros t Ht. apply match_adj_face_hit; assumption.
Qed.

Lemma match_face_vert_hit c elem face m k adj_face st :
  faces_ok ET c -> face_valid ET c elem face -> adjacency_nonneg c ->
  let vert :=
    Arr.get (snd (get_element_global_face_verts ET c elem face (uninit 4))) m in
  let adj :=
    load_out c (snd (get_adjacent_elements_from_vert c vert None)) k in
  0 <= k < fst (get_adjacent_elements_from_vert c vert None) ->
  face_valid ET c adj adj_face -> adj <> elem ->
  face_label ET c adj adj_face = NO_LABEL ->
  faces_match ET c elem face adj adj_face = true ->
  search_outcome ET c elem face st ->
  snd (match_face_vert ET elem (face_ptr ET c elem) face (face_arity ET c elem face)
         (snd (get_element_global_face_verts ET c elem face (uninit 4))) m st)
  = true.
Proof.
  intros Hok Hv Hadj vert adj Hk Hva Hne Hl Hm Hs.
  destruct (outcome_cases c elem face st Hs) as [->|Hf].
  2:{ apply match_face_vert_sticky, Hf. }
  unfold match_face_vert. fold vert.
  subst adj.
  destruct (get_adjacent_elements_from_vert c vert None) as [nadj adj_elems] eqn:Eadj.
  simpl fst in Hk; simpl snd in Hva, Hne, Hl, Hm.
  apply (for_range_hit (search_outcome ET c elem face) snd) with (j := k).
  - left; reflexivity.
  - intros i t Hi Ht. apply match_adj_elem_outcome; auto.
    unfold get_adjacent_elements_from_vert in Eadj.
    destruct (_ <? nverts c) in Eadj; inversion Eadj; subst; simpl; [apply Hadj|lia].
  - intros i t Ht. apply match_adj_elem_sticky, Ht.
  - exact Hk.
  - intros t Ht. apply match_adj_elem_hit with (adj_face := adj_face); assumption.
Qed.

(** When an unlabelled matching face of another element is found from the
    first sorted vertex, [label_face] gives the face and a matching face
    the same new index. *)
Lemma label_face_hit c elem face adj adj_face :
  faces_ok ET c -> face_valid ET c elem face -> adjacency_nonneg c ->
  face_label ET c elem face = NO_LABEL ->
  found_from ET c elem face adj ->
  face_valid ET c adj adj_face -> adj <> elem ->
  face_label ET c adj adj_face = NO_LABEL ->
  faces_match ET c elem face adj adj_face = true ->
  exists adj' adj_face',
    face_valid ET c adj' adj_face' /\ adj' <> elem /\
    face_label ET c adj' adj_face' = NO_LABEL /\
    faces_match ET c elem face adj' adj_face' = true /\
    label_face ET elem (face_ptr ET c elem) face c
    = assign_two ET (face_arity ET c elem face) c elem face adj' adj_face'.
Proof.
  intros Hok Hv Hadj Hl (k & Hk & Ek) Hva Hne Hla Hm.
  pose proof (face_arity_cases ET c elem face) as Har.
  assert (Hflag : snd (for_range 0 (face_arity ET c elem face)
            (match_face_vert ET elem (face_ptr ET c elem) face
               (face_arity ET c elem face)
               (snd (get_element_global_face_verts ET c elem face (uninit 4))))
            (c, false)) = true).
  { apply (for_range_hit (search_outcome ET c elem face) snd) with (j := 0).
    - left; reflexivity.
    - intros i t Hi Ht. apply match_face_vert_outcome; auto.
    - intros i t Ht. apply match_face_vert_sticky, Ht.
    - lia.
    - intros t Ht.
      apply (match_face_vert_hit c elem face 0 k adj_face t Hok Hv Hadj Hk);
        rewrite ?Ek; assumption. }
  assert (Hs : search_outcome ET c elem face
            (for_range 0 (face_arity ET c elem face)
               (match_face_vert ET elem (face_ptr ET c elem) face
                  (face_arity ET c elem face)
                  (snd (get_element_global_face_verts ET c elem face (uninit 4))))
               (c, false))).
  { apply for_range_preserves; [|left; reflexivity].
    intros i t Hi Ht. apply match_face_vert_outcome; auto. }
  unfold label_face.
  change (load_out c (face_ptr ET c elem) face) with (face_label ET c elem face).
  rewrite Hl, Z.eqb_refl.
  unfold face_arity in Hflag, Hs |- *.
  destruct (get_element_global_face_verts ET c elem face (uninit 4)) as [n v] eqn:Eg.
  simpl fst in *; simpl snd in *.
  destruct Hs as [Hs|(a' & f' & H1 & H2 & H3 & H4 & Hs)]; rewrite Hs in Hflag |- *.
  - discriminate Hflag.
  - exists a', f'. simpl negb. cbv iota. unfold face_arity in Hs |- *.
    rewrite Eg. simpl fst.
    split; [exact H1|]. split; [exact H2|]. split; [exact H3|].
    split; [exact H4|reflexivity].
Qed.

End FaceSearchHit.

Section FoundFrom.

Variable ET : ElementTypes.

Lemma found_from_mesh c c' e f adj :
  same_mesh c c' -> found_from ET c e f adj -> found_from ET c' e f adj.
Proof.
  intros Hm (k & Hk & Ek). unfold found_from.
  rewrite (global_face_verts_mesh ET e f (uninit 4) Hm).
  rewrite (adjacent_elements_mesh _ None Hm).
  exists k. split; [exact Hk|]. rewrite <- Ek.
  unfold get_adjacent_elements_from_vert.
  destruct (_ <? nverts c); simpl; auto.
  unfold load. simpl p_arr.
  destruct Hm as (_ & _ & _ & _ & _ & _ & _ & _ & _ & _ & _ & M).
  now rewrite M.
Qed.

End FoundFrom.

Section FacePairs.

Variable ET : ElementTypes.
Variable c0 : Conn.
Hypothesis Hok0 : faces_ok ET c0.
Hypothesis Htot : total_faces ET c0 <= Index.max.
Hypothesis Hadj0 : adjacency_nonneg c0.

(** Two faces of different elements with matching sorted vertices, each
    found from the other, and no third face that matches them *)
Variables ea fa eb fb : Z.
Hypothesis Hva : face_valid ET c0 ea fa.
Hypothesis Hvb : face_valid ET c0 eb fb.
Hypothesis Hne : ea <> eb.
Hypothesis Hm : faces_match ET c0 ea fa eb fb = true.
Hypothesis Hfab : found_from ET c0 ea fa eb.
Hypothesis Hfba : found_from ET c0 eb fb ea.
Hypothesis Hman : forall e f, face_valid ET c0 e f ->
  faces_match ET c0 ea fa e f = true ->
  (e = ea /\ f = fa) \/ (e = eb /\ f = fb).

Lemma assign_one_labels a c e f e' f' :
  face_inv ET c0 c -> face_valid ET c0 e f -> face_valid ET c0 e' f' ->
  face_label ET (assign_one ET a c e f) e' f'
  = if (e' =? e) && (f' =? f) then face_counter a c else face_label ET c e' f'.
Proof.
  intros Hinv Hv Hv'. unfold assign_one. rewrite face_label_bump.
  apply (@face_label_set ET c0 Hok0 c e f (face_counter a c) e' f' Hinv Hv Hv').
Qed.

Lemma assign_two_labels a c e f adj adj_face e' f' :
  face_inv ET c0 c -> face_valid ET c0 e f -> face_valid ET c0 adj adj_face ->
  face_valid ET c0 e' f' ->
  face_label ET (assign_two ET a c e f adj adj_face) e' f'
  = if ((e' =? e) && (f' =? f)) || ((e' =? adj) && (f' =? adj_face))
    then face_counter a c else face_label ET c e' f'.
Proof.
  intros Hinv Hv Hvadj Hv'. unfold assign_two. rewrite face_label_bump.
  set (L0 := face_counter a c).
  set (c1 := set_face_label ET c adj adj_face L0).
  destruct (@set_face_label_frame ET c0 Hok0 c adj adj_face L0 Hinv Hvadj)
    as (M1 & A1 & O1 & T1 & Q1).
  fold c1 in M1, A1, O1, T1, Q1.
  assert (Hv1 : forall x y, face_valid ET c0 x y -> face_valid ET c1 x y).
  { intros x y Hxy.
    apply (face_valid_counts ET x y (same_mesh_counts M1)).
    now apply (face_inv_valid x y Hinv). }
  destruct (slot_eqb_spec e f e' f') as [[-> ->]|Hn1]; simpl orb.
  - apply face_label_set_eq; auto.
  - rewrite face_label_set_ne; auto.
    + unfold c1. apply (@face_label_set ET c0 Hok0 c adj adj_face L0 e' f'); auto.
    + intros [= -> ->]. auto.
Qed.

Lemma counter_not_sentinel a c :
  face_inv ET c0 c -> ntri_faces c + nquad_faces c < NO_LABEL ->
  face_counter a c <> NO_LABEL.
Proof.
  intros Hinv Hb. pose proof (fi_ntri Hinv). pose proof (fi_nquad Hinv).
  unfold face_counter. destruct (a =? 3); lia.
Qed.

(** The two faces are unlabelled until the loops reach the first of them,
    and carry the same index afterwards. *)
Definition pair_inv (c : Conn) (elem face : Z) : Prop :=
  (passed elem face ea fa \/ passed elem face eb fb ->
   face_label ET c ea fa = face_label ET c eb fb /\
   face_label ET c ea fa <> NO_LABEL) /\
  (~ passed elem face ea fa -> ~ passed elem face eb fb ->
   face_label ET c ea fa = NO_LABEL /\ face_label ET c eb fb = NO_LABEL).

Lemma passed_dec elem face e f :
  passed elem face e f \/ ~ passed elem face e f.
Proof. unfold passed. lia. Qed.

Lemma pair_step_from c c' elem face :
  pair_inv c elem face ->
  ((elem = ea /\ face = fa) \/ (elem = eb /\ face = fb) ->
   face_label ET c' ea fa = face_label ET c' eb fb /\
   face_label ET c' ea fa <> NO_LABEL) ->
  (~ (elem = ea /\ face = fa) -> ~ (elem = eb /\ face = fb) ->
   face_label ET c' ea fa = face_label ET c ea fa /\
   face_label ET c' eb fb = face_label ET c eb fb) ->
  pair_inv c' elem (face + 1).
Proof.
  intros (J1 & J2) F1 F2.
  destruct (slot_eqb_spec ea fa elem face) as [XA|XA].
  { split; [intros _; apply F1; left; exact XA|].
    intros Hn _. exfalso. apply Hn. apply passed_succ. right.
    destruct XA as [-> ->]. split; reflexivity. }
  destruct (slot_eqb_spec eb fb elem face) as [XB|XB].
  { split; [intros _; apply F1; right; exact XB|].
    intros _ Hn. exfalso. apply Hn. apply passed_succ. right.
    destruct XB as [-> ->]. split; reflexivity. }
  destruct (F2 XA XB) as (EA & EB). unfold pair_inv. rewrite EA, EB. split.
  - intros [H|H]; apply passed_succ in H; destruct H as [H|(E1 & E2)].
    + apply J1; auto.
    + exfalso. apply XA. split; congruence.
    + apply J1; auto.
    + exfalso. apply XB. split; congruence.
  - intros Ha Hb. apply J2.
    + intros H. apply Ha, passed_succ. left; exact H.
    + intros H. apply Hb, passed_succ. left; exact H.
Qed.

Lemma pair_step c elem face :
  face_valid ET c0 elem face -> pass1_inv ET c0 c elem face ->
  pair_inv c elem face ->
  pair_inv (label_face ET elem (face_ptr ET c0 elem) face c) elem (face + 1).
Proof.
  intros Hv (Hinv & Hb & Hp) J. pose proof J as (J1 & J2).
  assert (Hok := face_inv_ok Hok0 Hinv).
  assert (Hvc : face_valid ET c elem face) by (now apply (face_inv_valid _ _ Hinv)).
  assert (Hmesh := fi_mesh Hinv).
  assert (Hadj := adjacency_nonneg_mesh Hadj0 Hmesh).
  rewrite <- (face_ptr_counts ET elem (same_mesh_counts Hmesh)).
  destruct (label_face_outcome Hok Hvc Hadj) as [Hun Hlab].
  assert (Hlt := @faces_before_valid ET c0 Hok0 elem face Hv).
  assert (Hcnt : ntri_faces c + nquad_faces c < NO_LABEL).
  { unfold NO_LABEL. lia. }
  assert (Hfm : forall e f e' f',
            faces_match ET c e f e' f' = faces_match ET c0 e f e' f').
  { intros. apply faces_match_mesh, Hmesh. }
  assert (Hvalid : forall e f, face_valid ET c0 e f -> face_valid ET c e f).
  { intros e f H. now apply (face_inv_valid _ _ Hinv). }
  assert (Hvalid' : forall e f, face_valid ET c e f -> face_valid ET c0 e f).
  { intros e f H. now apply (face_inv_valid _ _ Hinv). }
  assert (HmBA : faces_match ET c0 eb fb ea fa = true).
  { rewrite faces_match_sym. exact Hm. }
  destruct (Z.eq_dec (face_label ET c elem face) NO_LABEL) as [E|E].
  2:{ (* the face has its index already *)
      rewrite (Hlab E). apply (pair_step_from c c elem face J).
      - intros X.
        destruct (passed_dec elem face ea fa) as [Pa|Pa]; [apply J1; auto|].
        destruct (passed_dec elem face eb fb) as [Pb|Pb]; [apply J1; auto|].
        destruct (J2 Pa Pb) as (LA & LB). exfalso.
        destruct X as [(-> & ->)|(-> & ->)]; congruence.
      - intros _ _. split; reflexivity. }
  assert (Hnone : ~ passed elem face ea fa /\ ~ passed elem face eb fb \/
                  (~ (elem = ea /\ face = fa) /\ ~ (elem = eb /\ face = fb))).
  { destruct (slot_eqb_spec ea fa elem face) as [(-> & ->)|XA].
    - left. split; intros P; destruct (J1 ltac:(auto)) as (_ & N); congruence.
    - destruct (slot_eqb_spec eb fb elem face) as [(-> & ->)|XB].
      + left. split; intros P; destruct (J1 ltac:(auto)) as (Q & N); congruence.
      + right. split; assumption. }
  destruct (slot_eqb_spec ea fa elem face) as [(-> & ->)|XA].
  { (* the loops reach the first face before the second *)
    destruct Hnone as [(Pa & Pb)|(XA & _)]; [|exfalso; apply XA; split; reflexivity].
    destruct (J2 Pa Pb) as (LA & LB).
    destruct (label_face_hit ET c ea fa eb fb Hok Hvc Hadj E
                (found_from_mesh ET c0 c ea fa eb Hmesh Hfab)
                (Hvalid _ _ Hvb) (not_eq_sym Hne) LB
                ltac:(rewrite Hfm; exact Hm))
      as (adj & adj_face & Y1 & Y2 & Y3 & Y4 & ->).
    rewrite Hfm in Y4.
    destruct (Hman adj adj_face (Hvalid' _ _ Y1) Y4) as [(-> & ->)|(-> & ->)];
      [contradiction|].
    apply (pair_step_from c _ ea fa J).
    - intros _.
      rewrite !(assign_two_labels _ c ea fa eb fb) by assumption.
      rewrite !Z.eqb_refl. simpl andb. rewrite orb_true_r. simpl orb.
      split; [reflexivity|]. apply counter_not_sentinel; assumption.
    - intros XA. exfalso. apply XA. split; reflexivity. }
  destruct (slot_eqb_spec eb fb elem face) as [(-> & ->)|XB].
  { (* the loops reach the second face before the first *)
    destruct Hnone as [(Pa & Pb)|(_ & XB)]; [|exfalso; apply XB; split; reflexivity].
    destruct (J2 Pa Pb) as (LA & LB).
    destruct (label_face_hit ET c eb fb ea fa Hok Hvc Hadj E
                (found_from_mesh ET c0 c eb fb ea Hmesh Hfba)
                (Hvalid _ _ Hva) Hne LA
                ltac:(rewrite Hfm; exact HmBA))
      as (adj & adj_face & Y1 & Y2 & Y3 & Y4 & ->).
    rewrite Hfm in Y4.
    pose proof (faces_match_trans ET c0 _ _ _ _ _ _ Hm Y4) as Y5.
    destruct (Hman adj adj_face (Hvalid' _ _ Y1) Y5) as [(-> & ->)|(-> & ->)];
      [|contradiction].
    apply (pair_step_from c _ eb fb J).
    - intros _.
      rewrite !(assign_two_labels _ c eb fb ea fa) by assumption.
      rewrite !Z.eqb_refl. simpl andb. rewrite orb_true_r. simpl orb.
      split; [reflexivity|]. apply counter_not_sentinel; assumption.
    - intros _ XB. exfalso. apply XB. split; reflexivity. }
  (* another face *)
  apply (pair_step_from c _ elem face J).
  { intros [X|X]; [exfalso; apply XA|exfalso; apply XB]; exact X. }
  intros _ _.
  assert (HnA : (ea =? elem) && (fa =? face) = false).
  { destruct (slot_eqb_spec elem face ea fa) as [(E1 & E2)|]; [|reflexivity].
    exfalso. apply XA. split; congruence. }
  assert (HnB : (eb =? elem) && (fb =? face) = false).
  { destruct (slot_eqb_spec elem face eb fb) as [(E1 & E2)|]; [|reflexivity].
    exfalso. apply XB. split; congruence. }
  destruct (Hun E) as [->|(adj & adj_face & Y1 & Y2 & Y3 & Y4 & ->)].
  - rewrite !assign_one_labels by assumption. rewrite HnA, HnB. split; reflexivity.
  - rewrite Hfm in Y4.
    assert (HXA : faces_match ET c0 ea fa elem face = true ->
                  False).
    { intros H. destruct (Hman elem face Hv H) as [(-> & ->)|(-> & ->)];
        [apply XA|apply XB]; split; reflexivity. }
    assert (HyA : (ea =? adj) && (fa =? adj_face) = false).
    { destruct (slot_eqb_spec adj adj_face ea fa) as [(E1 & E2)|]; [|reflexivity].
      exfalso. apply HXA. rewrite faces_match_sym, E1, E2. exact Y4. }
    assert (HyB : (eb =? adj) && (fb =? adj_face) = false).
    { destruct (slot_eqb_spec adj adj_face eb fb) as [(E1 & E2)|]; [|reflexivity].
      exfalso. apply HXA.
      apply (faces_match_trans ET c0 _ _ _ _ _ _ Hm).
      rewrite faces_match_sym, E1, E2. exact Y4. }
    rewrite !(assign_two_labels _ c elem face adj adj_face)
      by (try assumption; apply Hvalid'; exact Y1).
    rewrite HnA, HnB, HyA, HyB. split; reflexivity.
Qed.

Definition both_inv (c : Conn) (elem face : Z) : Prop :=
  pass1_inv ET c0 c elem face /\ pair_inv c elem face.

Lemma both_element_step c elem :
  0 <= elem < total_elems c0 -> both_inv c elem 0 ->
  both_inv (label_element_faces ET elem c) (elem + 1) 0.
Proof.
  intros He (Hp1 & Hj). split.
  { apply (label_element_faces_step Hok0 Htot Hadj0); assumption. }
  unfold label_element_faces.
  assert (Hmesh := fi_mesh (proj1 Hp1)).
  assert (Hok := face_inv_ok Hok0 (proj1 Hp1)).
  rewrite get_element_faces_valid; auto.
  2:{ unfold total_elems in *.
      destruct (same_mesh_counts Hmesh) as (E1 & E2 & E3 & E4).
      now rewrite E1, E2, E3, E4. }
  rewrite (face_ptr_counts ET elem (same_mesh_counts Hmesh)).
  rewrite num_faces_block,
    (block_size_counts _ _ _ _ _ _ _ _ _ (same_mesh_counts Hmesh)).
  rewrite <- num_faces_block.
  assert (Hfin : both_inv
    (for_range 0 (num_faces ET c0 elem) (label_face ET elem (face_ptr ET c0 elem)) c)
    elem (num_faces ET c0 elem)).
  { apply (@for_range_inv Conn (fun face c => both_inv c elem face)).
    - apply num_faces_nonneg, Hok0.
    - split; assumption.
    - intros j t Hjr (T1 & T2). split.
      + apply (label_face_step Hok0 Htot Hadj0); [split; auto|exact T1].
      + apply pair_step; [split; auto|exact T1|exact T2]. }
  destruct Hfin as (_ & (K1 & K2)).
  assert (Hpass : forall e f, face_valid ET c0 e f ->
            (passed (elem + 1) 0 e f <-> passed elem (num_faces ET c0 elem) e f)).
  { intros e f (_ & Hf). rewrite <- num_faces_block in Hf. unfold passed.
    split; intros [H|(-> & H)]; try lia.
    destruct (Z.eq_dec e elem) as [->|]; [right; split; [reflexivity|lia]|left; lia]. }
  split.
  - intros H. apply K1.
    destruct H as [H|H]; [left; apply (Hpass _ _ Hva)|right; apply (Hpass _ _ Hvb)];
      exact H.
  - intros Ha Hb. apply K2.
    + intros H. apply Ha, (Hpass _ _ Hva), H.
    + intros H. apply Hb, (Hpass _ _ Hvb), H.
Qed.

Lemma both_all_faces c :
  both_inv c 0 0 ->
  both_inv (for_range 0 (total_elems c0) (label_element_faces ET) c)
    (total_elems c0) 0.
Proof.
  intros H.
  apply (@for_range_inv Conn (fun elem c => both_inv c elem 0)); auto.
  - destruct Hok0 as ((C1 & C2 & C3 & C4 & C5) & _). unfold total_elems. lia.
  - intros j t Hj Ht. apply both_element_step; auto.
Qed.

Lemma pair_final c :
  pair_inv c (total_elems c0) 0 ->
  face_label ET c ea fa = face_label ET c eb fb.
Proof.
  intros (J1 & _). apply J1. left. left. apply Hva.
Qed.

End FacePairs.

Section FacePairsSummary.

Variable ET : ElementTypes.
Variable c : Conn.
Hypothesis Hc : faces_ok ET c.
Hypothesis Hn : nelems c = total_elems c.
Hypothesis Htot : 2 * total_faces ET c <= Index.max.
Hypothesis Hadj : adjacency_nonneg c.

(** Two faces of different elements with matching sorted vertices that no
    third face matches receive the same index in the first loop of
    [init_face_data]. *)
Lemma discover_faces_pair ea fa eb fb :
  face_valid ET c ea fa -> face_valid ET c eb fb -> ea <> eb ->
  faces_match ET c ea fa eb fb = true ->
  found_from ET c ea fa eb -> found_from ET c eb fb ea ->
  (forall e f, face_valid ET c e f -> faces_match ET c ea fa e f = true ->
     (e = ea /\ f = fa) \/ (e = eb /\ f = fb)) ->
  face_label ET (discover_faces ET c) ea fa
  = face_label ET (discover_faces ET c) eb fb.
Proof.
  intros Hva Hvb Hne Hm Hfab Hfba Hman.
  pose proof (@total_faces_nonneg ET c Hc) as Hnn.
  pose proof (same_mesh_start ET c) as Hs.
  assert (Htot' : total_faces ET (faces_start ET c) <= Index.max).
  { rewrite total_faces_start. lia. }
  assert (Hm0 : faces_match ET (faces_start ET c) ea fa eb fb = true).
  { rewrite (faces_match_mesh ET _ _ _ _ Hs). exact Hm. }
  assert (Hman0 : forall e f, face_valid ET (faces_start ET c) e f ->
            faces_match ET (faces_start ET c) ea fa e f = true ->
            (e = ea /\ f = fa) \/ (e = eb /\ f = fb)).
  { intros e f Hv H. rewrite (faces_match_mesh ET _ _ _ _ Hs) in H.
    apply Hman; [exact Hv|exact H]. }
  assert (Hstart : both_inv ET (faces_start ET c) ea fa eb fb (faces_start ET c) 0 0).
  { split; [apply (@pass1_start ET c Hc)|]. split.
    - intros [H|H]; exfalso; unfold passed in H.
      + destruct Hva as ((? & _) & (? & _)). lia.
      + destruct Hvb as ((? & _) & (? & _)). lia.
    - intros _ _. split; apply face_label_start; assumption. }
  pose proof (both_all_faces ET (faces_start ET c) (@faces_ok_start ET c Hc) Htot'
                (@adjacency_start ET c Hadj) ea fa eb fb Hva Hvb Hne Hm0
                (found_from_mesh ET _ _ _ _ _ Hs Hfab)
                (found_from_mesh ET _ _ _ _ _ Hs Hfba) Hman0 _ Hstart)
    as (_ & Hj).
  rewrite discover_faces_unfold, Hn.
  change (total_elems c) with (total_elems (faces_start ET c)).
  apply (pair_final ET (faces_start ET c) ea fa eb fb Hva _ Hj).
Qed.

End FacePairsSummary.


(** * Shared faces of a constructed [MeshConnectivity3D] *)

(** The input of the constructor is a mesh whose arrays can be allocated
    and whose vertices are vertex numbers, and the face tables of the
    catalog name local vertices. *)
Definition face_mesh_ok (ET : ElementTypes) (nverts ntets : Z) (tets : list Z)
  (nhex : Z) (hex : list Z) (nwedge : Z) (wedge : list Z) (npyrmd : Z)
  (pyrmd : list Z) : Prop :=
  face_sizes_ok ET ntets nhex nwedge npyrmd /\
  0 <= nverts < Index.max /\
  verts_ok ET (alloc_conn ET nverts ntets tets nhex hex nwedge wedge npyrmd pyrmd) /\
  face_tables_ok ET /\
  Z.of_nat (length (vert_items ET
    (alloc_conn ET nverts ntets tets nhex hex nwedge wedge npyrmd pyrmd)))
    <= Index.max /\
  valid_vertices ET
    (alloc_conn ET nverts ntets tets nhex hex nwedge wedge npyrmd pyrmd).

Section TupleRings.

Variable ET : ElementTypes.

(** Two faces with the same sorted vertices list the same ring. *)
Lemma tuple_same_ring c ea fa eb fb :
  faces_ok ET c -> face_valid ET c ea fa -> face_valid ET c eb fb ->
  face_arity ET c ea fa = face_arity ET c eb fb ->
  face_tuple ET c ea fa = face_tuple ET c eb fb ->
  same_ring (face_ring ET c ea fa) (face_ring ET c eb fb).
Proof.
  intros Hok Ha Hb Ear Etu.
  destruct (face_sorted_ring ET c ea fa Hok Ha) as (L1 & A1 & G1).
  destruct (face_sorted_ring ET c eb fb Hok Hb) as (L2 & A2 & G2).
  rewrite (face_tuple_ring ET c ea fa Hok Ha),
    (face_tuple_ring ET c eb fb Hok Hb) in Etu.
  assert (Hu : (4 <= length (uninit 4))%nat) by (simpl; lia).
  pose proof (sort_in_ring (face_ring ET c ea fa) (uninit 4) L1 Hu) as R1.
  pose proof (sort_in_ring (face_ring ET c eb fb) (uninit 4) L2 Hu) as R2.
  rewrite <- Etu in R2.
  apply (same_ring_common _ _ _ L1 R1 R2).
Qed.

Lemma face_ring_mesh c c' e f :
  same_mesh c c' -> face_ring ET c' e f = face_ring ET c e f.
Proof.
  intros H. unfold face_ring. now rewrite (get_element_face_verts_mesh ET _ _ _ H).
Qed.

End TupleRings.

Section MeshSharedFaces.

Variable ET : ElementTypes.
Variables nv nt nh nw np : Z.
Variables tets hex wedge pyrmd : list Z.
Hypothesis Hok : face_mesh_ok ET nv nt tets nh hex nw wedge np pyrmd.

(** The states of the object between the phases of the constructor *)
Variables a0 ca c0 c1 c2 m : Conn.
Hypothesis Ha0 : a0 = alloc_conn ET nv nt tets nh hex nw wedge np pyrmd.
Hypothesis Hca : ca = init_vert_element_data ET a0.
Hypothesis Hc0 : c0 = faces_start ET ca.
Hypothesis Hc1 : c1 = discover_faces ET ca.
Hypothesis Hc2 : c2 = record_faces ET c1.
Hypothesis Hm : m = init_edge_data ET c2.

Lemma ms_ca : ca = init_vert_element_data ET
  (alloc_conn ET nv nt tets nh hex nw wedge np pyrmd).
Proof. rewrite Hca, Ha0. reflexivity. Qed.

Lemma ms_faces_ok : faces_ok ET ca.
Proof.
  destruct Hok as (Hsz & _).
  apply (ca_faces_ok ET nv nt nh nw np tets hex wedge pyrmd Hsz ca ms_ca).
Qed.

Lemma ms_nelems : nelems ca = total_elems ca.
Proof.
  destruct Hok as (Hsz & _).
  apply (ca_nelems ET nv nt nh nw np tets hex wedge pyrmd Hsz ca ms_ca).
Qed.

Lemma ms_total : 2 * total_faces ET ca <= Index.max.
Proof.
  destruct Hok as (Hsz & _).
  apply (ca_total_faces ET nv nt nh nw np tets hex wedge pyrmd Hsz ca ms_ca).
Qed.

Lemma ms_nonneg : adjacency_nonneg ca.
Proof. apply (ca_adjacency ET nv nt nh nw np tets hex wedge pyrmd ca ms_ca). Qed.

Lemma ms_mesh : same_mesh ca m.
Proof.
  apply same_mesh_trans with c0.
  - rewrite Hc0. apply same_mesh_start.
  - apply (mfd_mesh ET ca ms_faces_ok ms_nelems ms_total ms_nonneg
             c0 c1 c2 m Hc0 Hc1 Hc2 Hm).
Qed.

Lemma ms_valid e f : face_valid ET m e f <-> face_valid ET ca e f.
Proof. apply face_valid_counts, same_mesh_counts, ms_mesh. Qed.

Lemma ms_verts_ok : verts_ok ET ca.
Proof.
  destruct Hok as (_ & _ & Hv & _). rewrite <- Ha0 in Hv.
  pose proof (frame_init_vert_element_data ET a0) as F. rewrite <- Hca in F.
  destruct (frame_adjacency_same F) as ((E1 & E2 & E3 & E4) & _).
  unfold verts_ok, blocks_ok, counts_ok in *. now rewrite E1, E2, E3, E4.
Qed.

Lemma ms_complete : adjacency_complete ET ca.
Proof.
  destruct Hok as (_ & Hnv & _ & _ & Hlen & Hvv).
  rewrite <- Ha0 in Hlen, Hvv.
  assert (Hnv0 : 0 <= nverts a0 < Index.max) by (rewrite Ha0; exact Hnv).
  apply (adjacency_complete_init ET a0 ca Hca Hnv0 Hvv Hlen).
Qed.

(** Two faces of different elements that list the same ring of distinct
    vertices, when no third face lists it, carry the same global index. *)
Lemma ms_shared ea fa eb fb :
  face_valid ET m ea fa -> face_valid ET m eb fb -> ea <> eb ->
  NoDup (face_ring ET m ea fa) ->
  same_ring (face_ring ET m ea fa) (face_ring ET m eb fb) ->
  (forall e f, face_valid ET m e f ->
     same_ring (face_ring ET m ea fa) (face_ring ET m e f) ->
     (e = ea /\ f = fa) \/ (e = eb /\ f = fb)) ->
  face_label ET m ea fa = face_label ET m eb fb.
Proof.
  intros Hva Hvb Hne Hnd Hr Hman.
  pose proof ms_faces_ok as Hf. pose proof ms_mesh as Hmesh.
  pose proof (proj1 (ms_valid _ _) Hva) as Hva'.
  pose proof (proj1 (ms_valid _ _) Hvb) as Hvb'.
  rewrite (face_ring_mesh ET ca m ea fa Hmesh) in Hnd, Hr.
  rewrite (face_ring_mesh ET ca m eb fb Hmesh) in Hr.
  assert (Hmatch : faces_match ET ca ea fa eb fb = true).
  { apply same_ring_match; assumption. }
  assert (Hmatch' : faces_match ET ca eb fb ea fa = true).
  { rewrite faces_match_sym. exact Hmatch. }
  pose proof Hok as (_ & _ & _ & Htab & _).
  assert (Hl1 : face_label ET c1 ea fa = face_label ET c1 eb fb).
  { rewrite Hc1.
    apply (discover_faces_pair ET ca Hf ms_nelems ms_total ms_nonneg
             ea fa eb fb Hva' Hvb' Hne Hmatch).
    - apply (match_found_from ET ca ea fa eb fb); auto using ms_verts_ok,
        ms_nelems, ms_complete.
    - apply (match_found_from ET ca eb fb ea fa); auto using ms_verts_ok,
        ms_nelems, ms_complete.
    - intros e f Hv Hfm. apply Hman; [apply ms_valid; exact Hv|].
      rewrite (face_ring_mesh ET ca m ea fa Hmesh),
        (face_ring_mesh ET ca m e f Hmesh).
      apply match_same_ring; assumption. }
  pose proof (faces_match_arity ET ca _ _ _ _ Hmatch) as Har.
  rewrite <- !(face_arity_mesh ET _ _ Hmesh) in Har.
  destruct (mfd_partition ET ca Hf ms_nelems ms_total ms_nonneg c0 c1 c2 m
              Hc0 Hc1 Hc2 Hm ea fa Hva) as [(A1 & _ & E1)|(A1 & _ & E1 & _)];
    destruct (mfd_partition ET ca Hf ms_nelems ms_total ms_nonneg c0 c1 c2 m
                Hc0 Hc1 Hc2 Hm eb fb Hvb) as [(A2 & _ & E2)|(A2 & _ & E2 & _)];
    try lia.
Qed.

End MeshSharedFaces.

Section SharedFaceTheorems.

Variable ET : ElementTypes.
Variables nverts ntets nhex nwedge npyrmd : Z.
Variables tets hex wedge pyrmd : list Z.

Local Abbreviation mesh :=
  (MeshConnectivity3D ET nverts ntets tets nhex hex nwedge wedge npyrmd pyrmd).

Ltac phases Hsz :=
  rewrite ?mesh_phases in *;
  remember (init_vert_element_data ET
              (alloc_conn ET nverts ntets tets nhex hex nwedge wedge npyrmd pyrmd))
    as ca eqn:Hca;
  remember (faces_start ET ca) as c0 eqn:Hc0;
  remember (discover_faces ET ca) as c1 eqn:Hc1;
  remember (record_faces ET c1) as c2 eqn:Hc2;
  remember (init_edge_data ET c2) as m eqn:Hm;
  pose proof (ca_faces_ok ET nverts ntets nhex nwedge npyrmd tets hex wedge pyrmd
                Hsz ca Hca) as Hok;
  pose proof (ca_nelems ET nverts ntets nhex nwedge npyrmd tets hex wedge pyrmd
                Hsz ca Hca) as Hne;
  pose proof (ca_total_faces ET nverts ntets nhex nwedge npyrmd tets hex wedge pyrmd
                Hsz ca Hca) as Htf;
  pose proof (ca_adjacency ET nverts ntets nhex nwedge npyrmd tets hex wedge pyrmd
                ca Hca) as Hadj.

(** C4.  Two faces share a physical face when their vertex lists, taken in
    each element's own local order, are the same ring of distinct vertices
    (the same cycle from any starting vertex, in either direction).  For
    two such faces [(e_a, f_a)] and [(e_b, f_b)] of a constructed mesh
    [get_element_global_face_verts] returns the same number of vertices and
    writes the same vertices in the same positions, whatever arrays the two
    callers pass. *)
Theorem shared_face_same_tuple :
  face_sizes_ok ET ntets nhex nwedge npyrmd ->
  forall e_a f_a e_b f_b va vb,
    face_valid ET mesh e_a f_a -> face_valid ET mesh e_b f_b ->
    NoDup (face_ring ET mesh e_a f_a) ->
    same_ring (face_ring ET mesh e_a f_a) (face_ring ET mesh e_b f_b) ->
    (4 <= length va)%nat -> (4 <= length vb)%nat ->
    fst (get_element_global_face_verts ET mesh e_a f_a va)
    = fst (get_element_global_face_verts ET mesh e_b f_b vb) /\
    firstn (Z.to_nat (fst (get_element_global_face_verts ET mesh e_a f_a va)))
      (snd (get_element_global_face_verts ET mesh e_a f_a va))
    = firstn (Z.to_nat (fst (get_element_global_face_verts ET mesh e_b f_b vb)))
        (snd (get_element_global_face_verts ET mesh e_b f_b vb)).
Proof.
  intros Hsz e_a f_a e_b f_b va vb Ha Hb Hnd Hr La Lb. phases Hsz.
  assert (Hmesh : same_mesh ca m).
  { apply same_mesh_trans with c0.
    - rewrite Hc0. apply same_mesh_start.
    - apply (mfd_mesh ET ca Hok Hne Htf Hadj c0 c1 c2 m Hc0 Hc1 Hc2 Hm). }
  assert (Hokm : faces_ok ET m).
  { apply (@faces_ok_counts ET ca m); [apply same_mesh_counts, Hmesh|exact Hok]. }
  apply same_ring_same_tuple; assumption.
Qed.

(** C2.  For a global face index [F < nfaces] of a constructed mesh,
    [get_face_elements] returns the two stored entries of the face and the
    flag that tells whether the second one is [NO_LABEL]; the first entry
    is an element below [nelems] that has a local face with the index [F].
    A face is shared by two elements when local faces of two different
    elements list the same ring of distinct vertices and no third local
    face lists it: then both local faces carry the same index, the two
    entries are these two elements, both below [nelems], and the flag is
    false.  A face is incident to one element only when every local face
    that lists its ring belongs to that element: then the entries are that
    element and [NO_LABEL], and the flag is true. *)
Theorem face_elements_classification :
  face_mesh_ok ET nverts ntets tets nhex hex nwedge wedge npyrmd pyrmd ->
  forall F, 0 <= F < nfaces mesh ->
  exists e1 e2,
    get_face_elements mesh F = (e2 =? NO_LABEL, e1, e2) /\
    e2 = face_second_owner mesh F /\
    has_face ET mesh e1 F /\ 0 <= e1 < nelems mesh /\
    (forall e f e' f',
       face_valid ET mesh e f -> face_label ET mesh e f = F ->
       face_valid ET mesh e' f' -> e <> e' ->
       NoDup (face_ring ET mesh e f) ->
       same_ring (face_ring ET mesh e f) (face_ring ET mesh e' f') ->
       (forall e'' f'', face_valid ET mesh e'' f'' ->
          same_ring (face_ring ET mesh e f) (face_ring ET mesh e'' f'') ->
          (e'' = e /\ f'' = f) \/ (e'' = e' /\ f'' = f')) ->
       face_label ET mesh e' f' = F /\
       (e2 =? NO_LABEL) = false /\ e1 <> e2 /\ 0 <= e2 < nelems mesh /\
       ((e1 = e /\ e2 = e') \/ (e1 = e' /\ e2 = e))) /\
    (forall e f,
       face_valid ET mesh e f -> face_label ET mesh e f = F ->
       (forall e' f', face_valid ET mesh e' f' ->
          same_ring (face_ring ET mesh e f) (face_ring ET mesh e' f') ->
          e' = e) ->
       e1 = e /\ e2 = NO_LABEL /\ (e2 =? NO_LABEL) = true).
Proof.
  intros Hfm F HF. pose proof Hfm as (Hsz & _). phases Hsz.
  remember (alloc_conn ET nverts ntets tets nhex hex nwedge wedge npyrmd pyrmd)
    as a0 eqn:Ha0.
  destruct (mfd_face_elements ET ca Hok Hne Htf Hadj c0 c1 c2 m Hc0 Hc1 Hc2 Hm F HF)
    as (e1 & e2 & G & S & H1 & H2 & H3).
  pose proof (mfd_valid_elem ET ca Hok Hne Htf Hadj c0 c1 c2 m Hc0 Hc1 Hc2 Hm) as Hve.
  pose proof (ms_mesh ET nverts ntets nhex nwedge npyrmd tets hex wedge pyrmd Hfm
                a0 ca c0 c1 c2 m Ha0 Hca Hc0 Hc1 Hc2 Hm) as Hmesh.
  assert (Hokm : faces_ok ET m).
  { apply (@faces_ok_counts ET ca m); [apply same_mesh_counts, Hmesh|exact Hok]. }
  assert (Hring : forall e f x g, face_valid ET m e f -> face_valid ET m x g ->
            face_label ET m e f = face_label ET m x g ->
            same_ring (face_ring ET m e f) (face_ring ET m x g)).
  { intros e f x g Hv Hx E.
    destruct (mfd_same_face ET ca Hok Hne Htf Hadj c0 c1 c2 m Hc0 Hc1 Hc2 Hm
                e f x g Hv Hx E) as (Ea & Et & _).
    apply tuple_same_ring; assumption. }
  exists e1, e2. split; [exact G|]. split; [exact S|]. split; [exact H1|].
  split; [apply (Hve e1 F H1)|]. split.
  - intros e f e' f' Hv Hl Hv' Hd Hnd Hr Hman.
    assert (El : face_label ET m e f = face_label ET m e' f').
    { apply (ms_shared ET nverts ntets nhex nwedge npyrmd tets hex wedge pyrmd Hfm
               a0 ca c0 c1 c2 m Ha0 Hca Hc0 Hc1 Hc2 Hm e f e' f');
        assumption. }
    assert (He : has_face ET m e F) by (exists f; split; assumption).
    assert (He' : has_face ET m e' F).
    { exists f'. split; [exact Hv'|]. rewrite <- El. exact Hl. }
    split; [rewrite <- El; exact Hl|].
    assert (Hn2 : e2 <> NO_LABEL).
    { intros E. destruct (H3 e He) as [X|X], (H3 e' He') as [Y|Y]; try congruence.
      + apply (proj2 (Hve e' F He')). congruence.
      + apply (proj2 (Hve e F He)). congruence. }
    destruct (H2 Hn2) as (K1 & K2).
    split; [now apply Z.eqb_neq|]. split; [congruence|].
    split; [apply (Hve e2 F K1)|].
    destruct (H3 e He) as [X|X], (H3 e' He') as [Y|Y]; try congruence; auto.
  - intros e f Hv Hl Hu.
    assert (Hall : forall x, has_face ET m x F -> x = e).
    { intros x (g & Hx & Hg). apply (Hu x g Hx).
      apply Hring; [exact Hv|exact Hx|]. rewrite Hl, Hg. reflexivity. }
    assert (E1 : e1 = e) by (apply Hall; exact H1).
    assert (E2 : e2 = NO_LABEL).
    { destruct (Z.eq_dec e2 NO_LABEL) as [E|E]; auto. exfalso.
      destruct (H2 E) as (K1 & K2). apply K2. rewrite E1. apply Hall. exact K1. }
    split; auto. split; auto. now apply Z.eqb_eq.
Qed.

End SharedFaceTheorems.

(** ** The shared face of two tetrahedra and of two hexahedra *)

Lemma sample_face_tables : face_tables_ok sample_catalog.
Proof.
  unfold face_tables_ok. simpl.
  split; [|split; [|split; [|split; [|split; [|split]]]]].
  - intros f k Hf Hk. by_cases k Hk; by_cases f Hf;
      (vm_compute; split; [refute|reflexivity]).
  - intros f k Hf Hk. by_cases k Hk; by_cases f Hf;
      (vm_compute; split; [refute|reflexivity]).
  - lia.
  - intros f k Hf Hk. by_cases k Hk; by_cases f Hf;
      (vm_compute; split; [refute|reflexivity]).
  - intros g k Hg Hk. by_cases k Hk; by_cases g Hg;
      (vm_compute; split; [refute|reflexivity]).
  - intros f k Hf Hk. by_cases k Hk; by_cases f Hf;
      (vm_compute; split; [refute|reflexivity]).
  - intros k Hk. by_cases k Hk; (vm_compute; split; [refute|reflexivity]).
Qed.

Lemma two_tets_faces_ok :
  face_mesh_ok sample_catalog 5 2 [0;1;2;3; 1;2;3;4] 0 [] 0 [] 0 [].
Proof.
  destruct two_tets_ok as (H1 & H2 & H3 & _ & _ & _ & H7 & H8 & _).
  unfold face_mesh_ok. split; [exact H1|]. split; [exact H2|].
  split; [exact H3|]. split; [exact sample_face_tables|].
  split; [exact H7|exact H8].
Qed.

Fixpoint distinctb (l : list Z) : bool :=
  match l with
  | [] => true
  | x :: t => negb (existsb (Z.eqb x) t) && distinctb t
  end.

Lemma nodup_check (l : list Z) : distinctb l = true -> NoDup l.
Proof.
  induction l as [|x t IH]; simpl; intros H; [constructor|].
  apply andb_true_iff in H. destruct H as (H1 & H2).
  constructor; [|apply IH, H2].
  intros Hin. apply negb_true_iff in H1.
  assert (E : existsb (Z.eqb x) t = true).
  { apply existsb_exists. exists x. split; [exact Hin|apply Z.eqb_refl]. }
  congruence.
Qed.

(** In the two tetrahedra only face 3 of the second lists the ring of
    face 0 of the first. *)
Lemma two_tets_one_partner e f :
  face_valid sample_catalog two_tets e f ->
  same_ring (face_ring sample_catalog two_tets 0 0)
            (face_ring sample_catalog two_tets e f) ->
  (e = 0 /\ f = 0) \/ (e = 1 /\ f = 3).
Proof.
  intros (He & Hf) Hs.
  assert (Et : total_elems two_tets = 2) by (vm_compute; reflexivity).
  rewrite Et in He.
  assert (Ef : forall x, 0 <= x < 2 -> num_faces sample_catalog two_tets x = 4).
  { intros x Hx. by_cases x Hx; vm_compute; reflexivity. }
  rewrite <- num_faces_block, (Ef e He) in Hf.
  assert (Ce : e = 0 \/ e = 1) by lia.
  assert (Cf : f = 0 \/ f = 1 \/ f = 2 \/ f = 3) by lia.
  clear He Hf Ef Et.
  destruct Ce as [->| ->]; destruct Cf as [->|[->|[->| ->]]];
    first [ left; split; reflexivity
          | right; split; reflexivity
          | exfalso; apply same_ringb_spec in Hs; vm_compute in Hs;
            discriminate Hs ].
Qed.

(** C2 at the two tetrahedra: face 0 is shared by the two elements. *)
Lemma face_elements_classification_witness :
  face_mesh_ok sample_catalog 5 2 [0;1;2;3; 1;2;3;4] 0 [] 0 [] 0 [] /\
  0 <= 0 < nfaces two_tets /\
  exists e1 e2,
    get_face_elements two_tets 0 = (e2 =? NO_LABEL, e1, e2) /\
    (e2 =? NO_LABEL) = false /\
    ((e1 = 0 /\ e2 = 1) \/ (e1 = 1 /\ e2 = 0)).
Proof.
  assert (H : face_mesh_ok sample_catalog 5 2 [0;1;2;3; 1;2;3;4] 0 [] 0 [] 0 [])
    by exact two_tets_faces_ok.
  assert (HF : 0 <= 0 < nfaces two_tets) by numerals.
  assert (Ha : face_valid sample_catalog two_tets 0 0) by (split; numerals).
  assert (Hb : face_valid sample_catalog two_tets 1 3) by (split; numerals).
  assert (Hl : face_label sample_catalog two_tets 0 0 = 0) by numerals.
  assert (Hd : 0 <> 1) by lia.
  assert (Hnd : NoDup (face_ring sample_catalog two_tets 0 0)).
  { apply nodup_check. vm_compute. reflexivity. }
  assert (Hr : same_ring (face_ring sample_catalog two_tets 0 0)
                         (face_ring sample_catalog two_tets 1 3)).
  { apply (proj1 (same_ringb_spec _ _)). vm_compute. reflexivity. }
  split; [exact H|]. split; [exact HF|].
  destruct (face_elements_classification sample_catalog 5 2 0 0 0
              [0;1;2;3; 1;2;3;4] [] [] [] H 0 HF)
    as (e1 & e2 & G & _ & _ & _ & Hshared & _).
  destruct (Hshared 0 0 1 3 Ha Hl Hb Hd Hnd Hr two_tets_one_partner)
    as (_ & Hflag & _ & _ & Hpair).
  exists e1, e2. split; [exact G|]. split; [exact Hflag|exact Hpair].
Defined.

(** Two hexahedra: face 1 of the first, of the vertices 1, 2, 6 and 5, is
    face 0 of the second, which lists them as 1, 5, 6 and 2. *)
Abbreviation two_hexes :=
  (MeshConnectivity3D sample_catalog 12 0 [] 2
     [0;1;2;3;4;5;6;7; 1;8;9;2;5;11;10;6] 0 [] 0 []).

Lemma two_hexes_sizes : face_sizes_ok sample_catalog 0 2 0 0.
Proof.
  unfold face_sizes_ok. simpl TET_FACES; simpl HEX_FACES;
    simpl WEDGE_FACES; simpl PYRMD_FACES.
  unfold Index.max. rewrite Index.modulus_eq. lia.
Qed.

(** C4 at the two hexahedra *)
Lemma shared_face_same_tuple_witness :
  face_sizes_ok sample_catalog 0 2 0 0 /\
  NoDup (face_ring sample_catalog two_hexes 0 1) /\
  same_ring (face_ring sample_catalog two_hexes 0 1)
            (face_ring sample_catalog two_hexes 1 0) /\
  firstn (Z.to_nat (fst (get_element_global_face_verts sample_catalog two_hexes
                           0 1 (uninit 4))))
    (snd (get_element_global_face_verts sample_catalog two_hexes 0 1 (uninit 4)))
  = firstn (Z.to_nat (fst (get_element_global_face_verts sample_catalog two_hexes
                             1 0 (uninit 4))))
      (snd (get_element_global_face_verts sample_catalog two_hexes 1 0 (uninit 4))).
Proof.
  assert (H : face_sizes_ok sample_catalog 0 2 0 0) by exact two_hexes_sizes.
  assert (Ha : face_valid sample_catalog two_hexes 0 1) by (split; numerals).
  assert (Hb : face_valid sample_catalog two_hexes 1 0) by (split; numerals).
  assert (Hnd : NoDup (face_ring sample_catalog two_hexes 0 1)).
  { apply nodup_check. vm_compute. reflexivity. }
  assert (Hr : same_ring (face_ring sample_catalog two_hexes 0 1)
                         (face_ring sample_catalog two_hexes 1 0)).
  { apply (proj1 (same_ringb_spec _ _)). vm_compute. reflexivity. }
  assert (L : (4 <= length (uninit 4))%nat) by (vm_compute; constructor).
  split; [exact H|]. split; [exact Hnd|]. split; [exact Hr|].
  exact (proj2 (shared_face_same_tuple sample_catalog 12 0 2 0 0
                  [] [0;1;2;3;4;5;6;7; 1;8;9;2;5;11;10;6] [] [] H
                  0 1 1 0 (uninit 4) (uninit 4) Ha Hb Hnd Hr L L)).
Defined.
